(** * A sequential model of the lock-crabbing B+tree (tree/lock_crabbing.h)

    The nodes of the tree, the traversal context with its latches, the
    tree facade and the iterator are embedded as state-passing functions.
    One thread runs at a time: an operation is a function from the state
    before the call to the state after it.

    Conventions of the embedding.
    - [keys_], [values_] and [child_] are C arrays with a separate
      [size_]; the model keeps the populated prefix as a list, so
      [Size()] is the length of that list.
    - A node lives at an address ([new] hands out the next free one); a
      right-sibling pointer and a latch pointer are addresses.  The tree
      owns its nodes, so a node value contains its children.
    - Keys and values are the [int] of the test-suite, taken as [Z].
    - [assert]s are compiled out; the fields of [QueryContext] that exist
      only under the NDEBUG guard serve those assertions and are left out. *)

From Stdlib Require Import ZArith Lia ZifyNat.
From stdpp Require Import list strings pretty sorting gmap.

Open Scope Z_scope.
Open Scope nat_scope.

(** ** common/constants.h, common/macros.h *)

Inductive SharedLockType := NONE | SHARE | EXCLUSIVE.

Definition OVERFLOW_SIZE : nat := 1.

Definition UNDERFLOW_BOUND (N : nat) : nat := (N + 1) / 2.

(** ** Mutexes and the allocator

    A [std::shared_mutex] is named by its owner: the tree, or the node at
    an address.  The calls made on mutexes are recorded in order. *)

Inductive Latch := tree_latch_ | latch_ (addr : nat).

Inductive MutexCall :=
  | lock_shared (l : Latch)
  | lock (l : Latch)
  | try_lock_shared (l : Latch)
  | unlock_shared (l : Latch)
  | unlock (l : Latch)
  | throw_invalid_argument.

Record QueryContext := mkContext {
  smallest_unlk_idx_ : Z;
  latches_ : list Latch
}.

Record State := mkState {
  context : QueryContext;     (* the QueryContext the caller passes around *)
  heap_next : nat;            (* the address the next [new] returns *)
  heap_freed : list nat;      (* addresses handed to [delete], oldest first *)
  mutex_log : list MutexCall  (* calls on mutexes, oldest first *)
}.

Definition set_context (c : QueryContext) (st : State) : State :=
  mkState c (heap_next st) (heap_freed st) (mutex_log st).

Definition log_calls (cs : list MutexCall) (st : State) : State :=
  mkState (context st) (heap_next st) (heap_freed st) (mutex_log st ++ cs).

Definition alloc (st : State) : nat * State :=
  (heap_next st,
   mkState (context st) (S (heap_next st)) (heap_freed st) (mutex_log st)).

Definition free (addrs : list nat) (st : State) : State :=
  mkState (context st) (heap_next st) (heap_freed st ++ addrs) (mutex_log st).

(** ** QueryContext *)

(** The indices are [short] in the source. *)
Definition to_short (z : Z) : Z := ((z + 32768) mod 65536 - 32768)%Z.

Definition latch_at (ls : list Latch) (idx : Z) : option Latch :=
  if (idx <? 0)%Z then None else ls !! Z.to_nat idx.

Definition QueryContext_Clear (st : State) : State :=
  set_context (mkContext 0 []) st.

Definition AcquireLatch (latch : Latch) (latch_type : SharedLockType)
    (st : State) : Z * State :=
  let calls := match latch_type with
               | SHARE => [lock_shared latch]
               | EXCLUSIVE => [lock latch]
               | NONE => []
               end in
  let c := context st in
  let ls := latches_ c ++ [latch] in
  ((Z.of_nat (length ls) - 1)%Z,
   log_calls calls (set_context (mkContext (smallest_unlk_idx_ c) ls) st)).

(** One [unlock] per slot; a slot outside the vector is undefined in the
    source and records nothing here. *)
Definition unlock_call (latch_type : SharedLockType) (l : option Latch)
    : list MutexCall :=
  match latch_type, l with
  | SHARE, Some l => [unlock_shared l]
  | EXCLUSIVE, Some l => [unlock l]
  | NONE, _ => [throw_invalid_argument]
  | _, None => []
  end.

Definition unlock_range (latch_type : SharedLockType) (ls : list Latch)
    (from upto : Z) : list MutexCall :=
  match latch_type with
  | NONE => if (from <? upto)%Z then [throw_invalid_argument] else []
  | _ => concat ((λ idx, unlock_call latch_type (latch_at ls idx))
                   <$> seqZ from (upto - from))
  end.

Definition ReplaceLatch (idx : Z) (latch : Latch) (latch_type : SharedLockType)
    (st : State) : State :=
  let idx := to_short idx in
  let c := context st in
  match latch_type with
  | NONE => log_calls [throw_invalid_argument] st
  | _ =>
    log_calls (unlock_call latch_type (latch_at (latches_ c) idx))
      (set_context
         (mkContext (smallest_unlk_idx_ c)
            (if (idx <? 0)%Z then latches_ c
             else <[Z.to_nat idx := latch]> (latches_ c))) st)
  end.

Definition ReleaseLatch (upto_idx : Z) (latch_type : SharedLockType)
    (st : State) : State :=
  let upto_idx := to_short upto_idx in
  let c := context st in
  if (smallest_unlk_idx_ c >=? upto_idx)%Z then st
  else
    let calls := unlock_range latch_type (latches_ c) (smallest_unlk_idx_ c) upto_idx in
    match latch_type with
    | NONE => log_calls calls st
    | _ => log_calls calls (set_context (mkContext upto_idx (latches_ c)) st)
    end.

Definition ReleaseLatchFromParent (parent_depth : Z) (latch_type : SharedLockType)
    (st : State) : State :=
  let parent_depth := to_short parent_depth in
  let c := context st in
  let size := Z.of_nat (length (latches_ c)) in
  let calls := unlock_range latch_type (latches_ c) parent_depth size in
  match latch_type with
  | NONE => if (parent_depth <? size)%Z then log_calls calls st
            else set_context (mkContext (to_short size) (latches_ c)) st
  | _ => log_calls calls (set_context (mkContext (to_short size) (latches_ c)) st)
  end.

(** ** std::lower_bound, by bisection over [a[0 .. last)] *)

Fixpoint lower_bound_loop (fuel : nat) (a : list Z) (first len : nat) (val : Z)
    : nat :=
  match fuel with
  | O => first
  | S fuel' =>
    if len =? 0 then first
    else
      let half := len / 2 in
      let middle := first + half in
      match a !! middle with
      | Some x =>
        if (x <? val)%Z
        then lower_bound_loop fuel' a (middle + 1) (len - half - 1) val
        else lower_bound_loop fuel' a first half val
      | None => first
      end
  end.

Definition lower_bound (a : list Z) (last : nat) (val : Z) : nat :=
  lower_bound_loop last a 0 last val.

(** ** Nodes *)

Record LeafNode := mkLeaf {
  leaf_addr : nat;
  leaf_keys_ : list Z;
  leaf_values_ : list Z;
  leaf_right_sibl_ : option nat
}.

#[warnings="-register-all"]
Inductive Node :=
  | Leaf (this : LeafNode)
  | Internal (addr : nat) (keys_ : list Z) (child_ : list Node)
             (right_sibl_ : option nat).

Inductive NodeType := LEAF | INTERNAL.

Definition Node_Type (n : Node) : NodeType :=
  match n with Leaf _ => LEAF | Internal _ _ _ _ => INTERNAL end.

Definition node_addr (n : Node) : nat :=
  match n with Leaf l => leaf_addr l | Internal a _ _ _ => a end.

Definition Node_Size (n : Node) : nat :=
  match n with
  | Leaf l => length (leaf_keys_ l)
  | Internal _ _ cs _ => length cs
  end.

(** [GetKey(offset)]; a slot that was never written reads as 0. *)
Definition Node_GetKey (n : Node) (offset : nat) : Z :=
  match n with
  | Leaf l => default 0%Z (leaf_keys_ l !! offset)
  | Internal _ ks _ _ => default 0%Z (ks !! offset)
  end.

Definition LEFTMOST_KEY (n : Node) : Z := Node_GetKey n 0.
Definition RIGHTMOST_KEY (n : Node) : Z := Node_GetKey n (Node_Size n - 1).

(** [child_[idx]->f(...)]: the call [f] on the child in slot [idx], when
    that slot is populated. *)
Definition at_child {R : Type} (f : Node → R) : list Node → nat → option R :=
  fix call (children : list Node) (idx : nat) {struct children} :=
    match children, idx with
    | [], _ => None
    | target :: _, O => Some (f target)
    | _ :: children', S idx' => call children' idx'
    end.

Record Split := mkSplit {
  boundary_key : Z;
  right : Node
}.

(** Result of [Insert]: the node after the call, and the split descriptor
    when the call returns true ([split.left] is the node itself). *)
Record InsertRet := mkInsertRet {
  ins_node : Node;
  ins_split : option Split;
  ins_st : State
}.

(** Result of [Delete]: the return value, the node after the call and the
    [underflow] out-parameter. *)
Record DeleteRet := mkDeleteRet {
  del_found : bool;
  del_node : Node;
  del_underflow : bool;
  del_st : State
}.

Section Capacities.

Variable LeafCapacity : nat.
Variable InternalCapacity : nat.

(** ** LeafNode *)

Definition Leaf_Size (this : LeafNode) : nat := length (leaf_keys_ this).

Definition LeafNode_SearchKeyIndex (this : LeafNode) (key : Z) : bool * nat :=
  let index := lower_bound (leaf_keys_ this) (Leaf_Size this) key in
  (bool_decide (index < Leaf_Size this)
   && bool_decide (leaf_keys_ this !! index = Some key), index).

Definition LeafNode_DeleteIndex (this : LeafNode) (index : nat) : LeafNode * bool :=
  let this' := mkLeaf (leaf_addr this) (delete index (leaf_keys_ this))
                      (delete index (leaf_values_ this)) (leaf_right_sibl_ this) in
  (this', Leaf_Size this' <? UNDERFLOW_BOUND LeafCapacity).

Definition LeafNode_ShiftAndInsert (this : LeafNode) (key val : Z) (insert_pos : nat)
    : LeafNode :=
  mkLeaf (leaf_addr this)
         (take insert_pos (leaf_keys_ this) ++ key :: drop insert_pos (leaf_keys_ this))
         (take insert_pos (leaf_values_ this) ++ val :: drop insert_pos (leaf_values_ this))
         (leaf_right_sibl_ this).

(** Right-sibling constructor: clones [start_idx, Capacity). *)
Definition LeafNode_sibling (addr : nat) (keys values : list Z) (start_idx : nat)
    (right_sibling : option nat) : LeafNode :=
  mkLeaf addr (drop start_idx (take LeafCapacity keys))
         (drop start_idx (take LeafCapacity values)) right_sibling.

Definition LeafNode_GetEntry (this : LeafNode) (offset : nat) (key value : Z)
    : bool * Z * Z :=
  match leaf_keys_ this !! offset with
  | Some k => (true, k, default 0%Z (leaf_values_ this !! offset))
  | None => (false, key, value)
  end.

Definition LeafNode_Insert (key val : Z) (this : LeafNode) (st : State) : InsertRet :=
  let '(depth, st) := AcquireLatch (latch_ (leaf_addr this)) EXCLUSIVE st in
  let st := if Leaf_Size this <? LeafCapacity
            then ReleaseLatch depth EXCLUSIVE st else st in
  let '(found, insert_pos) := LeafNode_SearchKeyIndex this key in
  if found then
    mkInsertRet
      (Leaf (mkLeaf (leaf_addr this) (leaf_keys_ this)
                    (<[insert_pos := val]> (leaf_values_ this))
                    (leaf_right_sibl_ this)))
      None (ReleaseLatch (depth + 1) EXCLUSIVE st)
  else if Leaf_Size this <? LeafCapacity then
    mkInsertRet (Leaf (LeafNode_ShiftAndInsert this key val insert_pos))
      None (ReleaseLatch (depth + 1) EXCLUSIVE st)
  else
    let boundary_idx := UNDERFLOW_BOUND (Leaf_Size this) in
    let '(new_addr, st) := alloc st in
    let new_sibling :=
      LeafNode_sibling new_addr (leaf_keys_ this) (leaf_values_ this)
                       boundary_idx (leaf_right_sibl_ this) in
    let this := mkLeaf (leaf_addr this) (take boundary_idx (leaf_keys_ this))
                       (take boundary_idx (leaf_values_ this)) (Some new_addr) in
    let '(this, new_sibling) :=
      if insert_pos <? boundary_idx
      then (LeafNode_ShiftAndInsert this key val insert_pos, new_sibling)
      else (this, LeafNode_ShiftAndInsert new_sibling key val
                    (insert_pos - boundary_idx)) in
    mkInsertRet (Leaf this)
      (Some (mkSplit (RIGHTMOST_KEY (Leaf this)) (Leaf new_sibling))) st.

Definition LeafNode_Search (key value : Z) (this : LeafNode) (st : State)
    : bool * Z * State :=
  let '(depth, st) := AcquireLatch (latch_ (leaf_addr this)) SHARE st in
  let st := ReleaseLatch depth SHARE st in
  let '(found, index) := LeafNode_SearchKeyIndex this key in
  let value := if found then default 0%Z (leaf_values_ this !! index) else value in
  (found, value, ReleaseLatch (depth + 1) SHARE st).

Definition LeafNode_Update (key value : Z) (this : LeafNode) (st : State)
    : bool * LeafNode * State :=
  let '(depth, st) := AcquireLatch (latch_ (leaf_addr this)) EXCLUSIVE st in
  let st := ReleaseLatch depth EXCLUSIVE st in
  let '(found, index) := LeafNode_SearchKeyIndex this key in
  let this := if found
              then mkLeaf (leaf_addr this) (leaf_keys_ this)
                          (<[index := value]> (leaf_values_ this))
                          (leaf_right_sibl_ this)
              else this in
  (found, this, ReleaseLatch (depth + 1) SHARE st).

Definition LeafNode_Delete (key : Z) (this : LeafNode) (st : State) : DeleteRet :=
  let '(depth, st) := AcquireLatch (latch_ (leaf_addr this)) EXCLUSIVE st in
  let st := if (Z.of_nat (Leaf_Size this) - 1 >=? Z.of_nat (UNDERFLOW_BOUND LeafCapacity))%Z
            then ReleaseLatch depth EXCLUSIVE st else st in
  let '(found, index) := LeafNode_SearchKeyIndex this key in
  let '(this, underflow) :=
    if found then LeafNode_DeleteIndex this index else (this, false) in
  let st := if negb underflow || negb found
            then ReleaseLatch (depth + 1) EXCLUSIVE st else st in
  mkDeleteRet found (Leaf this) underflow st.

(** [LocateKey] returns the leaf (as its address) and the position. *)
Definition LeafNode_LocateKey (key : Z) (this : LeafNode) (st : State)
    : bool * nat * nat * State :=
  let '(depth, st) := AcquireLatch (latch_ (leaf_addr this)) SHARE st in
  let st := ReleaseLatch depth SHARE st in
  let '(found, position) := LeafNode_SearchKeyIndex this key in
  (found, leaf_addr this, position, ReleaseLatch depth SHARE st).

(** [Balance] returns merged?, the two siblings after the call and the
    [boundary] in-out parameter. *)
Definition LeafNode_Balance (this right_sibling : LeafNode) (boundary : Z)
    : bool * LeafNode * LeafNode * Z :=
  if (Leaf_Size this <? UNDERFLOW_BOUND LeafCapacity)
     && (UNDERFLOW_BOUND LeafCapacity <? Leaf_Size right_sibling) then
    let boundary := LEFTMOST_KEY (Leaf right_sibling) in
    let this := LeafNode_ShiftAndInsert this
                  (default 0%Z (leaf_keys_ right_sibling !! 0))
                  (default 0%Z (leaf_values_ right_sibling !! 0))
                  (Leaf_Size this) in
    let '(right_sibling, _) := LeafNode_DeleteIndex right_sibling 0 in
    (false, this, right_sibling, boundary)
  else if (UNDERFLOW_BOUND LeafCapacity <? Leaf_Size this)
          && (Leaf_Size right_sibling <? UNDERFLOW_BOUND LeafCapacity) then
    let right_sibling := LeafNode_ShiftAndInsert right_sibling
                  (default 0%Z (leaf_keys_ this !! (Leaf_Size this - 1)))
                  (default 0%Z (leaf_values_ this !! (Leaf_Size this - 1)))
                  0 in
    let '(this, _) := LeafNode_DeleteIndex this (Leaf_Size this - 1) in
    (false, this, right_sibling, RIGHTMOST_KEY (Leaf this))
  else
    let this := mkLeaf (leaf_addr this)
                  (leaf_keys_ this ++ leaf_keys_ right_sibling)
                  (leaf_values_ this ++ leaf_values_ right_sibling)
                  (leaf_right_sibl_ right_sibling) in
    (true, this, right_sibling, RIGHTMOST_KEY (Leaf this)).

(** ** InternalNode *)

(** [std::lower_bound(keys_, keys_ + Size() - 1, key)] *)
Definition InternalNode_SearchChildIndex (keys : list Z) (size : nat) (key : Z) : nat :=
  lower_bound keys (size - 1) key.

(** No caller passes [insert_pos > Size()]; the source then leaves [keys_]
    alone while [Size()] grows, which reads as one more unwritten slot.

    The source moves [child_[insert_pos .. Size()]] one slot up, that is
    one slot more than the [Size()] children the node holds.  On a full
    node ([Size() == Capacity]) the last write of that move goes to
    [child_[Capacity + 1]], one past the end of the array, where the usual
    layout has [right_sibl_].  The model does not follow that write: the
    fourth field of [Internal] is the value that the constructors,
    [Insert] and [Balance] assign.  The source reads the [right_sibl_]
    of an internal node only to copy it ([RightSibling()] is called on
    leaves alone), and nothing below depends on that field. *)
Definition InternalNode_ShiftAndInsert (keys : list Z) (children : list Node)
    (key : Z) (child : Node) (insert_pos : nat) : list Z * list Node :=
  (if insert_pos <=? length children
   then take insert_pos keys ++ key :: drop insert_pos keys
   else keys ++ [0%Z],
   take insert_pos children ++ child :: drop insert_pos children).

Definition InternalNode_DeleteIndex (keys : list Z) (children : list Node)
    (index : nat) : list Z * list Node * bool :=
  let size := length children in
  let '(keys, children) :=
    if index <? size then (delete index keys, delete index children)
    else (take (size - 1) keys, take (size - 1) children) in
  (keys, children, length children <? UNDERFLOW_BOUND InternalCapacity).

(** [InternalNode(left_chld, right_chld, boundary_key)] *)
Definition InternalNode_new (addr : nat) (left_chld right_chld : Node)
    (boundary_key : Z) : Node :=
  Internal addr [boundary_key; RIGHTMOST_KEY right_chld] [left_chld; right_chld] None.

(** Right-sibling constructor: clones [start_idx, Capacity + OVERFLOW_SIZE). *)
Definition InternalNode_sibling (addr : nat) (keys : list Z) (children : list Node)
    (start_idx : nat) (right_sibling : option nat) : Node :=
  Internal addr
    (drop start_idx (take (InternalCapacity + OVERFLOW_SIZE) keys))
    (drop start_idx (take (InternalCapacity + OVERFLOW_SIZE) children))
    right_sibling.

(** [ClearChildArray]: every slot becomes [nullptr], and [delete] of a
    null pointer frees nothing; the model drops the slots. *)
Definition ClearChildArray (n : Node) : Node :=
  match n with
  | Internal a ks _ rs => Internal a ks [] rs
  | Leaf _ => n
  end.

(** [delete n]: the destructor of an internal node deletes the children
    its slots point to, then the node's own storage is released. *)
Fixpoint delete_node (n : Node) : list nat :=
  match n with
  | Leaf l => [leaf_addr l]
  | Internal a _ cs _ => concat (map delete_node cs) ++ [a]
  end.

(** The part of [InternalNode::Insert] after the call on the target child. *)
Definition InternalNode_Insert_return (a : nat) (ks : list Z) (cs : list Node)
    (rs : option nat) (depth : Z) (target_idx : nat) (r : InsertRet) : InsertRet :=
  let cs := <[target_idx := ins_node r]> cs in
  let st := ins_st r in
  match ins_split r with
  | None =>
    mkInsertRet (Internal a ks cs rs) None (ReleaseLatch (depth + 1) EXCLUSIVE st)
  | Some split =>
    let insert_pos := target_idx + 1 in
    (* std::swap(keys_[target_idx], split.boundary_key) *)
    let old_boundary := default 0%Z (ks !! target_idx) in
    let ks := <[target_idx := boundary_key split]> ks in
    let '(ks, cs) :=
      InternalNode_ShiftAndInsert ks cs old_boundary (right split) insert_pos in
    if length cs <=? InternalCapacity then
      mkInsertRet (Internal a ks cs rs) None
        (ReleaseLatchFromParent depth EXCLUSIVE st)
    else
      let boundary_idx := UNDERFLOW_BOUND (length cs) in
      let '(new_addr, st) := alloc st in
      let new_sibling := InternalNode_sibling new_addr ks cs boundary_idx rs in
      let this := Internal a (take boundary_idx ks) (take boundary_idx cs)
                           (Some new_addr) in
      mkInsertRet this
        (Some (mkSplit (default 0%Z (ks !! (boundary_idx - 1))) new_sibling)) st
  end.

(** [child_[target_idx]] outside the populated slots is undefined in the
    source; the model then leaves the node as it is. *)
Fixpoint Node_Insert (key val : Z) (n : Node) (st : State) {struct n} : InsertRet :=
  match n with
  | Leaf this => LeafNode_Insert key val this st
  | Internal a ks cs rs =>
    let '(depth, st) := AcquireLatch (latch_ a) EXCLUSIVE st in
    let st := if length cs <? InternalCapacity
              then ReleaseLatch depth EXCLUSIVE st else st in
    let target_idx := InternalNode_SearchChildIndex ks (length cs) key in
    match at_child (λ target, Node_Insert key val target st) cs target_idx with
    | Some r => InternalNode_Insert_return a ks cs rs depth target_idx r
    | None => mkInsertRet n None st
    end
  end.

Fixpoint Node_Search (key value : Z) (n : Node) (st : State) {struct n}
    : bool * Z * State :=
  match n with
  | Leaf this => LeafNode_Search key value this st
  | Internal a ks cs rs =>
    let '(depth, st) := AcquireLatch (latch_ a) SHARE st in
    let st := ReleaseLatch depth SHARE st in
    let target_idx := InternalNode_SearchChildIndex ks (length cs) key in
    match at_child (λ target, Node_Search key value target st) cs target_idx with
    | Some r => r
    | None => (false, value, st)
    end
  end.

(** [Update] returns found? and the node after the call. *)
Fixpoint Node_Update (key value : Z) (n : Node) (st : State) {struct n}
    : bool * Node * State :=
  match n with
  | Leaf this =>
    let '(found, this, st) := LeafNode_Update key value this st in
    (found, Leaf this, st)
  | Internal a ks cs rs =>
    let '(depth, st) := AcquireLatch (latch_ a) EXCLUSIVE st in
    let st := ReleaseLatch depth EXCLUSIVE st in
    let target_idx := InternalNode_SearchChildIndex ks (length cs) key in
    match at_child (λ target, Node_Update key value target st) cs target_idx with
    | Some (found, target, st) =>
      (found, Internal a ks (<[target_idx := target]> cs) rs, st)
    | None => (false, n, st)
    end
  end.

Fixpoint Node_LocateKey (key : Z) (n : Node) (st : State) {struct n}
    : bool * nat * nat * State :=
  match n with
  | Leaf this => LeafNode_LocateKey key this st
  | Internal a ks cs rs =>
    let '(depth, st) := AcquireLatch (latch_ a) SHARE st in
    let st := ReleaseLatch depth SHARE st in
    let target_idx := InternalNode_SearchChildIndex ks (length cs) key in
    match at_child (λ target, Node_LocateKey key target st) cs target_idx with
    | Some r => r
    | None => (false, a, 0, st)
    end
  end.

Definition InternalNode_Balance (a : nat) (ks : list Z) (cs : list Node)
    (ra : nat) (rks : list Z) (rcs : list Node) (rrs : option nat) (boundary : Z)
    : bool * Node * Node * Z :=
  (* this->right_sibl_ = right_sibling *)
  let rs := Some ra in
  let right_sibling := Internal ra rks rcs rrs in
  if (length cs <? UNDERFLOW_BOUND InternalCapacity)
     && (UNDERFLOW_BOUND InternalCapacity <? length rcs) then
    match rcs with
    | moved :: _ =>
      let cs := cs ++ [moved] in
      let ks := ks ++ [RIGHTMOST_KEY moved] in
      let boundary := RIGHTMOST_KEY moved in
      let '(rks, rcs, _) := InternalNode_DeleteIndex rks rcs 0 in
      (false, Internal a ks cs rs, Internal ra rks rcs rrs, boundary)
    | [] => (false, Internal a ks cs rs, right_sibling, boundary)
    end
  else if (UNDERFLOW_BOUND InternalCapacity <? length cs)
          && (length rcs <? UNDERFLOW_BOUND InternalCapacity) then
    match cs !! (length cs - 1) with
    | Some moved =>
      let '(rks, rcs) := InternalNode_ShiftAndInsert rks rcs boundary moved 0 in
      let this := Internal a (take (length cs - 1) ks) (take (length cs - 1) cs) rs in
      (false, this, Internal ra rks rcs rrs, RIGHTMOST_KEY this)
    | None => (false, Internal a ks cs rs, right_sibling, boundary)
    end
  else
    (* keys_[Size()] = boundary is overwritten by the copy that follows *)
    (true, Internal a (ks ++ rks) (cs ++ rcs) rrs, right_sibling, boundary).

(** [left->Balance(right, boundary)]; the cast of [right] to the type of
    [left] is undefined when the kinds differ, and the model then changes
    nothing. *)
Definition Node_Balance (left right_sibling : Node) (boundary : Z)
    : bool * Node * Node * Z :=
  match left, right_sibling with
  | Leaf l, Leaf r =>
    let '(merged, l, r, boundary) := LeafNode_Balance l r boundary in
    (merged, Leaf l, Leaf r, boundary)
  | Internal a ks cs _, Internal ra rks rcs rrs =>
    InternalNode_Balance a ks cs ra rks rcs rrs boundary
  | _, _ => (false, left, right_sibling, boundary)
  end.

(** The part of [InternalNode::Delete] after the call on the target child. *)
Definition InternalNode_Delete_return (a : nat) (ks : list Z) (cs : list Node)
    (rs : option nat) (depth : Z) (target_idx : nat) (r : DeleteRet) : DeleteRet :=
  let target := del_node r in
  let cs := <[target_idx := target]> cs in
  let st := del_st r in
  if negb (del_found r) || negb (del_underflow r) then
    mkDeleteRet (del_found r) (Internal a ks cs rs) (del_underflow r)
      (ReleaseLatch (depth + 1) EXCLUSIVE st)
  else if length cs <=? 1 then
    mkDeleteRet true (Internal a ks cs rs) true st
  else
    let boundary_idx := if 1 <=? target_idx then target_idx - 1 else target_idx in
    let sibl_index := if 1 <=? target_idx then target_idx - 1 else target_idx + 1 in
    match cs !! boundary_idx, cs !! (boundary_idx + 1), cs !! sibl_index with
    | Some left_child, Some right_child, Some sibling =>
      let sibl_latch := latch_ (node_addr sibling) in
      let st := log_calls [lock sibl_latch] st in
      let boundary := default 0%Z (ks !! boundary_idx) in
      let '(merged, left_child', right_child', boundary) :=
        Node_Balance left_child right_child boundary in
      let cs := <[boundary_idx := left_child']> (<[boundary_idx + 1 := right_child']> cs) in
      let st := if bool_decide (node_addr right_child = node_addr target)
                then ReplaceLatch (depth + 1) sibl_latch EXCLUSIVE st
                else log_calls [unlock sibl_latch] st in
      if negb merged then
        let st := ReleaseLatch depth EXCLUSIVE st in
        let ks := <[boundary_idx := boundary]> ks in
        mkDeleteRet true (Internal a ks cs rs) false
          (ReleaseLatchFromParent depth EXCLUSIVE st)
      else
        (* std::swap(keys_[boundary_idx], keys_[boundary_idx + 1]) *)
        let k0 := default 0%Z (ks !! boundary_idx) in
        let k1 := default 0%Z (ks !! (boundary_idx + 1)) in
        let ks := <[boundary_idx := k1]> (<[boundary_idx + 1 := k0]> ks) in
        let '(ks, cs, underflow) := InternalNode_DeleteIndex ks cs (boundary_idx + 1) in
        let right_child' := match Node_Type right_child' with
                            | INTERNAL => ClearChildArray right_child'
                            | LEAF => right_child'
                            end in
        let st := free (delete_node right_child') st in
        let st := if negb underflow
                  then ReleaseLatchFromParent depth EXCLUSIVE
                         (ReleaseLatch depth EXCLUSIVE st)
                  else st in
        mkDeleteRet true (Internal a ks cs rs) underflow st
    | _, _, _ => mkDeleteRet true (Internal a ks cs rs) true st
    end.

Fixpoint Node_Delete (key : Z) (n : Node) (st : State) {struct n} : DeleteRet :=
  match n with
  | Leaf this => LeafNode_Delete key this st
  | Internal a ks cs rs =>
    let '(depth, st) := AcquireLatch (latch_ a) EXCLUSIVE st in
    let st := if (Z.of_nat (length cs) - 1 >=? Z.of_nat (UNDERFLOW_BOUND InternalCapacity))%Z
              then ReleaseLatch depth EXCLUSIVE st else st in
    let target_idx := InternalNode_SearchChildIndex ks (length cs) key in
    match at_child (λ target, Node_Delete key target st) cs target_idx with
    | Some r => InternalNode_Delete_return a ks cs rs depth target_idx r
    | None => mkDeleteRet false n false st
    end
  end.

(** ** String() *)

Definition entry_String (k v : Z) : string :=
  "(" +:+ pretty k +:+ "," +:+ pretty v +:+ ")".

Definition LeafNode_String (this : LeafNode) : string :=
  "[LEAF: "
  +:+ String.concat " " (zip_with entry_String (leaf_keys_ this) (leaf_values_ this))
  +:+ "]".

Fixpoint Node_String (n : Node) : string :=
  match n with
  | Leaf this => LeafNode_String this
  | Internal _ ks cs _ =>
    "[INTERNAL: "
    +:+ (fix go (ks : list Z) (cs : list Node) {struct cs} : string :=
           match cs with
           | [] => "]"
           | [c] => Node_String c +:+ "]"
           | c :: cs' =>
             Node_String c +:+ " | " +:+ pretty (default 0%Z (head ks)) +:+ " | "
             +:+ go (tail ks) cs'
           end) ks cs
  end.

(** ** MemoryBTree *)

Record MemoryBTree := mkTree { root_ : Node }.

(** [MemoryBTree()]: the root is a fresh empty leaf. *)
Definition MemoryBTree_new (st : State) : MemoryBTree * State :=
  let '(a, st) := alloc st in
  (mkTree (Leaf (mkLeaf a [] [] None)), st).

Definition MemoryBTree_String (tree : MemoryBTree) : string :=
  Node_String (root_ tree).

Definition MemoryBTree_Search (key val : Z) (tree : MemoryBTree) (st : State)
    : bool * Z * State :=
  let '(_, st) := AcquireLatch tree_latch_ SHARE st in
  let '(found, val, st) := Node_Search key val (root_ tree) st in
  (found, val, QueryContext_Clear st).

Definition MemoryBTree_Insert (key val : Z) (tree : MemoryBTree) (st : State)
    : MemoryBTree * State :=
  let '(_, st) := AcquireLatch tree_latch_ EXCLUSIVE st in
  let r := Node_Insert key val (root_ tree) st in
  let st := ins_st r in
  match ins_split r with
  | Some split =>
    let '(a, st) := alloc st in
    let root := InternalNode_new a (ins_node r) (right split) (boundary_key split) in
    (mkTree root, QueryContext_Clear (ReleaseLatchFromParent 0 EXCLUSIVE st))
  | None => (mkTree (ins_node r), QueryContext_Clear st)
  end.

(** A [Delete] that finds nothing returns before [context->Clear()]. *)
Definition MemoryBTree_Delete (key : Z) (tree : MemoryBTree) (st : State)
    : bool * MemoryBTree * State :=
  let '(_, st) := AcquireLatch tree_latch_ EXCLUSIVE st in
  let r := Node_Delete key (root_ tree) st in
  let st := del_st r in
  if negb (del_found r) then (false, mkTree (del_node r), st)
  else
    let '(root, st) :=
      match del_node r with
      | Internal a ks [only_child] rs =>
        (* root_.reset(old_root->GetChild(0)); old_root->ClearChildArray();
           delete old_root *)
        (only_child,
         free (delete_node (ClearChildArray (Internal a ks [only_child] rs))) st)
      | root => (root, st)
      end in
    let st := if del_underflow r
              then ReleaseLatchFromParent 0 EXCLUSIVE st else st in
    (true, mkTree root, QueryContext_Clear st).

(** [root_.reset(new LeafNode())]: the new leaf is made first, then the
    old root is deleted. *)
Definition MemoryBTree_Clear (tree : MemoryBTree) (st : State)
    : MemoryBTree * State :=
  let '(a, st) := alloc st in
  let st := free (delete_node (root_ tree)) st in
  (mkTree (Leaf (mkLeaf a [] [] None)), st).

(** ** MemoryIterator

    [current_] is a pointer to a leaf of the tree; it is resolved against
    the nodes the tree owns at the time of the call. *)

Fixpoint leaves (n : Node) : list LeafNode :=
  match n with
  | Leaf l => [l]
  | Internal _ _ cs _ => concat (map leaves cs)
  end.

Definition leaf_at (root : Node) (a : nat) : option LeafNode :=
  List.find (λ l, leaf_addr l =? a) (leaves root).

Record MemoryIterator := mkIterator {
  offset_ : nat;
  key_high_ : Z;
  upper_bound_ : bool;
  current_ : option nat
}.

(** [Next] calls itself after moving to the right sibling; [fuel] bounds
    the number of calls, and [None] stands for "no answer within [fuel]
    calls" or for a [current_] that points to no leaf of the tree.  The
    non-blocking acquire of the sibling latch is taken to succeed. *)
Fixpoint MemoryIterator_Next (fuel : nat) (tree : MemoryBTree)
    (it : MemoryIterator) (key val : Z) (st : State)
    : option (bool * Z * Z * MemoryIterator * State) :=
  match fuel with
  | O => None
  | S fuel' =>
    match current_ it with
    | None => Some (false, key, val, it, st)
    | Some a =>
      match leaf_at (root_ tree) a with
      | None => None
      | Some current =>
        let '(ok, key', val') := LeafNode_GetEntry current (offset_ it) key val in
        if ok then
          Some (negb (upper_bound_ it) || (key' <=? key_high_ it)%Z, key', val',
                mkIterator (offset_ it + 1) (key_high_ it) (upper_bound_ it)
                           (current_ it), st)
        else
          let right_sibl := leaf_right_sibl_ current in
          let st :=
            match right_sibl with
            | Some ra =>
              let st := log_calls [try_lock_shared (latch_ ra)] st in
              let '(sibl_depth, st) := AcquireLatch (latch_ ra) NONE st in
              ReleaseLatch sibl_depth SHARE st
            | None => st
            end in
          MemoryIterator_Next fuel' tree
            (mkIterator 0 (key_high_ it) (upper_bound_ it) right_sibl) key val st
      end
    end
  end.

Definition MemoryBTree_RangeQuery (key_low key_high : Z) (tree : MemoryBTree)
    (st : State) : MemoryIterator * State :=
  let '(_, st) := AcquireLatch tree_latch_ SHARE st in
  let '(_, leaf, offset, st) := Node_LocateKey key_low (root_ tree) st in
  (mkIterator offset key_high true (Some leaf), st).

(** The loop of [TreeScan] walks [GetChild(0)] down to a leaf. *)
Fixpoint TreeScan_descend (current : Node) (st : State) : option nat * State :=
  match current with
  | Leaf l => (Some (leaf_addr l), st)
  | Internal _ _ cs _ =>
    match cs with
    | child :: _ =>
      let '(child_depth, st) := AcquireLatch (latch_ (node_addr child)) SHARE st in
      let st := ReleaseLatch child_depth SHARE st in
      TreeScan_descend child st
    | [] => (None, st)
    end
  end.

Definition MemoryBTree_TreeScan (tree : MemoryBTree) (st : State)
    : MemoryIterator * State :=
  let '(_, st) := AcquireLatch tree_latch_ SHARE st in
  let '(_, st) := AcquireLatch (latch_ (node_addr (root_ tree))) SHARE st in
  let '(leaf, st) := TreeScan_descend (root_ tree) st in
  (mkIterator 0 0%Z false leaf, st).

(** The caller's loop [while (it->Next(key, value)) { ... }], collecting
    the pairs it sees. *)
Fixpoint drain (fuel : nat) (tree : MemoryBTree) (it : MemoryIterator)
    (key val : Z) (st : State) : option (list (Z * Z)) :=
  match fuel with
  | O => None
  | S fuel' =>
    match MemoryIterator_Next fuel tree it key val st with
    | None => None
    | Some (true, key, val, it, st) =>
      cons (key, val) <$> drain fuel' tree it key val st
    | Some (false, _, _, _, _) => Some []
    end
  end.

End Capacities.

(** * Vocabulary of the statements *)

(** ** What a tree holds *)

Definition leaf_entries (l : LeafNode) : list (Z * Z) :=
  zip (leaf_keys_ l) (leaf_values_ l).

(** The entries of a subtree, leaf by leaf from the left. *)
Definition entries (n : Node) : list (Z * Z) := leaves n ≫= leaf_entries.

Definition keys_of (n : Node) : list Z := (entries n).*1.

(** The addresses of the node objects of a subtree. *)
Fixpoint addrs (n : Node) : list nat :=
  match n with
  | Leaf l => [leaf_addr l]
  | Internal a _ cs _ => a :: concat (map addrs cs)
  end.

(** Every node of a subtree, the top one first. *)
Fixpoint nodes (n : Node) : list Node :=
  n :: match n with
       | Leaf _ => []
       | Internal _ _ cs _ => concat (map nodes cs)
       end.

Definition non_root_nodes (tree : MemoryBTree) : list Node :=
  tail (nodes (root_ tree)).

Definition child (n : Node) (i : nat) : option Node :=
  match n with
  | Leaf _ => None
  | Internal _ _ cs _ => cs !! i
  end.



(** ** The leaf chain *)

Definition head_addr (ls : list LeafNode) (nxt : option nat) : option nat :=
  match ls with [] => nxt | l :: _ => Some (leaf_addr l) end.

(** The leaves [ls], left to right, are threaded by their right-sibling
    pointers and the last one points to [nxt]. *)
Fixpoint linked (ls : list LeafNode) (nxt : option nat) : Prop :=
  match ls with
  | [] => True
  | l :: ls' => leaf_right_sibl_ l = head_addr ls' nxt ∧ linked ls' nxt
  end.

Definition leaf_ok (l : LeafNode) : Prop :=
  length (leaf_values_ l) = length (leaf_keys_ l).

(** What an iterator at offset [o] of leaf [l] has still to deliver, [ls2]
    being the leaves to the right of [l]. *)
Definition rest_of (l : LeafNode) (o : nat) (ls2 : list LeafNode) : list (Z * Z) :=
  drop o (leaf_entries l) ++ (ls2 ≫= leaf_entries).

(** The iterator of a full scan at offset [o] of leaf [l]. *)
Definition cursor (key_high : Z) (o : nat) (l : LeafNode) : MemoryIterator :=
  mkIterator o key_high false (Some (leaf_addr l)).

(** ** Key ranges

    A subtree serves the keys of a half-open range [(lo, hi]]; [None] is
    an absent bound. *)

Abbreviation obound := (option Z).

Definition olt (lo hi : obound) : Prop :=
  match lo, hi with Some l, Some h => (l < h)%Z | _, _ => True end.

Definition ole (lo lo' : obound) : Prop :=
  match lo, lo' with
  | Some l, Some l' => (l ≤ l')%Z
  | None, _ => True
  | Some _, None => False
  end.

Definition above (lo : obound) (k : Z) : Prop :=
  match lo with Some l => (l < k)%Z | None => True end.

Definition below (hi : obound) (k : Z) : Prop :=
  match hi with Some h => (k ≤ h)%Z | None => True end.

Definition within (lo hi : obound) (k : Z) : Prop := above lo k ∧ below hi k.

(** The upper bounds of the children of an internal node: the separators
    [keys_[0 .. Size()-2]], then the bound of the node itself.  The last
    slot of [keys_] is not a separator. *)
Fixpoint seps (hi : obound) (ks : list Z) : list obound :=
  match ks with
  | [] => []
  | [_] => [hi]
  | k :: ks' => Some k :: seps hi ks'
  end.

(** Each child serves the range between its neighbours' bounds. *)
Fixpoint chain (P : obound → obound → Node → Prop) (lo : obound)
    (bs : list obound) (cs : list Node) : Prop :=
  match bs, cs with
  | [], [] => True
  | b :: bs', c :: cs' => P lo b c ∧ chain P b bs' cs'
  | _, _ => False
  end.

(** When the node has an upper bound, the last slot of [keys_] holds it. *)
Definition sync (hi : obound) (ks : list Z) : Prop :=
  ∀ x, hi = Some x → last ks = Some x.

Definition last_bound (lo : obound) (bs : list obound) : obound :=
  default lo (last bs).

(** The first [N] slots of [a] increase. *)
Definition sorted_upto (a : list Z) (N : nat) : Prop :=
  ∀ i j x y, i < j → j < N → a !! i = Some x → a !! j = Some y → (x < y)%Z.

(** ** The shape of a subtree

    [wf L I h mL mI lo hi n]: [n] has height [h], serves [(lo, hi]], and its
    top node has at least [mL] entries (a leaf) or [mI] children (an
    internal node); every node below the top obeys the regular minima. *)

Definition minL (L : nat) : nat := L / 2.
Definition minI (I : nat) : nat := UNDERFLOW_BOUND I.

Fixpoint wf (L I : nat) (h : nat) (mL mI : nat) (lo hi : obound) (n : Node) : Prop :=
  match h, n with
  | O, Leaf l =>
    length (leaf_values_ l) = length (leaf_keys_ l) ∧
    StronglySorted Z.lt (leaf_keys_ l) ∧
    Forall (within lo hi) (leaf_keys_ l) ∧
    mL ≤ length (leaf_keys_ l) ≤ L ∧
    olt lo hi
  | S h', Internal a ks cs rs =>
    length ks = length cs ∧
    mI ≤ length cs ≤ I ∧
    chain (wf L I h' (minL L) (minI I)) lo (seps hi ks) cs ∧
    sync hi ks
  | _, _ => False
  end.

Definition wf_reg (L I : nat) (h : nat) := wf L I h (minL L) (minI I).

(** A node one short of the regular minimum, as a delete may leave it. *)
Definition wf_low (L I : nat) (h : nat) := wf L I h (minL L - 1) (minI I - 1).

Definition reg_size (L I : nat) (n : Node) : Prop :=
  match n with
  | Leaf _ => minL L ≤ Node_Size n
  | Internal _ _ _ _ => minI I ≤ Node_Size n
  end.

(** [UNDERFLOW_BOUND] of the capacity of the node's kind. *)
Definition UB_of (L I : nat) (n : Node) : nat :=
  match n with
  | Leaf _ => UNDERFLOW_BOUND L
  | Internal _ _ _ _ => UNDERFLOW_BOUND I
  end.


(** The size the document asks of a node below the root: the ceiling of
    [(capacity + 1) / 2]. *)
Definition claimed_min_size (L I : nat) (n : Node) : nat :=
  match n with
  | Leaf _ => (L + 1 + 1) / 2
  | Internal _ _ _ _ => (I + 1 + 1) / 2
  end.

(** ** What the node operations achieve *)

(** The child picked by [SearchChildIndex] and what surrounds it. *)
Record focus (L I : nat) (h : nat) (lo hi : obound) (key : Z) (ks : list Z)
    (cs : list Node) (t : nat) (ks1 : list Z) (k : Z) (ks2 : list Z)
    (cs1 : list Node) (c : Node) (cs2 : list Node) (lo_c hi_c : obound) : Prop := {
  foc_ks : ks = ks1 ++ k :: ks2;
  foc_cs : cs = cs1 ++ c :: cs2;
  foc_len_ks : length ks1 = t;
  foc_len_cs : length cs1 = t;
  foc_len2 : length ks2 = length cs2;
  foc_lo : lo_c = last_bound lo (Some <$> ks1);
  foc_hi : hi_c = (if ks2 is [] then hi else Some k);
  foc_pre : chain (wf_reg L I h) lo (Some <$> ks1) cs1;
  foc_child : wf_reg L I h lo_c hi_c c;
  foc_post : chain (wf_reg L I h) hi_c (seps hi ks2) cs2;
  foc_within : within lo hi key → within lo_c hi_c key;
  foc_not_pre : key ∉ cs1 ≫= keys_of;
  foc_not_post : key ∉ cs2 ≫= keys_of
}.

Definition search_spec (key value : Z) (n : Node) (r : bool * Z * State) : Prop :=
  (r.1.1 = true ∧ (key, r.1.2) ∈ entries n) ∨
  (r.1.1 = false ∧ r.1.2 = value ∧ key ∉ keys_of n).

(** The node after [Insert] and, after a split, its new right sibling. *)
Definition ins_nodes (r : InsertRet) : list Node :=
  ins_node r :: match ins_split r with Some s => [right s] | None => [] end.

Record insert_spec (L I : nat) (h mL mI : nat) (lo hi : obound) (key val : Z)
    (n : Node) (st : State) (r : InsertRet) : Prop := {
  ins_wf :
    match ins_split r with
    | None => wf L I h mL mI lo hi (ins_node r)
    | Some s =>
      wf_reg L I h lo (Some (boundary_key s)) (ins_node r) ∧
      wf_reg L I h (Some (boundary_key s)) hi (right s)
    end;
  ins_entries : ∀ k v,
    (k, v) ∈ ins_nodes r ≫= entries ↔
    (k = key ∧ v = val) ∨ (k ≠ key ∧ (k, v) ∈ entries n);
  ins_head : ∀ nxt,
    head_addr (ins_nodes r ≫= leaves) nxt = head_addr (leaves n) nxt;
  ins_linked : ∀ nxt,
    linked (leaves n) nxt → linked (ins_nodes r ≫= leaves) nxt;
  ins_addrs :
    ins_nodes r ≫= addrs
    ≡ₚ addrs n ++ seq (heap_next st) (heap_next (ins_st r) - heap_next st);
  ins_next : heap_next st ≤ heap_next (ins_st r);
  ins_freed : heap_freed (ins_st r) = heap_freed st;
  ins_addr : node_addr (ins_node r) = node_addr n
}.

Record delete_spec (L I : nat) (h mL mI : nat) (lo hi : obound) (key : Z)
    (n : Node) (st : State) (r : DeleteRet) : Prop := {
  del_wf :
    if del_underflow r
    then wf L I h (mL - 1) (mI - 1) lo hi (del_node r) ∧
         Node_Size (del_node r) < UB_of L I (del_node r) ∧
         del_found r = true
    else wf L I h mL mI lo hi (del_node r);
  del_found_iff : del_found r = true ↔ key ∈ keys_of n;
  del_entries : ∀ k v,
    (k, v) ∈ entries (del_node r) ↔ k ≠ key ∧ (k, v) ∈ entries n;
  del_head : ∀ nxt,
    head_addr (leaves (del_node r)) nxt = head_addr (leaves n) nxt;
  del_linked : ∀ nxt,
    linked (leaves n) nxt → linked (leaves (del_node r)) nxt;
  del_addrs : ∃ fr,
    heap_freed (del_st r) = heap_freed st ++ fr ∧
    addrs n ≡ₚ addrs (del_node r) ++ fr;
  del_next : heap_next (del_st r) = heap_next st;
  del_addr : node_addr (del_node r) = node_addr n;
  del_unchanged :
    del_found r = false →
    del_node r = n ∧ del_underflow r = false ∧ heap_freed (del_st r) = heap_freed st
}.

(** What [Update] achieves on a subtree: the value of [key] is replaced
    when the key is there, and nothing else changes. *)
Record update_spec (L I : nat) (h mL mI : nat) (lo hi : obound) (key val : Z)
    (n : Node) (st : State) (r : bool * Node * State) : Prop := {
  upd_found : r.1.1 = true ↔ key ∈ keys_of n;
  upd_wf : wf L I h mL mI lo hi r.1.2;
  upd_entries : ∀ k v,
    (k, v) ∈ entries r.1.2 ↔
    (k = key ∧ v = val ∧ key ∈ keys_of n) ∨ (k ≠ key ∧ (k, v) ∈ entries n);
  upd_keys : keys_of r.1.2 = keys_of n;
  upd_head : ∀ nxt, head_addr (leaves r.1.2) nxt = head_addr (leaves n) nxt;
  upd_linked : ∀ nxt, linked (leaves n) nxt → linked (leaves r.1.2) nxt;
  upd_addrs : addrs r.1.2 = addrs n;
  upd_heap : heap_next r.2 = heap_next st ∧ heap_freed r.2 = heap_freed st;
  upd_absent : r.1.1 = false → r.1.2 = n
}.

(** What [LocateKey] achieves: the leaf it returns and the position in it
    split the entries of the subtree into those below [key] and the rest. *)
Definition locate_spec (key : Z) (n : Node) (r : bool * nat * nat * State) : Prop :=
  ∃ ls1 l ls2,
    leaves n = ls1 ++ l :: ls2 ∧
    r.1.1.2 = leaf_addr l ∧
    Forall (λ p, (p.1 < key)%Z) ((ls1 ≫= leaf_entries) ++ take r.1.2 (leaf_entries l)) ∧
    Forall (λ p, (key ≤ p.1)%Z) (rest_of l r.1.2 ls2) ∧
    (r.1.1.1 = true ↔ key ∈ keys_of n).

(** What [delete] frees of the right sibling that a merge emptied. *)
Definition freed_by_merge (n : Node) : list nat :=
  delete_node (match Node_Type n with
               | INTERNAL => ClearChildArray n
               | LEAF => n
               end).

(** [Balance] is called on two siblings one of which is short. *)
Definition balance_pre (L I : nat) (h : nat) (lo : obound) (k0 : Z) (hi1 : obound)
    (left right_ : Node) : Prop :=
  wf_low L I h lo (Some k0) left ∧ wf_low L I h (Some k0) hi1 right_ ∧
  ((Node_Size left < UB_of L I left ∧ reg_size L I right_) ∨
   (reg_size L I left ∧ Node_Size right_ < UB_of L I right_)).

Definition balance_spec (L I : nat) (h : nat) (lo hi1 : obound) (left right_ : Node)
    (res : bool * Node * Node * Z) : Prop :=
  let '(merged, left', right', b') := res in
  node_addr left' = node_addr left ∧ node_addr right' = node_addr right_ ∧
  if merged then
    wf_reg L I h lo hi1 left' ∧
    entries left' = entries left ++ entries right_ ∧
    (∀ nxt, head_addr (leaves left') nxt
            = head_addr (leaves left ++ leaves right_) nxt) ∧
    (∀ nxt, linked (leaves left ++ leaves right_) nxt → linked (leaves left') nxt) ∧
    addrs left ++ addrs right_ ≡ₚ addrs left' ++ [node_addr right_] ∧
    freed_by_merge right' = [node_addr right_]
  else
    wf_reg L I h lo (Some b') left' ∧ wf_reg L I h (Some b') hi1 right' ∧
    entries left' ++ entries right' = entries left ++ entries right_ ∧
    (∀ nxt, head_addr (leaves left' ++ leaves right') nxt
            = head_addr (leaves left ++ leaves right_) nxt) ∧
    (∀ nxt, linked (leaves left ++ leaves right_) nxt
            → linked (leaves left' ++ leaves right') nxt) ∧
    addrs left' ++ addrs right' ≡ₚ addrs left ++ addrs right_.

(** ** The tree as a whole *)

(** The root may be an empty leaf or an internal node with two children. *)
Definition tree_wf (L I : nat) (tree : MemoryBTree) : Prop :=
  ∃ h, wf L I h 0 2 None None (root_ tree).

(** The nodes [A] are live: none was freed, none occurs twice, and every
    address was handed out by the allocator. *)
Definition heap_ok (A : list nat) (st : State) : Prop :=
  NoDup (A ++ heap_freed st) ∧
  Forall (λ a, a < heap_next st) (A ++ heap_freed st).

(** Nothing leaks: every address handed out so far is a node of [A] or
    was freed, each exactly once. *)
Definition heap_full (A : list nat) (st : State) : Prop :=
  A ++ heap_freed st ≡ₚ seq 0 (heap_next st).

Definition tree_inv (L I : nat) (tree : MemoryBTree) (st : State) : Prop :=
  tree_wf L I tree ∧ heap_ok (addrs (root_ tree)) st ∧
  linked (leaves (root_ tree)) None.

(** ** Workloads *)

Inductive Op :=
  | Op_Insert (key val : Z)
  | Op_Delete (key : Z).

Definition apply_op (L I : nat) (ts : MemoryBTree * State) (op : Op)
    : MemoryBTree * State :=
  match op with
  | Op_Insert key val => MemoryBTree_Insert L I key val ts.1 ts.2
  | Op_Delete key =>
    let res := MemoryBTree_Delete L I key ts.1 ts.2 in (res.1.2, res.2)
  end.

(** A process that has allocated nothing and holds no latch. *)
Definition st0 : State := mkState (mkContext 0 []) 0 [] [].

(** A workload on a tree that starts empty in a fresh process. *)
Definition run (L I : nat) (ops : list Op) : MemoryBTree * State :=
  foldl (apply_op L I) (MemoryBTree_new st0) ops.

(** [Insert(k, k)] for each [k], as the tests of the repository do. *)
Definition inserts (ks : list Z) : list Op := (λ k, Op_Insert k k) <$> ks.

(** What the workload wrote, as a finite map: the reference the tree is
    compared with. *)
Definition last_written (ops : list Op) : gmap Z Z :=
  foldl (λ m op, match op with
                 | Op_Insert key val => <[key := val]> m
                 | Op_Delete key => delete key m
                 end) ∅ ops.

(** The leaf after [LeafNode::Insert(k, k)], and whether the call split it. *)
Definition leaf_step (L : nat) (ls : LeafNode * State * list bool) (k : Z)
    : LeafNode * State * list bool :=
  let r := LeafNode_Insert L k k ls.1.1 ls.1.2 in
  (match ins_node r with Leaf l => l | Internal _ _ _ _ => ls.1.1 end,
   ins_st r, ls.2 ++ [bool_decide (is_Some (ins_split r))]).

(** ** Shape, reclamation and latch traffic *)

(** The depth of every leaf below [n], left to right. *)
Fixpoint leaf_depths (n : Node) : list nat :=
  match n with
  | Leaf _ => [0]
  | Internal _ _ cs _ => S <$> concat (map leaf_depths cs)
  end.

(** The number of levels of [n], following the longest branch. *)
Fixpoint height (n : Node) : nat :=
  match n with
  | Leaf _ => 0
  | Internal _ _ cs _ => S (foldr Nat.max 0 (map height cs))
  end.

(** The capacity of the node's kind. *)
Definition capacity_of (L I : nat) (n : Node) : nat :=
  match n with
  | Leaf _ => L
  | Internal _ _ _ _ => I
  end.

(** The addresses of the nodes a descent for [key] goes through, the
    root first. *)
Fixpoint search_path (key : Z) (n : Node) : list nat :=
  match n with
  | Leaf l => [leaf_addr l]
  | Internal a ks cs _ =>
    a :: match at_child (search_path key) cs
                 (InternalNode_SearchChildIndex ks (length cs) key) with
         | Some p => p
         | None => []
         end
  end.

(** The latches [InternalNode::Delete] may lock besides those of the
    path: at each internal node of the path, the latch of the sibling it
    would rebalance the path's child with (the left neighbour, or the
    right neighbour of the first child); the deepest node comes first. *)
Fixpoint path_siblings (key : Z) (n : Node) : list Latch :=
  match n with
  | Leaf _ => []
  | Internal _ ks cs _ =>
    let target_idx := InternalNode_SearchChildIndex ks (length cs) key in
    let sibl_index := if 1 <=? target_idx then target_idx - 1 else target_idx + 1 in
    match at_child (path_siblings key) cs target_idx with
    | Some p => p
    | None => []
    end ++
    match cs !! sibl_index with
    | Some sibling => [latch_ (node_addr sibling)]
    | None => []
    end
  end.

(** Hand-over-hand descent in shared mode: each latch of [path] is taken
    before the one held so far is given back. *)
Fixpoint handover (held : Latch) (path : list Latch) : list MutexCall :=
  match path with
  | [] => []
  | l :: path' => lock_shared l :: unlock_shared held :: handover l path'
  end.

(** The whole latch traffic of a shared descent that also gives back the
    latch of the last node. *)
Definition crabbing (held : Latch) (path : list Latch) : list MutexCall :=
  handover held path ++ [unlock_shared (default held (last path))].

(** The latch a call takes, and the latch a call gives back. *)
Definition locked (c : MutexCall) : option Latch :=
  match c with
  | lock l | lock_shared l | try_lock_shared l => Some l
  | _ => None
  end.

Definition unlocked (c : MutexCall) : option Latch :=
  match c with
  | unlock l | unlock_shared l => Some l
  | _ => None
  end.

Definition exclusive_call (c : MutexCall) : Prop :=
  match c with
  | lock _ | unlock _ => True
  | _ => False
  end.

(** The latch traffic between [st0] and [st] in exclusive mode: the
    latches [A] were pushed on the context and locked, in that order, and
    those below [smallest_unlk_idx_] were unlocked, in the same order. *)
Definition xtraffic (st0 st : State) (A : list Latch) : Prop :=
  latches_ (context st) = latches_ (context st0) ++ A ∧
  (Z.of_nat (length (latches_ (context st0))) ≤ smallest_unlk_idx_ (context st)
   ≤ Z.of_nat (length (latches_ (context st0)) + length A))%Z ∧
  ∃ new,
    mutex_log st = mutex_log st0 ++ new ∧
    omap locked new = A ∧
    omap unlocked new
    = take (Z.to_nat (smallest_unlk_idx_ (context st)) - length (latches_ (context st0))) A ∧
    Forall exclusive_call new.

(** The addresses of the nodes from [n] down its first children to the
    leftmost leaf. *)
Fixpoint leftmost_path (n : Node) : list nat :=
  match n with
  | Leaf l => [leaf_addr l]
  | Internal a _ cs _ =>
    a :: match cs with
         | child :: _ => leftmost_path child
         | [] => []
         end
  end.

(** The calls of [TreeScan] after the tree latch and the root latch were
    taken: nothing on a root leaf; otherwise both are given back once the
    first child is latched, and the descent goes on hand over hand. *)
Definition scan_descent (path : list nat) : list MutexCall :=
  match path with
  | root :: child :: path' =>
    lock_shared (latch_ child) :: unlock_shared tree_latch_
      :: unlock_shared (latch_ root) :: handover (latch_ child) (latch_ <$> path')
  | _ => []
  end.

(** Exclusive traffic with sibling latches, as [Delete] makes it: the
    latches [P] were pushed on the context and locked, further latches
    [sibl] were locked directly, each of them one of [Sb] and no more
    often than it is listed there, and what was locked is what was
    unlocked together with what the slots from [smallest_unlk_idx_] on
    now hold (a slot may have been handed to a sibling's latch). *)
Definition dtraffic (st0 st : State) (P Sb : list Latch) : Prop :=
  ∃ (A : list Latch) (new : list MutexCall) (sibl : list Latch),
    sibl ⊆+ Sb ∧
    latches_ (context st) = latches_ (context st0) ++ A ∧
    length A = length P ∧
    (Z.of_nat (length (latches_ (context st0))) ≤ smallest_unlk_idx_ (context st)
     ≤ Z.of_nat (length (latches_ (context st0)) + length P))%Z ∧
    mutex_log st = mutex_log st0 ++ new ∧
    omap locked new ≡ₚ P ++ sibl ∧
    omap locked new
    ≡ₚ omap unlocked new
       ++ drop (Z.to_nat (smallest_unlk_idx_ (context st))
                - length (latches_ (context st0))) A ∧
    Forall exclusive_call new.

(** * Verification *)

(** Division by a constant is linear arithmetic for [lia]. *)
Ltac Zify.zify_post_hook ::= Z.to_euclidean_division_equations.
#[local] Arguments Nat.div : simpl never.
#[local] Arguments Nat.modulo : simpl never.

(** ** Calls on a child slot *)

Lemma at_child_lookup {R : Type} (f : Node → R) (cs : list Node) (i : nat) :
  at_child f cs i = f <$> cs !! i.
Proof. revert i; induction cs as [|c cs IH]; intros [|i]; simpl; auto. Qed.

(** ** Bisection *)

Lemma lower_bound_loop_range fuel a first len val :
  first ≤ lower_bound_loop fuel a first len val ≤ first + len.
Proof.
  revert first len; induction fuel as [|fuel IH]; intros first len; simpl; [lia|].
  destruct (len =? 0) eqn:E; [lia|]. apply Nat.eqb_neq in E.
  destruct (a !! (first + len / 2)) as [x|]; [|lia].
  destruct (x <? val)%Z.
  - specialize (IH (first + len / 2 + 1) (len - len / 2 - 1)). lia.
  - specialize (IH first (len / 2)). lia.
Qed.

Lemma lower_bound_range a last val : lower_bound a last val ≤ last.
Proof. unfold lower_bound. pose proof (lower_bound_loop_range last a 0 last val). lia. Qed.

Lemma lower_bound_loop_all_less fuel a first len val :
  len ≤ fuel → first + len ≤ length a →
  (∀ j x, j < first + len → a !! j = Some x → (x < val)%Z) →
  lower_bound_loop fuel a first len val = first + len.
Proof.
  revert first len; induction fuel as [|fuel IH]; intros first len Hf Hlen Hall; simpl; [lia|].
  destruct (len =? 0) eqn:E; [apply Nat.eqb_eq in E; lia|]. apply Nat.eqb_neq in E.
  destruct (lookup_lt_is_Some_2 a (first + len / 2)) as [x Hx]; [lia|].
  rewrite Hx. assert (x < val)%Z as Hlt by (apply (Hall (first + len / 2)); [lia|done]).
  apply Z.ltb_lt in Hlt. rewrite Hlt.
  rewrite IH; [lia|lia|lia|]. intros j y Hj. apply Hall. lia.
Qed.

Lemma lower_bound_all_less a last val :
  last ≤ length a →
  (∀ j x, j < last → a !! j = Some x → (x < val)%Z) →
  lower_bound a last val = last.
Proof. intros. unfold lower_bound. rewrite lower_bound_loop_all_less; auto. Qed.

Lemma lower_bound_loop_sorted fuel a N first len val :
  len ≤ fuel → first + len ≤ N → N ≤ length a → sorted_upto a N →
  (∀ j x, j < first → a !! j = Some x → (x < val)%Z) →
  (∀ j x, first + len ≤ j → j < N → a !! j = Some x → (val ≤ x)%Z) →
  let r := lower_bound_loop fuel a first len val in
  (∀ j x, j < r → a !! j = Some x → (x < val)%Z) ∧
  (∀ j x, r ≤ j → j < N → a !! j = Some x → (val ≤ x)%Z).
Proof.
  revert first len; induction fuel as [|fuel IH]; intros first len Hf Hlen HN Hs Hlo Hhi; simpl.
  { assert (len = 0) by lia; subst. split; [done|].
    intros j x Hj1 Hj2 Hx. apply (Hhi j x); [lia|done|done]. }
  destruct (len =? 0) eqn:E.
  { apply Nat.eqb_eq in E; subst. split; [done|].
    intros j x Hj1 Hj2 Hx. apply (Hhi j x); [lia|done|done]. }
  apply Nat.eqb_neq in E.
  destruct (lookup_lt_is_Some_2 a (first + len / 2)) as [x Hx]; [lia|].
  rewrite Hx. destruct (x <? val)%Z eqn:Hc.
  - apply Z.ltb_lt in Hc. apply IH; [lia|lia|done|done| |].
    + intros j y Hj Hy. destruct (decide (j < first)) as [?|Hge]; [by eapply Hlo|].
      destruct (decide (j = first + len / 2)) as [->|Hne]; [by simplify_eq|].
      assert (y < x)%Z; [|lia]. eapply (Hs j (first + len / 2)); eauto; lia.
    + intros j y Hj1 Hj2 Hy. apply (Hhi j y); [lia|done|done].
  - apply Z.ltb_ge in Hc. apply IH; [lia|lia|done|done|done|].
    intros j y Hj1 Hj2 Hy.
    destruct (decide (j = first + len / 2)) as [->|Hne]; [by simplify_eq|].
    assert (x < y)%Z; [|lia]. eapply (Hs (first + len / 2) j); eauto; lia.
Qed.

Lemma lower_bound_sorted a N val :
  N ≤ length a → sorted_upto a N →
  let r := lower_bound a N val in
  r ≤ N ∧
  (∀ j x, j < r → a !! j = Some x → (x < val)%Z) ∧
  (∀ j x, r ≤ j → j < N → a !! j = Some x → (val ≤ x)%Z).
Proof.
  intros HN Hs r. split; [apply lower_bound_range|].
  apply (lower_bound_loop_sorted N a N 0 N val); auto; intros; lia.
Qed.

Lemma StronglySorted_sorted_upto (a : list Z) N :
  StronglySorted Z.lt a → sorted_upto a N.
Proof.
  intros Hs i j x y Hij _ Hi Hj.
  rewrite <- (take_drop j a) in Hs, Hi, Hj.
  assert (j ≤ length a) by (apply lookup_lt_Some in Hj; rewrite length_app, length_take, length_drop in Hj; lia).
  rewrite lookup_app_l in Hi by (rewrite length_take; lia).
  rewrite lookup_app_r in Hj by (rewrite length_take; lia).
  eapply StronglySorted_app_1_elem_of; eauto using list_elem_of_lookup_2.
Qed.

(** ** The heap part of the state is untouched by latch traffic *)

Lemma heap_AcquireLatch l m st :
  heap_next (AcquireLatch l m st).2 = heap_next st ∧
  heap_freed (AcquireLatch l m st).2 = heap_freed st.
Proof. done. Qed.

Lemma heap_ReleaseLatch i m st :
  heap_next (ReleaseLatch i m st) = heap_next st ∧
  heap_freed (ReleaseLatch i m st) = heap_freed st.
Proof. unfold ReleaseLatch. destruct (_ >=? _)%Z; [done|]. by destruct m. Qed.

Lemma heap_ReleaseLatchFromParent i m st :
  heap_next (ReleaseLatchFromParent i m st) = heap_next st ∧
  heap_freed (ReleaseLatchFromParent i m st) = heap_freed st.
Proof. unfold ReleaseLatchFromParent. destruct m; try done. by destruct (_ <? _)%Z. Qed.

Lemma heap_ReplaceLatch i l m st :
  heap_next (ReplaceLatch i l m st) = heap_next st ∧
  heap_freed (ReplaceLatch i l m st) = heap_freed st.
Proof. unfold ReplaceLatch. by destruct m. Qed.

Lemma heap_log_calls cs st :
  heap_next (log_calls cs st) = heap_next st ∧
  heap_freed (log_calls cs st) = heap_freed st.
Proof. done. Qed.

Lemma heap_Clear st :
  heap_next (QueryContext_Clear st) = heap_next st ∧
  heap_freed (QueryContext_Clear st) = heap_freed st.
Proof. done. Qed.

(** [heap_simpl] rewrites the heap projections of a state through the
    latch operations that produced it. *)
Ltac heap_simpl :=
  repeat first
    [ rewrite (proj1 (heap_ReleaseLatch _ _ _))
    | rewrite (proj2 (heap_ReleaseLatch _ _ _))
    | rewrite (proj1 (heap_ReleaseLatchFromParent _ _ _))
    | rewrite (proj2 (heap_ReleaseLatchFromParent _ _ _))
    | rewrite (proj1 (heap_ReplaceLatch _ _ _ _))
    | rewrite (proj2 (heap_ReplaceLatch _ _ _ _))
    | rewrite (proj1 (heap_log_calls _ _))
    | rewrite (proj2 (heap_log_calls _ _))
    | rewrite (proj1 (heap_Clear _))
    | rewrite (proj2 (heap_Clear _))
    | rewrite (proj1 (heap_AcquireLatch _ _ _))
    | rewrite (proj2 (heap_AcquireLatch _ _ _)) ].

(** ** What a tree holds *)

Lemma head_addr_app ls1 ls2 nxt :
  head_addr (ls1 ++ ls2) nxt = head_addr ls1 (head_addr ls2 nxt).
Proof. by destruct ls1. Qed.

Lemma linked_app ls1 ls2 nxt :
  linked (ls1 ++ ls2) nxt ↔ linked ls1 (head_addr ls2 nxt) ∧ linked ls2 nxt.
Proof.
  induction ls1 as [|l ls1 IH]; simpl; [tauto|].
  rewrite IH, head_addr_app. tauto.
Qed.

Lemma Node_ind' (P : Node → Prop) :
  (∀ l, P (Leaf l)) →
  (∀ a ks cs rs, Forall P cs → P (Internal a ks cs rs)) →
  ∀ n, P n.
Proof.
  intros Hl Hi. fix IH 1. intros [l|a ks cs rs]; [apply Hl|].
  apply Hi. induction cs as [|c cs IHcs]; constructor; [apply IH|apply IHcs].
Qed.

Lemma concat_map_bind {A B} (f : A → list B) (l : list A) :
  concat (map f l) = l ≫= f.
Proof. induction l as [|x l IH]; [done|]. simpl. by rewrite IH. Qed.

Lemma leaves_Internal a ks cs rs :
  leaves (Internal a ks cs rs) = cs ≫= leaves.
Proof. apply concat_map_bind. Qed.

Lemma entries_Leaf l : entries (Leaf l) = leaf_entries l.
Proof. unfold entries. simpl. by rewrite app_nil_r. Qed.

Lemma entries_Internal a ks cs rs :
  entries (Internal a ks cs rs) = cs ≫= entries.
Proof.
  unfold entries. rewrite leaves_Internal.
  induction cs as [|c cs IH]; [done|].
  rewrite !bind_cons, bind_app. by rewrite IH.
Qed.

Lemma addrs_Internal a ks cs rs :
  addrs (Internal a ks cs rs) = a :: cs ≫= addrs.
Proof. simpl. by rewrite concat_map_bind. Qed.

Lemma keys_of_Internal a ks cs rs :
  keys_of (Internal a ks cs rs) = cs ≫= keys_of.
Proof.
  unfold keys_of. rewrite entries_Internal.
  induction cs as [|c cs IH]; [done|].
  rewrite !bind_cons, fmap_app. by rewrite IH.
Qed.

#[global] Arguments AcquireLatch : simpl never.
#[global] Arguments ReleaseLatch : simpl never.
#[global] Arguments ReleaseLatchFromParent : simpl never.
#[global] Arguments ReplaceLatch : simpl never.
#[global] Arguments log_calls : simpl never.
#[global] Arguments QueryContext_Clear : simpl never.

(** ** Key ranges *)

Lemma above_weaken lo lo' k : ole lo' lo → above lo k → above lo' k.
Proof. destruct lo, lo'; simpl; try done; lia. Qed.

Lemma above_olt lo m k : olt lo (Some m) → (m < k)%Z → above lo k.
Proof. destruct lo; simpl; [lia|done]. Qed.

Lemma below_olt hi m k : (k ≤ m)%Z → olt (Some m) hi → below hi k.
Proof. destruct hi; simpl; [lia|done]. Qed.

Lemma olt_trans lo m hi : olt lo (Some m) → olt (Some m) hi → olt lo hi.
Proof. destruct lo, hi; simpl; try done; lia. Qed.

Lemma olt_ole lo' lo hi : ole lo' lo → olt lo hi → olt lo' hi.
Proof. destruct lo', lo, hi; simpl; try done; lia. Qed.

Lemma ole_refl lo : ole lo lo.
Proof. destruct lo; simpl; [lia|done]. Qed.

Lemma seps_cons2 hi k k' ks : seps hi (k :: k' :: ks) = Some k :: seps hi (k' :: ks).
Proof. done. Qed.

Lemma seps_app hi ks1 ks2 :
  ks2 ≠ [] → seps hi (ks1 ++ ks2) = (Some <$> ks1) ++ seps hi ks2.
Proof.
  intros Hne. induction ks1 as [|k ks1 IH]; [done|].
  rewrite <- app_comm_cons, fmap_cons, <- app_comm_cons, <- IH.
  destruct (ks1 ++ ks2) eqn:E; [|done].
  apply app_eq_nil in E as [_ ?]. done.
Qed.

Lemma seps_sync x ks : last ks = Some x → seps (Some x) ks = Some <$> ks.
Proof.
  induction ks as [|k [|k' ks] IH]; [done| |].
  - simpl. by intros [= ->].
  - intros Hl. rewrite seps_cons2, IH; [done|]. by rewrite last_cons_cons in Hl.
Qed.

Lemma seps_snoc hi ks k : seps hi (ks ++ [k]) = (Some <$> ks) ++ [hi].
Proof. by rewrite seps_app. Qed.


Lemma chain_app P lo bs1 bs2 cs1 cs2 :
  length bs1 = length cs1 →
  chain P lo (bs1 ++ bs2) (cs1 ++ cs2) ↔
  chain P lo bs1 cs1 ∧ chain P (last_bound lo bs1) bs2 cs2.
Proof.
  revert lo cs1; induction bs1 as [|b bs1 IH]; intros lo [|c cs1] Hlen; simpl in *; try done.
  - unfold last_bound. simpl. tauto.
  - rewrite IH by lia. unfold last_bound. rewrite last_cons.
    destruct (last bs1); simpl; tauto.
Qed.

Lemma last_bound_fmap lo ks :
  last_bound lo (Some <$> ks) = from_option Some lo (last ks).
Proof. unfold last_bound. rewrite fmap_last. by destruct (last ks). Qed.

Lemma leaf_keys_of l :
  length (leaf_values_ l) = length (leaf_keys_ l) → keys_of (Leaf l) = leaf_keys_ l.
Proof.
  intros Hlen. unfold keys_of. rewrite entries_Leaf. unfold leaf_entries.
  apply fst_zip. lia.
Qed.

(** ** The invariant of a subtree *)

Section Invariant.

Variable L : nat.
Variable I : nat.

Lemma wf_mono h mL mI mL' mI' lo hi n :
  mL' ≤ mL → mI' ≤ mI → wf L I h mL mI lo hi n → wf L I h mL' mI' lo hi n.
Proof.
  intros ??. destruct h, n; simpl; try done.
  - intros (?&?&?&?&?). repeat split; auto; lia.
  - intros (?&?&?&?). repeat split; auto; lia.
Qed.

Lemma wf_size h mL mI mL' mI' lo hi n :
  wf L I h mL mI lo hi n →
  match n with Leaf _ => mL' | Internal _ _ _ _ => mI' end ≤ Node_Size n →
  wf L I h mL' mI' lo hi n.
Proof.
  destruct h, n; simpl; try done.
  - intros (?&?&?&?&?) ?. repeat split; auto; lia.
  - intros (?&?&?&?) ?. repeat split; auto; lia.
Qed.

Hypothesis HI : 1 ≤ minI I.

Lemma chain_olt h lo hi ks cs :
  (∀ lo hi c, wf_reg L I h lo hi c → olt lo hi) →
  ks ≠ [] → chain (wf_reg L I h) lo (seps hi ks) cs → olt lo hi.
Proof.
  intros IH. revert lo cs. induction ks as [|k [|k' ks] IHks]; intros lo cs Hne; [done| |].
  - destruct cs as [|c [|]]; simpl; try tauto. intros [? _]. eauto.
  - rewrite seps_cons2. destruct cs as [|c cs]; [done|]. intros [H1 H2].
    eapply olt_trans; eauto.
Qed.

Lemma wf_olt h mL mI lo hi n : 1 ≤ mI → wf L I h mL mI lo hi n → olt lo hi.
Proof.
  revert mL mI lo hi n. induction h as [|h IH]; intros mL mI lo hi [l|a ks cs rs] HmI; simpl; try tauto.
  intros (Hlen&?&Hc&_). apply (chain_olt h lo hi ks cs); [|by intros ->; simpl in *; lia|done].
  intros lo' hi' c. by apply IH.
Qed.

Lemma wf_reg_olt h lo hi n : wf_reg L I h lo hi n → olt lo hi.
Proof. by apply wf_olt. Qed.

Lemma wf_weaken_lo h mL mI lo lo' hi n :
  ole lo' lo → wf L I h mL mI lo hi n → wf L I h mL mI lo' hi n.
Proof.
  revert mL mI lo lo' hi n. induction h as [|h IH]; intros mL mI lo lo' hi [l|a ks cs rs] Hle; simpl; try tauto.
  - intros (?&?&Hw&?&?). repeat split; auto.
    + eapply Forall_impl; [done|]. intros k [? ?]. split; [|done]. by eapply above_weaken.
    + lia.
    + lia.
    + by eapply olt_ole.
  - intros (?&?&Hc&?). repeat split; auto; try lia.
    destruct (seps hi ks) as [|b bs], cs as [|c cs]; simpl in *; try done.
    destruct Hc. split; [|done]. eapply IH; eauto.
Qed.

(** Keys of a subtree are sorted and lie in its range. *)
Lemma chain_keys h lo hi ks cs :
  (∀ lo hi c, wf_reg L I h lo hi c →
     StronglySorted Z.lt (keys_of c) ∧ Forall (within lo hi) (keys_of c)) →
  ks ≠ [] → chain (wf_reg L I h) lo (seps hi ks) cs →
  StronglySorted Z.lt (cs ≫= keys_of) ∧ Forall (within lo hi) (cs ≫= keys_of).
Proof.
  intros IH. revert lo cs. induction ks as [|k [|k' ks] IHks]; intros lo cs Hne; [done| |].
  - destruct cs as [|c [|]]; simpl; try tauto. intros [? _].
    rewrite app_nil_r. eauto.
  - rewrite seps_cons2. destruct cs as [|c cs]; [done|]. intros [H1 H2].
    rewrite bind_cons.
    destruct (IH _ _ _ H1) as [Hs1 Hw1]. destruct (IHks _ _ ltac:(done) H2) as [Hs2 Hw2].
    assert (olt lo (Some k)) by (by apply (wf_reg_olt h lo (Some k) c)).
    assert (olt (Some k) hi).
    { apply (chain_olt h (Some k) hi (k' :: ks) cs); [|done|done].
      intros ???. apply wf_reg_olt. }
    split.
    + apply StronglySorted_app_2; [|done|done].
      intros x1 x2 Hx1 Hx2.
      rewrite Forall_forall in Hw1, Hw2.
      destruct (Hw1 _ Hx1) as [_ ?]. destruct (Hw2 _ Hx2) as [? _]. simpl in *. lia.
    + apply Forall_app. split.
      * eapply Forall_impl; [done|]. intros x [? ?]. split; [done|]. eapply below_olt; eauto.
      * eapply Forall_impl; [done|]. intros x [? ?]. split; [|done]. eapply above_olt; eauto.
Qed.

Lemma wf_keys h mL mI lo hi n :
  1 ≤ mI → wf L I h mL mI lo hi n →
  StronglySorted Z.lt (keys_of n) ∧ Forall (within lo hi) (keys_of n).
Proof.
  revert mL mI lo hi n. induction h as [|h IH]; intros mL mI lo hi [l|a ks cs rs] HmI; simpl; try tauto.
  - intros (?&?&?&?&?). by rewrite leaf_keys_of.
  - intros (Hlen&?&Hc&_). rewrite keys_of_Internal.
    apply (chain_keys h lo hi ks cs); [|by intros ->; simpl in *; lia|done].
    intros lo' hi' c. by apply IH.
Qed.

End Invariant.

(** ** Lists: inserting at a position, then cutting *)

Lemma split_insert {A} (l : list A) (x : A) (pos bi : nat) :
  pos ≤ length l → bi ≤ length l →
  let l' := take pos l ++ x :: drop pos l in
  let m := if pos <? bi then S bi else bi in
  (if pos <? bi
   then (take pos (take bi l) ++ x :: drop pos (take bi l), drop bi l)
   else (take bi l, take (pos - bi) (drop bi l) ++ x :: drop (pos - bi) (drop bi l)))
  = (take m l', drop m l').
Proof.
  intros Hp Hb l' m. subst l' m. destruct (pos <? bi) eqn:E.
  - apply Nat.ltb_lt in E. f_equal.
    + rewrite take_app_ge by (rewrite length_take; lia).
      rewrite length_take, Nat.min_l by lia.
      replace (S bi - pos) with (S (bi - pos)) by lia. simpl.
      rewrite take_take, Nat.min_l by lia. rewrite take_drop_commute.
      by replace (pos + (bi - pos)) with bi by lia.
    + rewrite drop_app_ge by (rewrite length_take; lia).
      rewrite length_take, Nat.min_l by lia.
      replace (S bi - pos) with (S (bi - pos)) by lia. simpl.
      rewrite drop_drop. by replace (pos + (bi - pos)) with bi by lia.
  - apply Nat.ltb_ge in E. f_equal.
    + rewrite take_app_le by (rewrite length_take; lia).
      rewrite take_take. by rewrite Nat.min_l by lia.
    + rewrite drop_app_le by (rewrite length_take; lia).
      rewrite take_drop_commute, drop_drop.
      by replace (bi + (pos - bi)) with pos by lia.
Qed.

Lemma elem_of_take_drop_insert {A} (l : list A) (x y : A) (pos : nat) :
  y ∈ take pos l ++ x :: drop pos l ↔ y = x ∨ y ∈ l.
Proof.
  rewrite <- (take_drop pos l) at 3. rewrite !elem_of_app, elem_of_cons. tauto.
Qed.

Lemma StronglySorted_take (l : list Z) n :
  StronglySorted Z.lt l → StronglySorted Z.lt (take n l).
Proof. rewrite <- (take_drop n l) at 1. apply StronglySorted_app_1_l. Qed.

Lemma StronglySorted_drop (l : list Z) n :
  StronglySorted Z.lt l → StronglySorted Z.lt (drop n l).
Proof. rewrite <- (take_drop n l) at 1. apply StronglySorted_app_1_r. Qed.

Lemma StronglySorted_take_drop (l : list Z) n x y :
  StronglySorted Z.lt l → x ∈ take n l → y ∈ drop n l → (x < y)%Z.
Proof. rewrite <- (take_drop n l) at 1. apply StronglySorted_app_1_elem_of. Qed.

Lemma StronglySorted_le_last (l : list Z) x y :
  StronglySorted Z.lt l → last l = Some y → x ∈ l → (x ≤ y)%Z.
Proof.
  intros Hs Hl Hx. destruct l as [|z l _] using rev_ind; [done|].
  rewrite last_snoc in Hl. simplify_eq.
  apply elem_of_app in Hx as [Hx|Hx%list_elem_of_singleton]; [|lia].
  assert (x < y)%Z; [|lia]. eapply StronglySorted_app_1_elem_of; eauto. constructor.
Qed.

Lemma StronglySorted_insert_at (l : list Z) (key : Z) pos :
  StronglySorted Z.lt l →
  Forall (λ x, (x < key)%Z) (take pos l) →
  Forall (λ x, (key < x)%Z) (drop pos l) →
  StronglySorted Z.lt (take pos l ++ key :: drop pos l).
Proof.
  intros Hs Hlt Hgt. rewrite Forall_forall in Hlt, Hgt.
  apply StronglySorted_app_2; [| by apply StronglySorted_take |].
  - intros x1 x2 Hx1 [->|Hx2]%elem_of_cons; [by apply Hlt|].
    specialize (Hlt _ Hx1). specialize (Hgt _ Hx2). lia.
  - constructor; [by apply StronglySorted_drop|]. by apply Forall_forall.
Qed.

Lemma StronglySorted_NoDup (l : list Z) : StronglySorted Z.lt l → NoDup l.
Proof.
  induction 1 as [|x l Hs IH Hx]; constructor; [|done].
  intros Hin. rewrite Forall_forall in Hx. specialize (Hx _ Hin). lia.
Qed.

Lemma last_lookup_pred {A} (l : list A) : last l = l !! (length l - 1).
Proof. rewrite last_lookup. f_equal. lia. Qed.

(** ** Searching a leaf *)

Lemma SearchKeyIndex_spec (this : LeafNode) (key : Z) :
  StronglySorted Z.lt (leaf_keys_ this) →
  let '(found, pos) := LeafNode_SearchKeyIndex this key in
  pos ≤ length (leaf_keys_ this) ∧
  Forall (λ x, (x < key)%Z) (take pos (leaf_keys_ this)) ∧
  (if found then leaf_keys_ this !! pos = Some key
   else Forall (λ x, (key < x)%Z) (drop pos (leaf_keys_ this))).
Proof.
  intros Hs. unfold LeafNode_SearchKeyIndex, Leaf_Size.
  set (ks := leaf_keys_ this) in *. set (pos := lower_bound ks (length ks) key).
  destruct (lower_bound_sorted ks (length ks) key) as (Hr&Hlo&Hhi);
    [done|by apply StronglySorted_sorted_upto|]. fold pos in Hr, Hlo, Hhi.
  split; [done|]. split.
  { apply Forall_forall. intros x [i Hi]%list_elem_of_lookup.
    apply lookup_take_Some in Hi as [Hi ?]. eauto. }
  destruct (bool_decide (pos < length ks) && bool_decide (ks !! pos = Some key)) eqn:E.
  - apply andb_true_iff in E as [_ E]. by apply bool_decide_eq_true in E.
  - apply Forall_forall. intros x [i Hi]%list_elem_of_lookup.
    rewrite lookup_drop in Hi.
    assert (key ≤ x)%Z by (apply (Hhi (pos + i) x); [lia|by apply lookup_lt_Some in Hi|done]).
    destruct (decide (i = 0)) as [->|Hne].
    + rewrite Nat.add_0_r in Hi. apply andb_false_iff in E as [E|E].
      * apply bool_decide_eq_false in E. apply lookup_lt_Some in Hi. lia.
      * apply bool_decide_eq_false in E. assert (x ≠ key) by congruence. lia.
    + destruct (lookup_lt_is_Some_2 ks pos) as [y Hy]; [apply lookup_lt_Some in Hi; lia|].
      assert (key ≤ y)%Z by (apply (Hhi pos y); [lia|by apply lookup_lt_Some in Hy|done]).
      assert (y < x)%Z; [|lia].
      apply (StronglySorted_sorted_upto ks (length ks) Hs pos (pos + i)); auto; try lia.
      by apply lookup_lt_Some in Hi.
Qed.

Lemma SearchKeyIndex_found (this : LeafNode) (key : Z) :
  StronglySorted Z.lt (leaf_keys_ this) →
  (LeafNode_SearchKeyIndex this key).1 = true ↔ key ∈ leaf_keys_ this.
Proof.
  intros Hs. pose proof (SearchKeyIndex_spec this key Hs) as H.
  destruct (LeafNode_SearchKeyIndex this key) as [found pos]. simpl.
  destruct H as (Hp&Hlt&Hf). destruct found.
  - split; [|done]. intros _. by eapply list_elem_of_lookup_2.
  - split; [done|]. intros Hin. exfalso.
    rewrite <- (take_drop pos (leaf_keys_ this)) in Hin.
    rewrite Forall_forall in Hlt, Hf.
    apply elem_of_app in Hin as [Hin|Hin]; [specialize (Hlt _ Hin)|specialize (Hf _ Hin)]; lia.
Qed.

(** ** Association lists with strictly increasing keys *)

Lemma entries_key_unique (E : list (Z * Z)) i j k v w :
  StronglySorted Z.lt E.*1 → E !! i = Some (k, v) → E !! j = Some (k, w) → i = j.
Proof.
  intros Hs%StronglySorted_NoDup Hi Hj.
  eapply NoDup_lookup; [done| |]; rewrite list_lookup_fmap; [by rewrite Hi|by rewrite Hj].
Qed.

Lemma entries_update (E : list (Z * Z)) pos key old val :
  StronglySorted Z.lt E.*1 → E !! pos = Some (key, old) →
  ∀ k v, (k, v) ∈ <[pos := (key, val)]> E ↔
         (k = key ∧ v = val) ∨ (k ≠ key ∧ (k, v) ∈ E).
Proof.
  intros Hs Hpos k v. assert (pos < length E) by (by apply lookup_lt_Some in Hpos).
  rewrite !list_elem_of_lookup. split.
  - intros [i Hi]. destruct (decide (i = pos)) as [->|Hne].
    + rewrite list_lookup_insert_eq in Hi by done. left. by simplify_eq.
    + rewrite list_lookup_insert_ne in Hi by done. right. split; [|eauto].
      intros ->. apply Hne. eapply entries_key_unique; eauto.
  - intros [[-> ->]|[Hne [i Hi]]].
    + exists pos. by rewrite list_lookup_insert_eq.
    + exists i. rewrite list_lookup_insert_ne; [done|]. intros ->. by simplify_eq.
Qed.

Lemma entries_insert (E : list (Z * Z)) pos key val :
  key ∉ E.*1 →
  ∀ k v, (k, v) ∈ take pos E ++ (key, val) :: drop pos E ↔
         (k = key ∧ v = val) ∨ (k ≠ key ∧ (k, v) ∈ E).
Proof.
  intros Hnot k v. rewrite elem_of_take_drop_insert. split.
  - intros [[= -> ->]|Hin]; [by left|]. right. split; [|done].
    intros ->. apply Hnot. apply list_elem_of_fmap. by exists (key, v).
  - intros [[-> ->]|[_ ?]]; auto.
Qed.

Lemma entries_delete (E : list (Z * Z)) pos key old :
  StronglySorted Z.lt E.*1 → E !! pos = Some (key, old) →
  ∀ k v, (k, v) ∈ delete pos E ↔ k ≠ key ∧ (k, v) ∈ E.
Proof.
  intros Hs Hpos k v. assert (pos < length E) by (by apply lookup_lt_Some in Hpos).
  rewrite !list_elem_of_lookup. split.
  - intros [i Hi]. rewrite list_lookup_delete in Hi.
    destruct (decide (i < pos)) as [Hlt|Hge].
    + split; [|eauto]. intros ->. assert (i = pos); [|lia]. eapply entries_key_unique; eauto.
    + split; [|eauto]. intros ->. assert (S i = pos); [|lia]. eapply entries_key_unique; eauto.
  - intros [Hne [i Hi]]. destruct (decide (i < pos)).
    + exists i. rewrite list_lookup_delete_lt; done.
    + assert (i ≠ pos) by (intros ->; by simplify_eq).
      exists (i - 1). rewrite list_lookup_delete_ge by lia. by replace (S (i - 1)) with i by lia.
Qed.

Lemma zip_take_drop_insert (ks vs : list Z) key val pos :
  length vs = length ks →
  zip (take pos ks ++ key :: drop pos ks) (take pos vs ++ val :: drop pos vs)
  = take pos (zip ks vs) ++ (key, val) :: drop pos (zip ks vs).
Proof.
  intros Hlen. rewrite zip_with_app by (rewrite !length_take; lia).
  simpl. by rewrite zip_with_take, zip_with_drop.
Qed.

Lemma zip_value_insert (ks vs : list Z) key val pos :
  ks !! pos = Some key →
  zip ks (<[pos := val]> vs) = <[pos := (key, val)]> (zip ks vs).
Proof.
  intros Hk. rewrite insert_zip_with. by rewrite (list_insert_id ks pos key).
Qed.

Lemma zip_delete (ks vs : list Z) pos :
  zip (delete pos ks) (delete pos vs) = delete pos (zip ks vs).
Proof.
  revert ks vs; induction pos as [|pos IH]; intros [|k ks] [|v vs]; simpl; try done.
  all: try by rewrite IH.
  all: by destruct ks.
Qed.

(** ** [Insert] at a leaf *)

Section Insert.

Variable L : nat.
Variable I : nat.
Hypothesis HL : 2 ≤ L.
Hypothesis HI : 3 ≤ I.
#[local] Set Default Proof Using "HL HI".

Lemma minL_bounds : 1 ≤ minL L ∧ minL L ≤ UNDERFLOW_BOUND L ∧
  UNDERFLOW_BOUND L + 1 ≤ L ∧ L - UNDERFLOW_BOUND L = minL L ∧
  2 * UNDERFLOW_BOUND L ≤ L + 1.
Proof. unfold minL, UNDERFLOW_BOUND. lia. Qed.

Lemma minI_bounds : 2 ≤ minI I ∧ minI I + 1 ≤ I ∧
  I + 1 - UNDERFLOW_BOUND (I + 1) = minI I ∧
  minI I ≤ UNDERFLOW_BOUND (I + 1) ∧ UNDERFLOW_BOUND (I + 1) ≤ I ∧
  2 * minI I ≤ I + 1.
Proof. unfold minI, UNDERFLOW_BOUND. lia. Qed.

Lemma LeafNode_Insert_spec mL mI lo hi key val this st :
  mL ≤ minL L →
  wf L I 0 mL mI lo hi (Leaf this) → within lo hi key →
  insert_spec L I 0 mL mI lo hi key val (Leaf this) st (LeafNode_Insert L key val this st).
Proof.
  intros HmL (Hlen&Hs&Hw&Hsz&Hlt) Hkey.
  pose proof minL_bounds as (?&?&?&?&?).
  unfold LeafNode_Insert.
  destruct (AcquireLatch _ _ st) as [depth st1] eqn:Eacq.
  assert (heap_next st1 = heap_next st ∧ heap_freed st1 = heap_freed st) as [Hn1 Hf1].
  { by pose proof (heap_AcquireLatch (latch_ (leaf_addr this)) EXCLUSIVE st) as Hh; rewrite Eacq in Hh. }
  set (st2 := if Leaf_Size this <? L then _ else _).
  assert (heap_next st2 = heap_next st ∧ heap_freed st2 = heap_freed st) as [Hn2 Hf2].
  { subst st2. destruct (_ <? _); heap_simpl; done. }
  clearbody st2. clear Eacq.
  pose proof (SearchKeyIndex_spec this key Hs) as Hsp.
  pose proof (SearchKeyIndex_found this key Hs) as Hfd.
  destruct (LeafNode_SearchKeyIndex this key) as [found pos]. simpl in Hfd.
  destruct Hsp as (Hpos&Hless&Hfound).
  destruct this as [a ks vs rs]; unfold Leaf_Size in *; simpl in *.
  assert ((zip ks vs).*1 = ks) as Hfst by (apply fst_zip; lia).
  destruct found.
  - (* the key is present: its value is overwritten *)
    assert (pos < length ks) by (by apply lookup_lt_Some in Hfound).
    destruct (lookup_lt_is_Some_2 vs pos) as [old Hold]; [lia|].
    split; simpl; heap_simpl; try done.
    + repeat split; auto; try lia. by rewrite length_insert.
    + intros k v. rewrite ?app_nil_r, !entries_Leaf.
      unfold leaf_entries; simpl. rewrite (zip_value_insert ks vs key val pos Hfound).
      apply (entries_update _ pos key old); [by rewrite Hfst|].
      by apply lookup_zip_Some.
    + rewrite Hn2, Nat.sub_diag. by simpl.
    + lia.
  - assert (key ∉ ks) as Hnotin by (intros ?%Hfd; done).
    assert (StronglySorted Z.lt (take pos ks ++ key :: drop pos ks)) as Hs'
      by (by apply StronglySorted_insert_at).
    assert (Forall (within lo hi) (take pos ks ++ key :: drop pos ks)) as Hw'.
    { apply Forall_forall. intros x [->|Hx]%elem_of_take_drop_insert; [done|].
      rewrite Forall_forall in Hw. auto. }
    assert (∀ k v, (k, v) ∈ take pos (zip ks vs) ++ (key, val) :: drop pos (zip ks vs)
              ↔ (k = key ∧ v = val) ∨ (k ≠ key ∧ (k, v) ∈ zip ks vs)) as Hent.
    { apply entries_insert. by rewrite Hfst. }
    destruct (length ks <? L) eqn:Efull.
    + (* room left: shift and insert *)
      apply Nat.ltb_lt in Efull.
      split; simpl; heap_simpl; try done.
      * repeat split; auto; rewrite ?length_app, ?length_take; simpl;
          rewrite ?length_drop; lia.
      * intros k v. rewrite ?app_nil_r, !entries_Leaf.
        unfold leaf_entries; simpl. rewrite zip_take_drop_insert by done. apply Hent.
      * rewrite Hn2, Nat.sub_diag. by simpl.
      * lia.
    + (* full: the upper half moves to a new right sibling *)
      apply Nat.ltb_ge in Efull. assert (length ks = L) as HL' by lia.
      unfold alloc, LeafNode_sibling. simpl.
      rewrite (take_ge ks L), (take_ge vs L) by lia.
      set (bi := UNDERFLOW_BOUND (length ks)).
      assert (bi = UNDERFLOW_BOUND L) as Hbi by (subst bi; by rewrite HL').
      set (m := if pos <? bi then S bi else bi).
      set (K' := take pos ks ++ key :: drop pos ks) in *.
      set (V' := take pos vs ++ val :: drop pos vs).
      assert (length K' = S L) as HK'.
      { subst K'. rewrite length_app, length_take; simpl. rewrite length_drop. lia. }
      assert (length V' = S L) as HV'.
      { subst V'. rewrite length_app, length_take; simpl. rewrite length_drop. lia. }
      assert (zip K' V' = take pos (zip ks vs) ++ (key, val) :: drop pos (zip ks vs)) as HE'
        by (by apply zip_take_drop_insert).
      assert ((if pos <? bi
               then (LeafNode_ShiftAndInsert (mkLeaf a (take bi ks) (take bi vs) (Some (heap_next st2))) key val pos,
                     mkLeaf (heap_next st2) (drop bi ks) (drop bi vs) rs)
               else (mkLeaf a (take bi ks) (take bi vs) (Some (heap_next st2)),
                     LeafNode_ShiftAndInsert (mkLeaf (heap_next st2) (drop bi ks) (drop bi vs) rs)
                       key val (pos - bi)))
              = (mkLeaf a (take m K') (take m V') (Some (heap_next st2)),
                 mkLeaf (heap_next st2) (drop m K') (drop m V') rs)) as ->.
      { pose proof (split_insert ks key pos bi ltac:(lia) ltac:(lia)) as Hk. cbv zeta in Hk.
        pose proof (split_insert vs val pos bi ltac:(lia) ltac:(lia)) as Hv. cbv zeta in Hv.
        fold m K' in Hk. fold m V' in Hv. unfold LeafNode_ShiftAndInsert. cbn [leaf_addr leaf_keys_ leaf_values_ leaf_right_sibl_].
        destruct (pos <? bi); injection Hk as Hk1 Hk2; injection Hv as Hv1 Hv2;
          by rewrite ?Hk1, ?Hk2, ?Hv1, ?Hv2. }
      assert (UNDERFLOW_BOUND L ≤ m ≤ UNDERFLOW_BOUND L + 1) as Hm
        by (subst m; destruct (pos <? bi); lia).
      assert (∃ b, last (take m K') = Some b) as [b Hb].
      { rewrite last_lookup_pred. apply lookup_lt_is_Some_2. rewrite length_take. lia. }
      assert (default 0%Z (take m K' !! (length (take m K') - 1)) = b) as Hrk
        by (by rewrite <- last_lookup_pred, Hb).
      cbv beta iota zeta. cbn [leaf_keys_]. rewrite Hrk.
      assert (b ∈ take m K') as Hbin.
      { rewrite last_lookup in Hb. by eapply list_elem_of_lookup_2. }
      assert (within lo hi b) as [Hb1 Hb2].
      { rewrite Forall_forall in Hw'. apply Hw'. rewrite <- (take_drop m K'). apply elem_of_app; auto. }
      assert (∃ x, x ∈ drop m K') as [x0 Hx0].
      { destruct (drop m K') as [|x0 ?] eqn:Ed; [|exists x0; constructor].
        apply (f_equal length) in Ed. rewrite length_drop in Ed. simpl in Ed. lia. }
      assert (∀ x, x ∈ drop m K' → (b < x)%Z) as Hgt.
      { intros x Hx. by eapply (StronglySorted_take_drop K' m). }
      split; simpl; heap_simpl; try done.
      * split.
        -- repeat split; simpl.
           ++ rewrite !length_take. lia.
           ++ by apply StronglySorted_take.
           ++ apply Forall_forall. intros x Hx. split.
              ** rewrite Forall_forall in Hw'. apply Hw'. rewrite <- (take_drop m K'). apply elem_of_app; auto.
              ** simpl. eapply StronglySorted_le_last; [|done|done]. by apply StronglySorted_take.
           ++ rewrite length_take. unfold minL in *. lia.
           ++ rewrite length_take. lia.
           ++ destruct lo; simpl in *; lia.
        -- repeat split; simpl.
           ++ rewrite !length_drop. lia.
           ++ by apply StronglySorted_drop.
           ++ apply Forall_forall. intros x Hx. split; [simpl; auto|].
              rewrite Forall_forall in Hw'. apply Hw'. rewrite <- (take_drop m K'). apply elem_of_app; auto.
           ++ rewrite length_drop. unfold minL in *. lia.
           ++ rewrite length_drop. lia.
           ++ specialize (Hgt _ Hx0). rewrite Forall_forall in Hw'.
              assert (within lo hi x0) as [_ ?].
              { apply Hw'. rewrite <- (take_drop m K'). apply elem_of_app; auto. }
              destruct hi; simpl in *; lia.
      * intros k v. rewrite ?app_nil_r, !entries_Leaf.
        unfold leaf_entries; simpl. rewrite <- zip_with_take, <- zip_with_drop, take_drop.
        rewrite HE'. apply Hent.
      * replace (S (heap_next st2) - heap_next st) with 1 by lia.
        simpl. by rewrite Hn2.
      * lia.
Qed.

End Insert.

(** ** Replacing a run of consecutive children *)

Lemma head_replace (A X X' B : list LeafNode) nxt :
  (∀ nxt, head_addr X' nxt = head_addr X nxt) →
  head_addr (A ++ X' ++ B) nxt = head_addr (A ++ X ++ B) nxt.
Proof. intros H. by rewrite !head_addr_app, H. Qed.

Lemma linked_replace (A X X' B : list LeafNode) nxt :
  (∀ nxt, head_addr X' nxt = head_addr X nxt) →
  (∀ nxt, linked X nxt → linked X' nxt) →
  linked (A ++ X ++ B) nxt → linked (A ++ X' ++ B) nxt.
Proof.
  intros Hh Hl. rewrite !linked_app, !head_addr_app, Hh. intros (?&?&?). auto.
Qed.

Lemma entries_replace (A X X' B : list (Z * Z)) key (R : Z → Z → Prop) :
  (∀ k v, (k, v) ∈ X' ↔ (k = key ∧ R k v) ∨ (k ≠ key ∧ (k, v) ∈ X)) →
  key ∉ A.*1 → key ∉ B.*1 →
  ∀ k v, (k, v) ∈ A ++ X' ++ B ↔ (k = key ∧ R k v) ∨ (k ≠ key ∧ (k, v) ∈ A ++ X ++ B).
Proof.
  intros HX HA HB k v. rewrite !elem_of_app, HX.
  assert (∀ (E : list (Z * Z)), key ∉ E.*1 → (k, v) ∈ E → k ≠ key) as Hne.
  { intros E HE Hin ->. apply HE. apply list_elem_of_fmap. by exists (key, v). }
  specialize (Hne A HA) as HneA. specialize (Hne B HB) as HneB. tauto.
Qed.

Lemma Permutation_replace {A} (P X X' S N : list A) :
  X' ≡ₚ X ++ N → P ++ X' ++ S ≡ₚ (P ++ X ++ S) ++ N.
Proof.
  intros ->. rewrite <- !(assoc_L (++)). do 2 apply Permutation_app_head.
  apply Permutation_app_comm.
Qed.

(** ** List surgery done by the node operations *)

Lemma insert_at_length {A} (l1 l2 : list A) x y n :
  n = length l1 → <[n := y]> (l1 ++ x :: l2) = l1 ++ y :: l2.
Proof. intros ->. by rewrite insert_app_r_alt, Nat.sub_diag by lia. Qed.

Lemma lookup_at_length {A} (l1 l2 : list A) x n :
  n = length l1 → (l1 ++ x :: l2) !! n = Some x.
Proof. intros ->. by rewrite list_lookup_middle. Qed.

Lemma take_at_length {A} (l1 l2 : list A) n :
  n = length l1 → take n (l1 ++ l2) = l1.
Proof. intros ->. apply take_app_length. Qed.

Lemma take_S_at_length {A} (l1 l2 : list A) x n :
  n = length l1 → take (n + 1) (l1 ++ x :: l2) = l1 ++ [x].
Proof.
  intros ->. rewrite (cons_middle x l1 l2), (assoc_L (++)).
  apply take_app_length'. rewrite length_app. simpl. lia.
Qed.

Lemma drop_S_at_length {A} (l1 l2 : list A) x n :
  n = length l1 → drop (n + 1) (l1 ++ x :: l2) = l2.
Proof.
  intros ->. rewrite (cons_middle x l1 l2), (assoc_L (++)).
  apply drop_app_length'. rewrite length_app. simpl. lia.
Qed.

Lemma delete_at_length {A} (l1 l2 : list A) x n :
  n = length l1 → delete n (l1 ++ x :: l2) = l1 ++ l2.
Proof. intros ->. apply delete_middle. Qed.

(** ** Descending into an internal node *)

Lemma seps_cons hi k ks :
  seps hi (k :: ks) = (if ks is [] then hi else Some k) :: seps hi ks.
Proof. by destruct ks. Qed.

Lemma lower_bound_loop_take fuel (a : list Z) N first len key :
  first + len ≤ N →
  lower_bound_loop fuel (take N a) first len key
  = lower_bound_loop fuel a first len key.
Proof.
  revert first len. induction fuel as [|fuel IH]; intros first len Hfl; simpl; [done|].
  destruct (len =? 0) eqn:E; [done|]. apply Nat.eqb_neq in E.
  rewrite lookup_take_lt by lia.
  destruct (a !! (first + len / 2)); [|done].
  destruct (_ <? _)%Z; apply IH; lia.
Qed.

Section Descent.

Variable L : nat.
Variable I : nat.
Hypothesis HL : 2 ≤ L.
Hypothesis HI : 3 ≤ I.
#[local] Set Default Proof Using "HL HI".

Lemma minI_pos : 1 ≤ minI I.
Proof. unfold minI, UNDERFLOW_BOUND. lia. Qed.

Lemma chain_prefix_keys h lo ks1 cs1 :
  chain (wf_reg L I h) lo (Some <$> ks1) cs1 →
  StronglySorted Z.lt (cs1 ≫= keys_of) ∧
  Forall (within lo (last_bound lo (Some <$> ks1))) (cs1 ≫= keys_of).
Proof.
  intros Hc. destruct (last ks1) as [x|] eqn:El.
  - rewrite <- (seps_sync x ks1 El) in Hc.
    rewrite last_bound_fmap, El. simpl.
    apply (chain_keys L I minI_pos h lo (Some x) ks1 cs1); [|by intros ->|done].
    intros ???. apply (wf_keys L I minI_pos). apply minI_pos.
  - apply last_None in El as ->. destruct cs1; [|done]. split; constructor.
Qed.

Lemma chain_suffix_keys h lo hi ks2 cs2 :
  chain (wf_reg L I h) lo (seps hi ks2) cs2 →
  StronglySorted Z.lt (cs2 ≫= keys_of) ∧ Forall (within lo hi) (cs2 ≫= keys_of).
Proof.
  intros Hc. destruct ks2 as [|k ks2].
  - destruct cs2; [|done]. split; constructor.
  - apply (chain_keys L I minI_pos h lo hi (k :: ks2) cs2); [|done|done].
    intros ???. apply (wf_keys L I minI_pos). apply minI_pos.
Qed.

Lemma descend h lo hi key ks cs :
  length ks = length cs → 1 ≤ length cs →
  chain (wf_reg L I h) lo (seps hi ks) cs →
  ∃ ks1 k ks2 cs1 c cs2 lo_c hi_c,
    focus L I h lo hi key ks cs (InternalNode_SearchChildIndex ks (length cs) key)
          ks1 k ks2 cs1 c cs2 lo_c hi_c.
Proof.
  intros Hlen Hpos Hc.
  set (t := InternalNode_SearchChildIndex ks (length cs) key).
  assert (StronglySorted Z.lt (take (length cs - 1) ks)) as Hsorted.
  { (* the separators increase: each is the bound of a non-empty range *)
    clear t. revert lo cs Hlen Hpos Hc.
    induction ks as [|k [|k' ks] IH]; intros lo cs Hlen Hpos Hc.
    - rewrite take_nil. constructor.
    - destruct cs as [|c [|]]; simpl in *; try done. constructor.
    - destruct cs as [|c cs]; [done|]. rewrite seps_cons2 in Hc. destruct Hc as [Hc1 Hc2].
      simpl in Hlen. replace (length (c :: cs) - 1) with (S (length cs - 1)) by (simpl; lia).
      rewrite firstn_cons. constructor.
      + apply (IH (Some k) cs); [simpl in *; lia|simpl in *; lia|done].
      + apply Forall_forall. intros x Hx.
        assert (Forall (within (Some k) hi) (cs ≫= keys_of) → True) as _ by done.
        (* x is a separator after k: compare through the chain *)
        clear IH.
        apply list_elem_of_lookup in Hx as [i Hi]. apply lookup_take_Some in Hi as [Hi Him].
        assert (∀ lo0 ks0 cs0 i x, chain (wf_reg L I h) lo0 (seps hi ks0) cs0 →
                  ks0 !! i = Some x → S i < length ks0 → olt lo0 (Some x)) as Haux.
        { clear -HL HI. intros lo0 ks0. revert lo0.
          induction ks0 as [|k0 [|k1 ks0] IH]; intros lo0 cs0 i x Hc Hi Hlt; [done|simpl in *; lia|].
          destruct cs0 as [|c0 cs0]; [done|]. rewrite seps_cons2 in Hc. destruct Hc as [Hc1 Hc2].
          pose proof (wf_reg_olt L I minI_pos _ _ _ _ Hc1) as Ho.
          destruct i as [|i]; [simpl in Hi; by simplify_eq|].
          eapply olt_trans; [done|]. eapply (IH (Some k0) cs0 i x); [done|done|simpl in *; lia]. }
        destruct (decide (S i < length (k' :: ks))) as [Hlt|Hge].
        * specialize (Haux (Some k) (k' :: ks) cs i x Hc2 Hi Hlt). done.
        * apply lookup_lt_Some in Hi as Hi'. simpl in *. lia. }
  destruct (lower_bound_sorted (take (length cs - 1) ks) (length cs - 1) key) as (Hr&Hlo&Hhi).
  { rewrite length_take. lia. }
  { by apply StronglySorted_sorted_upto. }
  assert (lower_bound (take (length cs - 1) ks) (length cs - 1) key = t) as Ht.
  { subst t. unfold InternalNode_SearchChildIndex, lower_bound.
    apply lower_bound_loop_take. lia. }
  rewrite Ht in Hr, Hlo, Hhi. clearbody t. clear Ht.
  assert (t < length cs) as Htc by lia.
  destruct (lookup_lt_is_Some_2 cs t Htc) as [c Hc_t].
  destruct (lookup_lt_is_Some_2 ks t ltac:(lia)) as [k Hk_t].
  pose proof (take_drop_middle cs t c Hc_t) as Hcs.
  pose proof (take_drop_middle ks t k Hk_t) as Hks.
  set (ks1 := take t ks) in *. set (ks2 := drop (S t) ks) in *.
  set (cs1 := take t cs) in *. set (cs2 := drop (S t) cs) in *.
  assert (length ks1 = t) by (subst ks1; rewrite length_take; lia).
  assert (length cs1 = t) by (subst cs1; rewrite length_take; lia).
  assert (length ks2 = length cs2) by (subst ks2 cs2; rewrite !length_drop; lia).
  set (lo_c := last_bound lo (Some <$> ks1)).
  set (hi_c := if ks2 is [] then hi else Some k).
  rewrite <- Hks, <- Hcs in Hc.
  rewrite seps_app, seps_cons in Hc by done. fold hi_c in Hc.
  apply chain_app in Hc as [Hpre [Hchild Hpost]]; [|by rewrite length_fmap; lia].
  fold lo_c in Hchild.
  assert (∀ x, x ∈ ks1 → (x < key)%Z) as Hless.
  { intros x [i Hi]%list_elem_of_lookup. subst ks1. apply lookup_take_Some in Hi as [Hi ?].
    apply (Hlo i x); [done|]. rewrite lookup_take_lt by lia. done. }
  assert (ks2 ≠ [] → (key ≤ k)%Z) as Hle.
  { intros Hne. apply (Hhi t k); [done| |].
    - destruct ks2 eqn:E; [done|]. subst ks2. apply (f_equal length) in E.
      rewrite length_drop in E. simpl in E. lia.
    - rewrite lookup_take_lt; [done|]. destruct ks2 eqn:E; [done|]. subst ks2.
      apply (f_equal length) in E. rewrite length_drop in E. simpl in E. lia. }
  exists ks1, k, ks2, cs1, c, cs2, lo_c, hi_c.
  split; auto.
  - intros [Ha Hb]. split.
    + subst lo_c. rewrite last_bound_fmap. destruct (last ks1) as [x|] eqn:El; simpl; [|done].
      apply Hless. rewrite last_lookup in El. by eapply list_elem_of_lookup_2.
    + subst hi_c. destruct ks2; [done|]. simpl. by apply Hle.
  - intros Hin. destruct (chain_prefix_keys h lo ks1 cs1 Hpre) as [_ Hw].
    rewrite Forall_forall in Hw. destruct (Hw _ Hin) as [_ Hb].
    rewrite last_bound_fmap in Hb. destruct (last ks1) as [x|] eqn:El; simpl in Hb.
    + assert (x < key)%Z; [|lia]. apply Hless. rewrite last_lookup in El. by eapply list_elem_of_lookup_2.
    + apply last_None in El. rewrite El in Hpre. destruct cs1; [|done]. by apply elem_of_nil in Hin.
  - intros Hin. destruct (chain_suffix_keys h hi_c hi ks2 cs2 Hpost) as [_ Hw].
    rewrite Forall_forall in Hw. destruct (Hw _ Hin) as [Ha _].
    subst hi_c. destruct ks2 as [|k2 ks2'] eqn:E.
    + destruct cs2; [|done]. by apply elem_of_nil in Hin.
    + simpl in Ha. assert (key ≤ k)%Z by (by apply Hle). lia.
Qed.

End Descent.

Lemma keys_of_bind (cs : list Node) : (cs ≫= entries).*1 = cs ≫= keys_of.
Proof.
  induction cs as [|c cs IH]; [done|]. rewrite !bind_cons, fmap_app. by rewrite IH.
Qed.

Lemma last_app_cons {A} (l1 l2 : list A) x : last (l1 ++ x :: l2) = last (x :: l2).
Proof.
  induction l1 as [|y l1 IH]; [done|]. rewrite <- app_comm_cons.
  rewrite <- IH. destruct (l1 ++ x :: l2) eqn:E; [|done].
  by apply app_eq_nil in E as [_ ?].
Qed.

Lemma last_take_lookup {A} (l : list A) n x :
  0 < n → l !! (n - 1) = Some x → last (take n l) = Some x.
Proof.
  intros Hn Hx. apply lookup_lt_Some in Hx as Hlt.
  rewrite last_lookup, length_take, Nat.min_l by lia.
  rewrite lookup_take_lt by lia. by replace (pred n) with (n - 1) by lia.
Qed.

Lemma last_drop {A} (l : list A) n : n < length l → last (drop n l) = last l.
Proof.
  intros Hn. rewrite <- (take_drop n l) at 2.
  destruct (drop n l) as [|x r] eqn:E.
  - apply (f_equal length) in E. rewrite length_drop in E. simpl in E. lia.
  - by rewrite last_app_cons.
Qed.

(** Cutting an internal node in two at [bi]. *)
Lemma chain_cut (P : obound → obound → Node → Prop) lo hi ks cs bi kb :
  length ks = length cs → 0 < bi → bi < length ks → ks !! (bi - 1) = Some kb →
  chain P lo (seps hi ks) cs →
  chain P lo (seps (Some kb) (take bi ks)) (take bi cs) ∧
  chain P (Some kb) (seps hi (drop bi ks)) (drop bi cs).
Proof.
  intros Hlen Hbi Hlt Hkb Hc.
  assert (last (take bi ks) = Some kb) as Hl by (by apply last_take_lookup).
  rewrite (seps_sync kb _ Hl).
  rewrite <- (take_drop bi ks), <- (take_drop bi cs) in Hc.
  rewrite seps_app in Hc.
  2: { intros E. apply (f_equal length) in E. rewrite length_drop in E. simpl in E. lia. }
  apply chain_app in Hc as [H1 H2]; [|rewrite length_fmap, !length_take; lia].
  split; [done|]. by rewrite last_bound_fmap, Hl in H2.
Qed.

Lemma bind_nil {A B} (f : A → list B) : [] ≫= f = [].
Proof. done. Qed.

Ltac ins_fields :=
  split; unfold ins_nodes; cbn [ins_node ins_split ins_st right boundary_key];
  heap_simpl;
  rewrite ?bind_cons, ?bind_nil, ?app_nil_r, ?entries_Internal, ?leaves_Internal,
    ?addrs_Internal.

Lemma Node_Insert_Internal (L I : nat) key val a ks cs rs st :
  Node_Insert L I key val (Internal a ks cs rs) st =
  let '(depth, st1) := AcquireLatch (latch_ a) EXCLUSIVE st in
  let st2 := if length cs <? I then ReleaseLatch depth EXCLUSIVE st1 else st1 in
  let t := InternalNode_SearchChildIndex ks (length cs) key in
  match cs !! t with
  | Some target =>
    InternalNode_Insert_return I a ks cs rs depth t (Node_Insert L I key val target st2)
  | None => mkInsertRet (Internal a ks cs rs) None st2
  end.
Proof.
  cbn [Node_Insert]. destruct (AcquireLatch _ _ st) as [depth st1].
  rewrite at_child_lookup. by destruct (cs !! _).
Qed.

Section InsertInternal.

Variable L : nat.
Variable I : nat.
Hypothesis HL : 2 ≤ L.
Hypothesis HI : 3 ≤ I.
#[local] Set Default Proof Using "HL HI".

Lemma insert_spec_state h mL mI lo hi key val n st st' r :
  heap_next st' = heap_next st → heap_freed st' = heap_freed st →
  insert_spec L I h mL mI lo hi key val n st r →
  insert_spec L I h mL mI lo hi key val n st' r.
Proof. intros Hn Hf [??????]. split; rewrite ?Hn, ?Hf; auto. Qed.

Lemma Insert_return_eq a ks1 k ks2 cs1 c cs2 rs depth t r :
  length ks1 = t → length cs1 = t →
  InternalNode_Insert_return I a (ks1 ++ k :: ks2) (cs1 ++ c :: cs2) rs depth t r =
  match ins_split r with
  | None =>
    mkInsertRet (Internal a (ks1 ++ k :: ks2) (cs1 ++ ins_node r :: cs2) rs) None
      (ReleaseLatch (depth + 1) EXCLUSIVE (ins_st r))
  | Some s =>
    let ks' := ks1 ++ boundary_key s :: k :: ks2 in
    let cs' := cs1 ++ ins_node r :: right s :: cs2 in
    if length cs' <=? I then
      mkInsertRet (Internal a ks' cs' rs) None
        (ReleaseLatchFromParent depth EXCLUSIVE (ins_st r))
    else
      let bi := UNDERFLOW_BOUND (length cs') in
      let new_addr := heap_next (ins_st r) in
      mkInsertRet (Internal a (take bi ks') (take bi cs') (Some new_addr))
        (Some (mkSplit (default 0%Z (ks' !! (bi - 1)))
           (Internal new_addr (drop bi (take (I + OVERFLOW_SIZE) ks'))
                     (drop bi (take (I + OVERFLOW_SIZE) cs')) rs)))
        (alloc (ins_st r)).2
  end.
Proof.
  intros Hk Hc. unfold InternalNode_Insert_return.
  rewrite (insert_at_length cs1 cs2 c) by done.
  destruct (ins_split r) as [s|]; [|done].
  rewrite (insert_at_length ks1 ks2 k) by done.
  rewrite (lookup_at_length ks1 ks2 k) by done. simpl default.
  unfold InternalNode_ShiftAndInsert.
  assert ((t + 1 <=? length (cs1 ++ ins_node r :: cs2)) = true) as ->.
  { apply Nat.leb_le. rewrite length_app. simpl. lia. }
  rewrite (take_S_at_length ks1 ks2) by done.
  rewrite (drop_S_at_length ks1 ks2) by done.
  rewrite (take_S_at_length cs1 cs2) by done.
  rewrite (drop_S_at_length cs1 cs2) by done.
  rewrite <- !(assoc_L (++)). simpl app. done.
Qed.

(** What the children of the node hold once the target child has
    absorbed the new entry; [cs'] is the children list after the call. *)
Lemma absorb_child h lo_c hi_c key val c st r (cs1 cs2 : list Node) :
  key ∉ cs1 ≫= keys_of → key ∉ cs2 ≫= keys_of →
  insert_spec L I h (minL L) (minI I) lo_c hi_c key val c st r →
  let cs := cs1 ++ c :: cs2 in
  let cs' := cs1 ++ ins_nodes r ++ cs2 in
  (∀ k v, (k, v) ∈ cs' ≫= entries ↔
          (k = key ∧ v = val) ∨ (k ≠ key ∧ (k, v) ∈ cs ≫= entries)) ∧
  (∀ nxt, head_addr (cs' ≫= leaves) nxt = head_addr (cs ≫= leaves) nxt) ∧
  (∀ nxt, linked (cs ≫= leaves) nxt → linked (cs' ≫= leaves) nxt) ∧
  cs' ≫= addrs ≡ₚ (cs ≫= addrs) ++ seq (heap_next st) (heap_next (ins_st r) - heap_next st).
Proof.
  intros Hpre Hpost [_ He Hh Hl Ha _ _ _] cs cs'. subst cs cs'.
  rewrite !bind_app, !bind_cons. split; [|split; [|split]].
  - apply (entries_replace _ (entries c) _ _ key (λ _ v, v = val)); [done| |];
      by rewrite keys_of_bind.
  - intros nxt. by apply head_replace.
  - intros nxt. by apply linked_replace.
  - by apply Permutation_replace.
Qed.

Lemma InternalNode_Insert_return_spec h mL mI lo hi key val a ks cs rs depth t st r
    ks1 k ks2 cs1 c cs2 lo_c hi_c :
  1 ≤ mI → mI ≤ minI I →
  wf L I (S h) mL mI lo hi (Internal a ks cs rs) →
  focus L I h lo hi key ks cs t ks1 k ks2 cs1 c cs2 lo_c hi_c →
  insert_spec L I h (minL L) (minI I) lo_c hi_c key val c st r →
  insert_spec L I (S h) mL mI lo hi key val (Internal a ks cs rs) st
    (InternalNode_Insert_return I a ks cs rs depth t r).
Proof.
  intros HmI1 HmI2 (Hlen&Hsz&_&Hsync) [-> -> Hk1 Hc1 Hlen2 Hlo Hhi Hpre Hchild Hpost _ Hnpre Hnpost] Hspec.
  pose proof (minI_bounds L I HL HI) as (?&?&?&?&?&?).
  pose proof (absorb_child h lo_c hi_c key val c st r cs1 cs2 Hnpre Hnpost Hspec) as HA.
  cbv zeta in HA. destruct HA as (HE&HH&HLk&HAd).
  destruct Hspec as [Hwf _ _ _ _ Hnext Hfreed _].
  rewrite Insert_return_eq by done. unfold ins_nodes in *.
  rewrite length_app in Hsz, Hlen. simpl in Hsz, Hlen.
  destruct (ins_split r) as [s|] eqn:Es.
  - (* the child split: one more separator and one more child *)
    destruct Hwf as [Hwl Hwr].
    set (ks' := ks1 ++ boundary_key s :: k :: ks2).
    set (cs' := cs1 ++ ins_node r :: right s :: cs2) in *.
    assert (length cs' = S (length cs1 + S (length cs2))) as Hlcs'.
    { subst cs'. rewrite length_app. simpl. lia. }
    assert (length ks' = length cs') as Hlks'.
    { subst ks'. rewrite Hlcs', length_app. simpl. lia. }
    assert (chain (wf_reg L I h) lo (seps hi ks') cs') as Hchain'.
    { subst ks' cs'. rewrite seps_app, seps_cons2, seps_cons by done.
      apply chain_app; [rewrite length_fmap; lia|]. split; [done|].
      rewrite <- Hlo, <- Hhi. simpl. auto. }
    assert (last ks' = last (ks1 ++ k :: ks2)) as Hlast.
    { subst ks'. rewrite !last_app_cons. by rewrite last_cons_cons. }
    cbv zeta. fold ks' cs'.
    destruct (length cs' <=? I) eqn:Efit.
    + apply Nat.leb_le in Efit.
      ins_fields; try done.
      * cbn [wf]. repeat split; auto; try lia. intros x Hx. rewrite Hlast. by apply Hsync.
      * by apply Permutation_skip.
    + apply Nat.leb_gt in Efit.
      assert (length cs' = I + 1) as HlenI by lia.
      unfold OVERFLOW_SIZE. rewrite (take_ge ks' (I + 1)), (take_ge cs' (I + 1)) by lia.
      rewrite HlenI.
      set (bi := UNDERFLOW_BOUND (I + 1)).
      assert (0 < bi ∧ bi < I + 1) as [Hbi1 Hbi2] by (subst bi; unfold minI in *; lia).
      destruct (lookup_lt_is_Some_2 ks' (bi - 1)) as [kb Hkb]; [lia|].
      rewrite Hkb. simpl default.
      destruct (chain_cut (wf_reg L I h) lo hi ks' cs' bi kb) as [Hcl Hcr]; auto; try lia.
      ins_fields; try done.
      * unfold wf_reg. cbn [wf]. split.
        -- repeat split; auto.
           ++ rewrite !length_take. lia.
           ++ rewrite length_take. subst bi. unfold minI in *. lia.
           ++ rewrite length_take. lia.
           ++ intros x [= <-]. apply last_take_lookup; [lia|done].
        -- repeat split; auto.
           ++ rewrite !length_drop. lia.
           ++ rewrite length_drop. subst bi. unfold minI in *. lia.
           ++ rewrite length_drop. lia.
           ++ intros x Hx. rewrite last_drop by lia. rewrite Hlast. by apply Hsync.
      * intros k0 v0. rewrite <- bind_app, take_drop. apply HE.
      * intros nxt. rewrite <- bind_app, take_drop. apply HH.
      * intros nxt. rewrite <- bind_app, take_drop. apply HLk.
      * change (heap_next (alloc (ins_st r)).2) with (S (heap_next (ins_st r))).
        replace (S (heap_next (ins_st r)) - heap_next st)
          with (S (heap_next (ins_st r) - heap_next st)) by lia.
        rewrite seq_S. replace (heap_next st + (heap_next (ins_st r) - heap_next st))
          with (heap_next (ins_st r)) by lia.
        rewrite <- Permutation_middle, (assoc_L (++)), <- Permutation_cons_append.
        apply Permutation_skip. rewrite <- !app_comm_cons. apply Permutation_skip.
        rewrite <- bind_app, take_drop. apply HAd.
      * change (heap_next (alloc (ins_st r)).2) with (S (heap_next (ins_st r))). lia.
  - (* no split below: only the child changed *)
    ins_fields; try done.
    + cbn [wf]. repeat split; auto.
      * rewrite !length_app. simpl. lia.
      * rewrite length_app. simpl. lia.
      * rewrite length_app. simpl. lia.
      * rewrite seps_app, seps_cons by done.
        apply chain_app; [rewrite length_fmap; lia|]. split; [done|].
        rewrite <- Hlo, <- Hhi. simpl. auto.
    + by apply Permutation_skip.
Qed.

Theorem Node_Insert_spec key val h : ∀ mL mI lo hi n st,
  mL ≤ minL L → 1 ≤ mI → mI ≤ minI I →
  wf L I h mL mI lo hi n → within lo hi key →
  insert_spec L I h mL mI lo hi key val n st (Node_Insert L I key val n st).
Proof.
  induction h as [|h IH]; intros mL mI lo hi [this|a ks cs rs] st HmL HmI1 HmI2 Hwf Hkey;
    try done.
  - by apply LeafNode_Insert_spec.
  - rewrite Node_Insert_Internal.
    destruct (AcquireLatch (latch_ a) EXCLUSIVE st) as [depth st1] eqn:Eacq.
    pose proof (heap_AcquireLatch (latch_ a) EXCLUSIVE st) as [Hn1 Hf1]. rewrite Eacq in Hn1, Hf1.
    simpl in Hn1, Hf1. cbv zeta.
    set (st2 := if length cs <? I then _ else _).
    assert (heap_next st2 = heap_next st ∧ heap_freed st2 = heap_freed st) as [Hn2 Hf2].
    { subst st2. destruct (_ <? _); heap_simpl; done. }
    clearbody st2.
    pose proof Hwf as (Hlen&Hsz&Hchain&Hsync).
    destruct (descend L I HL HI h lo hi key ks cs) as (ks1&k&ks2&cs1&c&cs2&lo_c&hi_c&Hfoc);
      [done|lia|done|].
    pose proof Hfoc as [Hks Hcs Hk1 Hc1 _ _ _ _ Hchild _ Hwithin _ _].
    assert (cs !! InternalNode_SearchChildIndex ks (length cs) key = Some c) as ->.
    { pose proof (lookup_at_length cs1 cs2 c _ (eq_sym Hc1)) as Hl. by rewrite <- Hcs in Hl. }
    apply (insert_spec_state _ _ _ _ _ _ _ _ st2); [done|done|].
    eapply InternalNode_Insert_return_spec; eauto.
    apply IH; auto. apply (minI_pos L I HL HI).
Qed.

End InsertInternal.

(** ** Search *)

Lemma Node_Search_Internal key value a ks cs rs st :
  Node_Search key value (Internal a ks cs rs) st =
  let '(depth, st1) := AcquireLatch (latch_ a) SHARE st in
  let st2 := ReleaseLatch depth SHARE st1 in
  match cs !! InternalNode_SearchChildIndex ks (length cs) key with
  | Some target => Node_Search key value target st2
  | None => (false, value, st2)
  end.
Proof.
  cbn [Node_Search]. destruct (AcquireLatch _ _ st) as [depth st1].
  rewrite at_child_lookup. by destruct (cs !! _).
Qed.

Section Search.

Variable L : nat.
Variable I : nat.
Hypothesis HL : 2 ≤ L.
Hypothesis HI : 3 ≤ I.
#[local] Set Default Proof Using "HL HI".

Lemma LeafNode_Search_spec key value this st mL mI lo hi :
  wf L I 0 mL mI lo hi (Leaf this) →
  search_spec key value (Leaf this) (LeafNode_Search key value this st).
Proof.
  intros (Hlen&Hs&_). unfold LeafNode_Search, search_spec.
  destruct (AcquireLatch _ _ st) as [depth st1].
  pose proof (SearchKeyIndex_spec this key Hs) as Hsp.
  pose proof (SearchKeyIndex_found this key Hs) as Hfd.
  destruct (LeafNode_SearchKeyIndex this key) as [found pos]. simpl in *.
  destruct Hsp as (Hpos&_&Hf). rewrite leaf_keys_of by done. rewrite entries_Leaf.
  destruct found.
  - left. split; [done|]. unfold leaf_entries.
    assert (pos < length (leaf_keys_ this)) by (by apply lookup_lt_Some in Hf).
    destruct (lookup_lt_is_Some_2 (leaf_values_ this) pos) as [v Hv]; [lia|].
    rewrite Hv. simpl. eapply list_elem_of_lookup_2. by apply lookup_zip_Some.
  - right. repeat split; auto. intros Hin. by apply Hfd in Hin.
Qed.

Theorem Node_Search_spec key value h : ∀ mL mI lo hi n st,
  1 ≤ mI → wf L I h mL mI lo hi n →
  search_spec key value n (Node_Search key value n st).
Proof.
  induction h as [|h IH]; intros mL mI lo hi [this|a ks cs rs] st HmI Hwf; try done.
  - by eapply LeafNode_Search_spec.
  - rewrite Node_Search_Internal.
    destruct (AcquireLatch (latch_ a) SHARE st) as [depth st1]. cbv zeta.
    pose proof Hwf as (Hlen&Hsz&Hchain&Hsync).
    destruct (descend L I HL HI h lo hi key ks cs) as (ks1&k&ks2&cs1&c&cs2&lo_c&hi_c&Hfoc);
      [done|lia|done|].
    pose proof Hfoc as [Hks Hcs Hk1 Hc1 _ _ _ _ Hchild _ _ Hnpre Hnpost].
    assert (cs !! InternalNode_SearchChildIndex ks (length cs) key = Some c) as ->.
    { pose proof (lookup_at_length cs1 cs2 c _ (eq_sym Hc1)) as Hl. by rewrite <- Hcs in Hl. }
    specialize (IH _ _ _ _ c (ReleaseLatch depth SHARE st1) (minI_pos L I HL HI) Hchild).
    unfold search_spec in *. rewrite entries_Internal, keys_of_Internal.
    replace (cs ≫= entries) with ((cs1 ++ c :: cs2) ≫= entries) by (by rewrite Hcs).
    replace (cs ≫= keys_of) with ((cs1 ++ c :: cs2) ≫= keys_of) by (by rewrite Hcs).
    rewrite !bind_app, !bind_cons.
    destruct IH as [[? ?]|(?&?&?)]; [left|right].
    + split; [done|]. rewrite !elem_of_app. auto.
    + repeat split; auto. rewrite !elem_of_app. tauto.
Qed.

End Search.

(** ** [Delete] at a leaf *)

Section Delete.

Variable L : nat.
Variable I : nat.
Hypothesis HL : 2 ≤ L.
Hypothesis HI : 3 ≤ I.
#[local] Set Default Proof Using "HL HI".

Lemma LeafNode_Delete_spec mL mI lo hi key this st :
  mL ≤ minL L →
  wf L I 0 mL mI lo hi (Leaf this) →
  delete_spec L I 0 mL mI lo hi key (Leaf this) st (LeafNode_Delete L key this st).
Proof.
  intros HmL (Hlen&Hs&Hw&Hsz&Hlt).
  pose proof (minL_bounds L I HL HI) as (?&?&?&?&?).
  unfold LeafNode_Delete.
  destruct (AcquireLatch _ _ st) as [depth st1] eqn:Eacq.
  assert (heap_next st1 = heap_next st ∧ heap_freed st1 = heap_freed st) as [Hn1 Hf1].
  { by pose proof (heap_AcquireLatch (latch_ (leaf_addr this)) EXCLUSIVE st) as Hh; rewrite Eacq in Hh. }
  set (st2 := if (_ >=? _)%Z then _ else _).
  assert (heap_next st2 = heap_next st ∧ heap_freed st2 = heap_freed st) as [Hn2 Hf2].
  { subst st2. destruct (_ >=? _)%Z; heap_simpl; done. }
  clearbody st2. clear Eacq.
  pose proof (SearchKeyIndex_spec this key Hs) as Hsp.
  pose proof (SearchKeyIndex_found this key Hs) as Hfd.
  destruct (LeafNode_SearchKeyIndex this key) as [found pos]. simpl in Hfd.
  destruct Hsp as (Hpos&Hless&Hfound).
  destruct this as [a ks vs rs]; unfold Leaf_Size in *; simpl in *.
  assert ((zip ks vs).*1 = ks) as Hfst by (apply fst_zip; lia).
  destruct found; cbn [negb orb].
  - (* present: the entry is removed *)
    assert (pos < length ks) as Hplt by (by apply lookup_lt_Some in Hfound).
    destruct (lookup_lt_is_Some_2 vs pos) as [old Hold]; [lia|].
    unfold LeafNode_DeleteIndex, Leaf_Size. cbn [leaf_keys_ leaf_values_ leaf_addr leaf_right_sibl_].
    assert (length (delete pos ks) = length ks - 1) as Hld.
    { rewrite length_delete; [done|]. by apply lookup_lt_is_Some_2. }
    assert (length (delete pos vs) = length ks - 1) as Hldv.
    { rewrite length_delete; [lia|]. apply lookup_lt_is_Some_2. lia. }
    assert (StronglySorted Z.lt (delete pos ks)) as Hsd.
    { rewrite delete_take_drop. rewrite <- (take_drop pos ks) in Hs.
      apply StronglySorted_app in Hs as (H12&Hs1&Hs2).
      apply StronglySorted_app_2; [|done|].
      - intros x1 x2 Hx1 Hx2. apply H12; [done|].
        rewrite <- (take_drop 1 (drop pos ks)), drop_drop, Nat.add_1_r.
        apply elem_of_app. by right.
      - rewrite <- Nat.add_1_r, <- drop_drop. by apply StronglySorted_drop. }
    assert (Forall (within lo hi) (delete pos ks)) as Hwd.
    { apply Forall_forall. intros x Hx%list_elem_of_delete_inv.
      rewrite Forall_forall in Hw. auto. }
    set (under := length (delete pos ks) <? UNDERFLOW_BOUND L).
    split; cbn [del_found del_node del_underflow del_st].
    + destruct under eqn:Eu; subst under.
      * apply Nat.ltb_lt in Eu. cbn [wf Node_Size UB_of leaf_keys_ leaf_values_].
        repeat split; auto; lia.
      * apply Nat.ltb_ge in Eu. cbn [wf leaf_keys_ leaf_values_].
        repeat split; auto; unfold minL in *; lia.
    + rewrite leaf_keys_of by done. simpl. split; [|done]. intros _.
      by eapply list_elem_of_lookup_2.
    + intros k v. rewrite !entries_Leaf. unfold leaf_entries; simpl.
      rewrite zip_delete. apply (entries_delete _ pos key old); [by rewrite Hfst|].
      by apply lookup_zip_Some.
    + done.
    + done.
    + exists []. rewrite !app_nil_r. split; [|done].
      destruct (negb under || false); heap_simpl; done.
    + destruct (negb under || false); heap_simpl; done.
    + done.
    + done.
  - (* absent: nothing changes *)
    split; cbn [del_found del_node del_underflow del_st negb orb]; heap_simpl; try done.
    + rewrite leaf_keys_of by done. simpl. split; [done|]. intros Hin. by apply Hfd.
    + intros k v. split; [|tauto]. intros Hin. split; [|done].
      intros ->. rewrite entries_Leaf in Hin. unfold leaf_entries in Hin; simpl in Hin.
      apply elem_of_zip_l in Hin. by apply Hfd in Hin.
    + exists []. rewrite !app_nil_r. by rewrite Hf2.
Qed.

End Delete.

(** ** Rebalancing two siblings *)

Section Balance.

Variable L : nat.
Variable I : nat.
Hypothesis HL : 2 ≤ L.
Hypothesis HI : 3 ≤ I.
#[local] Set Default Proof Using "HL HI".

Lemma within_lookup lo hi (ks : list Z) x :
  Forall (within lo hi) ks → x ∈ ks → above lo x ∧ below hi x.
Proof. rewrite Forall_forall. intros H Hx. by apply H. Qed.

Lemma lookup_snoc_last {A} (l : list A) x :
  (l ++ [x]) !! (length (l ++ [x]) - 1) = Some x.
Proof. rewrite length_app. simpl. apply lookup_at_length. lia. Qed.

Lemma LeafNode_Balance_spec lo k0 hi1 this right_sibling :
  balance_pre L I 0 lo k0 hi1 (Leaf this) (Leaf right_sibling) →
  balance_spec L I 0 lo hi1 (Leaf this) (Leaf right_sibling)
    (let '(merged, l, r, b) := LeafNode_Balance L this right_sibling k0 in
     (merged, Leaf l, Leaf r, b)).
Proof.
  intros ((Hlen&Hs&Hw&Hsz&Hlt)&(Hrlen&Hrs&Hrw&Hrsz&Hrlt)&Hsize).
  pose proof (minL_bounds L I HL HI) as (?&?&?&?&?).
  destruct this as [a ks vs rs], right_sibling as [ra rks rvs rrs].
  unfold LeafNode_Balance, Leaf_Size, reg_size, UB_of in *.
  cbn [Node_Size leaf_keys_ leaf_values_ leaf_addr leaf_right_sibl_] in *.
  assert (∀ x y, x ∈ ks → y ∈ rks → (x < y)%Z) as Hcross.
  { intros x y Hx Hy. destruct (within_lookup _ _ _ _ Hw Hx) as [_ ?].
    destruct (within_lookup _ _ _ _ Hrw Hy) as [? _]. simpl in *. lia. }
  assert (∀ x, x ∈ ks → above lo x ∧ below hi1 x) as Hkw.
  { intros x Hx. destruct (within_lookup _ _ _ _ Hw Hx) as [? ?]. split; [done|].
    eapply below_olt; eauto. }
  assert (∀ y, y ∈ rks → above lo y ∧ below hi1 y) as Hrkw.
  { intros y Hy. destruct (within_lookup _ _ _ _ Hrw Hy) as [? ?]. split; [|done].
    eapply above_olt; eauto. }
  destruct ((length ks <? UNDERFLOW_BOUND L) && (UNDERFLOW_BOUND L <? length rks)) eqn:E1.
  - (* borrow the leftmost entry of the right sibling *)
    apply andb_true_iff in E1 as [E1a%Nat.ltb_lt E1b%Nat.ltb_lt].
    destruct rks as [|x0 rks']; [simpl in *; lia|].
    destruct rvs as [|v0 rvs']; [simpl in *; lia|].
    unfold LeafNode_ShiftAndInsert, LeafNode_DeleteIndex, LEFTMOST_KEY.
    cbn [Node_GetKey leaf_keys_ leaf_values_ leaf_addr leaf_right_sibl_ lookup list_lookup default from_option id delete list_delete].
    simpl in Hrlen, Hrsz, E1b.
    rewrite (take_ge ks), (drop_ge ks), (take_ge vs), (drop_ge vs) by lia.
    apply StronglySorted_inv in Hrs as [Hrs' Hx0].
    rewrite Forall_forall in Hx0.
    assert (x0 ∈ x0 :: rks') as Hx0in by constructor.
    assert (above lo x0 ∧ below hi1 x0) as [Hx0a Hx0b] by (by apply Hrkw).
    destruct rks' as [|y0 rks'']; [simpl in *; lia|].
    assert (y0 ∈ y0 :: rks'') as Hy0in by constructor.
    assert (x0 < y0)%Z by (by apply Hx0).
    assert (above lo y0 ∧ below hi1 y0) as [_ Hy0b] by (apply Hrkw; by constructor).
    split; [done|]. split; [done|]. split; [|split; [|split; [|split; [|split]]]].
    + cbn [wf_reg wf leaf_keys_ leaf_values_]. unfold wf_reg; cbn [wf leaf_keys_ leaf_values_].
      repeat split.
      * rewrite !length_app. simpl. lia.
      * apply StronglySorted_app_2; [|done|repeat constructor].
        intros x1 x2 Hx1 ->%list_elem_of_singleton. by apply Hcross.
      * apply Forall_app. split.
        -- apply Forall_forall. intros x Hx. split; [by apply Hkw|]. simpl.
           specialize (Hcross x x0 Hx Hx0in). lia.
        -- repeat constructor; simpl; [done|lia].
      * rewrite length_app. simpl. unfold minL in *. lia.
      * rewrite length_app. simpl. lia.
      * destruct lo; simpl in *; [lia|done].
    + unfold wf_reg; cbn [wf leaf_keys_ leaf_values_]. repeat split.
      * simpl in *. lia.
      * done.
      * apply Forall_forall. intros y Hy. split; [simpl; by apply Hx0|].
        apply Hrkw. by constructor.
      * simpl in *. unfold minL in *. lia.
      * simpl in *. lia.
      * destruct hi1; simpl in *; [lia|done].
    + rewrite !entries_Leaf. unfold leaf_entries. cbn [leaf_keys_ leaf_values_].
      rewrite zip_with_app by lia. simpl. by rewrite <- (assoc_L (++)).
    + done.
    + intros nxt. simpl. tauto.
    + done.
  - destruct ((UNDERFLOW_BOUND L <? length ks) && (length rks <? UNDERFLOW_BOUND L)) eqn:E2.
    + (* lend the rightmost entry to the right sibling *)
      apply andb_true_iff in E2 as [E2a%Nat.ltb_lt E2b%Nat.ltb_lt].
      unfold LeafNode_ShiftAndInsert, LeafNode_DeleteIndex, RIGHTMOST_KEY, Leaf_Size.
      cbn [Node_GetKey Node_Size leaf_keys_ leaf_values_ leaf_addr leaf_right_sibl_].
      rewrite !take_0, !drop_0. simpl app.
      destruct ks as [|xl ks0 _] using rev_ind; [simpl in *; lia|].
      destruct vs as [|vl vs0 _] using rev_ind; [simpl in *; lia|].
      rewrite !length_app in *. change (length [xl]) with 1 in *.
      change (length [vl]) with 1 in *.
      replace (length ks0 + 1 - 1) with (length ks0) by lia.
      rewrite (lookup_at_length ks0 [] xl), (lookup_at_length vs0 [] vl),
        (delete_at_length ks0 [] xl), (delete_at_length vs0 [] vl) by lia.
      rewrite !app_nil_r. cbn [default from_option id].
      apply StronglySorted_app in Hs as (Hs12&Hs0&_).
      assert (xl ∈ ks0 ++ [xl]) as Hxlin by (apply elem_of_app; right; constructor).
      destruct (Hkw xl Hxlin) as [Hxla Hxlb].
      destruct (within_lookup _ _ _ _ Hw Hxlin) as [_ Hxlk0]. simpl in Hxlk0.
      destruct ks0 as [|b ks00 _] using rev_ind; [simpl in *; lia|].
      rewrite lookup_snoc_last. cbn [default from_option id].
      assert (b ∈ ks00 ++ [b]) as Hbin by (apply elem_of_app; right; constructor).
      assert (b < xl)%Z as Hbxl by (apply Hs12; [done|constructor]).
      assert (above lo b ∧ below hi1 b) as [Hba Hbb].
      { apply Hkw. apply elem_of_app. by left. }
      split; [done|]. split; [done|]. split; [|split; [|split; [|split; [|split]]]].
      * unfold wf_reg; cbn [wf leaf_keys_ leaf_values_]. repeat split.
        -- rewrite !length_app in *. simpl in *. lia.
        -- done.
        -- apply Forall_forall. intros x Hx. split.
           ++ apply Hkw. apply elem_of_app. by left.
           ++ simpl. by apply (StronglySorted_le_last (ks00 ++ [b]) x b); [|rewrite last_snoc|].
        -- rewrite !length_app in *. simpl in *. unfold minL in *. lia.
        -- rewrite !length_app in *. simpl in *. lia.
        -- destruct lo; simpl in *; [lia|done].
      * unfold wf_reg; cbn [wf leaf_keys_ leaf_values_]. repeat split.
        -- simpl. lia.
        -- constructor; [done|]. apply Forall_forall. intros y Hy. by apply Hcross.
        -- constructor.
           ++ split; [simpl; lia|done].
           ++ apply Forall_forall. intros y Hy. split; [|by apply Hrkw].
              simpl. specialize (Hcross xl y Hxlin Hy). lia.
        -- simpl. unfold minL in *. lia.
        -- simpl. lia.
        -- destruct hi1; simpl in *; [lia|done].
      * rewrite !entries_Leaf. unfold leaf_entries. cbn [leaf_keys_ leaf_values_].
        rewrite (zip_with_app _ (ks00 ++ [b]) [xl] vs0 [vl]) by (rewrite length_app in *; simpl in *; lia).
        simpl. by rewrite <- (assoc_L (++)).
      * done.
      * intros nxt. simpl. tauto.
      * done.
    + (* merge the right sibling into this node *)
      apply andb_false_iff in E1. apply andb_false_iff in E2.
      rewrite !Nat.ltb_ge in E1, E2.
      split; [done|]. split; [done|]. split; [|split; [|split; [|split; [|split]]]].
      * unfold wf_reg; cbn [wf leaf_keys_ leaf_values_]. repeat split.
        -- rewrite !length_app. lia.
        -- by apply StronglySorted_app_2.
        -- apply Forall_app. split; apply Forall_forall; intros x Hx; [by apply Hkw|by apply Hrkw].
        -- rewrite length_app. unfold minL in *. lia.
        -- rewrite length_app. lia.
        -- eapply olt_trans; eauto.
      * rewrite !entries_Leaf. unfold leaf_entries. cbn [leaf_keys_ leaf_values_].
        by rewrite zip_with_app by lia.
      * done.
      * intros nxt. simpl. tauto.
      * simpl. done.
      * done.
Qed.

Lemma wf_tighten h lo x m :
  wf_reg L I h lo (Some x) m →
  wf_reg L I h lo (Some (RIGHTMOST_KEY m)) m ∧ (RIGHTMOST_KEY m ≤ x)%Z.
Proof.
  pose proof (minL_bounds L I HL HI) as (?&_).
  unfold wf_reg.
  destruct h, m as [[la lks lvs lrs]|a ks cs rs]; cbn [wf leaf_keys_ leaf_values_]; try tauto.
  - intros (Hlen&Hs&Hw&Hsz&Hlt).
    unfold RIGHTMOST_KEY. cbn [Node_GetKey Node_Size leaf_keys_].
    rewrite <- last_lookup_pred.
    destruct lks as [|y lks0 _] using rev_ind; [simpl in *; lia|].
    rewrite last_snoc. cbn [default from_option id].
    assert (y ∈ lks0 ++ [y]) as Hy by (apply elem_of_app; right; constructor).
    destruct (within_lookup _ _ _ _ Hw Hy) as [Hya Hyb]. simpl in Hyb.
    split; [|done]. repeat split; try done; try lia.
    apply Forall_forall. intros z Hz. split.
    + by apply (within_lookup _ _ _ _ Hw Hz).
    + simpl. apply (StronglySorted_le_last (lks0 ++ [y]) z y); [done| |done].
      by rewrite last_snoc.
  - intros (Hlen&Hsz&Hc&Hsy).
    unfold RIGHTMOST_KEY. cbn [Node_GetKey Node_Size].
    rewrite <- Hlen, <- last_lookup_pred, (Hsy x eq_refl). cbn [default from_option id].
    split; [|lia]. split; [done|]. split; [lia|]. by split.
Qed.

Lemma chain_weaken_lo h lo lo' bs cs :
  ole lo' lo → chain (wf_reg L I h) lo bs cs → chain (wf_reg L I h) lo' bs cs.
Proof.
  intros Hle. destruct bs as [|b bs], cs as [|c cs]; simpl; try done.
  intros [? ?]. split; [|done]. by apply (wf_weaken_lo L I (minI_pos L I HL HI) h _ _ lo lo' b c).
Qed.

Lemma InternalNode_Balance_spec h lo k0 hi1 a ks cs rs ra rks rcs rrs :
  balance_pre L I (S h) lo k0 hi1 (Internal a ks cs rs) (Internal ra rks rcs rrs) →
  balance_spec L I (S h) lo hi1 (Internal a ks cs rs) (Internal ra rks rcs rrs)
    (InternalNode_Balance I a ks cs ra rks rcs rrs k0).
Proof.
  intros ((Hlen&Hsz&Hc&Hsy)&(Hrlen&Hrsz&Hrc&Hrsy)&Hsize).
  pose proof (minI_bounds L I HL HI) as (?&?&?&?&?&?).
  unfold InternalNode_Balance, reg_size, UB_of, minI in *.
  cbn [Node_Size] in *.
  specialize (Hsy k0 eq_refl).
  rewrite (seps_sync k0 ks Hsy) in Hc.
  assert (last_bound lo (Some <$> ks) = Some k0) as Hlb.
  { by rewrite last_bound_fmap, Hsy. }
  assert (rks ≠ []) as Hrne by (intros ->; simpl in *; unfold minI in *; lia).
  destruct ((length cs <? UNDERFLOW_BOUND I) && (UNDERFLOW_BOUND I <? length rcs)) eqn:E1.
  - (* borrow the leftmost child of the right sibling *)
    apply andb_true_iff in E1 as [E1a%Nat.ltb_lt E1b%Nat.ltb_lt].
    destruct rcs as [|moved rcs']; [simpl in *; lia|].
    destruct rks as [|rk0 rks']; [done|].
    unfold InternalNode_DeleteIndex. simpl in Hrlen, Hrsz, E1b.
    cbn [length Nat.ltb Nat.leb delete list_delete].
    assert (rks' ≠ []) as Hrne' by (intros ->; simpl in *; lia).
    rewrite seps_cons in Hrc. destruct rks' as [|rk1 rks'']; [done|].
    destruct Hrc as [Hmoved Hrc].
    apply wf_tighten in Hmoved as [Hmoved Hle].
    split; [done|]. split; [done|]. split; [|split; [|split; [|split; [|split]]]].
    + unfold wf_reg. cbn [wf]. split; [|split; [|split]].
      * rewrite !length_app. simpl. lia.
      * rewrite length_app. simpl. unfold minI in *. lia.
      * rewrite seps_snoc. apply chain_app; [by rewrite length_fmap|].
        split; [done|]. rewrite Hlb. simpl. done.
      * intros x [= <-]. by rewrite last_snoc.
    + unfold wf_reg. cbn [wf]. split; [|split; [|split]].
      * simpl in *. lia.
      * simpl in *. unfold minI in *. lia.
      * eapply chain_weaken_lo; [|done]. done.
      * intros x ->. specialize (Hrsy x eq_refl). by rewrite last_cons_cons in Hrsy.
    + rewrite !entries_Internal, !bind_app, !bind_cons, bind_nil, app_nil_r.
      by rewrite <- (assoc_L (++)).
    + intros nxt. rewrite !leaves_Internal, !bind_app, !bind_cons, bind_nil, app_nil_r.
      by rewrite <- (assoc_L (++)).
    + intros nxt. rewrite !leaves_Internal, !bind_app, !bind_cons, bind_nil, app_nil_r.
      by rewrite <- (assoc_L (++)).
    + rewrite !addrs_Internal, !bind_app, !bind_cons, bind_nil, app_nil_r.
      rewrite <- !app_comm_cons. apply Permutation_skip.
      rewrite <- (assoc_L (++)). apply Permutation_app_head.
      rewrite <- Permutation_middle. done.
  - destruct ((UNDERFLOW_BOUND I <? length cs) && (length rcs <? UNDERFLOW_BOUND I)) eqn:E2.
    + (* lend the rightmost child to the right sibling *)
      apply andb_true_iff in E2 as [E2a%Nat.ltb_lt E2b%Nat.ltb_lt].
      destruct cs as [|moved cs0 _] using rev_ind; [simpl in *; lia|].
      destruct ks as [|kl ks0 _] using rev_ind; [simpl in *; lia|].
      rewrite last_snoc in Hsy. injection Hsy as ->.
      rewrite !length_app in *. change (length [moved]) with 1 in *.
      change (length [k0]) with 1 in *.
      replace (length cs0 + 1 - 1) with (length cs0) by lia.
      rewrite (lookup_at_length cs0 [] moved) by done.
      rewrite (take_at_length cs0 [moved]) by done.
      rewrite (take_at_length ks0 [k0]) by lia.
      unfold InternalNode_ShiftAndInsert. cbn [Nat.leb].
      rewrite !take_0, !drop_0. cbn [app].
      rewrite fmap_app in Hc. apply chain_app in Hc as [Hc0 Hm]; [|rewrite length_fmap; lia].
      destruct ks0 as [|b ks00 _] using rev_ind; [simpl in *; lia|].
      assert (last_bound lo (Some <$> ks00 ++ [b]) = Some b) as Hlb0.
      { by rewrite last_bound_fmap, last_snoc. }
      rewrite Hlb0 in Hm. destruct Hm as [Hm _].
      unfold RIGHTMOST_KEY. cbn [Node_GetKey Node_Size].
      rewrite length_app in Hlen. simpl in Hlen.
      rewrite (lookup_at_length ks00 [] b) by lia. cbn [default from_option id].
      split; [done|]. split; [done|]. split; [|split; [|split; [|split; [|split]]]].
      * unfold wf_reg. cbn [wf]. split; [|split; [|split]].
        -- rewrite length_app. simpl. lia.
        -- unfold minI in *. lia.
        -- rewrite (seps_sync b) by (by rewrite last_snoc). done.
        -- intros x [= <-]. by rewrite last_snoc.
      * unfold wf_reg. cbn [wf]. split; [|split; [|split]].
        -- simpl. lia.
        -- simpl. unfold minI in *. lia.
        -- rewrite seps_cons. destruct rks as [|rk0 rks']; [done|]. split; done.
        -- intros x ->. specialize (Hrsy x eq_refl).
           destruct rks as [|rk0 rks']; [done|]. by rewrite last_cons_cons.
      * rewrite !entries_Internal, !bind_app, !bind_cons, bind_nil, app_nil_r.
        by rewrite <- (assoc_L (++)).
      * intros nxt. rewrite !leaves_Internal, !bind_app, !bind_cons, bind_nil, app_nil_r.
        by rewrite <- (assoc_L (++)).
      * intros nxt. rewrite !leaves_Internal, !bind_app, !bind_cons, bind_nil, app_nil_r.
        by rewrite <- (assoc_L (++)).
      * rewrite !addrs_Internal, !bind_app, !bind_cons, bind_nil, app_nil_r.
        rewrite <- !app_comm_cons. apply Permutation_skip.
        rewrite <- (assoc_L (++)). apply Permutation_app_head.
        rewrite <- Permutation_middle. done.
    + (* merge the right sibling into this node *)
      apply andb_false_iff in E1. apply andb_false_iff in E2.
      rewrite !Nat.ltb_ge in E1, E2.
      split; [done|]. split; [done|]. split; [|split; [|split; [|split; [|split]]]].
      * unfold wf_reg. cbn [wf]. split; [|split; [|split]].
        -- rewrite !length_app. lia.
        -- rewrite length_app. unfold minI in *. lia.
        -- rewrite seps_app by done. apply chain_app; [rewrite length_fmap; lia|].
           split; [done|]. by rewrite Hlb.
        -- intros x ->. specialize (Hrsy x eq_refl).
           destruct rks as [|rk0 rks' _] using rev_ind; [done|].
           rewrite (assoc_L (++)), last_snoc. by rewrite last_snoc in Hrsy.
      * by rewrite !entries_Internal, bind_app.
      * intros nxt. by rewrite !leaves_Internal, bind_app.
      * intros nxt. by rewrite !leaves_Internal, bind_app.
      * rewrite !addrs_Internal, bind_app. rewrite <- !app_comm_cons.
        apply Permutation_skip. rewrite <- (assoc_L (++)). apply Permutation_app_head.
        apply Permutation_cons_append.
      * done.
Qed.

End Balance.

(** ** Deleting below an internal node *)

Lemma Node_Delete_Internal (L I : nat) key a ks cs rs st :
  Node_Delete L I key (Internal a ks cs rs) st =
  let '(depth, st1) := AcquireLatch (latch_ a) EXCLUSIVE st in
  let st2 := if (Z.of_nat (length cs) - 1 >=? Z.of_nat (UNDERFLOW_BOUND I))%Z
             then ReleaseLatch depth EXCLUSIVE st1 else st1 in
  let t := InternalNode_SearchChildIndex ks (length cs) key in
  match cs !! t with
  | Some target =>
    InternalNode_Delete_return L I a ks cs rs depth t (Node_Delete L I key target st2)
  | None => mkDeleteRet false (Internal a ks cs rs) false st2
  end.
Proof.
  cbn [Node_Delete]. destruct (AcquireLatch _ _ st) as [depth st1].
  rewrite at_child_lookup. by destruct (cs !! _).
Qed.

Section DeleteInternal.

Variable L : nat.
Variable I : nat.
Hypothesis HL : 2 ≤ L.
Hypothesis HI : 3 ≤ I.
#[local] Set Default Proof Using "HL HI".

Lemma Node_Balance_spec h lo k0 hi1 left right_ :
  balance_pre L I h lo k0 hi1 left right_ →
  balance_spec L I h lo hi1 left right_ (Node_Balance L I left right_ k0).
Proof.
  intros Hpre. pose proof Hpre as (Hl&Hr&_).
  destruct h, left as [l|a ks cs rs], right_ as [r|ra rks rcs rrs]; try done.
  - by apply LeafNode_Balance_spec.
  - by apply InternalNode_Balance_spec.
Qed.

(** The branch of [InternalNode::Delete] taken when the target child
    reports an underflow: the two children around the boundary are
    [cl] and [cr]. *)
Lemma Delete_return_eq a ksA kl kr ksB csA cl cr csB rs depth t r cs :
  length ksA = length csA →
  <[t := del_node r]> cs = csA ++ cl :: cr :: csB →
  (if 1 <=? t then t - 1 else t) = length csA →
  del_found r = true → del_underflow r = true →
  let res := InternalNode_Delete_return L I a (ksA ++ kl :: kr :: ksB) cs rs depth t r in
  let '(merged, cl', cr', b') := Node_Balance L I cl cr kl in
  del_found res = true ∧ heap_next (del_st res) = heap_next (del_st r) ∧
  if (merged : bool) then
    del_node res = Internal a (ksA ++ kr :: ksB) (csA ++ cl' :: csB) rs ∧
    del_underflow res = (length (csA ++ cl' :: csB) <? UNDERFLOW_BOUND I) ∧
    heap_freed (del_st res) = heap_freed (del_st r) ++ freed_by_merge cr'
  else
    del_node res = Internal a (ksA ++ b' :: kr :: ksB) (csA ++ cl' :: cr' :: csB) rs ∧
    del_underflow res = false ∧
    heap_freed (del_st res) = heap_freed (del_st r).
Proof.
  intros Hlen Hcs Hbi Hfound Hunder res. subst res.
  unfold InternalNode_Delete_return. rewrite Hfound, Hunder. cbn [negb orb].
  rewrite Hcs.
  assert ((length (csA ++ cl :: cr :: csB) <=? 1) = false) as ->.
  { apply Nat.leb_gt. rewrite length_app. simpl. lia. }
  rewrite Hbi.
  rewrite (lookup_at_length csA (cr :: csB) cl) by done.
  rewrite (cons_middle cl csA (cr :: csB)), (assoc_L (++)).
  rewrite (lookup_at_length (csA ++ [cl]) csB cr) by (rewrite length_app; simpl; lia).
  assert (∃ sibling, ((csA ++ [cl]) ++ cr :: csB)
            !! (if 1 <=? t then t - 1 else t + 1) = Some sibling) as [sibling ->].
  { apply lookup_lt_is_Some_2. rewrite !length_app. cbn [length].
    revert Hbi. destruct (1 <=? t) eqn:E.
    - lia.
    - apply Nat.leb_gt in E. lia. }
  rewrite (lookup_at_length ksA (kr :: ksB) kl) by done. cbn [default from_option id].
  destruct (Node_Balance L I cl cr kl) as [[[merged cl'] cr'] b'].
  rewrite (insert_at_length (csA ++ [cl]) csB cr) by (rewrite length_app; simpl; lia).
  rewrite <- (assoc_L (++)). cbn [app].
  rewrite (insert_at_length csA (cr' :: csB) cl) by done.
  set (st1 := if bool_decide _ then _ else _).
  assert (heap_next st1 = heap_next (del_st r) ∧ heap_freed st1 = heap_freed (del_st r))
    as [Hn1 Hf1].
  { subst st1. destruct (bool_decide _); heap_simpl; done. }
  clearbody st1.
  destruct merged; cbn [negb].
  - rewrite (cons_middle kl ksA (kr :: ksB)), (assoc_L (++)).
    rewrite (lookup_at_length (ksA ++ [kl]) ksB kr) by (rewrite length_app; simpl; lia).
    cbn [default from_option id].
    rewrite (insert_at_length (ksA ++ [kl]) ksB kr) by (rewrite length_app; simpl; lia).
    rewrite <- (assoc_L (++)). cbn [app].
    rewrite (insert_at_length ksA (kl :: ksB) kl) by done.
    unfold InternalNode_DeleteIndex.
    assert ((length csA + 1 <? length (csA ++ cl' :: cr' :: csB)) = true) as ->.
    { apply Nat.ltb_lt. rewrite length_app. simpl. lia. }
    rewrite (cons_middle kr ksA (kl :: ksB)), (assoc_L (++)).
    rewrite (delete_at_length (ksA ++ [kr]) ksB kl) by (rewrite length_app; simpl; lia).
    rewrite (cons_middle cl' csA (cr' :: csB)), (assoc_L (++)).
    rewrite (delete_at_length (csA ++ [cl']) csB cr') by (rewrite length_app; simpl; lia).
    rewrite <- !(assoc_L (++)). cbn [app].
    set (u := length _ <? _).
    split; [done|]. split.
    + destruct u; cbn [negb del_st]; heap_simpl; simpl; done.
    + split; [done|]. split; [done|].
      destruct u; cbn [negb del_st]; heap_simpl; simpl; by rewrite Hf1.
  - split; [done|]. split; [cbn [del_st]; heap_simpl; done|].
    rewrite (insert_at_length ksA (kr :: ksB) kl) by done.
    split; [done|]. split; [done|]. cbn [del_st]. heap_simpl. done.
Qed.

Lemma rebalance_spec h mL mI lo hi key a ksA kl kr ksB csA cl0 cr0 cl cr csB
    rs depth t st r cs :
  2 ≤ mI → mI ≤ minI I →
  cs = csA ++ cl0 :: cr0 :: csB →
  <[t := del_node r]> cs = csA ++ cl :: cr :: csB →
  (if 1 <=? t then t - 1 else t) = length csA →
  length ksA = length csA → length ksB = length csB →
  mI ≤ length cs ≤ I →
  sync hi (ksA ++ kl :: kr :: ksB) →
  chain (wf_reg L I h) lo (Some <$> ksA) csA →
  chain (wf_reg L I h) (if ksB is [] then hi else Some kr) (seps hi ksB) csB →
  key ∉ csA ≫= keys_of → key ∉ csB ≫= keys_of →
  balance_pre L I h (last_bound lo (Some <$> ksA)) kl
    (if ksB is [] then hi else Some kr) cl cr →
  (∀ k v, (k, v) ∈ entries cl ++ entries cr ↔
          k ≠ key ∧ (k, v) ∈ entries cl0 ++ entries cr0) →
  (∀ nxt, head_addr (leaves cl ++ leaves cr) nxt
          = head_addr (leaves cl0 ++ leaves cr0) nxt) →
  (∀ nxt, linked (leaves cl0 ++ leaves cr0) nxt → linked (leaves cl ++ leaves cr) nxt) →
  (∃ fr, heap_freed (del_st r) = heap_freed st ++ fr ∧
         addrs cl0 ++ addrs cr0 ≡ₚ (addrs cl ++ addrs cr) ++ fr) →
  heap_next (del_st r) = heap_next st →
  key ∈ keys_of cl0 ++ keys_of cr0 →
  del_found r = true → del_underflow r = true →
  delete_spec L I (S h) mL mI lo hi key (Internal a (ksA ++ kl :: kr :: ksB) cs rs) st
    (InternalNode_Delete_return L I a (ksA ++ kl :: kr :: ksB) cs rs depth t r).
Proof.
  intros HmI1 HmI2 Hcs Hins Hbi Hlen HlenB Hsz Hsync HpreA HpostB HnA HnB Hpre
    HE HH HLk (fr&Hfr&HAd) Hnext Hkey Hfound Hunder.
  pose proof (minI_bounds L I HL HI) as (?&?&?&?&?&?).
  pose proof (Delete_return_eq a ksA kl kr ksB csA cl cr csB rs depth t r cs
                Hlen Hins Hbi Hfound Hunder) as Heq.
  cbv zeta in Heq.
  pose proof (Node_Balance_spec h _ kl _ cl cr Hpre) as Hbal.
  set (res := InternalNode_Delete_return _ _ _ _ _ _ _ _ _) in *. clearbody res.
  destruct (Node_Balance L I cl cr kl) as [[[merged cl'] cr'] b'].
  destruct Heq as (Hf&Hn&Hrest). destruct Hbal as (Ha1&Ha2&Hbal).
  set (hiR := if ksB is [] then hi else Some kr) in *.
  assert (length cs = length csA + 2 + length csB) as Hlcs.
  { rewrite Hcs, length_app. simpl. lia. }
  assert (∀ X : list (Z * Z), (∀ k v, (k, v) ∈ X ↔ (k, v) ∈ entries cl ++ entries cr) →
     ∀ k v, (k, v) ∈ (csA ≫= entries) ++ X ++ (csB ≫= entries) ↔
            k ≠ key ∧ (k, v) ∈ cs ≫= entries) as HEall.
  { intros X HX k v. rewrite Hcs, bind_app, !bind_cons, (assoc_L (++) (entries cl0)).
    pose proof (entries_replace (csA ≫= entries) (entries cl0 ++ entries cr0) X
                  (csB ≫= entries) key (λ _ _, False)) as Hrep.
    rewrite Hrep; [tauto| |by rewrite keys_of_bind|by rewrite keys_of_bind].
    intros k' v'. rewrite HX, HE. tauto. }
  assert (∀ X : list LeafNode,
     (∀ nxt, head_addr X nxt = head_addr (leaves cl ++ leaves cr) nxt) →
     ∀ nxt, head_addr ((csA ≫= leaves) ++ X ++ (csB ≫= leaves)) nxt
            = head_addr (cs ≫= leaves) nxt) as HHall.
  { intros X HX nxt. rewrite Hcs, bind_app, !bind_cons, (assoc_L (++) (leaves cl0)).
    apply head_replace. intros nxt'. by rewrite HX, HH. }
  assert (∀ X : list LeafNode,
     (∀ nxt, head_addr X nxt = head_addr (leaves cl ++ leaves cr) nxt) →
     (∀ nxt, linked (leaves cl ++ leaves cr) nxt → linked X nxt) →
     ∀ nxt, linked (cs ≫= leaves) nxt →
            linked ((csA ≫= leaves) ++ X ++ (csB ≫= leaves)) nxt) as HLall.
  { intros X HX HXl nxt. rewrite Hcs, bind_app, !bind_cons, (assoc_L (++) (leaves cl0)).
    apply linked_replace.
    - intros nxt'. by rewrite HX, HH.
    - intros nxt' Hl. by apply HXl, HLk. }
  assert (last (ksA ++ kr :: ksB) = last (ksA ++ kl :: kr :: ksB)) as Hlast.
  { rewrite !last_app_cons. by rewrite last_cons_cons. }
  assert (key ∈ keys_of (Internal a (ksA ++ kl :: kr :: ksB) cs rs)) as Hin.
  { rewrite keys_of_Internal, Hcs, bind_app, !bind_cons, !elem_of_app.
    apply elem_of_app in Hkey. tauto. }
  destruct merged.
  - destruct Hrest as (Hnode&Hu&Hfreed). destruct Hbal as (Hwf&He&Hh&Hl&Hp&Hfm).
    assert (wf L I (S h) (mI - 1) (mI - 1) lo hi (del_node res) ∧
            length (csA ++ cl' :: csB) = length cs - 1) as [Hwfres Hlres].
    { rewrite Hnode. split; [|rewrite length_app; simpl; lia].
      cbn [wf]. split; [|split; [|split]].
      - rewrite !length_app. simpl. lia.
      - rewrite length_app. simpl. lia.
      - rewrite seps_app, seps_cons by done. fold hiR.
        apply chain_app; [by rewrite length_fmap|]. split; [done|]. split; done.
      - intros x Hx. rewrite Hlast. by apply Hsync. }
    split.
    + rewrite Hu. destruct (_ <? _) eqn:Eu.
      * apply Nat.ltb_lt in Eu. split; [|split; [|done]].
        -- eapply wf_size; [exact Hwfres|]. rewrite Hnode. cbn [Node_Size]. lia.
        -- rewrite Hnode. done.
      * apply Nat.ltb_ge in Eu.
        eapply wf_size; [exact Hwfres|]. rewrite Hnode. cbn [Node_Size].
        unfold minI in *. lia.
    + by rewrite Hf.
    + rewrite Hnode, !entries_Internal, bind_app, bind_cons.
      apply HEall. intros k v. by rewrite He.
    + rewrite Hnode, !leaves_Internal, bind_app, bind_cons. by apply HHall.
    + rewrite Hnode, !leaves_Internal, bind_app, bind_cons. by apply HLall.
    + exists (fr ++ [node_addr cr]). split.
      * by rewrite Hfreed, Hfr, Hfm, (assoc_L (++)).
      * rewrite Hnode, !addrs_Internal, Hcs, !bind_app, !bind_cons.
        rewrite <- !app_comm_cons. apply Permutation_skip.
        rewrite (assoc_L (++) (addrs cl0)), HAd, Hp.
        rewrite <- !(assoc_L (++)). apply Permutation_app_head.
        apply Permutation_app_head.
        rewrite (assoc_L (++) [node_addr cr]).
        rewrite (Permutation_app_comm ([node_addr cr] ++ fr) (csB ≫= addrs)).
        apply Permutation_app_head. apply Permutation_app_comm.
    + by rewrite Hn.
    + by rewrite Hnode.
    + by rewrite Hf.
  - destruct Hrest as (Hnode&Hu&Hfreed). destruct Hbal as (Hwl&Hwr&He&Hh&Hl&Hp).
    split.
    + rewrite Hu, Hnode. cbn [wf]. split; [|split; [|split]].
      * rewrite !length_app. simpl. lia.
      * rewrite length_app. simpl. lia.
      * rewrite seps_app, seps_cons2, seps_cons by done. fold hiR.
        apply chain_app; [by rewrite length_fmap|]. split; [done|]. split; [done|].
        split; done.
      * intros x Hx. rewrite !last_app_cons, !last_cons_cons.
        specialize (Hsync x Hx). by rewrite !last_app_cons, !last_cons_cons in Hsync.
    + by rewrite Hf.
    + rewrite Hnode, !entries_Internal, bind_app, !bind_cons, (assoc_L (++) (entries cl')).
      apply HEall. intros k v. by rewrite He.
    + rewrite Hnode, !leaves_Internal, bind_app, !bind_cons, (assoc_L (++) (leaves cl')).
      by apply HHall.
    + rewrite Hnode, !leaves_Internal, bind_app, !bind_cons, (assoc_L (++) (leaves cl')).
      by apply HLall.
    + exists fr. split; [by rewrite Hfreed|].
      rewrite Hnode, !addrs_Internal, Hcs, !bind_app, !bind_cons.
      rewrite <- !app_comm_cons. apply Permutation_skip.
      rewrite (assoc_L (++) (addrs cl0)), HAd, <- Hp.
      rewrite <- !(assoc_L (++)). do 3 apply Permutation_app_head.
      apply Permutation_app_comm.
    + by rewrite Hn.
    + by rewrite Hnode.
    + by rewrite Hf.
Qed.

Lemma wf_reg_size h lo hi n : wf_reg L I h lo hi n → reg_size L I n.
Proof.
  unfold wf_reg, reg_size. destruct h, n; cbn [wf Node_Size]; try done.
  - intros (?&?&?&?&?). lia.
  - intros (?&?&?&?). lia.
Qed.

Lemma delete_spec_state h mL mI lo hi key n st st' r :
  heap_next st' = heap_next st → heap_freed st' = heap_freed st →
  delete_spec L I h mL mI lo hi key n st r →
  delete_spec L I h mL mI lo hi key n st' r.
Proof. intros Hn Hf [?????????]. split; rewrite ?Hn, ?Hf; auto. Qed.

(** The target child next to an untouched sibling [s]. *)
Lemma pair_target_left h mL mI lo hi key c st r s :
  delete_spec L I h mL mI lo hi key c st r → key ∉ keys_of s →
  (∀ k v, (k, v) ∈ entries (del_node r) ++ entries s ↔
          k ≠ key ∧ (k, v) ∈ entries c ++ entries s) ∧
  (∀ nxt, head_addr (leaves (del_node r) ++ leaves s) nxt
          = head_addr (leaves c ++ leaves s) nxt) ∧
  (∀ nxt, linked (leaves c ++ leaves s) nxt →
          linked (leaves (del_node r) ++ leaves s) nxt) ∧
  (∃ fr, heap_freed (del_st r) = heap_freed st ++ fr ∧
         addrs c ++ addrs s ≡ₚ (addrs (del_node r) ++ addrs s) ++ fr).
Proof.
  intros [_ _ He Hh Hl (fr&Hfr&Hp) _ _ _] Hs. split; [|split; [|split]].
  - intros k v. rewrite !elem_of_app, He.
    assert ((k, v) ∈ entries s → k ≠ key); [|tauto].
    intros Hin ->. apply Hs. apply list_elem_of_fmap. by exists (key, v).
  - intros nxt. by rewrite !head_addr_app, Hh.
  - intros nxt. rewrite !linked_app. intros [? ?]. auto.
  - exists fr. split; [done|]. rewrite Hp, <- !(assoc_L (++)).
    apply Permutation_app_head, Permutation_app_comm.
Qed.

Lemma pair_target_right h mL mI lo hi key c st r s :
  delete_spec L I h mL mI lo hi key c st r → key ∉ keys_of s →
  (∀ k v, (k, v) ∈ entries s ++ entries (del_node r) ↔
          k ≠ key ∧ (k, v) ∈ entries s ++ entries c) ∧
  (∀ nxt, head_addr (leaves s ++ leaves (del_node r)) nxt
          = head_addr (leaves s ++ leaves c) nxt) ∧
  (∀ nxt, linked (leaves s ++ leaves c) nxt →
          linked (leaves s ++ leaves (del_node r)) nxt) ∧
  (∃ fr, heap_freed (del_st r) = heap_freed st ++ fr ∧
         addrs s ++ addrs c ≡ₚ (addrs s ++ addrs (del_node r)) ++ fr).
Proof.
  intros [_ _ He Hh Hl (fr&Hfr&Hp) _ _ _] Hs. split; [|split; [|split]].
  - intros k v. rewrite !elem_of_app, He.
    assert ((k, v) ∈ entries s → k ≠ key); [|tauto].
    intros Hin ->. apply Hs. apply list_elem_of_fmap. by exists (key, v).
  - intros nxt. by rewrite !head_addr_app, Hh.
  - intros nxt. rewrite !linked_app, Hh. intros [? ?]. auto.
  - exists fr. split; [done|]. by rewrite Hp, <- !(assoc_L (++)).
Qed.

Lemma InternalNode_Delete_return_spec h mL mI lo hi key a ks cs rs depth t st r
    ks1 k ks2 cs1 c cs2 lo_c hi_c :
  2 ≤ mI → mI ≤ minI I →
  wf L I (S h) mL mI lo hi (Internal a ks cs rs) →
  focus L I h lo hi key ks cs t ks1 k ks2 cs1 c cs2 lo_c hi_c →
  delete_spec L I h (minL L) (minI I) lo_c hi_c key c st r →
  delete_spec L I (S h) mL mI lo hi key (Internal a ks cs rs) st
    (InternalNode_Delete_return L I a ks cs rs depth t r).
Proof.
  intros HmI1 HmI2 Hwf Hfoc Hspec.
  pose proof Hwf as (Hlen&Hsz&_&Hsync).
  pose proof Hfoc as [Hks Hcs Hk1 Hc1 Hlen2 Hlo Hhi Hpre Hchild Hpost _ Hnpre Hnpost].
  pose proof (minI_bounds L I HL HI) as (?&?&?&?&?&?).
  pose proof (minL_bounds L I HL HI) as (?&?&?&?&?).
  pose proof Hspec as [Hdwf Hdf Hde Hdh Hdl Hda Hdn Hdad Hdu].
  assert (key ∈ keys_of (Internal a ks cs rs) ↔ key ∈ keys_of c) as Hkeys.
  { rewrite keys_of_Internal, Hcs, bind_app, bind_cons, !elem_of_app. tauto. }
  destruct (negb (del_found r) || negb (del_underflow r)) eqn:Ebranch.
  - (* nothing to repair: only the child changed *)
    assert (del_underflow r = false) as Hu.
    { destruct (del_found r) eqn:Ef; [by destruct (del_underflow r)|]. by apply Hdu. }
    rewrite Hu in Hdwf.
    unfold InternalNode_Delete_return. rewrite Ebranch, Hu.
    subst ks cs. rewrite (insert_at_length cs1 cs2 c) by done.
    rewrite length_app in Hsz, Hlen. simpl in Hsz, Hlen.
    split; cbn [del_node del_found del_underflow del_st]; heap_simpl.
    + cbn [wf]. split; [|split; [|split]].
      * rewrite !length_app. simpl. rewrite length_app in Hlen. simpl in Hlen. lia.
      * rewrite length_app. simpl. lia.
      * rewrite seps_app, seps_cons by done.
        apply chain_app; [rewrite length_fmap; lia|]. split; [done|].
        rewrite <- Hlo, <- Hhi. split; done.
      * done.
    + by rewrite Hdf, Hkeys.
    + intros k' v'. rewrite !entries_Internal, !bind_app, !bind_cons.
      pose proof (entries_replace (cs1 ≫= entries) (entries c) (entries (del_node r))
                    (cs2 ≫= entries) key (λ _ _, False)) as Hrep.
      rewrite Hrep; [tauto| |by rewrite keys_of_bind|by rewrite keys_of_bind].
      intros k'' v''. rewrite Hde. tauto.
    + intros nxt. rewrite !leaves_Internal, !bind_app, !bind_cons. by apply head_replace.
    + intros nxt. rewrite !leaves_Internal, !bind_app, !bind_cons. by apply linked_replace.
    + destruct Hda as (fr&Hfr&Hp). exists fr. split; [done|].
      rewrite !addrs_Internal, !bind_app, !bind_cons, Hp.
      rewrite <- !app_comm_cons. apply Permutation_skip.
      rewrite <- !(assoc_L (++)). do 2 apply Permutation_app_head.
      apply Permutation_app_comm.
    + done.
    + done.
    + intros Hf. destruct (Hdu Hf) as (->&_&?). done.
  - (* the child underflowed: balance it with a neighbour *)
    apply orb_false_iff in Ebranch as [Ef%negb_false_iff Eu%negb_false_iff].
    rewrite Eu in Hdwf. destruct Hdwf as (Hwc&Hsc&_).
    rewrite Hcs, length_app in Hsz. simpl in Hsz.
    destruct cs1 as [|cl csA _] using rev_ind.
    + (* the target is the leftmost child; its right neighbour helps *)
      destruct ks1 as [|]; [|done]. simpl in Hk1. subst t.
      destruct cs2 as [|cr csB]; [simpl in *; lia|].
      destruct ks2 as [|kr ksB]; [done|].
      simpl in Hlen2. rewrite seps_cons in Hpost. destruct Hpost as [Hcr HpostB].
      unfold last_bound in Hlo. simpl in Hlo. subst lo_c hi_c.
      assert (key ∉ keys_of cr) as Hncr.
      { intros Hin. apply Hnpost. rewrite bind_cons, elem_of_app. by left. }
      destruct (pair_target_left _ _ _ _ _ _ _ _ _ cr Hspec Hncr) as (HE&HH&HLk&HAd).
      rewrite Hks. simpl app.
      apply (rebalance_spec h mL mI lo hi key a [] k kr ksB [] c cr (del_node r) cr csB);
        try done.
      * by rewrite Hcs.
      * simpl in *. lia.
      * rewrite Hcs, length_app. simpl in *. lia.
      * by rewrite <- Hks.
      * intros Hin. apply Hnpost. rewrite bind_cons, elem_of_app. by right.
      * split; [done|]. split.
        -- eapply wf_mono; [| |exact Hcr]; lia.
        -- left. split; [done|]. by eapply wf_reg_size.
      * apply elem_of_app. left. by apply Hdf.
    + (* otherwise the left neighbour helps *)
      destruct ks1 as [|kl ksA _] using rev_ind.
      { rewrite length_app in Hc1. simpl in *. lia. }
      rewrite !length_app in Hk1, Hc1. simpl in Hk1, Hc1.
      rewrite fmap_app in Hpre. apply chain_app in Hpre as [HpreA [Hcl _]];
        [|rewrite length_fmap; lia].
      rewrite last_bound_fmap, last_snoc in Hlo. simpl in Hlo. subst lo_c hi_c.
      assert (key ∉ keys_of cl) as Hncl.
      { intros Hin. apply Hnpre. rewrite bind_app, bind_cons, !elem_of_app. right. by left. }
      destruct (pair_target_right _ _ _ _ _ _ _ _ _ cl Hspec Hncl) as (HE&HH&HLk&HAd).
      rewrite Hks, <- (assoc_L (++)). simpl app.
      apply (rebalance_spec h mL mI lo hi key a ksA kl k ks2 csA cl c cl (del_node r) cs2);
        try done.
      * by rewrite Hcs, <- (assoc_L (++)).
      * rewrite Hcs. rewrite (insert_at_length (csA ++ [cl]) cs2 c)
          by (rewrite length_app; simpl; lia).
        by rewrite <- (assoc_L (++)).
      * assert ((1 <=? t) = true) as -> by (apply Nat.leb_le; lia). lia.
      * lia.
      * rewrite Hcs, !length_app. simpl. rewrite length_app in Hsz. simpl in Hsz. lia.
      * rewrite Hks, <- (assoc_L (++)) in Hsync. done.
      * intros Hin. apply Hnpre. rewrite bind_app, !elem_of_app. by left.
      * split; [|split; [done|]].
        -- eapply wf_mono; [| |exact Hcl]; lia.
        -- right. split; [by eapply wf_reg_size|done].
      * apply elem_of_app. right. by apply Hdf.
Qed.

Theorem Node_Delete_spec key h : ∀ mL mI lo hi n st,
  mL ≤ minL L → 2 ≤ mI → mI ≤ minI I →
  wf L I h mL mI lo hi n →
  delete_spec L I h mL mI lo hi key n st (Node_Delete L I key n st).
Proof.
  induction h as [|h IH]; intros mL mI lo hi [this|a ks cs rs] st HmL HmI1 HmI2 Hwf;
    try done.
  - by apply LeafNode_Delete_spec.
  - rewrite Node_Delete_Internal.
    destruct (AcquireLatch (latch_ a) EXCLUSIVE st) as [depth st1] eqn:Eacq.
    pose proof (heap_AcquireLatch (latch_ a) EXCLUSIVE st) as [Hn1 Hf1].
    rewrite Eacq in Hn1, Hf1. simpl in Hn1, Hf1. cbv zeta.
    set (st2 := if (_ >=? _)%Z then _ else _).
    assert (heap_next st2 = heap_next st ∧ heap_freed st2 = heap_freed st) as [Hn2 Hf2].
    { subst st2. destruct (_ >=? _)%Z; heap_simpl; done. }
    clearbody st2.
    pose proof Hwf as (Hlen&Hsz&Hchain&Hsync).
    destruct (descend L I HL HI h lo hi key ks cs) as (ks1&k&ks2&cs1&c&cs2&lo_c&hi_c&Hfoc);
      [done|lia|done|].
    pose proof Hfoc as [Hks Hcs Hk1 Hc1 _ _ _ _ Hchild _ _ _ _].
    assert (cs !! InternalNode_SearchChildIndex ks (length cs) key = Some c) as ->.
    { pose proof (lookup_at_length cs1 cs2 c _ (eq_sym Hc1)) as Hl. by rewrite <- Hcs in Hl. }
    apply (delete_spec_state _ _ _ _ _ _ _ st2); [done|done|].
    pose proof (minI_bounds L I HL HI) as (?&_).
    eapply InternalNode_Delete_return_spec; eauto.
Qed.

End DeleteInternal.

(** ** The tree as a whole *)

Lemma heap_ok_alloc A A' st st' :
  heap_ok A st →
  A' ≡ₚ A ++ seq (heap_next st) (heap_next st' - heap_next st) →
  heap_next st ≤ heap_next st' →
  heap_freed st' = heap_freed st →
  heap_ok A' st'.
Proof.
  intros [Hnd Hlt] Hp Hle Hf. unfold heap_ok. rewrite Hf, Hp.
  rewrite Forall_forall in Hlt. split.
  - rewrite <- (assoc_L (++)), (Permutation_app_comm (seq _ _)), (assoc_L (++)).
    apply NoDup_app. split; [done|]. split; [|apply NoDup_seq].
    intros x Hx Hs. apply Hlt in Hx. apply elem_of_seq in Hs. lia.
  - apply Forall_forall. intros x. rewrite !elem_of_app, elem_of_seq.
    intros [[Hx|Hx]|Hx].
    + assert (x < heap_next st) by (apply Hlt; apply elem_of_app; auto). lia.
    + lia.
    + assert (x < heap_next st) by (apply Hlt; apply elem_of_app; auto). lia.
Qed.

Lemma heap_ok_free A A' fr st st' :
  heap_ok A st →
  A ≡ₚ A' ++ fr →
  heap_next st' = heap_next st →
  heap_freed st' = heap_freed st ++ fr →
  heap_ok A' st'.
Proof.
  intros [Hnd Hlt] Hp Hn Hf. unfold heap_ok. rewrite Hf, Hn.
  assert (A' ++ heap_freed st ++ fr ≡ₚ A ++ heap_freed st) as Hq.
  { rewrite Hp, <- !(assoc_L (++)). apply Permutation_app_head, Permutation_app_comm. }
  rewrite Hq. done.
Qed.

Lemma heap_ok_state A st st' :
  heap_next st' = heap_next st → heap_freed st' = heap_freed st →
  heap_ok A st → heap_ok A st'.
Proof. intros Hn Hf. unfold heap_ok. by rewrite Hn, Hf. Qed.

Section Tree.

Variable L : nat.
Variable I : nat.
Hypothesis HL : 2 ≤ L.
Hypothesis HI : 3 ≤ I.
#[local] Set Default Proof Using "HL HI".

Lemma MemoryBTree_new_inv st :
  heap_ok [] st →
  tree_inv L I (MemoryBTree_new st).1 (MemoryBTree_new st).2 ∧
  entries (root_ (MemoryBTree_new st).1) = [].
Proof.
  intros Hok. unfold MemoryBTree_new. simpl. split; [|done]. split; [|split].
  - exists 0. simpl. repeat split; try done; try constructor; lia.
  - apply (heap_ok_alloc [] _ st); simpl; try done; try lia.
    replace (S (heap_next st) - heap_next st) with 1 by lia. done.
  - done.
Qed.

Lemma MemoryBTree_Insert_spec key val tree st :
  tree_inv L I tree st →
  tree_inv L I (MemoryBTree_Insert L I key val tree st).1
               (MemoryBTree_Insert L I key val tree st).2 ∧
  ∀ k v, (k, v) ∈ entries (root_ (MemoryBTree_Insert L I key val tree st).1) ↔
         (k = key ∧ v = val) ∨ (k ≠ key ∧ (k, v) ∈ entries (root_ tree)).
Proof.
  intros ([h Hwf]&Hheap&Hlinked).
  pose proof (minI_bounds L I HL HI) as (?&_).
  unfold MemoryBTree_Insert.
  destruct (AcquireLatch tree_latch_ EXCLUSIVE st) as [d st1] eqn:Eacq.
  pose proof (heap_AcquireLatch tree_latch_ EXCLUSIVE st) as [Hn1 Hf1].
  rewrite Eacq in Hn1, Hf1. simpl in Hn1, Hf1.
  pose proof (Node_Insert_spec L I HL HI key val h 0 2 None None (root_ tree) st1)
    as Hspec.
  destruct Hspec as [Hw He Hh Hl Ha Hnx Hfr Had]; [lia|lia|done|done|done|].
  cbv zeta. unfold ins_nodes in *.
  apply (heap_ok_state _ st st1) in Hheap; [|done|done].
  destruct (ins_split (Node_Insert L I key val (root_ tree) st1)) as [s|] eqn:Es.
  - (* the root split: a new root above the two halves *)
    destruct Hw as [Hwl Hwr].
    set (r := Node_Insert L I key val (root_ tree) st1) in *.
    unfold alloc, InternalNode_new, tree_inv. cbn [fst snd root_].
    split; [split; [|split]|].
    + exists (S h). cbn [wf]. repeat split; simpl; try done; lia.
    + eapply (heap_ok_state _ (mkState (context (ins_st r)) (S (heap_next (ins_st r)))
                                  (heap_freed (ins_st r)) (mutex_log (ins_st r)))).
      { by heap_simpl. }
      { by heap_simpl. }
      apply (heap_ok_alloc (addrs (root_ tree)) _ st1); simpl; try done; try lia.
      rewrite !bind_cons, bind_nil in Ha.
      replace (S (heap_next (ins_st r)) - heap_next st1)
        with (S (heap_next (ins_st r) - heap_next st1)) by lia.
      rewrite seq_S.
      replace (heap_next st1 + (heap_next (ins_st r) - heap_next st1))
        with (heap_next (ins_st r)) by lia.
      rewrite (assoc_L (++) (addrs (root_ tree))), <- Permutation_cons_append.
      by apply Permutation_skip.
    + rewrite leaves_Internal. by apply Hl.
    + intros k v. rewrite entries_Internal. apply He.
  - set (r := Node_Insert L I key val (root_ tree) st1) in *.
    unfold tree_inv. cbn [fst snd root_]. rewrite !bind_cons, !bind_nil, !app_nil_r in *.
    split; [split; [|split]|].
    + by exists h.
    + eapply (heap_ok_state _ (ins_st r)); [by heap_simpl|by heap_simpl|].
      by apply (heap_ok_alloc (addrs (root_ tree)) _ st1).
    + by apply Hl.
    + done.
Qed.

Lemma MemoryBTree_Delete_spec key tree st :
  tree_inv L I tree st →
  let res := MemoryBTree_Delete L I key tree st in
  tree_inv L I res.1.2 res.2 ∧
  (res.1.1 = true ↔ key ∈ keys_of (root_ tree)) ∧
  (∀ k v, (k, v) ∈ entries (root_ res.1.2) ↔ k ≠ key ∧ (k, v) ∈ entries (root_ tree)) ∧
  (res.1.1 = false →
   res.1.2 = tree ∧ heap_freed res.2 = heap_freed st ∧ heap_next res.2 = heap_next st).
Proof.
  intros ([h Hwf]&Hheap&Hlinked).
  pose proof (minI_bounds L I HL HI) as (?&_).
  unfold MemoryBTree_Delete.
  destruct (AcquireLatch tree_latch_ EXCLUSIVE st) as [d st1] eqn:Eacq.
  pose proof (heap_AcquireLatch tree_latch_ EXCLUSIVE st) as [Hn1 Hf1].
  rewrite Eacq in Hn1, Hf1. simpl in Hn1, Hf1.
  pose proof (Node_Delete_spec L I HL HI key h 0 2 None None (root_ tree) st1) as Hspec.
  destruct Hspec as [Hw Hfi He Hh Hl (fr&Hfr&Hp) Hnx Had Hun]; [lia|lia|done|done|].
  apply (heap_ok_state _ st st1) in Hheap; [|done|done].
  set (r := Node_Delete L I key (root_ tree) st1) in *. clearbody r.
  cbv zeta.
  destruct (del_found r) eqn:Ef; cbn [negb].
  - assert (wf L I h 0 1 None None (del_node r)) as Hw1.
    { destruct (del_underflow r); [by destruct Hw|]. eapply wf_mono; [| |done]; lia. }
    assert (∀ n st', heap_next st' = heap_next (del_st r) →
              (∃ fr', heap_freed st' = heap_freed (del_st r) ++ fr' ∧
                      addrs (del_node r) ≡ₚ addrs n ++ fr') →
              (∃ h', wf L I h' 0 2 None None n) →
              entries n = entries (del_node r) →
              leaves n = leaves (del_node r) →
              ∀ st'', heap_next st'' = heap_next st' → heap_freed st'' = heap_freed st' →
              tree_inv L I (mkTree n) st'' ∧
              (true = true ↔ key ∈ keys_of (root_ tree)) ∧
              (∀ k v, (k, v) ∈ entries n ↔ k ≠ key ∧ (k, v) ∈ entries (root_ tree)) ∧
              (true = false →
               mkTree n = tree ∧ heap_freed st'' = heap_freed st ∧
               heap_next st'' = heap_next st)) as Hgen.
    { intros n st' Hn' (fr'&Hfr'&Hp') Hwn Hen Hln st'' Hn'' Hf''.
      split; [split; [done|split]|split; [|split]].
      - cbn [root_]. apply (heap_ok_state _ st'); [done|done|].
        apply (heap_ok_free (addrs (root_ tree)) _ (fr ++ fr') st1); [done| |lia|].
        + by rewrite Hp, Hp', <- !(assoc_L (++)), (Permutation_app_comm fr' fr).
        + by rewrite Hfr', Hfr, (assoc_L (++)).
      - cbn [root_]. rewrite Hln. by apply Hl.
      - by rewrite <- Hfi.
      - intros k v. rewrite Hen. apply He.
      - done. }
    destruct (del_node r) as [l|a ks [|c [|c' cs']] rs] eqn:En.
    + apply (Hgen (Leaf l) (del_st r)); try done.
      * exists []. by rewrite !app_nil_r.
      * exists h. eapply wf_size; [exact Hw1|]. simpl. lia.
      * destruct (del_underflow r); heap_simpl; done.
      * destruct (del_underflow r); heap_simpl; done.
    + destruct h; [done|]. cbn [wf] in Hw1. simpl in Hw1. lia.
    + (* a single child is left: it becomes the root *)
      destruct h as [|h]; [done|]. pose proof Hw1 as (Hlen&_&Hc&_).
      destruct ks as [|k0 [|]]; try done. simpl in Hc. destruct Hc as [Hc _].
      apply (Hgen c (free [a] (del_st r))); try done.
      * exists [a]. split; [done|]. rewrite addrs_Internal, bind_cons, bind_nil, app_nil_r.
        apply Permutation_cons_append.
      * exists h. eapply wf_mono; [| |exact Hc]; lia.
      * by rewrite entries_Internal, bind_cons, bind_nil, app_nil_r.
      * by rewrite leaves_Internal, bind_cons, bind_nil, app_nil_r.
      * destruct (del_underflow r); heap_simpl; done.
      * destruct (del_underflow r); heap_simpl; done.
    + apply (Hgen (Internal a ks (c :: c' :: cs') rs) (del_st r)); try done.
      * exists []. by rewrite !app_nil_r.
      * exists h. eapply wf_size; [exact Hw1|]. simpl. lia.
      * destruct (del_underflow r); heap_simpl; done.
      * destruct (del_underflow r); heap_simpl; done.
  - destruct (Hun eq_refl) as (Hnode&Hu&Hfreed). cbn [fst snd].
    assert (mkTree (del_node r) = tree) as Htree by (rewrite Hnode; by destruct tree).
    rewrite Htree. split; [split; [by exists h|split]|split; [|split]].
    + apply (heap_ok_state _ st1); [lia|done|done].
    + done.
    + rewrite <- Hfi. done.
    + intros k v. rewrite <- Hnode at 1. apply He.
    + intros _. split; [done|]. split; [by rewrite Hfreed|lia].
Qed.

End Tree.

(** ** Workloads and the nodes they reach *)

Lemma nodes_Internal a ks cs rs :
  nodes (Internal a ks cs rs) = Internal a ks cs rs :: cs ≫= nodes.
Proof. simpl. by rewrite concat_map_bind. Qed.

Lemma chain_Forall (P : obound → obound → Node → Prop) (Q : Node → Prop) lo bs cs :
  (∀ lo b c, P lo b c → Q c) → chain P lo bs cs → Forall Q cs.
Proof.
  intros HPQ. revert lo cs.
  induction bs as [|b bs IH]; intros lo [|c cs]; simpl; try done.
  intros [? ?]. constructor; eauto.
Qed.



Section Reachable.

Variable L : nat.
Variable I : nat.
Hypothesis HL : 2 ≤ L.
Hypothesis HI : 3 ≤ I.
#[local] Set Default Proof Using "HL HI".

Lemma run_snoc ops op : run L I (ops ++ [op]) = apply_op L I (run L I ops) op.
Proof. unfold run. by rewrite foldl_app. Qed.

Lemma last_written_snoc ops op :
  last_written (ops ++ [op]) =
  match op with
  | Op_Insert key val => <[key := val]> (last_written ops)
  | Op_Delete key => delete key (last_written ops)
  end.
Proof. unfold last_written. by rewrite foldl_app. Qed.

Lemma run_inv ops :
  tree_inv L I (run L I ops).1 (run L I ops).2 ∧
  ∀ k v, (k, v) ∈ entries (root_ (run L I ops).1) ↔ last_written ops !! k = Some v.
Proof.
  induction ops as [|op ops [IHinv IHmap]] using rev_ind.
  - unfold run. simpl foldl.
    destruct (MemoryBTree_new_inv L I HL HI st0) as [Hinv He].
    { split; [constructor|constructor]. }
    split; [done|]. intros k v. rewrite He. unfold last_written. simpl.
    rewrite lookup_empty. split; [by intros ?%elem_of_nil|done].
  - rewrite run_snoc, last_written_snoc. destruct op as [key val|key]; cbn [apply_op].
    + destruct (MemoryBTree_Insert_spec L I HL HI key val _ _ IHinv) as [Hinv He].
      split; [done|]. intros k v. rewrite He, IHmap, lookup_insert_Some.
      split; intros [[? ?]|[? ?]]; auto.
    + pose proof (MemoryBTree_Delete_spec L I HL HI key _ _ IHinv) as Hd.
      cbv zeta in Hd. destruct Hd as (Hinv&_&He&_).
      split; [done|]. intros k v. cbn [fst snd]. rewrite He, IHmap, lookup_delete_Some.
      split; intros [? ?]; auto.
Qed.

(** Every node strictly below the top of a well-formed subtree has the
    regular minimum size. *)
Lemma wf_reg_nodes h lo hi n :
  wf_reg L I h lo hi n → Forall (reg_size L I) (nodes n).
Proof.
  revert lo hi n. induction h as [|h IH]; intros lo hi [l|a ks cs rs] Hwf; try done.
  - constructor; [by eapply wf_reg_size|constructor].
  - rewrite nodes_Internal. constructor; [by eapply wf_reg_size|].
    destruct Hwf as (_&_&Hc&_). apply Forall_bind.
    eapply chain_Forall; [|exact Hc]. intros lo' b c Hcw. by eapply IH.
Qed.

Lemma wf_nodes_below h mL mI lo hi n :
  wf L I h mL mI lo hi n → Forall (reg_size L I) (tail (nodes n)).
Proof.
  destruct h, n as [l|a ks cs rs]; cbn [wf]; try done.
  rewrite nodes_Internal. cbn [tail]. intros (_&_&Hc&_). apply Forall_bind.
  eapply chain_Forall; [|exact Hc]. intros lo' b c Hcw. by eapply wf_reg_nodes.
Qed.



End Reachable.

(** ** Scanning the leaf chain *)

Lemma GetEntry_lookup l o key val :
  leaf_ok l →
  LeafNode_GetEntry l o key val =
  match leaf_entries l !! o with
  | Some (k, v) => (true, k, v)
  | None => (false, key, val)
  end.
Proof.
  unfold leaf_ok, LeafNode_GetEntry, leaf_entries. intros Hlen.
  destruct (leaf_keys_ l !! o) as [k|] eqn:Ek.
  - apply lookup_lt_Some in Ek as Hlt.
    destruct (lookup_lt_is_Some_2 (leaf_values_ l) o) as [v Ev]; [lia|].
    rewrite Ev. simpl.
    assert (zip (leaf_keys_ l) (leaf_values_ l) !! o = Some (k, v)) as ->; [|done].
    by apply lookup_zip_Some.
  - apply lookup_ge_None in Ek.
    assert (zip (leaf_keys_ l) (leaf_values_ l) !! o = None) as ->; [|done].
    apply lookup_ge_None. rewrite length_zip_with. lia.
Qed.

Lemma find_leaf (ls1 : list LeafNode) l ls2 :
  NoDup (leaf_addr <$> (ls1 ++ l :: ls2)) →
  List.find (λ x, leaf_addr x =? leaf_addr l) (ls1 ++ l :: ls2) = Some l.
Proof.
  induction ls1 as [|x ls1 IH]; simpl.
  - by rewrite Nat.eqb_refl.
  - intros [Hx Hnd]%NoDup_cons. destruct (leaf_addr x =? leaf_addr l) eqn:E; [|by apply IH].
    apply Nat.eqb_eq in E. exfalso. apply Hx. rewrite E.
    apply list_elem_of_fmap. exists l. split; [done|]. apply elem_of_app. right. constructor.
Qed.

Lemma leaf_addrs_sublist n : leaf_addr <$> leaves n `sublist_of` addrs n.
Proof.
  induction n as [l|a ks cs rs IH] using Node_ind'; [done|].
  rewrite leaves_Internal, addrs_Internal. apply sublist_cons.
  induction IH as [|c cs Hc _ IHcs]; [done|].
  rewrite !bind_cons, fmap_app. by apply sublist_app.
Qed.

Section Scan.

Variable tree : MemoryBTree.
Variable key_high : Z.
Hypothesis Hnodup : NoDup (leaf_addr <$> leaves (root_ tree)).
Hypothesis Hok : Forall leaf_ok (leaves (root_ tree)).
Hypothesis Hlinked : linked (leaves (root_ tree)) None.
#[local] Set Default Proof Using "Hnodup Hok Hlinked".

Lemma leaf_at_here ls1 l ls2 :
  leaves (root_ tree) = ls1 ++ l :: ls2 → leaf_at (root_ tree) (leaf_addr l) = Some l.
Proof using Hnodup.
  intros Hls. unfold leaf_at. rewrite Hls. apply find_leaf. by rewrite <- Hls.
Qed.

Lemma Next_spec ls2 : ∀ ls1 l o fuel key val st,
  leaves (root_ tree) = ls1 ++ l :: ls2 → length ls2 + 2 ≤ fuel →
  match rest_of l o ls2 with
  | [] => ∃ it' st',
      MemoryIterator_Next fuel tree (cursor key_high o l) key val st
      = Some (false, key, val, it', st')
  | (k, v) :: rem => ∃ ls1' l' ls2' o' st',
      MemoryIterator_Next fuel tree (cursor key_high o l) key val st
      = Some (true, k, v, cursor key_high o' l', st') ∧
      leaves (root_ tree) = ls1' ++ l' :: ls2' ∧
      rest_of l' o' ls2' = rem ∧ length ls2' ≤ length ls2
  end.
Proof.
  induction ls2 as [|l2 ls2 IH]; intros ls1 l o fuel key val st Hls Hfuel.
  all: destruct fuel as [|fuel]; [simpl in *; lia|].
  all: cbn [MemoryIterator_Next cursor current_ offset_ upper_bound_ key_high_].
  all: rewrite (leaf_at_here ls1 l _ Hls).
  all: assert (leaf_ok l) as Hl by
    (rewrite Forall_forall in Hok; apply Hok; rewrite Hls, elem_of_app; right; constructor).
  all: rewrite (GetEntry_lookup l o key val Hl).
  all: pose proof Hlinked as Hlk; rewrite Hls in Hlk.
  all: apply linked_app in Hlk as [_ [Hsib _]].
  all: unfold rest_of; destruct (leaf_entries l !! o) as [[k v]|] eqn:E.
  - rewrite (drop_S _ _ _ E). simpl.
    exists ls1, l, [], (o + 1), st. split; [done|]. split; [done|]. split; [|done].
    unfold rest_of. by replace (o + 1) with (S o) by lia.
  - apply lookup_ge_None in E. rewrite drop_ge by done. simpl.
    rewrite Hsib. simpl. destruct fuel as [|fuel]; [simpl in *; lia|]. simpl. eauto.
  - rewrite (drop_S _ _ _ E). cbn [app].
    exists ls1, l, (l2 :: ls2), (o + 1), st. split; [done|]. split; [done|]. split; [|done].
    unfold rest_of. by replace (o + 1) with (S o) by lia.
  - apply lookup_ge_None in E. rewrite drop_ge by done. cbn [app].
    rewrite Hsib. cbn [head_addr].
    match goal with
    | |- context [MemoryIterator_Next _ _ _ _ _ ?s] => set (st' := s)
    end.
    specialize (IH (ls1 ++ [l]) l2 0 fuel key val st').
    unfold rest_of in IH. rewrite drop_0, <- bind_cons in IH.
    destruct ((l2 :: ls2) ≫= leaf_entries) as [|[k v] rem].
    + apply IH; [by rewrite Hls, <- (assoc_L (++))|simpl in *; lia].
    + destruct IH as (ls1'&l'&ls2'&o'&st''&Hn&Hls'&Hr&Hlen);
        [by rewrite Hls, <- (assoc_L (++))|simpl in *; lia|].
      exists ls1', l', ls2', o', st''. repeat split; try done. simpl. lia.
Qed.

Lemma drain_spec rem : ∀ ls1 l ls2 o fuel key val st,
  leaves (root_ tree) = ls1 ++ l :: ls2 → rest_of l o ls2 = rem →
  length rem + length ls2 + 2 ≤ fuel →
  drain fuel tree (cursor key_high o l) key val st = Some rem.
Proof.
  induction rem as [|[k v] rem IH]; intros ls1 l ls2 o fuel key val st Hls Hrest Hfuel.
  all: destruct fuel as [|fuel]; [simpl in *; lia|].
  all: pose proof (Next_spec ls2 ls1 l o (S fuel) key val st Hls ltac:(lia)) as Hn.
  all: rewrite Hrest in Hn; cbn [drain].
  - destruct Hn as (it'&st'&->). done.
  - destruct Hn as (ls1'&l'&ls2'&o'&st'&->&Hls'&Hr&Hlen).
    rewrite (IH ls1' l' ls2' o' fuel k v st'); [done|done|done|simpl in *; lia].
Qed.

End Scan.

Section ScanTree.

Variable L : nat.
Variable I : nat.
Hypothesis HL : 2 ≤ L.
Hypothesis HI : 3 ≤ I.
#[local] Set Default Proof Using "HL HI".

Lemma wf_leaves_ok h mL mI lo hi n :
  wf L I h mL mI lo hi n → Forall leaf_ok (leaves n).
Proof.
  revert mL mI lo hi n. induction h as [|h IH]; intros mL mI lo hi [l|a ks cs rs];
    cbn [wf]; try done.
  - intros (?&_). by repeat constructor.
  - intros (_&_&Hc&_). rewrite leaves_Internal. apply Forall_bind.
    eapply chain_Forall; [|exact Hc]. intros lo' b c Hcw. by eapply IH.
Qed.

Lemma TreeScan_descend_head h : ∀ mL mI lo hi n st nxt,
  1 ≤ mI → wf L I h mL mI lo hi n →
  (TreeScan_descend n st).1 = head_addr (leaves n) nxt ∧ leaves n ≠ [].
Proof.
  induction h as [|h IH]; intros mL mI lo hi [l|a ks cs rs] st nxt HmI; cbn [wf]; try done.
  intros (Hlen&Hsz&Hc&_).
  destruct cs as [|c cs]; [simpl in *; lia|].
  destruct ks as [|k ks]; [done|]. rewrite seps_cons in Hc. destruct Hc as [Hc _].
  cbn [TreeScan_descend].
  destruct (AcquireLatch (latch_ (node_addr c)) SHARE st) as [d st1].
  rewrite leaves_Internal, bind_cons, head_addr_app.
  destruct (IH _ _ _ _ c (ReleaseLatch d SHARE st1) (head_addr (cs ≫= leaves) nxt)
              (minI_pos L I HL HI) Hc) as [-> Hne].
  split; [done|]. intros [? _]%app_eq_nil. done.
Qed.

Lemma TreeScan_drain tree st0' st key val fuel :
  tree_inv L I tree st0' →
  length (entries (root_ tree)) + length (leaves (root_ tree)) + 2 ≤ fuel →
  drain fuel tree (MemoryBTree_TreeScan tree st).1 key val
        (MemoryBTree_TreeScan tree st).2 = Some (entries (root_ tree)).
Proof.
  intros ([h Hwf]&[Hnd _]&Hlinked) Hfuel.
  unfold MemoryBTree_TreeScan.
  destruct (AcquireLatch tree_latch_ SHARE st) as [d1 st1].
  destruct (AcquireLatch (latch_ _) SHARE st1) as [d2 st2].
  destruct (TreeScan_descend_head h 0 2 None None (root_ tree) st2 None ltac:(lia) Hwf)
    as [Hd Hne].
  destruct (TreeScan_descend (root_ tree) st2) as [leaf st3]. simpl in Hd. subst leaf.
  destruct (leaves (root_ tree)) as [|l ls2] eqn:Els; [done|]. cbn [head_addr fst snd].
  apply (drain_spec tree 0%Z) with (ls1 := []) (ls2 := ls2).
  - apply (sublist_NoDup _ (addrs (root_ tree))).
    + by apply NoDup_app in Hnd as [? _].
    + apply leaf_addrs_sublist.
  - by eapply wf_leaves_ok.
  - by rewrite Els.
  - by rewrite Els.
  - unfold rest_of, entries. by rewrite drop_0, Els, bind_cons.
  - simpl in Hfuel. lia.
Qed.

End ScanTree.

(** ** Facts about the whole tree *)

Lemma entries_value_unique (E : list (Z * Z)) k v w :
  StronglySorted Z.lt E.*1 → (k, v) ∈ E → (k, w) ∈ E → v = w.
Proof.
  intros Hs [i Hi]%list_elem_of_lookup [j Hj]%list_elem_of_lookup.
  pose proof (entries_key_unique E i j k v w Hs Hi Hj) as ->. congruence.
Qed.

Lemma sorted_same_elements (l1 l2 : list Z) :
  StronglySorted Z.lt l1 → StronglySorted Z.lt l2 → (∀ x, x ∈ l1 ↔ x ∈ l2) → l1 = l2.
Proof.
  intros H1 H2 Hiff. apply (StronglySorted_unique_strong Z.lt); try done.
  - intros. lia.
  - apply NoDup_Permutation; [by apply StronglySorted_NoDup..|done].
Qed.

Lemma elem_of_keys_of n k : k ∈ keys_of n ↔ ∃ v, (k, v) ∈ entries n.
Proof.
  unfold keys_of. rewrite list_elem_of_fmap. split.
  - intros ([k' v]&->&?). by exists v.
  - intros [v ?]. by exists (k, v).
Qed.

Section TreeFacts.

Variable L : nat.
Variable I : nat.
Hypothesis HL : 2 ≤ L.
Hypothesis HI : 3 ≤ I.
#[local] Set Default Proof Using "HL HI".

Lemma tree_wf_keys tree :
  tree_wf L I tree → StronglySorted Z.lt (keys_of (root_ tree)).
Proof.
  intros [h Hwf].
  by destruct (wf_keys L I (minI_pos L I HL HI) h 0 2 None None (root_ tree)
                 ltac:(lia) Hwf).
Qed.

Lemma MemoryBTree_Search_found tree key v v0 st :
  tree_wf L I tree → (key, v) ∈ entries (root_ tree) →
  (MemoryBTree_Search key v0 tree st).1 = (true, v).
Proof.
  intros Hwf Hin. pose proof (tree_wf_keys tree Hwf) as Hs. destruct Hwf as [h Hwf].
  unfold MemoryBTree_Search.
  destruct (AcquireLatch tree_latch_ SHARE st) as [d st1].
  pose proof (Node_Search_spec L I HL HI key v0 h 0 2 None None (root_ tree) st1
                ltac:(lia) Hwf) as Hsp.
  destruct (Node_Search key v0 (root_ tree) st1) as [[found val] st2].
  unfold search_spec in Hsp. simpl in *.
  destruct Hsp as [[-> Hv]|(_&_&Hn)].
  - f_equal. by eapply entries_value_unique.
  - exfalso. apply Hn. apply elem_of_keys_of. by exists v.
Qed.

Lemma MemoryBTree_Search_absent tree key v0 st :
  tree_wf L I tree → key ∉ keys_of (root_ tree) →
  (MemoryBTree_Search key v0 tree st).1 = (false, v0).
Proof.
  intros [h Hwf] Hn. unfold MemoryBTree_Search.
  destruct (AcquireLatch tree_latch_ SHARE st) as [d st1].
  pose proof (Node_Search_spec L I HL HI key v0 h 0 2 None None (root_ tree) st1
                ltac:(lia) Hwf) as Hsp.
  destruct (Node_Search key v0 (root_ tree) st1) as [[found val] st2].
  unfold search_spec in Hsp. simpl in *.
  destruct Hsp as [[-> Hv]|(->&->&_)]; [|done].
  exfalso. apply Hn. apply elem_of_keys_of. by exists val.
Qed.

Lemma Insert_present_keys tree st key val :
  tree_inv L I tree st → key ∈ keys_of (root_ tree) →
  keys_of (root_ (MemoryBTree_Insert L I key val tree st).1) = keys_of (root_ tree).
Proof.
  intros Hinv Hin.
  destruct (MemoryBTree_Insert_spec L I HL HI key val tree st Hinv) as [(Hwf'&_) He].
  destruct Hinv as (Hwf&_).
  apply sorted_same_elements; [by apply tree_wf_keys..|].
  intros x. rewrite !elem_of_keys_of. split.
  - intros [v [[-> _]|[_ ?]]%He]; [by apply elem_of_keys_of|by exists v].
  - intros [v Hv]. destruct (decide (x = key)) as [->|Hne].
    + exists val. apply He. by left.
    + exists v. apply He. by right.
Qed.

End TreeFacts.

(** * The model against the tests of the repository

    test/coupling/tree.cpp, on [MemoryBTree<int, int, 4, 4>]. *)

Example DeleteWithoutMergeTest :
  MemoryBTree_String (run 4 4 (inserts [1; 2; 3; 4; 5; 6]%Z)).1
  = "[INTERNAL: [LEAF: (1,1) (2,2)] | 2 | [LEAF: (3,3) (4,4) (5,5) (6,6)]]"%string ∧
  MemoryBTree_String
    (run 4 4 (inserts [1; 2; 3; 4; 5; 6]%Z ++ [Op_Delete 4%Z; Op_Delete 3%Z])).1
  = "[INTERNAL: [LEAF: (1,1) (2,2)] | 2 | [LEAF: (5,5) (6,6)]]"%string.
Proof. split; by vm_compute. Qed.

Example DeleteWithLeafNodeRebalancedAndMerged :
  let t1 := run 4 4 (inserts [1; 2; 3; 4; 5; 6; 7; 8]%Z ++ [Op_Delete 4%Z]) in
  let t2 := foldl (apply_op 4 4) t1 [Op_Delete 1%Z; Op_Delete 3%Z] in
  let t3 := foldl (apply_op 4 4) t2 [Op_Delete 5%Z; Op_Delete 6%Z; Op_Delete 2%Z] in
  let t4 := foldl (apply_op 4 4) t3 [Op_Delete 7%Z; Op_Delete 8%Z] in
  MemoryBTree_String t1.1
  = "[INTERNAL: [LEAF: (1,1) (2,2) (3,3)] | 4 | [LEAF: (5,5) (6,6) (7,7) (8,8)]]"%string ∧
  (MemoryBTree_Delete 4 4 4%Z t1.1 t1.2).1.1 = false ∧
  (MemoryBTree_Delete 4 4 0%Z t1.1 t1.2).1.1 = false ∧
  MemoryBTree_String t2.1
  = "[INTERNAL: [LEAF: (2,2) (5,5)] | 5 | [LEAF: (6,6) (7,7) (8,8)]]"%string ∧
  MemoryBTree_String t3.1 = "[LEAF: (7,7) (8,8)]"%string ∧
  MemoryBTree_String t4.1 = "[LEAF: ]"%string.
Proof. repeat split; by vm_compute. Qed.

Example DeleteWithInternalNodeRebalancedAndMerged :
  MemoryBTree_String
    (run 4 4 (inserts [1; 2; 3; 4; 5; 6; 7; 8; 9; 10; 11; 12; 13; 14; 15; 16]%Z
              ++ (Op_Delete <$> [16; 15; 14; 13; 12; 11; 10; 9; 8; 7; 6; 5; 4; 3; 2; 1]%Z))).1
  = "[LEAF: ]"%string.
Proof. by vm_compute. Qed.

Example IteratorFullScanTest :
  let ts := run 4 4 (inserts [7; 3; 12; 1; 9; 5; 11; 2; 8; 4; 10; 6]%Z) in
  let it := MemoryBTree_TreeScan ts.1 ts.2 in
  drain 30 ts.1 it.1 0%Z 0%Z it.2
  = Some ((λ k, (k, k)) <$> [1; 2; 3; 4; 5; 6; 7; 8; 9; 10; 11; 12]%Z).
Proof. by vm_compute. Qed.

(** * The claims of the specification *)

(** C1. [Search(k)] after [Insert(k, v)] is to return [(true, v)].  At
    [MemoryBTree<int, int, 2, 2>], the capacities of the repository's
    tests InsertReverseOrderAndQueryTest and Search, it does not: after
    [Insert] of 0, 4, 6, 2, [Delete(6)], and [Insert] of 5 and 8, the root
    holds three children in a node of capacity two and [Search(8)] still
    finds 8; [Insert(6, 77)] then splits the root, and both [Search(6)] and
    [Search(8)] return false and leave the caller's value as it was. *)
Theorem Insert_then_Search_lost_at_capacity_2 :
  let ts := run 2 2 (inserts [0; 4; 6; 2]%Z
                     ++ [Op_Delete 6%Z; Op_Insert 5%Z 5%Z; Op_Insert 8%Z 8%Z]) in
  let r1 := MemoryBTree_Insert 2 2 6%Z 77%Z ts.1 ts.2 in
  Node_Size (root_ ts.1) = 3 ∧
  (MemoryBTree_Search 8%Z (-1)%Z ts.1 ts.2).1 = (true, 8%Z) ∧
  (MemoryBTree_Search 6%Z (-1)%Z r1.1 r1.2).1 = (false, (-1)%Z) ∧
  (MemoryBTree_Search 8%Z (-1)%Z r1.1 r1.2).1 = (false, (-1)%Z).
Proof. by vm_compute. Qed.

(** With LeafCapacity >= 2 and InternalCapacity >= 3 the key is found: on
    a tree in a state reached without concurrency, [Search(key)] after
    [Insert(key, v1)] returns [(true, v1)]; after a further
    [Insert(key, v2)] it returns [(true, v2)], the second insert leaves the
    list of keys as it was (no second entry for [key]), no key occurs twice,
    and the entries of the other keys are those of the tree before. *)
Theorem Insert_then_Search (L I : nat) (tree : MemoryBTree) (st : State)
    (key v1 v2 : Z) :
  2 ≤ L → 3 ≤ I → tree_inv L I tree st →
  let r1 := MemoryBTree_Insert L I key v1 tree st in
  let r2 := MemoryBTree_Insert L I key v2 r1.1 r1.2 in
  (∀ v0 s, (MemoryBTree_Search key v0 r1.1 s).1 = (true, v1)) ∧
  (∀ v0 s, (MemoryBTree_Search key v0 r2.1 s).1 = (true, v2)) ∧
  keys_of (root_ r2.1) = keys_of (root_ r1.1) ∧
  NoDup (keys_of (root_ r2.1)) ∧
  (∀ k v, k ≠ key → (k, v) ∈ entries (root_ r2.1) ↔ (k, v) ∈ entries (root_ tree)).
Proof.
  intros HL HI Hinv r1 r2.
  destruct (MemoryBTree_Insert_spec L I HL HI key v1 tree st Hinv) as [Hinv1 He1].
  fold r1 in Hinv1, He1.
  destruct (MemoryBTree_Insert_spec L I HL HI key v2 r1.1 r1.2 Hinv1) as [Hinv2 He2].
  fold r2 in Hinv2, He2.
  assert (key ∈ keys_of (root_ r1.1)) as Hin1.
  { apply elem_of_keys_of. exists v1. apply He1. by left. }
  split; [|split; [|split; [|split]]].
  - intros v0 s. apply (MemoryBTree_Search_found L I HL HI); [by destruct Hinv1|].
    apply He1. by left.
  - intros v0 s. apply (MemoryBTree_Search_found L I HL HI); [by destruct Hinv2|].
    apply He2. by left.
  - by apply (Insert_present_keys L I HL HI).
  - apply StronglySorted_NoDup. apply (tree_wf_keys L I HL HI). by destruct Hinv2.
  - intros k v Hne. rewrite He2, He1. split.
    + intros [[? _]|[_ [[? _]|[_ ?]]]]; done.
    + intros ?. right. split; [done|]. by right.
Qed.

Lemma Insert_then_Search_witness :
  let ts := run 4 4 (inserts [1; 2; 3; 4; 5; 6; 7]%Z) in
  let r1 := MemoryBTree_Insert 4 4 3%Z 30%Z ts.1 ts.2 in
  let r2 := MemoryBTree_Insert 4 4 3%Z 31%Z r1.1 r1.2 in
  tree_inv 4 4 ts.1 ts.2 ∧
  (∀ v0 s, (MemoryBTree_Search 3%Z v0 r1.1 s).1 = (true, 30%Z)) ∧
  (∀ v0 s, (MemoryBTree_Search 3%Z v0 r2.1 s).1 = (true, 31%Z)) ∧
  keys_of (root_ r2.1) = keys_of (root_ r1.1) ∧
  NoDup (keys_of (root_ r2.1)) ∧
  (∀ k v, k ≠ 3%Z → (k, v) ∈ entries (root_ r2.1) ↔ (k, v) ∈ entries (root_ ts.1)).
Proof.
  assert (2 ≤ 4) as HL by lia. assert (3 ≤ 4) as HI by lia.
  pose proof (proj1 (run_inv 4 4 HL HI (inserts [1; 2; 3; 4; 5; 6; 7]%Z))) as Hinv.
  split; [exact Hinv|].
  exact (Insert_then_Search 4 4 _ _ 3%Z 30%Z 31%Z HL HI Hinv).
Defined.

(** C2. A full [TreeScan] is to deliver exactly the last-written
    bindings.  At [MemoryBTree<int, int, 2, 2>] it cannot: after [Insert]
    of 0, 4, 6, 2, [Delete(6)], and [Insert] of 5 and 8, the leaf at
    address 3 holds 5 and 8; [Insert(6, 77)] splits it and puts (6, 77) and
    (8, 8) into a new leaf at address 6, which the split of the root then
    drops; [Insert(6, 78)] writes key 6 into leaf 3.  The tree now owns
    three leaves with the keys 0, 2, 4, 5, 6, the last of which still
    points to the leaf at address 6, which is neither in the tree nor
    freed, and whose slots read (6, 77) and (8, 8) to [GetEntry].  Key 8, which the workload wrote last as 8, is in no leaf of the
    tree, and the walk of the iterator leaves the tree: [Next] has no leaf
    of the tree to resolve [current_] against, whatever the fuel. *)
Theorem TreeScan_leaves_tree_at_capacity_2 :
  let wl := inserts [0; 4; 6; 2]%Z
            ++ [Op_Delete 6%Z; Op_Insert 5%Z 5%Z; Op_Insert 8%Z 8%Z] in
  let ops := wl ++ [Op_Insert 6%Z 77%Z; Op_Insert 6%Z 78%Z] in
  let ts := run 2 2 ops in
  let it := MemoryBTree_TreeScan ts.1 ts.2 in
  leaves (root_ (run 2 2 wl).1) !! 2 = Some (mkLeaf 3 [5; 8]%Z [5; 8]%Z None) ∧
  ins_split (LeafNode_Insert 2 6%Z 77%Z (mkLeaf 3 [5; 8]%Z [5; 8]%Z None) (run 2 2 wl).2)
  = Some (mkSplit 5%Z (Leaf (mkLeaf 6 [6; 8]%Z [77; 8]%Z None))) ∧
  LeafNode_GetEntry (mkLeaf 6 [6; 8]%Z [77; 8]%Z None) 0 0%Z 0%Z = (true, 6%Z, 77%Z) ∧
  LeafNode_GetEntry (mkLeaf 6 [6; 8]%Z [77; 8]%Z None) 1 0%Z 0%Z = (true, 8%Z, 8%Z) ∧
  leaves (root_ ts.1)
  = [mkLeaf 0 [0]%Z [0]%Z (Some 1); mkLeaf 1 [2; 4]%Z [2; 4]%Z (Some 3);
     mkLeaf 3 [5; 6]%Z [5; 78]%Z (Some 6)] ∧
  leaf_at (root_ ts.1) 6 = None ∧
  heap_next ts.2 = 9 ∧ heap_freed ts.2 = [4; 5] ∧
  last_written ops !! 6%Z = Some 78%Z ∧ last_written ops !! 8%Z = Some 8%Z ∧
  ∀ fuel key val, drain fuel ts.1 it.1 key val it.2 = None.
Proof.
  cbv zeta. do 10 (split; [by vm_compute|]).
  intros fuel key val.
  do 7 (destruct fuel as [|fuel]; [by vm_compute|]). by vm_compute.
Qed.

(** With LeafCapacity >= 2 and InternalCapacity >= 3 the scan is right:
    after any sequence of [Insert] and [Delete] on a tree that starts
    empty, draining the iterator of [TreeScan] returns (with enough fuel for
    the calls of [Next]) a list whose keys are strictly ascending and whose
    pairs are exactly the bindings of the map of last-written values. *)
Theorem TreeScan_yields_last_written (L I : nat) (ops : list Op) (key val : Z)
    (st : State) :
  2 ≤ L → 3 ≤ I →
  let tree := (run L I ops).1 in
  let it := MemoryBTree_TreeScan tree st in
  ∃ out,
    (∀ fuel, length out + length (leaves (root_ tree)) + 2 ≤ fuel →
             drain fuel tree it.1 key val it.2 = Some out) ∧
    StronglySorted Z.lt out.*1 ∧
    ∀ k v, (k, v) ∈ out ↔ last_written ops !! k = Some v.
Proof.
  intros HL HI tree it. destruct (run_inv L I HL HI ops) as [Hinv Hmap].
  fold tree in Hinv, Hmap. exists (entries (root_ tree)). split; [|split].
  - intros fuel Hfuel. by apply (TreeScan_drain L I HL HI tree (run L I ops).2).
  - apply (tree_wf_keys L I HL HI). by destruct Hinv.
  - done.
Qed.

Lemma TreeScan_yields_last_written_witness :
  let ops := inserts [5; 1; 4; 2; 3; 6]%Z ++ [Op_Delete 4%Z; Op_Insert 2%Z 20%Z] in
  let tree := (run 4 4 ops).1 in
  let it := MemoryBTree_TreeScan tree st0 in
  ∃ out,
    (∀ fuel, length out + length (leaves (root_ tree)) + 2 ≤ fuel →
             drain fuel tree it.1 0%Z 0%Z it.2 = Some out) ∧
    StronglySorted Z.lt out.*1 ∧
    ∀ k v, (k, v) ∈ out ↔ last_written ops !! k = Some v.
Proof.
  apply (TreeScan_yields_last_written 4 4
           (inserts [5; 1; 4; 2; 3; 6]%Z ++ [Op_Delete 4%Z; Op_Insert 2%Z 20%Z])
           0%Z 0%Z st0); lia.
Defined.

(** C3, counterexample. With [L = I = 4] the claimed minimum is 3; after
    inserting 1..5 the left leaf holds the two entries the split left it,
    as test/coupling expects. *)
Lemma claimed_min_size_counterexample :
  MemoryBTree_String (run 4 4 (inserts [1; 2; 3; 4; 5]%Z)).1
  = "[INTERNAL: [LEAF: (1,1) (2,2)] | 2 | [LEAF: (3,3) (4,4) (5,5)]]"%string ∧
  ∃ n, n ∈ non_root_nodes (run 4 4 (inserts [1; 2; 3; 4; 5]%Z)).1 ∧
       Node_Size n < claimed_min_size 4 4 n.
Proof.
  split; [by vm_compute|].
  eexists. split.
  - vm_compute. apply list_elem_of_here.
  - vm_compute. lia.
Qed.

(** C3, amended. The bound of the code is [UNDERFLOW_BOUND(N) = (N + 1) / 2]
    in integer division. For an even leaf capacity, after any sequence of
    [Insert] and [Delete] every leaf below the root holds at least
    [UNDERFLOW_BOUND(L)] entries and every internal node below the root at
    least [UNDERFLOW_BOUND(I)] children. *)
Theorem non_root_nodes_min_size (L I : nat) (ops : list Op) :
  2 ≤ L → 3 ≤ I → Nat.even L = true →
  Forall (λ n, UB_of L I n ≤ Node_Size n) (non_root_nodes (run L I ops).1).
Proof.
  intros HL HI Heven.
  destruct (run_inv L I HL HI ops) as [([h Hwf]&_) _].
  apply (wf_nodes_below L I HL HI) in Hwf.
  eapply Forall_impl; [exact Hwf|].
  apply Nat.even_spec in Heven as [m ->].
  intros [l|a ks cs rs]; unfold reg_size, UB_of, minL, minI, UNDERFLOW_BOUND;
    cbn [Node_Size]; lia.
Qed.

Lemma non_root_nodes_min_size_witness :
  Forall (λ n, UB_of 4 4 n ≤ Node_Size n)
    (non_root_nodes (run 4 4 (inserts [1; 2; 3; 4; 5]%Z ++ [Op_Delete 3%Z])).1).
Proof.
  apply (non_root_nodes_min_size 4 4 (inserts [1; 2; 3; 4; 5]%Z ++ [Op_Delete 3%Z]));
    [lia|lia|reflexivity].
Defined.

(** For an odd leaf capacity the split itself can leave the new right
    sibling one entry short of [UNDERFLOW_BOUND(L)]: the left half keeps
    [UNDERFLOW_BOUND(L)] entries and also takes the new one. *)
Example odd_capacity_split :
  MemoryBTree_String (run 3 3 (inserts [1; 2; 3; 0]%Z)).1
  = "[INTERNAL: [LEAF: (0,0) (1,1) (2,2)] | 2 | [LEAF: (3,3)]]"%string ∧
  UNDERFLOW_BOUND 3 = 2.
Proof. split; by vm_compute. Qed.




(** C5. With [L = 4], inserting 3, 4, 6, 5 into an empty leaf splits
    nothing; inserting 1 next splits the leaf once, with boundary 4, left
    node [(1,1) (3,3) (4,4)] and right node [(5,5) (6,6)]. In general, an
    insert of a new key into a leaf that holds [L] entries returns one
    split, whose boundary is the rightmost key of the left node, and the
    two nodes hold the old entries and the new one in key order. *)
Theorem full_leaf_insert_splits :
  (let leaf0 := mkLeaf 0 [] [] None in
   let filled := foldl (leaf_step 4) (leaf0, st0, []) [3; 4; 6; 5]%Z in
   let r := LeafNode_Insert 4 1%Z 1%Z filled.1.1 filled.1.2 in
   filled.2 = [false; false; false; false] ∧
   LeafNode_String filled.1.1 = "[LEAF: (3,3) (4,4) (5,5) (6,6)]"%string ∧
   (boundary_key <$> ins_split r) = Some 4%Z ∧
   Node_String (ins_node r) = "[LEAF: (1,1) (3,3) (4,4)]"%string ∧
   (Node_String ∘ right <$> ins_split r) = Some "[LEAF: (5,5) (6,6)]"%string) ∧
  ∀ (L : nat) (this : LeafNode) (key val : Z) (st : State),
    1 ≤ L → length (leaf_keys_ this) = L →
    length (leaf_values_ this) = L →
    StronglySorted Z.lt (leaf_keys_ this) → key ∉ leaf_keys_ this →
    let r := LeafNode_Insert L key val this st in
    ∃ left_ right_ pos,
      ins_node r = Leaf left_ ∧
      ins_split r = Some (mkSplit (RIGHTMOST_KEY (Leaf left_)) (Leaf right_)) ∧
      last (leaf_keys_ left_) = Some (RIGHTMOST_KEY (Leaf left_)) ∧
      leaf_keys_ left_ ++ leaf_keys_ right_
      = take pos (leaf_keys_ this) ++ key :: drop pos (leaf_keys_ this) ∧
      leaf_values_ left_ ++ leaf_values_ right_
      = take pos (leaf_values_ this) ++ val :: drop pos (leaf_values_ this) ∧
      StronglySorted Z.lt (leaf_keys_ left_ ++ leaf_keys_ right_).
Proof.
  split; [by vm_compute|].
  intros L this key val st HL Hlk Hlv Hs Hnot r. subst r.
  unfold LeafNode_Insert.
  destruct (AcquireLatch _ _ st) as [depth st1].
  pose proof (SearchKeyIndex_spec this key Hs) as Hsp.
  pose proof (SearchKeyIndex_found this key Hs) as Hfd.
  destruct (LeafNode_SearchKeyIndex this key) as [found pos]. simpl in Hsp, Hfd.
  destruct found; [exfalso; apply Hnot; by apply Hfd|].
  destruct Hsp as (Hpos&Hlt&Hgt).
  unfold Leaf_Size. rewrite Hlk, Nat.ltb_irrefl.
  unfold alloc, LeafNode_sibling, LeafNode_ShiftAndInsert.
  set (bi := UNDERFLOW_BOUND L).
  assert (1 ≤ bi ∧ bi ≤ L) as [Hbi1 Hbi2] by (subst bi; unfold UNDERFLOW_BOUND; lia).
  rewrite (take_ge (leaf_keys_ this) L), (take_ge (leaf_values_ this) L) by lia.
  destruct this as [a ks vs rs]. cbn [leaf_keys_ leaf_values_ leaf_addr leaf_right_sibl_] in *.
  assert (StronglySorted Z.lt (take pos ks ++ key :: drop pos ks)) as Hsorted.
  { by apply StronglySorted_insert_at. }
  destruct (pos <? bi) eqn:Epos; eexists _, _, pos;
    cbn [ins_node ins_split leaf_keys_ leaf_values_].
  - apply Nat.ltb_lt in Epos.
    split; [done|]. split; [done|].
    assert (take pos (take bi ks) ++ key :: drop pos (take bi ks)
            = take (bi + 1) (take pos ks ++ key :: drop pos ks)) as Hk.
    { rewrite take_take, Nat.min_l by lia.
      rewrite take_app_ge by (rewrite length_take; lia).
      rewrite length_take, Nat.min_l by lia.
      replace (bi + 1 - pos) with (S (bi - pos)) by lia. cbn [take]. simpl.
      by rewrite take_drop_commute, Nat.add_comm, Nat.sub_add by lia. }
    assert (take pos (take bi vs) ++ val :: drop pos (take bi vs)
            = take (bi + 1) (take pos vs ++ val :: drop pos vs)) as Hv.
    { rewrite take_take, Nat.min_l by lia.
      rewrite take_app_ge by (rewrite length_take; lia).
      rewrite length_take, Nat.min_l by lia.
      replace (bi + 1 - pos) with (S (bi - pos)) by lia. simpl.
      by rewrite take_drop_commute, Nat.add_comm, Nat.sub_add by lia. }
    assert (∀ (x : Z) (l : list Z), pos ≤ length l → bi ≤ length l →
              drop bi l = drop (bi + 1) (take pos l ++ x :: drop pos l)) as Hd.
    { intros x l ? ?. rewrite drop_app_ge by (rewrite length_take; lia).
      rewrite length_take, Nat.min_l by lia.
      replace (bi + 1 - pos) with (S (bi - pos)) by lia. simpl.
      rewrite drop_drop. f_equal. lia. }
    split; [|split; [|split]].
    + unfold RIGHTMOST_KEY. cbn [Node_GetKey Node_Size leaf_keys_].
      rewrite <- last_lookup_pred.
      destruct (last _) eqn:El; [done|]. apply last_None in El.
      apply (f_equal length) in El. rewrite length_app in El. simpl in El. lia.
    + rewrite Hk, (Hd key ks) by lia. apply take_drop.
    + rewrite Hv, (Hd val vs) by lia. apply take_drop.
    + cbn [leaf_keys_]. rewrite Hk, (Hd key ks) by lia. by rewrite take_drop.
  - apply Nat.ltb_ge in Epos.
    split; [done|]. split; [done|].
    assert (∀ (x : Z) (l : list Z), length l = L →
              take bi l ++ take (pos - bi) (drop bi l) ++ x :: drop (pos - bi) (drop bi l)
              = take pos l ++ x :: drop pos l) as Hj.
    { intros x l Hl. rewrite (assoc_L (++)). f_equal.
      - rewrite <- (take_drop bi (take pos l)). rewrite take_take, Nat.min_l by lia.
        by rewrite take_drop_commute, Nat.add_comm, Nat.sub_add by lia.
      - rewrite drop_drop. do 2 f_equal. lia. }
    split; [|split; [|split]].
    + unfold RIGHTMOST_KEY. cbn [Node_GetKey Node_Size leaf_keys_].
      rewrite <- last_lookup_pred.
      destruct (last _) eqn:El; [done|]. apply last_None in El.
      apply (f_equal length) in El. rewrite length_take in El. simpl in El. lia.
    + by apply Hj.
    + by apply Hj.
    + cbn [leaf_keys_]. by rewrite Hj.
Qed.

Lemma full_leaf_insert_splits_witness :
  let this := mkLeaf 7 [3; 4; 5; 6]%Z [3; 4; 5; 6]%Z None in
  let r := LeafNode_Insert 4 1%Z 1%Z this st0 in
  ∃ left_ right_ pos,
    ins_node r = Leaf left_ ∧
    ins_split r = Some (mkSplit (RIGHTMOST_KEY (Leaf left_)) (Leaf right_)) ∧
    last (leaf_keys_ left_) = Some (RIGHTMOST_KEY (Leaf left_)) ∧
    leaf_keys_ left_ ++ leaf_keys_ right_
    = take pos (leaf_keys_ this) ++ 1%Z :: drop pos (leaf_keys_ this) ∧
    leaf_values_ left_ ++ leaf_values_ right_
    = take pos (leaf_values_ this) ++ 1%Z :: drop pos (leaf_values_ this) ∧
    StronglySorted Z.lt (leaf_keys_ left_ ++ leaf_keys_ right_).
Proof.
  apply (proj2 full_leaf_insert_splits 4 (mkLeaf 7 [3; 4; 5; 6]%Z [3; 4; 5; 6]%Z None)
           1%Z 1%Z st0).
  - lia.
  - reflexivity.
  - reflexivity.
  - repeat constructor; lia.
  - cbn [leaf_keys_]. rewrite !elem_of_cons, elem_of_nil. lia.
Defined.

(** C6. [Delete] of a key that the tree does not hold returns false and
    returns the tree as it was: the same nodes with the same keys, values,
    sizes and sibling pointers; nothing is freed or allocated. *)
Theorem Delete_absent_unchanged (L I : nat) (tree : MemoryBTree) (st : State)
    (key : Z) :
  2 ≤ L → 3 ≤ I → tree_inv L I tree st → key ∉ keys_of (root_ tree) →
  let res := MemoryBTree_Delete L I key tree st in
  res.1.1 = false ∧ res.1.2 = tree ∧
  heap_freed res.2 = heap_freed st ∧ heap_next res.2 = heap_next st.
Proof.
  intros HL HI Hinv Hnot res.
  pose proof (MemoryBTree_Delete_spec L I HL HI key tree st Hinv) as Hd.
  cbv zeta in Hd. fold res in Hd. destruct Hd as (_&Hfound&_&Hsame).
  assert (res.1.1 = false) as Hf.
  { destruct (res.1.1); [|done]. exfalso. apply Hnot. by apply Hfound. }
  split; [done|]. by apply Hsame.
Qed.

Lemma Delete_absent_unchanged_witness :
  let ts := run 4 4 (inserts [1; 2; 3; 4; 5; 6; 7; 8]%Z ++ [Op_Delete 4%Z]) in
  let res := MemoryBTree_Delete 4 4 4%Z ts.1 ts.2 in
  (tree_inv 4 4 ts.1 ts.2 ∧ 4%Z ∉ keys_of (root_ ts.1)) ∧
  res.1.1 = false ∧ res.1.2 = ts.1 ∧
  heap_freed res.2 = heap_freed ts.2 ∧ heap_next res.2 = heap_next ts.2.
Proof.
  assert (2 ≤ 4) as HL by lia. assert (3 ≤ 4) as HI by lia.
  pose proof (proj1 (run_inv 4 4 HL HI
    (inserts [1; 2; 3; 4; 5; 6; 7; 8]%Z ++ [Op_Delete 4%Z]))) as Hinv.
  assert (4%Z ∉ keys_of (root_ (run 4 4
            (inserts [1; 2; 3; 4; 5; 6; 7; 8]%Z ++ [Op_Delete 4%Z])).1)) as Hnot.
  { assert (keys_of (root_ (run 4 4
              (inserts [1; 2; 3; 4; 5; 6; 7; 8]%Z ++ [Op_Delete 4%Z])).1)
            = [1; 2; 3; 5; 6; 7; 8]%Z) as -> by (by vm_compute).
    rewrite !elem_of_cons, elem_of_nil. lia. }
  split; [by split|].
  exact (Delete_absent_unchanged 4 4 _ _ 4%Z HL HI Hinv Hnot).
Defined.

(** C7. When the delete below the root leaves an internal root with one
    child, [MemoryBTree::Delete] returns true, makes that child the root and
    frees the old root alone: [ClearChildArray] detaches the child first, so
    the destructor reaches no node of the promoted subtree (with the child
    attached it would free them all), and none of its nodes is freed. *)
Theorem root_collapse_promotes_child (L I : nat) (tree : MemoryBTree) (st : State)
    (key : Z) (a : nat) (ks : list Z) (c : Node) (rs : option nat) :
  2 ≤ L → 3 ≤ I → tree_inv L I tree st →
  let r := Node_Delete L I key (root_ tree) (AcquireLatch tree_latch_ EXCLUSIVE st).2 in
  del_node r = Internal a ks [c] rs →
  let res := MemoryBTree_Delete L I key tree st in
  res.1.1 = true ∧ root_ res.1.2 = c ∧
  heap_freed res.2 = heap_freed (del_st r) ++ [a] ∧
  delete_node (ClearChildArray (del_node r)) = [a] ∧
  node_addr c ∈ delete_node (del_node r) ∧
  (∀ x, x ∈ addrs c → x ∉ heap_freed res.2) ∧
  tree_inv L I res.1.2 res.2.
Proof.
  intros HL HI Hinv r Hnode res.
  pose proof (MemoryBTree_Delete_spec L I HL HI key tree st Hinv) as Hd.
  cbv zeta in Hd. fold res in Hd. destruct Hd as (Hinv'&_&_&_).
  pose proof Hinv as ([h Hwf]&_&_).
  pose proof (Node_Delete_spec L I HL HI key h 0 2 None None (root_ tree)
                (AcquireLatch tree_latch_ EXCLUSIVE st).2) as Hspec.
  destruct Hspec as [_ _ _ _ _ _ _ _ Hun]; [lia|lia| |done|].
  { pose proof (minI_bounds L I HL HI). lia. }
  fold r in Hun.
  assert (del_found r = true) as Hfound.
  { destruct (del_found r); [done|]. destruct (Hun eq_refl) as (Hsame&_).
    rewrite Hnode in Hsame. rewrite <- Hsame in Hwf.
    destruct h; [done|]. destruct Hwf as (_&Hsz&_). simpl in Hsz. lia. }
  assert (res = (true, mkTree c,
                 QueryContext_Clear
                   (if del_underflow r
                    then ReleaseLatchFromParent 0 EXCLUSIVE (free [a] (del_st r))
                    else free [a] (del_st r)))) as Hres.
  { subst res. unfold MemoryBTree_Delete.
    destruct (AcquireLatch tree_latch_ EXCLUSIVE st) as [d st1]. cbn [snd] in r.
    fold r. rewrite Hfound, Hnode. done. }
  assert (heap_freed res.2 = heap_freed (del_st r) ++ [a]) as Hfreed.
  { rewrite Hres. cbn [snd]. destruct (del_underflow r); heap_simpl; done. }
  rewrite Hres in Hinv', Hfreed |- *. cbn [fst snd root_] in *.
  split; [done|]. split; [done|]. split; [done|].
  rewrite Hnode. split; [done|]. split.
  { simpl. rewrite app_nil_r, elem_of_app. left.
    destruct c; simpl; [constructor|]. apply elem_of_app. right. constructor. }
  split; [|done].
  destruct Hinv' as (_&[Hnd _]&_). cbn [root_] in Hnd.
  apply NoDup_app in Hnd as (_&Hdisj&_). done.
Qed.

Lemma root_collapse_promotes_child_witness :
  let ts := run 4 4 (inserts [1; 2; 3; 4; 5]%Z ++ [Op_Delete 5%Z]) in
  let r := Node_Delete 4 4 4%Z (root_ ts.1)
             (AcquireLatch tree_latch_ EXCLUSIVE ts.2).2 in
  let c := Leaf (mkLeaf 0 [1; 2; 3]%Z [1; 2; 3]%Z None) in
  let res := MemoryBTree_Delete 4 4 4%Z ts.1 ts.2 in
  (tree_inv 4 4 ts.1 ts.2 ∧ del_node r = Internal 2 [5]%Z [c] None) ∧
  res.1.1 = true ∧ root_ res.1.2 = c ∧
  heap_freed res.2 = heap_freed (del_st r) ++ [2] ∧
  delete_node (ClearChildArray (del_node r)) = [2] ∧
  node_addr c ∈ delete_node (del_node r) ∧
  (∀ x, x ∈ addrs c → x ∉ heap_freed res.2) ∧
  tree_inv 4 4 res.1.2 res.2.
Proof.
  assert (2 ≤ 4) as HL by lia. assert (3 ≤ 4) as HI by lia.
  pose proof (proj1 (run_inv 4 4 HL HI
    (inserts [1; 2; 3; 4; 5]%Z ++ [Op_Delete 5%Z]))) as Hinv.
  assert (del_node (Node_Delete 4 4 4%Z
            (root_ (run 4 4 (inserts [1; 2; 3; 4; 5]%Z ++ [Op_Delete 5%Z])).1)
            (AcquireLatch tree_latch_ EXCLUSIVE
               (run 4 4 (inserts [1; 2; 3; 4; 5]%Z ++ [Op_Delete 5%Z])).2).2)
          = Internal 2 [5]%Z [Leaf (mkLeaf 0 [1; 2; 3]%Z [1; 2; 3]%Z None)] None)
    as Hnode by (by vm_compute).
  split; [by split|].
  exact (root_collapse_promotes_child 4 4 _ _ 4%Z _ _ _ _ HL HI Hinv Hnode).
Defined.

(** C8. [LeafNode::Update] does not release in the mode it acquired: on a
    context that holds nothing, the call takes the leaf latch with [lock()]
    and gives it back with [unlock_shared()]. *)
Theorem LeafNode_Update_releases_shared (key value : Z) (this : LeafNode)
    (next : nat) (freed : list nat) (log : list MutexCall) :
  mutex_log (LeafNode_Update key value this
               (mkState (mkContext 0 []) next freed log)).2
  = log ++ [lock (latch_ (leaf_addr this)); unlock_shared (latch_ (leaf_addr this))].
Proof.
  unfold LeafNode_Update.
  destruct (LeafNode_SearchKeyIndex this key) as [found index].
  transitivity ((log ++ [lock (latch_ (leaf_addr this))])
                ++ [unlock_shared (latch_ (leaf_addr this))]).
  - reflexivity.
  - by rewrite <- (assoc_L (++)).
Qed.

(** C9. When [Next] reads an entry whose key is above the inclusive upper
    bound of the iterator, it returns false, and the out-parameters hold
    that key and its value and the offset has moved past the entry; an
    iterator of [RangeQuery] carries such a bound. *)
Theorem Next_past_upper_bound (tree : MemoryBTree) (it : MemoryIterator)
    (key val : Z) (st : State) (fuel a : nat) (current : LeafNode) (k : Z) :
  upper_bound_ it = true →
  current_ it = Some a →
  leaf_at (root_ tree) a = Some current →
  leaf_keys_ current !! offset_ it = Some k →
  (key_high_ it < k)%Z →
  MemoryIterator_Next (S fuel) tree it key val st
  = Some (false, k, default 0%Z (leaf_values_ current !! offset_ it),
          mkIterator (offset_ it + 1) (key_high_ it) true (Some a), st) ∧
  ∀ key_low st', upper_bound_ (MemoryBTree_RangeQuery key_low (key_high_ it) tree st').1
                 = true ∧
                 key_high_ (MemoryBTree_RangeQuery key_low (key_high_ it) tree st').1
                 = key_high_ it.
Proof.
  intros Hub Hcur Hleaf Hk Hgt. split.
  - cbn [MemoryIterator_Next]. rewrite Hcur, Hleaf. unfold LeafNode_GetEntry.
    rewrite Hk, Hub. cbn [negb orb].
    assert ((k <=? key_high_ it)%Z = false) as -> by (apply Z.leb_gt; lia). done.
  - intros key_low st'. unfold MemoryBTree_RangeQuery.
    destruct (AcquireLatch tree_latch_ SHARE st') as [d st1].
    by destruct (Node_LocateKey key_low (root_ tree) st1) as [[[? ?] ?] ?].
Qed.

Lemma Next_past_upper_bound_witness :
  let tree := (run 4 4 (inserts [1; 2; 3; 4; 5; 6; 7; 8]%Z)).1 in
  let it := mkIterator 1 5%Z true (Some 3) in
  MemoryIterator_Next 1 tree it 5%Z 5%Z st0
  = Some (false, 6%Z, 6%Z, mkIterator 2 5%Z true (Some 3), st0) ∧
  ∀ key_low st', upper_bound_ (MemoryBTree_RangeQuery key_low 5%Z tree st').1 = true ∧
                 key_high_ (MemoryBTree_RangeQuery key_low 5%Z tree st').1 = 5%Z.
Proof.
  apply (Next_past_upper_bound
           (run 4 4 (inserts [1; 2; 3; 4; 5; 6; 7; 8]%Z)).1
           (mkIterator 1 5%Z true (Some 3)) 5%Z 5%Z st0 0 3
           (mkLeaf 3 [5; 6; 7; 8]%Z [5; 6; 7; 8]%Z None) 6%Z).
  - reflexivity.
  - reflexivity.
  - by vm_compute.
  - reflexivity.
  - simpl. lia.
Defined.

(** C10. In an internal node with at least one child, [SearchChildIndex]
    returns the index of a populated child slot, the last one when the key
    is above every separator; so the descent of [Insert], [Search],
    [Update], [Delete] and [LocateKey] continues in that child. *)
Theorem SearchChildIndex_selects_child (L I : nat) (a : nat) (ks : list Z)
    (cs : list Node) (rs : option nat) (key : Z) :
  1 ≤ length cs →
  let idx := InternalNode_SearchChildIndex ks (length cs) key in
  let n := Internal a ks cs rs in
  idx ≤ length cs - 1 ∧
  (length cs - 1 ≤ length ks →
   (∀ j x, j < length cs - 1 → ks !! j = Some x → (x < key)%Z) →
   idx = length cs - 1) ∧
  ∃ target, cs !! idx = Some target ∧
    (∀ val st,
       let acq := AcquireLatch (latch_ a) EXCLUSIVE st in
       Node_Insert L I key val n st
       = InternalNode_Insert_return I a ks cs rs acq.1 idx
           (Node_Insert L I key val target
              (if length cs <? I then ReleaseLatch acq.1 EXCLUSIVE acq.2 else acq.2))) ∧
    (∀ value st,
       let acq := AcquireLatch (latch_ a) SHARE st in
       Node_Search key value n st
       = Node_Search key value target (ReleaseLatch acq.1 SHARE acq.2)) ∧
    (∀ value st,
       let acq := AcquireLatch (latch_ a) EXCLUSIVE st in
       let r := Node_Update key value target (ReleaseLatch acq.1 EXCLUSIVE acq.2) in
       Node_Update key value n st
       = (r.1.1, Internal a ks (<[idx := r.1.2]> cs) rs, r.2)) ∧
    (∀ st,
       let acq := AcquireLatch (latch_ a) EXCLUSIVE st in
       Node_Delete L I key n st
       = InternalNode_Delete_return L I a ks cs rs acq.1 idx
           (Node_Delete L I key target
              (if (Z.of_nat (length cs) - 1 >=? Z.of_nat (UNDERFLOW_BOUND I))%Z
               then ReleaseLatch acq.1 EXCLUSIVE acq.2 else acq.2))) ∧
    (∀ st,
       let acq := AcquireLatch (latch_ a) SHARE st in
       Node_LocateKey key n st
       = Node_LocateKey key target (ReleaseLatch acq.1 SHARE acq.2)).
Proof.
  intros Hsize idx n.
  assert (idx ≤ length cs - 1) as Hidx by apply lower_bound_range.
  split; [done|]. split.
  { intros Hlen Hless. by apply lower_bound_all_less. }
  destruct (lookup_lt_is_Some_2 cs idx) as [target Ht]; [lia|].
  exists target. split; [done|]. subst n. repeat split.
  - intros val st acq. subst acq. rewrite Node_Insert_Internal.
    destruct (AcquireLatch (latch_ a) EXCLUSIVE st) as [depth st1]. cbv zeta.
    fold idx. by rewrite Ht.
  - intros value st acq. subst acq. rewrite Node_Search_Internal.
    destruct (AcquireLatch (latch_ a) SHARE st) as [depth st1]. cbv zeta.
    fold idx. by rewrite Ht.
  - intros value st acq r. subst acq r. cbn [Node_Update].
    destruct (AcquireLatch (latch_ a) EXCLUSIVE st) as [depth st1].
    fold idx. rewrite at_child_lookup, Ht. cbn [fmap option_fmap option_map fst snd].
    by destruct (Node_Update key value target _) as [[? ?] ?].
  - intros st acq. subst acq. rewrite Node_Delete_Internal.
    destruct (AcquireLatch (latch_ a) EXCLUSIVE st) as [depth st1]. cbv zeta.
    fold idx. by rewrite Ht.
  - intros st acq. subst acq. cbn [Node_LocateKey].
    destruct (AcquireLatch (latch_ a) SHARE st) as [depth st1].
    fold idx. by rewrite at_child_lookup, Ht.
Qed.

Lemma SearchChildIndex_selects_child_witness :
  let c0 := Leaf (mkLeaf 0 [1; 2]%Z [1; 2]%Z (Some 1)) in
  let c1 := Leaf (mkLeaf 1 [3; 4; 5]%Z [3; 4; 5]%Z None) in
  InternalNode_SearchChildIndex [2; 5]%Z 2 9%Z ≤ 2 - 1 ∧
  InternalNode_SearchChildIndex [2; 5]%Z 2 9%Z = 1 ∧
  [c0; c1] !! InternalNode_SearchChildIndex [2; 5]%Z 2 9%Z = Some c1.
Proof.
  destruct (SearchChildIndex_selects_child 4 4 2 [2; 5]%Z
              [Leaf (mkLeaf 0 [1; 2]%Z [1; 2]%Z (Some 1));
               Leaf (mkLeaf 1 [3; 4; 5]%Z [3; 4; 5]%Z None)] None 9%Z)
    as (Hle&Hlast&target&Ht&_).
  - simpl. lia.
  - split; [exact Hle|]. split; [|reflexivity]. reflexivity.
Defined.

(** * Further properties of the code *)

(** ** Entry lists are determined by what they hold *)

Lemma sorted_by_key (E : list (Z * Z)) :
  StronglySorted Z.lt E.*1 → StronglySorted (λ p q : Z * Z, (p.1 < q.1)%Z) E.
Proof.
  induction E as [|p E IH]; [constructor|]. rewrite fmap_cons.
  intros [Hs Hall]%StronglySorted_inv. constructor; [by apply IH|].
  by rewrite Forall_fmap in Hall.
Qed.

Lemma entries_ext (E1 E2 : list (Z * Z)) :
  StronglySorted Z.lt E1.*1 → StronglySorted Z.lt E2.*1 →
  (∀ k v, (k, v) ∈ E1 ↔ (k, v) ∈ E2) → E1 = E2.
Proof.
  intros H1 H2 Hiff.
  apply (StronglySorted_unique_strong (λ p q : Z * Z, (p.1 < q.1)%Z)).
  - intros. lia.
  - by apply sorted_by_key.
  - by apply sorted_by_key.
  - apply NoDup_Permutation.
    + apply (NoDup_fmap_1 fst). by apply StronglySorted_NoDup.
    + apply (NoDup_fmap_1 fst). by apply StronglySorted_NoDup.
    + intros [k v]. apply Hiff.
Qed.

(** ** Point operations against the map of last-written values *)

Lemma SearchKeyIndex_rest (this : LeafNode) (key : Z) :
  StronglySorted Z.lt (leaf_keys_ this) →
  Forall (λ x, (key ≤ x)%Z)
    (drop (LeafNode_SearchKeyIndex this key).2 (leaf_keys_ this)).
Proof.
  intros Hs. pose proof (SearchKeyIndex_spec this key Hs) as Hsp.
  destruct (LeafNode_SearchKeyIndex this key) as [found pos]. cbn [fst snd] in *.
  destruct Hsp as (Hpos&Hlt&Hrest). destruct found.
  - rewrite <- (take_drop_middle _ _ _ Hrest) in Hs.
    apply StronglySorted_app_1_r in Hs. apply StronglySorted_inv in Hs as [_ Hgt].
    rewrite (drop_S _ _ _ Hrest). constructor; [lia|].
    eapply Forall_impl; [exact Hgt|]. simpl. intros. lia.
  - eapply Forall_impl; [exact Hrest|]. simpl. intros. lia.
Qed.

(** X1. [LeafNode::SearchKeyIndex] on a leaf with increasing keys reports
    found exactly when the key is stored, and the index it returns is the
    key's slot, or else the slot where the key would be inserted: every key
    before it is smaller and every key from it on is not smaller. *)
Theorem SearchKeyIndex_insertion_point (this : LeafNode) (key : Z) :
  StronglySorted Z.lt (leaf_keys_ this) →
  let r := LeafNode_SearchKeyIndex this key in
  r.2 ≤ length (leaf_keys_ this) ∧
  (r.1 = true ↔ key ∈ leaf_keys_ this) ∧
  (r.1 = true → leaf_keys_ this !! r.2 = Some key) ∧
  Forall (λ x, (x < key)%Z) (take r.2 (leaf_keys_ this)) ∧
  Forall (λ x, (key ≤ x)%Z) (drop r.2 (leaf_keys_ this)).
Proof.
  intros Hs r. subst r.
  pose proof (SearchKeyIndex_spec this key Hs) as Hsp.
  pose proof (SearchKeyIndex_found this key Hs) as Hfd.
  pose proof (SearchKeyIndex_rest this key Hs) as Hge.
  destruct (LeafNode_SearchKeyIndex this key) as [found pos]. cbn [fst snd] in *.
  destruct Hsp as (Hpos&Hlt&Hrest).
  split; [done|]. split; [done|]. split; [by intros ->|]. by split.
Qed.

Lemma SearchKeyIndex_insertion_point_witness :
  let this := mkLeaf 0 [1; 3; 5; 7]%Z [10; 30; 50; 70]%Z None in
  let r := LeafNode_SearchKeyIndex this 4%Z in
  r.2 ≤ length (leaf_keys_ this) ∧
  (r.1 = true ↔ 4%Z ∈ leaf_keys_ this) ∧
  (r.1 = true → leaf_keys_ this !! r.2 = Some 4%Z) ∧
  Forall (λ x, (x < 4)%Z) (take r.2 (leaf_keys_ this)) ∧
  Forall (λ x, (4 ≤ x)%Z) (drop r.2 (leaf_keys_ this)).
Proof.
  apply (SearchKeyIndex_insertion_point (mkLeaf 0 [1; 3; 5; 7]%Z [10; 30; 50; 70]%Z None)).
  cbn [leaf_keys_]. repeat constructor; lia.
Defined.

(** X2. After any sequence of [Insert] and [Delete], [Search(key)] returns
    true with the value last written for [key], or false with the caller's
    value left as it was when the key is not bound. *)
Theorem Search_after_workload (L I : nat) (ops : list Op) (key v0 : Z) (st : State) :
  2 ≤ L → 3 ≤ I →
  (MemoryBTree_Search key v0 (run L I ops).1 st).1
  = match last_written ops !! key with
    | Some v => (true, v)
    | None => (false, v0)
    end.
Proof.
  intros HL HI. destruct (run_inv L I HL HI ops) as [(Hwf&_) Hmap].
  destruct (last_written ops !! key) as [v|] eqn:E.
  - apply (MemoryBTree_Search_found L I HL HI); [done|]. by apply Hmap.
  - apply (MemoryBTree_Search_absent L I HL HI); [done|].
    intros [v Hv]%elem_of_keys_of. apply Hmap in Hv. congruence.
Qed.

Lemma Search_after_workload_witness :
  (MemoryBTree_Search 2%Z 0%Z
     (run 4 4 (inserts [1; 2; 3; 4; 5]%Z ++ [Op_Insert 2%Z 20%Z; Op_Delete 3%Z])).1 st0).1
  = match last_written (inserts [1; 2; 3; 4; 5]%Z ++ [Op_Insert 2%Z 20%Z; Op_Delete 3%Z])
          !! 2%Z with
    | Some v => (true, v)
    | None => (false, 0%Z)
    end.
Proof.
  apply (Search_after_workload 4 4
           (inserts [1; 2; 3; 4; 5]%Z ++ [Op_Insert 2%Z 20%Z; Op_Delete 3%Z]) 2%Z 0%Z st0);
    lia.
Defined.

(** X3. With LeafCapacity >= 2 and InternalCapacity >= 3, [Delete] of a
    key that a tree satisfying the invariant holds returns true and
    removes that key alone: the key is gone, a later [Search] for it
    fails, every other entry is kept, the number of entries drops by one,
    and the tree keeps its invariant. *)
Theorem Delete_present_removes (L I : nat) (tree : MemoryBTree) (st : State) (key : Z) :
  2 ≤ L → 3 ≤ I → tree_inv L I tree st → key ∈ keys_of (root_ tree) →
  let res := MemoryBTree_Delete L I key tree st in
  res.1.1 = true ∧
  (key ∉ keys_of (root_ res.1.2)) ∧
  (∀ v0 s, (MemoryBTree_Search key v0 res.1.2 s).1 = (false, v0)) ∧
  (∀ k v, k ≠ key → ((k, v) ∈ entries (root_ res.1.2) ↔ (k, v) ∈ entries (root_ tree))) ∧
  length (entries (root_ res.1.2)) + 1 = length (entries (root_ tree)) ∧
  tree_inv L I res.1.2 res.2.
Proof.
  intros HL HI Hinv Hin res.
  pose proof (MemoryBTree_Delete_spec L I HL HI key tree st Hinv) as Hd.
  cbv zeta in Hd. fold res in Hd. destruct Hd as (Hinv'&Hfound&He&_).
  assert (key ∉ keys_of (root_ res.1.2)) as Hgone.
  { intros [v Hv]%elem_of_keys_of. apply He in Hv. by destruct Hv. }
  split; [by apply Hfound|]. split; [done|]. split; [|split; [|split; [|done]]].
  - intros v0 s. apply (MemoryBTree_Search_absent L I HL HI); [by destruct Hinv'|done].
  - intros k v Hne. rewrite He. tauto.
  - assert (StronglySorted Z.lt (keys_of (root_ tree))) as Hs
      by (apply (tree_wf_keys L I HL HI); by destruct Hinv).
    assert (StronglySorted Z.lt (keys_of (root_ res.1.2))) as Hs'
      by (apply (tree_wf_keys L I HL HI); by destruct Hinv').
    apply elem_of_keys_of in Hin as [v Hv].
    assert (entries (root_ tree) ≡ₚ (key, v) :: entries (root_ res.1.2)) as Hp.
    { apply NoDup_Permutation.
      - apply (NoDup_fmap_1 fst). by apply StronglySorted_NoDup.
      - constructor.
        + intros Hin'. apply Hgone. apply elem_of_keys_of. by exists v.
        + apply (NoDup_fmap_1 fst). by apply StronglySorted_NoDup.
      - intros [k w]. rewrite elem_of_cons, He. split.
        + intros Hkw. destruct (decide (k = key)) as [->|Hne]; [|by right].
          left. f_equal. by apply (entries_value_unique (entries (root_ tree)) key).
        + intros [[= -> ->]|[_ ?]]; done. }
    rewrite Hp. simpl. lia.
Qed.

Lemma Delete_present_removes_witness :
  let ts := run 4 4 (inserts [1; 2; 3; 4; 5; 6; 7; 8]%Z) in
  let res := MemoryBTree_Delete 4 4 4%Z ts.1 ts.2 in
  (tree_inv 4 4 ts.1 ts.2 ∧ 4%Z ∈ keys_of (root_ ts.1)) ∧
  res.1.1 = true ∧
  (4%Z ∉ keys_of (root_ res.1.2)) ∧
  (∀ v0 s, (MemoryBTree_Search 4%Z v0 res.1.2 s).1 = (false, v0)) ∧
  (∀ k v, k ≠ 4%Z → ((k, v) ∈ entries (root_ res.1.2) ↔ (k, v) ∈ entries (root_ ts.1))) ∧
  length (entries (root_ res.1.2)) + 1 = length (entries (root_ ts.1)) ∧
  tree_inv 4 4 res.1.2 res.2.
Proof.
  assert (2 ≤ 4) as HL by lia. assert (3 ≤ 4) as HI by lia.
  pose proof (proj1 (run_inv 4 4 HL HI (inserts [1; 2; 3; 4; 5; 6; 7; 8]%Z))) as Hinv.
  assert (4%Z ∈ keys_of (root_ (run 4 4 (inserts [1; 2; 3; 4; 5; 6; 7; 8]%Z)).1)) as Hin.
  { assert (keys_of (root_ (run 4 4 (inserts [1; 2; 3; 4; 5; 6; 7; 8]%Z)).1)
            = [1; 2; 3; 4; 5; 6; 7; 8]%Z) as -> by (by vm_compute).
    rewrite !elem_of_cons. tauto. }
  split; [by split|].
  exact (Delete_present_removes 4 4 _ _ 4%Z HL HI Hinv Hin).
Defined.

(** X4. The entries of the tree depend on the map of last-written values
    alone: two workloads that end in the same map leave the same entry
    list, whatever the order of the operations and whichever capacities
    the two trees have among those with LeafCapacity >= 2 and
    InternalCapacity >= 3 (the shapes of the trees may differ). *)
Theorem entries_determined_by_last_written (L1 I1 L2 I2 : nat) (ops1 ops2 : list Op) :
  2 ≤ L1 → 3 ≤ I1 → 2 ≤ L2 → 3 ≤ I2 →
  last_written ops1 = last_written ops2 →
  entries (root_ (run L1 I1 ops1).1) = entries (root_ (run L2 I2 ops2).1).
Proof.
  intros HL1 HI1 HL2 HI2 Hsame.
  destruct (run_inv L1 I1 HL1 HI1 ops1) as [(Hwf1&_) Hmap1].
  destruct (run_inv L2 I2 HL2 HI2 ops2) as [(Hwf2&_) Hmap2].
  apply entries_ext.
  - by apply (tree_wf_keys L1 I1 HL1 HI1).
  - by apply (tree_wf_keys L2 I2 HL2 HI2).
  - intros k v. by rewrite Hmap1, Hmap2, Hsame.
Qed.

Lemma entries_determined_by_last_written_witness :
  entries (root_ (run 4 4 (inserts [1; 2; 3; 4; 5; 6]%Z)).1)
  = entries (root_ (run 2 3 (inserts [6; 9; 5; 4; 3; 2; 1]%Z ++ [Op_Delete 9%Z])).1).
Proof.
  apply (entries_determined_by_last_written 4 4 2 3); [lia..|].
  by vm_compute.
Defined.

(** ** The shape of the tree after a workload *)

Lemma foldr_max_const (h : nat) (l : list nat) :
  l ≠ [] → Forall (λ x, x = h) l → foldr Nat.max 0 l = h.
Proof.
  induction l as [|x [|y l] IH]; [done|..].
  - intros _ [-> _]%Forall_cons. simpl. lia.
  - intros _ [-> Hl]%Forall_cons. cbn [foldr] in *. rewrite IH; [lia|done|done].
Qed.

Lemma wf_height (L I : nat) h : ∀ mL mI lo hi n,
  1 ≤ mI → 1 ≤ minI I → wf L I h mL mI lo hi n → height n = h.
Proof.
  induction h as [|h IH]; intros mL mI lo hi [l|a ks cs rs] HmI Hmin Hwf; try done.
  destruct Hwf as (_&Hsz&Hc&_). cbn [height]. f_equal.
  apply foldr_max_const.
  - destruct cs; [simpl in Hsz; lia|done].
  - apply Forall_fmap. eapply chain_Forall; [|exact Hc].
    intros lo' b c Hcw. simpl. by eapply IH.
Qed.

Lemma wf_leaf_depths (L I : nat) h : ∀ mL mI lo hi n,
  wf L I h mL mI lo hi n → Forall (λ d, d = h) (leaf_depths n).
Proof.
  induction h as [|h IH]; intros mL mI lo hi [l|a ks cs rs] Hwf; try done.
  - by repeat constructor.
  - destruct Hwf as (_&_&Hc&_). cbn [leaf_depths].
    apply Forall_fmap. rewrite concat_map_bind. apply Forall_bind.
    eapply chain_Forall; [|exact Hc]. intros lo' b c Hcw. simpl.
    eapply Forall_impl; [by eapply IH|]. simpl. by intros ? ->.
Qed.

Lemma wf_capacity (L I : nat) h : ∀ mL mI lo hi n,
  wf L I h mL mI lo hi n →
  Forall (λ m, Node_Size m ≤ capacity_of L I m) (nodes n).
Proof.
  induction h as [|h IH]; intros mL mI lo hi [l|a ks cs rs] Hwf; try done.
  - destruct Hwf as (_&_&_&Hsz&_). constructor; [simpl; lia|constructor].
  - destruct Hwf as (_&Hsz&Hc&_). rewrite nodes_Internal.
    constructor; [simpl; lia|]. apply Forall_bind.
    eapply chain_Forall; [|exact Hc]. intros lo' b c Hcw. simpl. by eapply IH.
Qed.

(** A subtree of height [h] whose nodes have the regular minimum sizes
    holds at least [minL * minI ^ h] entries. *)
Lemma wf_reg_population (L I : nat) h : ∀ lo hi n,
  wf_reg L I h lo hi n → minL L * minI I ^ h ≤ length (entries n).
Proof.
  induction h as [|h IH]; intros lo hi [l|a ks cs rs] Hwf; try done.
  - destruct Hwf as (Hlen&_&_&Hsz&_). rewrite entries_Leaf. unfold leaf_entries.
    rewrite length_zip_with, Nat.pow_0_r. lia.
  - destruct Hwf as (_&Hsz&Hc&_). rewrite entries_Internal.
    assert (Forall (λ c, minL L * minI I ^ h ≤ length (entries c)) cs) as Hall.
    { eapply chain_Forall; [|exact Hc]. intros lo' b c Hcw. simpl. by eapply IH. }
    assert (length cs * (minL L * minI I ^ h) ≤ length (cs ≫= entries)) as Hsum.
    { clear -Hall. induction Hall as [|c cs Hc _ IHc]; [done|].
      rewrite bind_cons, length_app. simpl. lia. }
    rewrite Nat.pow_succ_r'.
    replace (minL L * (minI I * minI I ^ h)) with (minI I * (minL L * minI I ^ h)) by lia.
    etrans; [|exact Hsum]. apply Nat.mul_le_mono_r. lia.
Qed.

Section Shape.

Variable L : nat.
Variable I : nat.
Hypothesis HL : 2 ≤ L.
Hypothesis HI : 3 ≤ I.
#[local] Set Default Proof Using "HL HI".

Lemma tree_wf_population tree :
  tree_wf L I tree →
  2 * minL L * minI I ^ (height (root_ tree) - 1) ≤ length (entries (root_ tree))
  ∨ height (root_ tree) = 0.
Proof.
  intros [h Hwf]. pose proof (minI_pos L I HL HI) as Hpos.
  rewrite (wf_height L I h 0 2 None None (root_ tree)) by (done || lia).
  destruct h as [|h]; [by right|left].
  destruct (root_ tree) as [l|a ks cs rs]; [done|].
  destruct Hwf as (_&Hsz&Hc&_). rewrite entries_Internal.
  replace (S h - 1) with h by lia.
  assert (Forall (λ c, minL L * minI I ^ h ≤ length (entries c)) cs) as Hall.
  { eapply chain_Forall; [|exact Hc]. intros lo' b c Hcw. simpl.
    by eapply wf_reg_population. }
  assert (length cs * (minL L * minI I ^ h) ≤ length (cs ≫= entries)) as Hsum.
  { clear -Hall. induction Hall as [|c cs Hc _ IHc]; [done|].
    rewrite bind_cons, length_app. simpl. lia. }
  etrans; [|exact Hsum].
  replace (2 * minL L * minI I ^ h) with (2 * (minL L * minI I ^ h)) by lia.
  apply Nat.mul_le_mono_r. lia.
Qed.

End Shape.

(** X5. After any sequence of [Insert] and [Delete] the tree is balanced:
    every leaf lies at the same depth, the height of the root. *)
Theorem leaves_at_equal_depth (L I : nat) (ops : list Op) :
  2 ≤ L → 3 ≤ I →
  Forall (λ d, d = height (root_ (run L I ops).1)) (leaf_depths (root_ (run L I ops).1)).
Proof.
  intros HL HI. destruct (run_inv L I HL HI ops) as [([h Hwf]&_) _].
  pose proof (minI_pos L I HL HI).
  rewrite (wf_height L I h 0 2 None None _) by (done || lia).
  by eapply wf_leaf_depths.
Qed.

Lemma leaves_at_equal_depth_witness :
  Forall (λ d, d = height (root_ (run 2 3 (inserts (Z.of_nat <$> seq 0 12))).1))
    (leaf_depths (root_ (run 2 3 (inserts (Z.of_nat <$> seq 0 12))).1)).
Proof. apply (leaves_at_equal_depth 2 3); lia. Defined.

(** X6. With LeafCapacity >= 2 and InternalCapacity >= 3, after any
    sequence of [Insert] and [Delete] no node is over its capacity: a leaf
    holds at most [LeafCapacity] entries and an internal node at most
    [InternalCapacity] children; the overflow slot of the arrays is empty
    again when an operation returns.  An internal root has at least two
    children. *)
Theorem nodes_within_capacity (L I : nat) (ops : list Op) :
  2 ≤ L → 3 ≤ I →
  Forall (λ n, Node_Size n ≤ capacity_of L I n) (nodes (root_ (run L I ops).1)) ∧
  (Node_Type (root_ (run L I ops).1) = INTERNAL → 2 ≤ Node_Size (root_ (run L I ops).1)).
Proof.
  intros HL HI. destruct (run_inv L I HL HI ops) as [([h Hwf]&_) _]. split.
  - by eapply wf_capacity.
  - destruct h, (root_ (run L I ops).1) as [l|a ks cs rs]; try done.
    intros _. destruct Hwf as (_&Hsz&_). simpl. lia.
Qed.

Lemma nodes_within_capacity_witness :
  Forall (λ n, Node_Size n ≤ capacity_of 4 4 n)
    (nodes (root_ (run 4 4 (inserts (Z.of_nat <$> seq 0 30))).1)) ∧
  (Node_Type (root_ (run 4 4 (inserts (Z.of_nat <$> seq 0 30))).1) = INTERNAL →
   2 ≤ Node_Size (root_ (run 4 4 (inserts (Z.of_nat <$> seq 0 30))).1)).
Proof. apply (nodes_within_capacity 4 4); lia. Defined.

(** X7. With LeafCapacity [L >= 2] and InternalCapacity [I >= 3], the
    height of the tree is logarithmic in what it holds: after any workload
    a tree of height [h >= 1] holds at least
    [2 * (L/2) * UNDERFLOW_BOUND(I) ^ (h-1)] entries. *)
Theorem height_logarithmic (L I : nat) (ops : list Op) :
  2 ≤ L → 3 ≤ I →
  let root := root_ (run L I ops).1 in
  1 ≤ height root →
  2 * (L / 2) * UNDERFLOW_BOUND I ^ (height root - 1) ≤ length (entries root).
Proof.
  intros HL HI root Hh. destruct (run_inv L I HL HI ops) as [(Hwf&_) _].
  destruct (tree_wf_population L I HL HI _ Hwf) as [Hp|Hz]; [done|].
  fold root in Hz. lia.
Qed.

Lemma height_logarithmic_witness :
  let root := root_ (run 4 4 (inserts (Z.of_nat <$> seq 0 30))).1 in
  1 ≤ height root ∧
  2 * (4 / 2) * UNDERFLOW_BOUND 4 ^ (height root - 1) ≤ length (entries root).
Proof.
  assert (1 ≤ height (root_ (run 4 4 (inserts (Z.of_nat <$> seq 0 30))).1)) as Hh.
  { assert (height (root_ (run 4 4 (inserts (Z.of_nat <$> seq 0 30))).1) = 3) as ->
      by (by vm_compute).
    lia. }
  split; [exact Hh|].
  exact (height_logarithmic 4 4 (inserts (Z.of_nat <$> seq 0 30))
           ltac:(lia) ltac:(lia) Hh).
Defined.

(** ** Every node is accounted for *)

Lemma heap_full_alloc A A' st st' :
  heap_full A st →
  A' ≡ₚ A ++ seq (heap_next st) (heap_next st' - heap_next st) →
  heap_next st ≤ heap_next st' →
  heap_freed st' = heap_freed st →
  heap_full A' st'.
Proof.
  unfold heap_full. intros Hfull Hp Hle Hf. rewrite Hf, Hp.
  replace (heap_next st') with (heap_next st + (heap_next st' - heap_next st)) at 2 by lia.
  rewrite seq_app, <- Hfull, <- !(assoc_L (++)). simpl.
  apply Permutation_app_head, Permutation_app_comm.
Qed.

Lemma heap_full_free A A' fr st st' :
  heap_full A st →
  A ≡ₚ A' ++ fr →
  heap_next st' = heap_next st →
  heap_freed st' = heap_freed st ++ fr →
  heap_full A' st'.
Proof.
  unfold heap_full. intros Hfull Hp Hn Hf. rewrite Hf, Hn, <- Hfull, Hp.
  rewrite <- !(assoc_L (++)). apply Permutation_app_head, Permutation_app_comm.
Qed.

Lemma heap_full_state A st st' :
  heap_next st' = heap_next st → heap_freed st' = heap_freed st →
  heap_full A st → heap_full A st'.
Proof. intros Hn Hf. unfold heap_full. by rewrite Hn, Hf. Qed.

Lemma heap_full_ok A st : heap_full A st → heap_ok A st.
Proof.
  unfold heap_full, heap_ok. intros ->. split; [apply NoDup_seq|].
  apply Forall_forall. intros x Hx%elem_of_seq. lia.
Qed.

(** The destructor of a subtree releases each of its nodes once. *)
Lemma delete_node_addrs n : delete_node n ≡ₚ addrs n.
Proof.
  induction n as [l|a ks cs rs IH] using Node_ind'; [done|].
  cbn [delete_node addrs]. rewrite <- Permutation_cons_append. apply Permutation_skip.
  induction IH as [|c cs Hc _ IHcs]; [done|]. simpl. by rewrite Hc, IHcs.
Qed.

Section Heap.

Variable L : nat.
Variable I : nat.
Hypothesis HL : 2 ≤ L.
Hypothesis HI : 3 ≤ I.
#[local] Set Default Proof Using "HL HI".

Lemma MemoryBTree_Insert_heap key val tree st :
  tree_inv L I tree st → heap_full (addrs (root_ tree)) st →
  heap_full (addrs (root_ (MemoryBTree_Insert L I key val tree st).1))
            (MemoryBTree_Insert L I key val tree st).2.
Proof.
  intros ([h Hwf]&Hheap&Hlinked) Hfull.
  pose proof (minI_bounds L I HL HI) as (?&_).
  unfold MemoryBTree_Insert.
  destruct (AcquireLatch tree_latch_ EXCLUSIVE st) as [d st1] eqn:Eacq.
  pose proof (heap_AcquireLatch tree_latch_ EXCLUSIVE st) as [Hn1 Hf1].
  rewrite Eacq in Hn1, Hf1. simpl in Hn1, Hf1.
  pose proof (Node_Insert_spec L I HL HI key val h 0 2 None None (root_ tree) st1)
    as Hspec.
  destruct Hspec as [Hw He Hh Hl Ha Hnx Hfr Had]; [lia|lia|done|done|done|].
  cbv zeta. unfold ins_nodes in *.
  apply (heap_full_state _ st st1) in Hfull; [|done|done].
  destruct (ins_split (Node_Insert L I key val (root_ tree) st1)) as [s|] eqn:Es.
  - set (r := Node_Insert L I key val (root_ tree) st1) in *.
    unfold alloc, InternalNode_new. cbn [fst snd root_].
    eapply (heap_full_state _ (mkState (context (ins_st r)) (S (heap_next (ins_st r)))
                                 (heap_freed (ins_st r)) (mutex_log (ins_st r)))).
    { by heap_simpl. }
    { by heap_simpl. }
    apply (heap_full_alloc (addrs (root_ tree)) _ st1); simpl; try done; try lia.
    rewrite !bind_cons, bind_nil in Ha.
    replace (S (heap_next (ins_st r)) - heap_next st1)
      with (S (heap_next (ins_st r) - heap_next st1)) by lia.
    rewrite seq_S.
    replace (heap_next st1 + (heap_next (ins_st r) - heap_next st1))
      with (heap_next (ins_st r)) by lia.
    rewrite (assoc_L (++) (addrs (root_ tree))), <- Permutation_cons_append.
    by apply Permutation_skip.
  - set (r := Node_Insert L I key val (root_ tree) st1) in *.
    cbn [fst snd root_]. rewrite !bind_cons, !bind_nil, !app_nil_r in *.
    eapply (heap_full_state _ (ins_st r)); [by heap_simpl|by heap_simpl|].
    by apply (heap_full_alloc (addrs (root_ tree)) _ st1).
Qed.

Lemma MemoryBTree_Delete_heap key tree st :
  tree_inv L I tree st → heap_full (addrs (root_ tree)) st →
  heap_full (addrs (root_ (MemoryBTree_Delete L I key tree st).1.2))
            (MemoryBTree_Delete L I key tree st).2.
Proof.
  intros ([h Hwf]&Hheap&Hlinked) Hfull.
  pose proof (minI_bounds L I HL HI) as (?&_).
  unfold MemoryBTree_Delete.
  destruct (AcquireLatch tree_latch_ EXCLUSIVE st) as [d st1] eqn:Eacq.
  pose proof (heap_AcquireLatch tree_latch_ EXCLUSIVE st) as [Hn1 Hf1].
  rewrite Eacq in Hn1, Hf1. simpl in Hn1, Hf1.
  pose proof (Node_Delete_spec L I HL HI key h 0 2 None None (root_ tree) st1) as Hspec.
  destruct Hspec as [Hw Hfi He Hh Hl (fr&Hfr&Hp) Hnx Had Hun]; [lia|lia|done|done|].
  apply (heap_full_state _ st st1) in Hfull; [|done|done].
  set (r := Node_Delete L I key (root_ tree) st1) in *. clearbody r.
  cbv zeta.
  assert (heap_full (addrs (del_node r)) (del_st r)) as Hfull'
    by (by apply (heap_full_free (addrs (root_ tree)) _ fr st1)).
  destruct (del_found r) eqn:Ef; cbn [negb]; [|done].
  destruct (del_node r) as [l|a ks [|c [|c' cs']] rs] eqn:En; cbn [fst snd root_].
  - eapply heap_full_state; [| |exact Hfull'];
      destruct (del_underflow r); by heap_simpl.
  - eapply heap_full_state; [| |exact Hfull'];
      destruct (del_underflow r); by heap_simpl.
  - apply (heap_full_state _ (free [a] (del_st r)));
      [destruct (del_underflow r); by heap_simpl
      |destruct (del_underflow r); by heap_simpl|].
    apply (heap_full_free (addrs (Internal a ks [c] rs)) _ [a] (del_st r)); try done.
    rewrite addrs_Internal, bind_cons, bind_nil, app_nil_r.
    apply Permutation_cons_append.
  - eapply heap_full_state; [| |exact Hfull'];
      destruct (del_underflow r); by heap_simpl.
Qed.

Lemma run_heap_full ops :
  heap_full (addrs (root_ (run L I ops).1)) (run L I ops).2.
Proof.
  induction ops as [|op ops IH] using rev_ind; [by unfold heap_full; simpl|].
  destruct (run_inv L I HL HI ops) as [Hinv _].
  rewrite (run_snoc L I HL HI). destruct op as [key val|key]; cbn [apply_op fst snd].
  - by apply MemoryBTree_Insert_heap.
  - by apply MemoryBTree_Delete_heap.
Qed.

End Heap.

Lemma linked_lookup ls nxt i l :
  linked ls nxt → ls !! i = Some l →
  leaf_right_sibl_ l = match ls !! S i with
                       | Some l' => Some (leaf_addr l')
                       | None => nxt
                       end.
Proof.
  revert i. induction ls as [|l0 ls IH]; intros i Hl Hi; [done|].
  destruct Hl as [Hhd Hl]. destruct i as [|i].
  - simpl in Hi. simplify_eq. rewrite Hhd. by destruct ls.
  - simpl in Hi. by apply IH.
Qed.

(** X8. With LeafCapacity >= 2 and InternalCapacity >= 3, nothing leaks
    and nothing is freed twice: after any sequence of [Insert] and
    [Delete] the nodes of the tree together with the nodes handed to
    [delete] are exactly the nodes allocated so far, each once. *)
Theorem heap_accounted (L I : nat) (ops : list Op) :
  2 ≤ L → 3 ≤ I →
  addrs (root_ (run L I ops).1) ++ heap_freed (run L I ops).2
  ≡ₚ seq 0 (heap_next (run L I ops).2).
Proof. intros HL HI. exact (run_heap_full L I HL HI ops). Qed.

Lemma heap_accounted_witness :
  addrs (root_ (run 4 4 (inserts [1; 2; 3; 4; 5; 6; 7; 8]%Z
                           ++ [Op_Delete 1; Op_Delete 2; Op_Delete 3]%Z)).1)
    ++ heap_freed (run 4 4 (inserts [1; 2; 3; 4; 5; 6; 7; 8]%Z
                           ++ [Op_Delete 1; Op_Delete 2; Op_Delete 3]%Z)).2
  ≡ₚ seq 0 (heap_next (run 4 4 (inserts [1; 2; 3; 4; 5; 6; 7; 8]%Z
                           ++ [Op_Delete 1; Op_Delete 2; Op_Delete 3]%Z)).2).
Proof. apply (heap_accounted 4 4); lia. Defined.

(** X9. With LeafCapacity >= 2 and InternalCapacity >= 3, after any
    sequence of [Insert] and [Delete] the right-sibling pointers thread
    the leaves from left to right: each leaf points to the next leaf of
    the tree, the last one to nothing, and no two leaves share an
    address. *)
Theorem leaf_chain_threaded (L I : nat) (ops : list Op) :
  2 ≤ L → 3 ≤ I →
  let ls := leaves (root_ (run L I ops).1) in
  NoDup (leaf_addr <$> ls) ∧
  ∀ i l, ls !! i = Some l → leaf_right_sibl_ l = leaf_addr <$> ls !! S i.
Proof.
  intros HL HI ls. destruct (run_inv L I HL HI ops) as [(_&[Hnd _]&Hl) _]. split.
  - apply NoDup_app in Hnd as [Hnd _].
    eapply sublist_NoDup; [exact Hnd|apply leaf_addrs_sublist].
  - intros i l Hi. rewrite (linked_lookup _ _ _ _ Hl Hi).
    fold ls. by destruct (ls !! S i).
Qed.

Lemma leaf_chain_threaded_witness :
  let ls := leaves (root_ (run 2 3 (inserts [5; 1; 4; 2; 3; 6]%Z ++ [Op_Delete 4%Z])).1) in
  NoDup (leaf_addr <$> ls) ∧
  ∀ i l, ls !! i = Some l → leaf_right_sibl_ l = leaf_addr <$> ls !! S i.
Proof. apply (leaf_chain_threaded 2 3); lia. Defined.

(** X10. [MemoryBTree::Clear] on a tree that any workload built with
    LeafCapacity >= 2 and InternalCapacity >= 3: the tree is an empty leaf
    at a fresh address, every node of the old tree was handed to [delete]
    exactly once (the destructor of an internal node deletes its
    children), and all nodes remain accounted for. *)
Theorem Clear_releases_tree (L I : nat) (ops : list Op) :
  2 ≤ L → 3 ≤ I →
  let ts := run L I ops in
  let res := MemoryBTree_Clear ts.1 ts.2 in
  entries (root_ res.1) = [] ∧
  root_ res.1 = Leaf (mkLeaf (heap_next ts.2) [] [] None) ∧
  (∃ fr, heap_freed res.2 = heap_freed ts.2 ++ fr ∧ fr ≡ₚ addrs (root_ ts.1)) ∧
  tree_inv L I res.1 res.2 ∧
  addrs (root_ res.1) ++ heap_freed res.2 ≡ₚ seq 0 (heap_next res.2).
Proof.
  intros HL HI ts res.
  pose proof (run_heap_full L I HL HI ops) as Hfull. fold ts in Hfull.
  assert (heap_full (addrs (root_ res.1)) res.2) as Hfull'.
  { unfold heap_full in *. subst res. unfold MemoryBTree_Clear, alloc, free.
    cbn [fst snd root_ addrs heap_freed heap_next leaf_addr].
    rewrite seq_S, <- Hfull, delete_node_addrs. simpl.
    rewrite <- Permutation_cons_append. apply Permutation_skip, Permutation_app_comm. }
  split; [done|]. split; [done|]. split; [|split; [|done]].
  - exists (delete_node (root_ ts.1)). split; [done|apply delete_node_addrs].
  - split; [|split].
    + exists 0. subst res. unfold MemoryBTree_Clear, alloc. cbn [fst snd root_ wf].
      simpl. repeat split; try done; try constructor; lia.
    + by apply heap_full_ok.
    + done.
Qed.

Lemma Clear_releases_tree_witness :
  let ts := run 4 4 (inserts [1; 2; 3; 4; 5; 6; 7; 8]%Z) in
  let res := MemoryBTree_Clear ts.1 ts.2 in
  entries (root_ res.1) = [] ∧
  root_ res.1 = Leaf (mkLeaf (heap_next ts.2) [] [] None) ∧
  (∃ fr, heap_freed res.2 = heap_freed ts.2 ++ fr ∧ fr ≡ₚ addrs (root_ ts.1)) ∧
  tree_inv 4 4 res.1 res.2 ∧
  addrs (root_ res.1) ++ heap_freed res.2 ≡ₚ seq 0 (heap_next res.2).
Proof. apply (Clear_releases_tree 4 4); lia. Defined.

(** ** [Update] *)

Lemma Node_Update_Internal key value a ks cs rs st :
  Node_Update key value (Internal a ks cs rs) st =
  let '(depth, st1) := AcquireLatch (latch_ a) EXCLUSIVE st in
  let st2 := ReleaseLatch depth EXCLUSIVE st1 in
  let t := InternalNode_SearchChildIndex ks (length cs) key in
  match cs !! t with
  | Some target =>
    let r := Node_Update key value target st2 in
    (r.1.1, Internal a ks (<[t := r.1.2]> cs) rs, r.2)
  | None => (false, Internal a ks cs rs, st2)
  end.
Proof.
  cbn [Node_Update]. destruct (AcquireLatch _ _ st) as [depth st1].
  rewrite at_child_lookup. cbv zeta. destruct (cs !! _); [|done]. simpl.
  by destruct (Node_Update _ _ _ _) as [[? ?] ?].
Qed.

Section Update.

Variable L : nat.
Variable I : nat.
Hypothesis HL : 2 ≤ L.
Hypothesis HI : 3 ≤ I.
#[local] Set Default Proof Using "HL HI".

Lemma LeafNode_Update_spec key value this st mL mI lo hi :
  wf L I 0 mL mI lo hi (Leaf this) →
  update_spec L I 0 mL mI lo hi key value (Leaf this) st
    (Node_Update key value (Leaf this) st).
Proof.
  intros (Hlen&Hs&Hw&Hsz&Holt). cbn [Node_Update]. unfold LeafNode_Update.
  destruct (AcquireLatch _ _ st) as [depth st1] eqn:Eacq.
  pose proof (heap_AcquireLatch (latch_ (leaf_addr this)) EXCLUSIVE st) as [Hn1 Hf1].
  rewrite Eacq in Hn1, Hf1. simpl in Hn1, Hf1.
  pose proof (SearchKeyIndex_spec this key Hs) as Hsp.
  pose proof (SearchKeyIndex_found this key Hs) as Hfd.
  destruct (LeafNode_SearchKeyIndex this key) as [found pos]. cbn [fst snd] in *.
  destruct Hsp as (Hpos&_&Hf).
  assert (keys_of (Leaf this) = leaf_keys_ this) as Hkeys by (by apply leaf_keys_of).
  destruct found.
  - assert (pos < length (leaf_keys_ this)) by (by apply lookup_lt_Some in Hf).
    destruct (lookup_lt_is_Some_2 (leaf_values_ this) pos) as [old Hold]; [lia|].
    assert (keys_of (Leaf (mkLeaf (leaf_addr this) (leaf_keys_ this)
                             (<[pos := value]> (leaf_values_ this))
                             (leaf_right_sibl_ this))) = leaf_keys_ this) as Hkeys'.
    { rewrite leaf_keys_of; [done|]. cbn [leaf_values_ leaf_keys_].
      by rewrite length_insert. }
    split; cbn [fst snd]; heap_simpl; try done.
    + rewrite Hkeys. split; [intros _; by apply Hfd|done].
    + cbn [wf leaf_values_ leaf_keys_]. rewrite length_insert. done.
    + intros k v. rewrite !entries_Leaf. unfold leaf_entries. cbn [leaf_keys_ leaf_values_].
      rewrite (zip_value_insert _ _ key) by done.
      rewrite (entries_update _ pos key old value).
      * rewrite Hkeys. split; [intros [[-> ->]|?]; [left|by right]|intros [(->&->&_)|?]; auto].
        repeat split; by apply Hfd.
      * rewrite fst_zip by lia. done.
      * by apply lookup_zip_Some.
    + by rewrite Hkeys'.
  - split; cbn [fst snd]; heap_simpl; try done.
    + rewrite Hkeys. split; [done|]. intros Hin. by apply Hfd in Hin.
    + intros k v. split; [|intros [(->&_&Hin)|[_ ?]]; [|done]].
      * intros Hin. right. split; [|done]. intros ->.
        assert (key ∈ leaf_keys_ this) as Hk; [|by apply Hfd in Hk].
        rewrite <- Hkeys. apply elem_of_keys_of. eauto.
      * rewrite Hkeys in Hin. by apply Hfd in Hin.
Qed.

Lemma Node_Update_spec key value h : ∀ mL mI lo hi n st,
  1 ≤ mI → wf L I h mL mI lo hi n →
  update_spec L I h mL mI lo hi key value n st (Node_Update key value n st).
Proof.
  induction h as [|h IH]; intros mL mI lo hi [this|a ks cs rs] st HmI Hwf; try done.
  - by apply LeafNode_Update_spec.
  - rewrite Node_Update_Internal.
    destruct (AcquireLatch (latch_ a) EXCLUSIVE st) as [depth st1] eqn:Eacq.
    pose proof (heap_AcquireLatch (latch_ a) EXCLUSIVE st) as [Hn1 Hf1].
    rewrite Eacq in Hn1, Hf1. simpl in Hn1, Hf1. cbv zeta.
    pose proof Hwf as (Hlen&Hsz&Hchain&Hsync).
    destruct (descend L I HL HI h lo hi key ks cs) as (ks1&k&ks2&cs1&c&cs2&lo_c&hi_c&Hfoc);
      [done|lia|done|].
    pose proof Hfoc as [Hks Hcs Hk1 Hc1 Hlen2 Hlo Hhi Hpre Hchild Hpost _ Hnpre Hnpost].
    set (t := InternalNode_SearchChildIndex ks (length cs) key) in *.
    assert (cs !! t = Some c) as ->.
    { pose proof (lookup_at_length cs1 cs2 c _ (eq_sym Hc1)) as Hl. by rewrite <- Hcs in Hl. }
    destruct (IH _ _ _ _ c (ReleaseLatch depth EXCLUSIVE st1) (minI_pos L I HL HI) Hchild)
      as [Hfound Hwf' He Hk Hh Hl Ha [Hn Hf] Hab].
    set (r := Node_Update key value c (ReleaseLatch depth EXCLUSIVE st1)) in *.
    clearbody r. cbn [fst snd].
    assert (<[t := r.1.2]> cs = cs1 ++ r.1.2 :: cs2) as Hins.
    { rewrite Hcs. by apply insert_at_length. }
    rewrite Hins.
    assert (key ∈ keys_of (Internal a ks cs rs) ↔ key ∈ keys_of c) as Hin.
    { rewrite keys_of_Internal, Hcs, bind_app, bind_cons, !elem_of_app. tauto. }
    split; cbn [fst snd].
    + tauto.
    + cbn [wf]. rewrite Hcs, length_app in Hlen, Hsz. simpl in Hlen, Hsz.
      repeat split; auto.
      * rewrite !length_app. simpl. lia.
      * rewrite length_app. simpl. lia.
      * rewrite length_app. simpl. lia.
      * rewrite Hks, seps_app, seps_cons by done.
        apply chain_app; [rewrite length_fmap; lia|]. split; [done|].
        rewrite <- Hlo, <- Hhi. simpl. auto.
    + intros k0 v0. rewrite Hin, !entries_Internal, Hcs.
      change (cs1 ++ r.1.2 :: cs2) with (cs1 ++ [r.1.2] ++ cs2).
      change (cs1 ++ c :: cs2) with (cs1 ++ [c] ++ cs2).
      rewrite !bind_app, !bind_cons, !bind_nil, !app_nil_r.
      pose proof (entries_replace (cs1 ≫= entries) (entries c) (entries r.1.2)
                    (cs2 ≫= entries) key (λ _ v, v = value ∧ key ∈ keys_of c)) as Hrep.
      rewrite Hrep; [tauto| |by rewrite keys_of_bind|by rewrite keys_of_bind].
      intros k1 v1. rewrite He. tauto.
    + rewrite !keys_of_Internal, Hcs, !bind_app, !bind_cons. by rewrite Hk.
    + intros nxt. rewrite !leaves_Internal, Hcs, !bind_app, !bind_cons.
      by apply head_replace.
    + intros nxt. rewrite !leaves_Internal, Hcs, !bind_app, !bind_cons.
      by apply linked_replace.
    + rewrite !addrs_Internal, Hcs, !bind_app, !bind_cons. by rewrite Ha.
    + rewrite Hn, Hf. by heap_simpl.
    + intros Hfalse. rewrite (Hab Hfalse), Hcs. done.
Qed.

End Update.

(** X11. [Update(key, value)] on the root of a tree that satisfies the
    invariant (LeafCapacity >= 2, InternalCapacity >= 3): it returns true
    exactly when the key is stored; then the value of that key, and of no
    other, is replaced.  The keys and the node addresses stay as they
    were, the heap stays as it was (nothing is allocated and nothing is
    freed), the tree keeps its invariant, and when the key is absent the
    tree is unchanged. *)
Theorem Update_replaces_value (L I : nat) (tree : MemoryBTree) (st : State)
    (key value : Z) :
  2 ≤ L → 3 ≤ I → tree_inv L I tree st →
  let r := Node_Update key value (root_ tree) st in
  (r.1.1 = true ↔ key ∈ keys_of (root_ tree)) ∧
  (∀ k v, (k, v) ∈ entries r.1.2 ↔
          (k = key ∧ v = value ∧ key ∈ keys_of (root_ tree)) ∨
          (k ≠ key ∧ (k, v) ∈ entries (root_ tree))) ∧
  keys_of r.1.2 = keys_of (root_ tree) ∧
  addrs r.1.2 = addrs (root_ tree) ∧
  (heap_next r.2 = heap_next st ∧ heap_freed r.2 = heap_freed st) ∧
  (r.1.1 = false → r.1.2 = root_ tree) ∧
  tree_inv L I (mkTree r.1.2) r.2.
Proof.
  intros HL HI ([h Hwf]&Hheap&Hlinked) r.
  destruct (Node_Update_spec L I HL HI key value h 0 2 None None (root_ tree) st
              ltac:(lia) Hwf) as [Hfound Hwf' He Hk Hh Hl Ha [Hn Hf] Hab].
  fold r in Hfound, Hwf', He, Hk, Hh, Hl, Ha, Hn, Hf, Hab.
  repeat split; try done.
  - by apply Hfound.
  - by apply Hfound.
  - by apply He.
  - by apply He.
  - by exists h.
  - cbn [root_]. rewrite Ha. by destruct Hheap; rewrite Hf.
  - cbn [root_]. rewrite Ha, Hf, Hn. by destruct Hheap.
  - by apply Hl.
Qed.

Lemma Update_replaces_value_witness :
  let ts := run 4 4 (inserts [1; 2; 3; 4; 5; 6; 7; 8]%Z) in
  let r := Node_Update 5%Z 50%Z (root_ ts.1) ts.2 in
  (r.1.1 = true ↔ 5%Z ∈ keys_of (root_ ts.1)) ∧
  (∀ k v, (k, v) ∈ entries r.1.2 ↔
          (k = 5%Z ∧ v = 50%Z ∧ 5%Z ∈ keys_of (root_ ts.1)) ∨
          (k ≠ 5%Z ∧ (k, v) ∈ entries (root_ ts.1))) ∧
  keys_of r.1.2 = keys_of (root_ ts.1) ∧
  addrs r.1.2 = addrs (root_ ts.1) ∧
  (heap_next r.2 = heap_next ts.2 ∧ heap_freed r.2 = heap_freed ts.2) ∧
  (r.1.1 = false → r.1.2 = root_ ts.1) ∧
  tree_inv 4 4 (mkTree r.1.2) r.2.
Proof.
  assert (2 ≤ 4) as HL by lia. assert (3 ≤ 4) as HI by lia.
  exact (Update_replaces_value 4 4 _ _ 5%Z 50%Z HL HI
           (proj1 (run_inv 4 4 HL HI (inserts [1; 2; 3; 4; 5; 6; 7; 8]%Z)))).
Defined.

(** ** Range queries *)

Lemma Node_LocateKey_Internal key a ks cs rs st :
  Node_LocateKey key (Internal a ks cs rs) st =
  let '(depth, st1) := AcquireLatch (latch_ a) SHARE st in
  let st2 := ReleaseLatch depth SHARE st1 in
  match cs !! InternalNode_SearchChildIndex ks (length cs) key with
  | Some target => Node_LocateKey key target st2
  | None => (false, a, 0, st2)
  end.
Proof.
  cbn [Node_LocateKey]. destruct (AcquireLatch _ _ st) as [depth st1].
  rewrite at_child_lookup. by destruct (cs !! _).
Qed.

Lemma Forall_keys_entries (P : Z → Prop) (E : list (Z * Z)) :
  Forall P E.*1 ↔ Forall (λ p, P p.1) E.
Proof. by rewrite Forall_fmap. Qed.

Lemma bind_leaves_entries (cs : list Node) :
  (cs ≫= leaves) ≫= leaf_entries = cs ≫= entries.
Proof.
  rewrite <- (entries_Internal 0 [] cs None). unfold entries.
  by rewrite leaves_Internal.
Qed.

Section Locate.

Variable L : nat.
Variable I : nat.
Hypothesis HL : 2 ≤ L.
Hypothesis HI : 3 ≤ I.
#[local] Set Default Proof Using "HL HI".

Lemma LeafNode_LocateKey_spec key this st mL mI lo hi :
  wf L I 0 mL mI lo hi (Leaf this) →
  locate_spec key (Leaf this) (LeafNode_LocateKey key this st).
Proof.
  intros (Hlen&Hs&_). unfold LeafNode_LocateKey.
  destruct (AcquireLatch _ _ st) as [depth st1].
  pose proof (SearchKeyIndex_spec this key Hs) as Hsp.
  pose proof (SearchKeyIndex_found this key Hs) as Hfd.
  pose proof (SearchKeyIndex_rest this key Hs) as Hge.
  destruct (LeafNode_SearchKeyIndex this key) as [found pos]. cbn [fst snd] in *.
  destruct Hsp as (Hpos&Hlt&_).
  exists [], this, []. cbn [fst snd]. split; [done|]. split; [done|].
  unfold rest_of. rewrite bind_nil, app_nil_r. cbn [app].
  unfold leaf_entries. rewrite zip_with_take, zip_with_drop.
  split; [|split].
  - apply (Forall_keys_entries (λ x, (x < key)%Z)).
    rewrite fst_zip; [done|]. rewrite !length_take. lia.
  - apply (Forall_keys_entries (λ x, (key ≤ x)%Z)).
    rewrite fst_zip; [done|]. rewrite !length_drop. lia.
  - by rewrite leaf_keys_of.
Qed.

Lemma Node_LocateKey_spec key h : ∀ mL mI lo hi n st,
  1 ≤ mI → within lo hi key → wf L I h mL mI lo hi n →
  locate_spec key n (Node_LocateKey key n st).
Proof.
  induction h as [|h IH]; intros mL mI lo hi [this|a ks cs rs] st HmI Hin Hwf; try done.
  - by eapply LeafNode_LocateKey_spec.
  - rewrite Node_LocateKey_Internal.
    destruct (AcquireLatch (latch_ a) SHARE st) as [depth st1]. cbv zeta.
    pose proof Hwf as (Hlen&Hsz&Hchain&Hsync).
    destruct (descend L I HL HI h lo hi key ks cs) as (ks1&k&ks2&cs1&c&cs2&lo_c&hi_c&Hfoc);
      [done|lia|done|].
    pose proof Hfoc as [Hks Hcs Hk1 Hc1 Hlen2 Hlo Hhi Hpre Hchild Hpost Hwithin Hnpre Hnpost].
    assert (cs !! InternalNode_SearchChildIndex ks (length cs) key = Some c) as ->.
    { pose proof (lookup_at_length cs1 cs2 c _ (eq_sym Hc1)) as Hl. by rewrite <- Hcs in Hl. }
    destruct (Hwithin Hin) as [Habove Hbelow].
    destruct (IH _ _ _ _ c (ReleaseLatch depth SHARE st1) (minI_pos L I HL HI)
                (conj Habove Hbelow) Hchild) as (a1&l&a2&Hlv&Haddr&Hlt&Hge&Hfd).
    set (r := Node_LocateKey key c (ReleaseLatch depth SHARE st1)) in *. clearbody r.
    exists ((cs1 ≫= leaves) ++ a1), l, (a2 ++ (cs2 ≫= leaves)).
    split; [|split; [done|split; [|split]]].
    + rewrite leaves_Internal, Hcs, bind_app, bind_cons, Hlv.
      by rewrite <- !(assoc_L (++)).
    + rewrite bind_app, <- (assoc_L (++)). apply Forall_app. split; [|done].
      destruct (chain_prefix_keys L I HL HI h lo ks1 cs1 Hpre) as [_ Hw].
      rewrite <- Hlo in Hw. unfold keys_of in Hw.
      rewrite bind_leaves_entries.
      rewrite <- keys_of_bind in Hw. apply Forall_keys_entries in Hw.
      destruct lo_c as [x|].
      * eapply Forall_impl; [exact Hw|]. intros [k0 v0] [_ Hb]. simpl in *. lia.
      * (* no lower bound for the child: nothing lies before it *)
        rewrite last_bound_fmap in Hlo.
        destruct (last ks1) as [y|] eqn:El; simpl in Hlo; [done|].
        apply last_None in El. subst ks1. destruct cs1; [|done]. constructor.
    + unfold rest_of in *. rewrite bind_app, (assoc_L (++)). apply Forall_app.
      split; [done|].
      destruct (chain_suffix_keys L I HL HI h hi_c hi ks2 cs2 Hpost) as [_ Hw].
      rewrite bind_leaves_entries.
      rewrite <- keys_of_bind in Hw. apply Forall_keys_entries in Hw.
      destruct hi_c as [x|].
      * eapply Forall_impl; [exact Hw|]. intros [k0 v0] [Ha _]. simpl in *. lia.
      * destruct ks2; [|done]. destruct cs2; [|done]. constructor.
    + rewrite Hfd, keys_of_Internal, Hcs, bind_app, bind_cons, !elem_of_app. tauto.
Qed.

End Locate.

(** An iterator with an upper bound walks like one without; only the
    answer differs, which compares the key it stopped at. *)
Lemma Next_upper_bound tree key_high fuel : ∀ o cur key val st,
  MemoryIterator_Next fuel tree (mkIterator o key_high true cur) key val st =
  match MemoryIterator_Next fuel tree (mkIterator o key_high false cur) key val st with
  | Some (b, k, v, it', st') =>
    Some (b && (k <=? key_high)%Z, k, v,
          mkIterator (offset_ it') key_high true (current_ it'), st')
  | None => None
  end.
Proof.
  induction fuel as [|fuel IH]; intros o cur key val st; [done|].
  cbn [MemoryIterator_Next current_ offset_ key_high_ upper_bound_].
  destruct cur as [a|]; [|done].
  destruct (leaf_at (root_ tree) a) as [current|]; [|done].
  destruct (LeafNode_GetEntry current o key val) as [[ok key'] val'].
  destruct ok; [done|]. apply IH.
Qed.

Lemma filter_all_above (key_high : Z) (E : list (Z * Z)) :
  Forall (λ p, (key_high < p.1)%Z) E → filter (λ p, (p.1 ≤ key_high)%Z) E = [].
Proof.
  induction 1 as [|p E Hp _ IH]; [done|]. rewrite filter_cons_False by lia. done.
Qed.

Lemma filter_all_below (key_low key_high : Z) (E : list (Z * Z)) :
  Forall (λ p, (p.1 < key_low)%Z) E →
  filter (λ p, (key_low ≤ p.1 ≤ key_high)%Z) E = [].
Proof.
  induction 1 as [|p E Hp _ IH]; [done|]. rewrite filter_cons_False by lia. done.
Qed.

Lemma filter_from (key_low key_high : Z) (E : list (Z * Z)) :
  Forall (λ p, (key_low ≤ p.1)%Z) E →
  filter (λ p, (key_low ≤ p.1 ≤ key_high)%Z) E = filter (λ p, (p.1 ≤ key_high)%Z) E.
Proof.
  induction 1 as [|p E Hp _ IH]; [done|].
  destruct (decide (p.1 ≤ key_high)%Z).
  - rewrite !filter_cons_True by lia. by rewrite IH.
  - rewrite !filter_cons_False by lia. done.
Qed.

Section RangeScan.

Variable tree : MemoryBTree.
Variable key_high : Z.
Hypothesis Hnodup : NoDup (leaf_addr <$> leaves (root_ tree)).
Hypothesis Hok : Forall leaf_ok (leaves (root_ tree)).
Hypothesis Hlinked : linked (leaves (root_ tree)) None.
#[local] Set Default Proof Using "Hnodup Hok Hlinked".

(** The caller's loop on a bounded iterator collects what is left up to
    the first key above the bound. *)
Lemma drain_bounded rem : ∀ ls1 l ls2 o fuel key val st,
  leaves (root_ tree) = ls1 ++ l :: ls2 → rest_of l o ls2 = rem →
  StronglySorted Z.lt rem.*1 →
  length rem + length ls2 + 2 ≤ fuel →
  drain fuel tree (mkIterator o key_high true (Some (leaf_addr l))) key val st
  = Some (filter (λ p, (p.1 ≤ key_high)%Z) rem).
Proof.
  induction rem as [|[k v] rem IH]; intros ls1 l ls2 o fuel key val st Hls Hrest Hs Hfuel.
  all: destruct fuel as [|fuel]; [simpl in *; lia|].
  all: pose proof (Next_spec tree key_high Hnodup Hok Hlinked ls2 ls1 l o (S fuel)
                     key val st Hls ltac:(lia)) as Hn.
  all: rewrite Hrest in Hn; cbn [drain]; rewrite Next_upper_bound.
  all: unfold cursor in Hn.
  - destruct Hn as (it'&st'&->). done.
  - destruct Hn as (ls1'&l'&ls2'&o'&st'&->&Hls'&Hr&Hlen).
    cbn [andb offset_ current_]. simpl in Hs. apply StronglySorted_inv in Hs as [Hs Hk].
    destruct (k <=? key_high)%Z eqn:E.
    + apply Z.leb_le in E. rewrite filter_cons_True by done.
      rewrite (IH ls1' l' ls2' o' fuel k v st'); [done|done|done|done|simpl in *; lia].
    + apply Z.leb_gt in E. rewrite filter_cons_False by (simpl; lia).
      rewrite filter_all_above; [done|].
      apply (Forall_keys_entries (λ x, (key_high < x)%Z)).
      eapply Forall_impl; [exact Hk|]. simpl. intros. lia.
Qed.

End RangeScan.

Section RangeQuery.

Variable L : nat.
Variable I : nat.
Hypothesis HL : 2 ≤ L.
Hypothesis HI : 3 ≤ I.
#[local] Set Default Proof Using "HL HI".

Lemma RangeQuery_drain tree st0' st key_low key_high key val fuel :
  tree_inv L I tree st0' →
  length (entries (root_ tree)) + length (leaves (root_ tree)) + 2 ≤ fuel →
  drain fuel tree (MemoryBTree_RangeQuery key_low key_high tree st).1 key val
        (MemoryBTree_RangeQuery key_low key_high tree st).2
  = Some (filter (λ p, (key_low ≤ p.1 ≤ key_high)%Z) (entries (root_ tree))).
Proof.
  intros ([h Hwf]&[Hnd _]&Hlinked) Hfuel.
  unfold MemoryBTree_RangeQuery.
  destruct (AcquireLatch tree_latch_ SHARE st) as [d1 st1].
  destruct (Node_LocateKey_spec L I HL HI key_low h 0 2 None None (root_ tree) st1
              ltac:(lia) ltac:(done) Hwf) as (ls1&l&ls2&Hls&Haddr&Hlt&Hge&_).
  destruct (Node_LocateKey key_low (root_ tree) st1) as [[[found leaf] offset] st2].
  cbn [fst snd] in *. subst leaf.
  assert (entries (root_ tree)
          = ((ls1 ≫= leaf_entries) ++ take offset (leaf_entries l)) ++ rest_of l offset ls2)
    as Hsplit.
  { unfold entries, rest_of. rewrite Hls, bind_app, bind_cons.
    rewrite <- (take_drop offset (leaf_entries l)) at 1.
    by rewrite <- !(assoc_L (++)). }
  pose proof (tree_wf_keys L I HL HI tree (ex_intro _ h Hwf)) as Hsorted.
  unfold keys_of in Hsorted. rewrite Hsplit, fmap_app in Hsorted.
  apply StronglySorted_app_1_r in Hsorted.
  rewrite Hsplit, filter_app, filter_all_below, filter_from by done. cbn [app].
  apply (drain_bounded tree key_high) with (ls1 := ls1) (ls2 := ls2).
  - apply (sublist_NoDup _ (addrs (root_ tree))).
    + by apply NoDup_app in Hnd as [? _].
    + apply leaf_addrs_sublist.
  - by eapply wf_leaves_ok.
  - done.
  - done.
  - done.
  - done.
  - rewrite Hsplit, !length_app in Hfuel. rewrite Hls, length_app in Hfuel.
    simpl in Hfuel. lia.
Qed.

End RangeQuery.

(** X12. On a tree that a workload of [Insert] and [Delete] built with
    LeafCapacity >= 2 and InternalCapacity >= 3,
    [RangeQuery(key_low, key_high)] followed by the caller's loop
    [while (it->Next(key, value))] delivers, in increasing key order,
    exactly the entries of the tree whose key lies in
    [[key_low, key_high]]; the loop ends within
    [entries + leaves + 2] calls. *)
Theorem RangeQuery_yields_range (L I : nat) (ops : list Op) (key_low key_high : Z)
    (key val : Z) (st : State) (fuel : nat) :
  2 ≤ L → 3 ≤ I →
  let tree := (run L I ops).1 in
  length (entries (root_ tree)) + length (leaves (root_ tree)) + 2 ≤ fuel →
  drain fuel tree (MemoryBTree_RangeQuery key_low key_high tree st).1 key val
        (MemoryBTree_RangeQuery key_low key_high tree st).2
  = Some (filter (λ p, (key_low ≤ p.1 ≤ key_high)%Z) (entries (root_ tree))).
Proof.
  intros HL HI tree Hfuel.
  destruct (run_inv L I HL HI ops) as [Hinv _].
  by apply (RangeQuery_drain L I HL HI tree (run L I ops).2).
Qed.

Lemma RangeQuery_yields_range_witness :
  let tree := (run 4 4 (inserts [1; 2; 3; 4; 5; 6; 7; 8; 9; 10]%Z)).1 in
  drain 20 tree (MemoryBTree_RangeQuery 3 7 tree st0).1 0%Z 0%Z
        (MemoryBTree_RangeQuery 3 7 tree st0).2
  = Some (filter (λ p, (3 ≤ p.1 ≤ 7)%Z) (entries (root_ tree))).
Proof.
  apply (RangeQuery_yields_range 4 4 (inserts [1; 2; 3; 4; 5; 6; 7; 8; 9; 10]%Z)
           3%Z 7%Z 0%Z 0%Z st0 20); [lia|lia|].
  vm_compute. lia.
Defined.

(** ** Latch traffic of the read path *)

Lemma to_short_id (z : Z) : (-32768 ≤ z < 32768)%Z → to_short z = z.
Proof. unfold to_short. lia. Qed.

Lemma unlock_range_one (ls : list Latch) (i : nat) (l : Latch) :
  ls !! i = Some l →
  unlock_range SHARE ls (Z.of_nat i) (Z.of_nat i + 1) = [unlock_shared l].
Proof.
  intros Hi. unfold unlock_range.
  replace (Z.of_nat i + 1 - Z.of_nat i)%Z with 1%Z by lia.
  rewrite seqZ_cons, seqZ_nil by lia. simpl. unfold latch_at.
  destruct (Z.of_nat i <? 0)%Z eqn:E; [apply Z.ltb_lt in E; lia|].
  by rewrite Nat2Z.id, Hi.
Qed.

(** One step of lock coupling: the latch of the node is taken, then the
    latch held so far is given back. *)
Lemma couple_step (ls : list Latch) (held l : Latch) (st : State) :
  latches_ (context st) = ls ++ [held] →
  smallest_unlk_idx_ (context st) = Z.of_nat (length ls) →
  (Z.of_nat (length ls) + 1 < 32768)%Z →
  let acq := AcquireLatch l SHARE st in
  let st2 := ReleaseLatch acq.1 SHARE acq.2 in
  acq.1 = Z.of_nat (length ls + 1) ∧
  latches_ (context st2) = (ls ++ [held]) ++ [l] ∧
  smallest_unlk_idx_ (context st2) = Z.of_nat (length ls + 1) ∧
  mutex_log st2 = mutex_log st ++ [lock_shared l; unlock_shared held].
Proof.
  intros Hls Hsm Hlt. unfold AcquireLatch. cbn [fst snd].
  rewrite Hls, Hsm.
  assert (Z.of_nat (length ((ls ++ [held]) ++ [l])) - 1 = Z.of_nat (length ls + 1))%Z as ->.
  { rewrite !length_app. simpl. lia. }
  split; [done|].
  unfold ReleaseLatch. rewrite to_short_id by lia.
  unfold log_calls, set_context. cbn [context smallest_unlk_idx_ latches_ mutex_log].
  destruct (Z.of_nat (length ls) >=? Z.of_nat (length ls + 1))%Z eqn:E;
    [apply Z.geb_le in E; lia|].
  cbn [context smallest_unlk_idx_ latches_ mutex_log].
  split; [done|]. split; [done|].
  replace (Z.of_nat (length ls + 1)) with (Z.of_nat (length ls) + 1)%Z by lia.
  rewrite (unlock_range_one _ _ held).
  - by rewrite <- (assoc_L (++)).
  - rewrite <- (assoc_L (++)). by apply list_lookup_middle.
Qed.

Section Traffic.

Variable L : nat.
Variable I : nat.
Hypothesis HL : 2 ≤ L.
Hypothesis HI : 3 ≤ I.
#[local] Set Default Proof Using "HL HI".

Lemma search_path_Internal h mL mI lo hi key a ks cs rs :
  wf L I (S h) mL mI lo hi (Internal a ks cs rs) → 1 ≤ mI →
  ∃ c lo_c hi_c,
    cs !! InternalNode_SearchChildIndex ks (length cs) key = Some c ∧
    wf_reg L I h lo_c hi_c c ∧
    search_path key (Internal a ks cs rs) = a :: search_path key c.
Proof.
  intros Hwf HmI. pose proof Hwf as (Hlen&Hsz&Hchain&_).
  destruct (descend L I HL HI h lo hi key ks cs) as (ks1&k&ks2&cs1&c&cs2&lo_c&hi_c&Hfoc);
    [done|lia|done|].
  pose proof Hfoc as [_ Hcs _ Hc1 _ _ _ _ Hchild _ _ _ _].
  assert (cs !! InternalNode_SearchChildIndex ks (length cs) key = Some c) as Hc.
  { pose proof (lookup_at_length cs1 cs2 c _ (eq_sym Hc1)) as Hl. by rewrite <- Hcs in Hl. }
  exists c, lo_c, hi_c. split; [done|]. split; [done|].
  cbn [search_path]. by rewrite at_child_lookup, Hc.
Qed.

Lemma search_path_length key h : ∀ mL mI lo hi n,
  1 ≤ mI → wf L I h mL mI lo hi n → length (search_path key n) = S h.
Proof.
  induction h as [|h IH]; intros mL mI lo hi [this|a ks cs rs] HmI Hwf; try done.
  destruct (search_path_Internal h mL mI lo hi key a ks cs rs Hwf HmI)
    as (c&lo_c&hi_c&_&Hchild&->).
  simpl. f_equal. eapply IH; [|exact Hchild]. apply (minI_pos L I HL HI).
Qed.

Lemma Node_Search_traffic key value h : ∀ mL mI lo hi n st ls held,
  1 ≤ mI → wf L I h mL mI lo hi n →
  latches_ (context st) = ls ++ [held] →
  smallest_unlk_idx_ (context st) = Z.of_nat (length ls) →
  (Z.of_nat (length ls + h) + 2 < 32768)%Z →
  mutex_log (Node_Search key value n st).2
  = mutex_log st ++ crabbing held (latch_ <$> search_path key n).
Proof.
  induction h as [|h IH]; intros mL mI lo hi [this|a ks cs rs] st ls held HmI Hwf Hls Hsm Hlt;
    try done.
  - cbn [Node_Search]. unfold LeafNode_Search.
    destruct (couple_step ls held (latch_ (leaf_addr this)) st Hls Hsm ltac:(lia))
      as (Hd&Hls2&Hsm2&Hlog).
    destruct (AcquireLatch (latch_ (leaf_addr this)) SHARE st) as [depth st1].
    cbn [fst snd] in *. subst depth.
    set (st2 := ReleaseLatch (Z.of_nat (length ls + 1)) SHARE st1) in *. clearbody st2.
    destruct (LeafNode_SearchKeyIndex this key) as [found index]. cbn [fst snd].
    unfold ReleaseLatch. rewrite to_short_id by lia. rewrite Hsm2, Hls2.
    destruct (Z.of_nat (length ls + 1) >=? Z.of_nat (length ls + 1) + 1)%Z eqn:E;
      [apply Z.geb_le in E; lia|].
    unfold log_calls, set_context. cbn [mutex_log context]. rewrite Hlog.
    rewrite (unlock_range_one _ _ (latch_ (leaf_addr this))).
    + unfold crabbing. simpl. by rewrite <- (assoc_L (++)).
    + apply list_lookup_middle. rewrite length_app. simpl. lia.
  - destruct (search_path_Internal h mL mI lo hi key a ks cs rs Hwf HmI)
      as (c&lo_c&hi_c&Hc&Hchild&Hpath).
    rewrite Node_Search_Internal, Hpath.
    destruct (couple_step ls held (latch_ a) st Hls Hsm ltac:(lia)) as (Hd&Hls2&Hsm2&Hlog).
    destruct (AcquireLatch (latch_ a) SHARE st) as [depth st1].
    cbn [fst snd] in *. subst depth. cbv zeta. rewrite Hc.
    rewrite (IH _ _ _ _ c _ (ls ++ [held]) (latch_ a) (minI_pos L I HL HI) Hchild Hls2).
    + rewrite Hlog. unfold crabbing. rewrite fmap_cons. cbn [handover].
      rewrite <- !(assoc_L (++)). simpl.
      destruct (latch_ <$> search_path key c) eqn:E.
      * apply fmap_nil_inv in E. by destruct c.
      * rewrite last_cons_cons. do 5 f_equal.
        destruct (last (l :: l0)) eqn:El; [done|]. by apply last_None in El.
    + rewrite Hsm2, length_app. simpl. done.
    + rewrite length_app. simpl. lia.
Qed.

Lemma Node_LocateKey_traffic key h : ∀ mL mI lo hi n st ls held,
  1 ≤ mI → wf L I h mL mI lo hi n →
  latches_ (context st) = ls ++ [held] →
  smallest_unlk_idx_ (context st) = Z.of_nat (length ls) →
  (Z.of_nat (length ls + h) + 2 < 32768)%Z →
  let r := Node_LocateKey key n st in
  mutex_log r.2 = mutex_log st ++ handover held (latch_ <$> search_path key n) ∧
  latches_ (context r.2) = (ls ++ [held]) ++ (latch_ <$> search_path key n) ∧
  smallest_unlk_idx_ (context r.2) = (Z.of_nat (length (latches_ (context r.2))) - 1)%Z ∧
  last (search_path key n) = Some r.1.1.2.
Proof.
  induction h as [|h IH]; intros mL mI lo hi [this|a ks cs rs] st ls held HmI Hwf Hls Hsm Hlt;
    try done.
  - cbn [Node_LocateKey]. unfold LeafNode_LocateKey.
    destruct (couple_step ls held (latch_ (leaf_addr this)) st Hls Hsm ltac:(lia))
      as (Hd&Hls2&Hsm2&Hlog).
    destruct (AcquireLatch (latch_ (leaf_addr this)) SHARE st) as [depth st1].
    cbn [fst snd] in *. subst depth.
    set (st2 := ReleaseLatch (Z.of_nat (length ls + 1)) SHARE st1) in *. clearbody st2.
    destruct (LeafNode_SearchKeyIndex this key) as [found index]. cbn [fst snd].
    assert (ReleaseLatch (Z.of_nat (length ls + 1)) SHARE st2 = st2) as ->.
    { unfold ReleaseLatch. rewrite to_short_id by lia. rewrite Hsm2.
      destruct (Z.of_nat (length ls + 1) >=? Z.of_nat (length ls + 1))%Z eqn:E; [done|].
      rewrite Z.geb_leb in E. apply Z.leb_gt in E. lia. }
    rewrite Hlog, Hls2, Hsm2. simpl. repeat split; try done.
    rewrite !length_app. simpl. lia.
  - destruct (search_path_Internal h mL mI lo hi key a ks cs rs Hwf HmI)
      as (c&lo_c&hi_c&Hc&Hchild&Hpath).
    rewrite Node_LocateKey_Internal, Hpath.
    destruct (couple_step ls held (latch_ a) st Hls Hsm ltac:(lia)) as (Hd&Hls2&Hsm2&Hlog).
    destruct (AcquireLatch (latch_ a) SHARE st) as [depth st1].
    cbn [fst snd] in *. subst depth. cbv zeta. rewrite Hc.
    destruct (IH _ _ _ _ c (ReleaseLatch (Z.of_nat (length ls + 1)) SHARE st1)
                (ls ++ [held]) (latch_ a) (minI_pos L I HL HI) Hchild Hls2)
      as (Hlog'&Hls'&Hsm'&Hlast).
    + rewrite Hsm2, length_app. simpl. done.
    + rewrite length_app. simpl. lia.
    + split; [|split; [|split]].
      * rewrite Hlog', Hlog, fmap_cons. cbn [handover].
        by rewrite <- !(assoc_L (++)).
      * rewrite Hls', fmap_cons. by rewrite <- !(assoc_L (++)).
      * exact Hsm'.
      * rewrite last_cons, Hlast. done.
Qed.

End Traffic.

(** X13. Lock coupling of [Search]: starting from a context that holds
    no latch, the tree latch is taken in shared mode, then each node on
    the way from the root to the leaf is latched before the latch above
    it is given back, the leaf latch is given back last, and the context
    is cleared; every [lock_shared] is answered by one [unlock_shared]. *)
Theorem Search_lock_coupling (L I : nat) (ops : list Op) (key v0 : Z) (st : State) :
  2 ≤ L → 3 ≤ I →
  let tree := (run L I ops).1 in
  smallest_unlk_idx_ (context st) = Z.of_nat (length (latches_ (context st))) →
  (Z.of_nat (length (latches_ (context st)) + height (root_ tree)) + 2 < 32768)%Z →
  let r := MemoryBTree_Search key v0 tree st in
  mutex_log r.2
  = mutex_log st ++ lock_shared tree_latch_
      :: crabbing tree_latch_ (latch_ <$> search_path key (root_ tree)) ∧
  context r.2 = mkContext 0 [].
Proof.
  intros HL HI tree Hsm Hlt r. subst r.
  destruct (run_inv L I HL HI ops) as [([h Hwf]&_) _]. fold tree in Hwf.
  pose proof (minI_pos L I HL HI).
  rewrite (wf_height L I h 0 2 None None _) in Hlt by (done || lia).
  unfold MemoryBTree_Search, AcquireLatch.
  set (st1 := log_calls _ _).
  pose proof (Node_Search_traffic L I HL HI key v0 h 0 2 None None (root_ tree) st1
                (latches_ (context st)) tree_latch_ ltac:(lia) Hwf eq_refl Hsm Hlt) as Hlog.
  destruct (Node_Search key v0 (root_ tree) st1) as [[found val] st2].
  cbn [fst snd] in *. split; [|done].
  change (mutex_log (QueryContext_Clear st2)) with (mutex_log st2).
  rewrite Hlog. subst st1. unfold log_calls, set_context. cbn [mutex_log].
  by rewrite <- (assoc_L (++)).
Qed.

Lemma Search_lock_coupling_witness :
  let tree := (run 4 4 (inserts [1; 2; 3; 4; 5; 6; 7; 8; 9; 10]%Z)).1 in
  let r := MemoryBTree_Search 7%Z 0%Z tree st0 in
  mutex_log r.2
  = mutex_log st0 ++ lock_shared tree_latch_
      :: crabbing tree_latch_ (latch_ <$> search_path 7%Z (root_ tree)) ∧
  context r.2 = mkContext 0 [].
Proof.
  apply (Search_lock_coupling 4 4 (inserts [1; 2; 3; 4; 5; 6; 7; 8; 9; 10]%Z)
           7%Z 0%Z st0); [lia|lia|done|].
  by vm_compute.
Defined.

(** X14. [RangeQuery] descends by lock coupling and keeps the latch of
    the leaf it stops at: from a context that holds no latch, the calls
    are [lock_shared] on the tree latch, then on each node of the path
    with [unlock_shared] of the latch above it; the iterator stands on
    the last node of the path, whose latch is the only one still held
    ([smallest_unlk_idx_ == latches_.size() - 1], the assertion of
    [RangeQuery]). *)
Theorem RangeQuery_keeps_leaf_latch (L I : nat) (ops : list Op) (key_low key_high : Z)
    (st : State) :
  2 ≤ L → 3 ≤ I →
  let tree := (run L I ops).1 in
  smallest_unlk_idx_ (context st) = Z.of_nat (length (latches_ (context st))) →
  (Z.of_nat (length (latches_ (context st)) + height (root_ tree)) + 2 < 32768)%Z →
  let r := MemoryBTree_RangeQuery key_low key_high tree st in
  mutex_log r.2
  = mutex_log st ++ lock_shared tree_latch_
      :: handover tree_latch_ (latch_ <$> search_path key_low (root_ tree)) ∧
  latches_ (context r.2)
  = latches_ (context st) ++ tree_latch_ :: (latch_ <$> search_path key_low (root_ tree)) ∧
  smallest_unlk_idx_ (context r.2) = (Z.of_nat (length (latches_ (context r.2))) - 1)%Z ∧
  current_ r.1 = last (search_path key_low (root_ tree)).
Proof.
  intros HL HI tree Hsm Hlt r. subst r.
  destruct (run_inv L I HL HI ops) as [([h Hwf]&_) _]. fold tree in Hwf.
  pose proof (minI_pos L I HL HI).
  rewrite (wf_height L I h 0 2 None None _) in Hlt by (done || lia).
  unfold MemoryBTree_RangeQuery, AcquireLatch.
  set (st1 := log_calls _ _).
  pose proof (Node_LocateKey_traffic L I HL HI key_low h 0 2 None None (root_ tree) st1
                (latches_ (context st)) tree_latch_ ltac:(lia) Hwf eq_refl Hsm Hlt) as Htr.
  cbv zeta in Htr.
  destruct (Node_LocateKey key_low (root_ tree) st1) as [[[found leaf] offset] st2].
  cbn [fst snd current_] in *. destruct Htr as (Hlog&Hls&Hsm2&Hlast).
  split; [|split; [|split]].
  - rewrite Hlog. subst st1. unfold log_calls, set_context. cbn [mutex_log].
    by rewrite <- (assoc_L (++)).
  - rewrite Hls. by rewrite <- (assoc_L (++)).
  - exact Hsm2.
  - by rewrite Hlast.
Qed.

Lemma RangeQuery_keeps_leaf_latch_witness :
  let tree := (run 4 4 (inserts [1; 2; 3; 4; 5; 6; 7; 8; 9; 10]%Z)).1 in
  let r := MemoryBTree_RangeQuery 3%Z 7%Z tree st0 in
  mutex_log r.2
  = mutex_log st0 ++ lock_shared tree_latch_
      :: handover tree_latch_ (latch_ <$> search_path 3%Z (root_ tree)) ∧
  latches_ (context r.2)
  = latches_ (context st0) ++ tree_latch_ :: (latch_ <$> search_path 3%Z (root_ tree)) ∧
  smallest_unlk_idx_ (context r.2) = (Z.of_nat (length (latches_ (context r.2))) - 1)%Z ∧
  current_ r.1 = last (search_path 3%Z (root_ tree)).
Proof.
  apply (RangeQuery_keeps_leaf_latch 4 4 (inserts [1; 2; 3; 4; 5; 6; 7; 8; 9; 10]%Z)
           3%Z 7%Z st0); [lia|lia|done|].
  by vm_compute.
Defined.

(** ** Latch traffic of the write path *)

Lemma unlock_range_exclusive (ls : list Latch) (n : nat) : ∀ i : nat,
  i + n ≤ length ls →
  unlock_range EXCLUSIVE ls (Z.of_nat i) (Z.of_nat (i + n))
  = unlock <$> take n (drop i ls).
Proof.
  unfold unlock_range. induction n as [|n IH]; intros i Hlen.
  - replace (Z.of_nat (i + 0) - Z.of_nat i)%Z with 0%Z by lia. by rewrite seqZ_nil.
  - replace (Z.of_nat (i + S n) - Z.of_nat i)%Z with (Z.of_nat (S n)) by lia.
    rewrite seqZ_cons by lia.
    destruct (lookup_lt_is_Some_2 ls i) as [x Hx]; [lia|].
    rewrite (drop_S _ _ _ Hx). cbn [fmap list_fmap concat firstn app].
    unfold latch_at at 1.
    destruct (Z.of_nat i <? 0)%Z eqn:E; [apply Z.ltb_lt in E; lia|].
    rewrite Nat2Z.id, Hx. cbn [unlock_call app]. f_equal.
    specialize (IH (S i) ltac:(lia)).
    replace (Z.of_nat (S i + n) - Z.of_nat (S i))%Z with (Z.of_nat n) in IH by lia.
    replace (Z.succ (Z.of_nat i)) with (Z.of_nat (S i)) by lia.
    replace (Z.pred (Z.of_nat (S n))) with (Z.of_nat n) by lia.
    exact IH.
Qed.

Lemma omap_unlocked_unlock (ls : list Latch) : omap unlocked (unlock <$> ls) = ls.
Proof. induction ls as [|l ls IH]; [done|]. simpl. f_equal. exact IH. Qed.

Lemma omap_locked_unlock (ls : list Latch) : omap locked (unlock <$> ls) = [].
Proof. induction ls as [|l ls IH]; [done|]. simpl. exact IH. Qed.

Lemma Forall_exclusive_unlock (ls : list Latch) : Forall exclusive_call (unlock <$> ls).
Proof. apply Forall_fmap. by apply Forall_true. Qed.

Lemma take_take_drop {A} (l : list A) (i n : nat) :
  take i l ++ take n (drop i l) = take (i + n) l.
Proof.
  revert i. induction l as [|x l IH]; intros i; [by rewrite !take_nil, drop_nil, take_nil|].
  destruct i as [|i]; [done|]. simpl. by rewrite IH.
Qed.

Lemma xtraffic_refl (st : State) :
  smallest_unlk_idx_ (context st) = Z.of_nat (length (latches_ (context st))) →
  xtraffic st st [].
Proof.
  intros Hs. split; [by rewrite app_nil_r|]. split; [simpl; lia|].
  exists []. by rewrite app_nil_r, take_nil.
Qed.

Lemma xtraffic_state (st0 st st' : State) (A : list Latch) :
  context st' = context st → mutex_log st' = mutex_log st →
  xtraffic st0 st A → xtraffic st0 st' A.
Proof. unfold xtraffic. by intros -> ->. Qed.

Lemma xtraffic_acquire (st0 st : State) (A : list Latch) (l : Latch) :
  xtraffic st0 st A →
  (AcquireLatch l EXCLUSIVE st).1
  = Z.of_nat (length (latches_ (context st0)) + length A) ∧
  smallest_unlk_idx_ (context (AcquireLatch l EXCLUSIVE st).2)
  = smallest_unlk_idx_ (context st) ∧
  xtraffic st0 (AcquireLatch l EXCLUSIVE st).2 (A ++ [l]).
Proof.
  intros (Hls&Hr&new&Hlog&Hlk&Hun&Hex). unfold AcquireLatch. cbn [fst snd].
  unfold log_calls, set_context. cbn [context smallest_unlk_idx_ latches_ mutex_log].
  rewrite Hls, !length_app. simpl. split; [lia|]. split; [done|].
  split; [by rewrite <- (assoc_L (++))|]. split; [rewrite length_app; simpl; lia|].
  exists (new ++ [lock l]). rewrite Hlog, !omap_app, Hlk, Hun. simpl.
  split; [by rewrite <- (assoc_L (++))|]. split; [done|]. split.
  - rewrite app_nil_r, take_app_le; [done|]. lia.
  - apply Forall_app. split; [done|]. by repeat constructor.
Qed.

Lemma xtraffic_release (st0 st : State) (A : list Latch) (upto : Z) :
  xtraffic st0 st A →
  (upto ≤ Z.of_nat (length (latches_ (context st0)) + length A))%Z →
  (-32768 ≤ upto < 32768)%Z →
  smallest_unlk_idx_ (context (ReleaseLatch upto EXCLUSIVE st))
  = Z.max (smallest_unlk_idx_ (context st)) upto ∧
  xtraffic st0 (ReleaseLatch upto EXCLUSIVE st) A.
Proof.
  intros (Hls&Hr&new&Hlog&Hlk&Hun&Hex) Hup Hshort. unfold ReleaseLatch.
  rewrite to_short_id by done.
  destruct (smallest_unlk_idx_ (context st) >=? upto)%Z eqn:E.
  - apply Z.geb_le in E. split; [lia|]. split; [done|]. split; [done|]. by exists new.
  - rewrite Z.geb_leb in E. apply Z.leb_gt in E.
    unfold xtraffic, log_calls, set_context.
    cbn [context smallest_unlk_idx_ latches_ mutex_log].
    split; [lia|]. split; [done|]. split; [lia|].
    set (n0 := length (latches_ (context st0))) in *.
    set (s := Z.to_nat (smallest_unlk_idx_ (context st))) in *.
    assert (unlock_range EXCLUSIVE (latches_ (context st))
              (smallest_unlk_idx_ (context st)) upto
            = unlock <$> take (Z.to_nat upto - s) (drop s (latches_ (context st)))) as ->.
    { rewrite <- unlock_range_exclusive by (rewrite Hls, length_app; fold n0; lia).
      f_equal; lia. }
    exists (new ++ (unlock <$> take (Z.to_nat upto - s) (drop s (latches_ (context st))))).
    rewrite Hlog, !omap_app, Hlk, Hun, omap_unlocked_unlock, omap_locked_unlock, app_nil_r.
    split; [by rewrite <- (assoc_L (++))|]. split; [done|]. split.
    + rewrite Hls, drop_app_ge by (fold n0; lia). fold n0.
      rewrite take_take_drop. f_equal. lia.
    + apply Forall_app. split; [done|]. apply Forall_exclusive_unlock.
Qed.

Lemma xtraffic_release_from_parent (st0 st : State) (A : list Latch) (d : Z) :
  xtraffic st0 st A →
  smallest_unlk_idx_ (context st) = d →
  (Z.of_nat (length (latches_ (context st0)) + length A) < 32768)%Z →
  smallest_unlk_idx_ (context (ReleaseLatchFromParent d EXCLUSIVE st))
  = Z.of_nat (length (latches_ (context st0)) + length A) ∧
  xtraffic st0 (ReleaseLatchFromParent d EXCLUSIVE st) A.
Proof.
  intros (Hls&Hr&new&Hlog&Hlk&Hun&Hex) Hd Hshort. unfold ReleaseLatchFromParent.
  set (n0 := length (latches_ (context st0))) in *.
  assert (length (latches_ (context st)) = n0 + length A) as Hlen
    by (rewrite Hls, length_app; done).
  rewrite !to_short_id by lia.
  unfold xtraffic, log_calls, set_context.
  cbn [context smallest_unlk_idx_ latches_ mutex_log].
  rewrite Hlen. split; [done|]. split; [done|]. split; [lia|].
  set (s := Z.to_nat d) in *.
  assert (unlock_range EXCLUSIVE (latches_ (context st)) d (Z.of_nat (n0 + length A))
          = unlock <$> take (n0 + length A - s) (drop s (latches_ (context st)))) as ->.
  { rewrite <- unlock_range_exclusive by lia. f_equal; lia. }
  exists (new ++ (unlock <$> take (n0 + length A - s) (drop s (latches_ (context st))))).
  rewrite Hlog, !omap_app, Hlk, Hun, omap_unlocked_unlock, omap_locked_unlock, app_nil_r.
  split; [by rewrite <- (assoc_L (++))|]. split; [done|]. split.
  - rewrite Hd. fold s. rewrite Hls, drop_app_ge by (fold n0; lia). fold n0.
    rewrite take_take_drop. f_equal. lia.
  - apply Forall_app. split; [done|]. apply Forall_exclusive_unlock.
Qed.

Lemma length_take_cons_drop {A} (l : list A) (x : A) (n : nat) :
  length (take n l ++ x :: drop n l) = S (length l).
Proof.
  rewrite length_app. simpl. rewrite length_take, length_drop. lia.
Qed.

Section WriteTraffic.

Variable L : nat.
Variable I : nat.
Hypothesis HL : 2 ≤ L.
Hypothesis HI : 3 ≤ I.
#[local] Set Default Proof Using "HL HI".

(** [Insert] on a subtree: when it returns without a split every latch
    taken so far was given back; when it hands a split to its parent it
    gave nothing back. *)
Lemma Node_Insert_traffic key val h : ∀ mL mI lo hi n st0 st A,
  1 ≤ mI → wf L I h mL mI lo hi n →
  xtraffic st0 st A →
  (Z.of_nat (length (latches_ (context st0)) + length A + h) + 2 < 32768)%Z →
  let r := Node_Insert L I key val n st in
  xtraffic st0 (ins_st r) (A ++ (latch_ <$> search_path key n)) ∧
  smallest_unlk_idx_ (context (ins_st r))
  = match ins_split r with
    | None => Z.of_nat (length (latches_ (context st0)) + length A
                        + length (search_path key n))
    | Some _ => smallest_unlk_idx_ (context st)
    end.
Proof.
  induction h as [|h IH]; intros mL mI lo hi [this|a ks cs rs] st0 st A HmI Hwf Hxt Hlt;
    try done.
  - cbn [Node_Insert search_path fmap list_fmap length]. unfold LeafNode_Insert.
    destruct (xtraffic_acquire st0 st A (latch_ (leaf_addr this)) Hxt) as (Hd&Hs1&Hxt1).
    destruct (AcquireLatch (latch_ (leaf_addr this)) EXCLUSIVE st) as [depth st1].
    cbn [fst snd] in *. subst depth.
    set (n0 := length (latches_ (context st0))) in *.
    pose proof Hxt as (_&Hr&_). pose proof Hxt1 as (_&Hr1&_). fold n0 in Hr, Hr1.
    rewrite length_app in Hr1. simpl in Hr1.
    assert (∀ st2, xtraffic st0 st2 (A ++ [latch_ (leaf_addr this)]) →
              let st3 := ReleaseLatch (Z.of_nat (n0 + length A) + 1) EXCLUSIVE st2 in
              xtraffic st0 st3 (A ++ [latch_ (leaf_addr this)]) ∧
              smallest_unlk_idx_ (context st3) = Z.of_nat (n0 + length A + 1)) as Hfin.
    { intros st2 Hxt2 st3. pose proof Hxt2 as (_&Hr2&_). fold n0 in Hr2.
      rewrite length_app in Hr2. simpl in Hr2.
      destruct (xtraffic_release st0 st2 _ (Z.of_nat (n0 + length A) + 1) Hxt2)
        as [Hs3 Hxt3]; [fold n0; rewrite length_app; simpl; lia|lia|].
      split; [done|]. fold st3 in Hs3. lia. }
    destruct (Leaf_Size this <? L) eqn:Efull.
    + destruct (xtraffic_release st0 st1 _ (Z.of_nat (n0 + length A)) Hxt1)
        as [Hs2 Hxt2]; [fold n0; rewrite length_app; simpl; lia|lia|].
      destruct (LeafNode_SearchKeyIndex this key) as [[] pos]; cbn [ins_st ins_split];
        by apply Hfin.
    + destruct (LeafNode_SearchKeyIndex this key) as [[] pos]; cbn [ins_st ins_split];
        [by apply Hfin|].
      destruct (alloc st1) as [new_addr st2] eqn:Ealloc.
      assert (context st2 = context st1 ∧ mutex_log st2 = mutex_log st1) as [Hc2 Hl2].
      { unfold alloc in Ealloc. by simplify_eq. }
      destruct (pos <? UNDERFLOW_BOUND (Leaf_Size this)); cbn [ins_st ins_split];
        (split; [by apply (xtraffic_state st0 st1)|by rewrite Hc2]).
  - destruct (search_path_Internal L I HL HI h mL mI lo hi key a ks cs rs Hwf HmI)
      as (c&lo_c&hi_c&Hc&Hchild&Hpath).
    rewrite Node_Insert_Internal, Hpath.
    destruct (xtraffic_acquire st0 st A (latch_ a) Hxt) as (Hd&Hs1&Hxt1).
    destruct (AcquireLatch (latch_ a) EXCLUSIVE st) as [depth st1].
    cbn [fst snd] in *. subst depth. cbv zeta. rewrite Hc.
    set (n0 := length (latches_ (context st0))) in *.
    pose proof Hxt as (_&Hr&_). fold n0 in Hr.
    pose proof Hwf as (_&Hsz&_).
    set (st2 := if length cs <? I
                then ReleaseLatch (Z.of_nat (n0 + length A)) EXCLUSIVE st1 else st1).
    assert (xtraffic st0 st2 (A ++ [latch_ a]) ∧
            smallest_unlk_idx_ (context st2)
            = if length cs <? I then Z.of_nat (n0 + length A)
              else smallest_unlk_idx_ (context st)) as [Hxt2 Hs2].
    { subst st2. destruct (length cs <? I); [|done].
      destruct (xtraffic_release st0 st1 _ (Z.of_nat (n0 + length A)) Hxt1)
        as [Hs2 Hxt2]; [fold n0; rewrite length_app; simpl; lia|lia|].
      split; [done|]. lia. }
    clearbody st2.
    destruct (IH _ _ _ _ c st0 st2 (A ++ [latch_ a]) (minI_pos L I HL HI) Hchild Hxt2)
      as [Hxt3 Hs3].
    { fold n0. rewrite length_app. simpl. lia. }
    set (r := Node_Insert L I key val c st2) in *. clearbody r.
    fold n0 in Hs3. rewrite length_app in Hs3. simpl in Hs3.
    rewrite fmap_cons. cbn [length].
    replace (A ++ latch_ a :: (latch_ <$> search_path key c))
      with ((A ++ [latch_ a]) ++ (latch_ <$> search_path key c))
      by (by rewrite <- (assoc_L (++))).
    unfold InternalNode_Insert_return.
    destruct (ins_split r) as [s|] eqn:Es; cbv zeta.
    + unfold InternalNode_ShiftAndInsert.
      rewrite length_take_cons_drop, length_insert.
      destruct (S (length cs) <=? I) eqn:Efit; cbn [ins_st ins_split].
      * apply Nat.leb_le in Efit.
        assert ((length cs <? I) = true) as Enf by (apply Nat.ltb_lt; lia).
        rewrite Enf in Hs2.
        destruct (xtraffic_release_from_parent st0 (ins_st r) _
                    (Z.of_nat (n0 + length A)) Hxt3) as [Hs4 Hxt4].
        { by rewrite Hs3. }
        { fold n0. rewrite !length_app, length_fmap. simpl.
          rewrite (search_path_length L I HL HI key h _ _ _ _ c (minI_pos L I HL HI) Hchild).
          lia. }
        split; [done|]. rewrite Hs4. fold n0.
        rewrite !length_app, length_fmap. simpl. lia.
      * apply Nat.leb_gt in Efit.
        assert ((length cs <? I) = false) as Enf by (apply Nat.ltb_ge; lia).
        rewrite Enf in Hs2. unfold alloc. cbn [ins_st ins_split].
        split; [|cbn [context]; by rewrite Hs3].
        by apply (xtraffic_state st0 (ins_st r)).
    + cbn [ins_st ins_split].
      destruct (xtraffic_release st0 (ins_st r) _ (Z.of_nat (n0 + length A) + 1) Hxt3)
        as [Hs4 Hxt4].
      { fold n0. rewrite !length_app. simpl. lia. }
      { lia. }
      split; [done|]. rewrite Hs4, Hs3.
      assert (1 ≤ length (search_path key c)) by (destruct c; simpl; lia). lia.
Qed.

(** [Delete] of a key the subtree does not hold: nothing underflows and
    every latch taken so far is given back on the way. *)
Lemma Node_Delete_absent_traffic key h : ∀ mL mI lo hi n st0 st A,
  mL ≤ minL L → 2 ≤ mI → mI ≤ minI I →
  wf L I h mL mI lo hi n → key ∉ keys_of n →
  xtraffic st0 st A →
  (Z.of_nat (length (latches_ (context st0)) + length A + h) + 2 < 32768)%Z →
  let r := Node_Delete L I key n st in
  del_found r = false ∧ del_underflow r = false ∧
  xtraffic st0 (del_st r) (A ++ (latch_ <$> search_path key n)) ∧
  smallest_unlk_idx_ (context (del_st r))
  = Z.of_nat (length (latches_ (context st0)) + length A + length (search_path key n)).
Proof.
  induction h as [|h IH];
    intros mL mI lo hi [this|a ks cs rs] st0 st A HmL HmI1 HmI2 Hwf Hnot Hxt Hlt; try done.
  - cbn [Node_Delete search_path fmap list_fmap length]. unfold LeafNode_Delete.
    destruct (xtraffic_acquire st0 st A (latch_ (leaf_addr this)) Hxt) as (Hd&Hs1&Hxt1).
    destruct (AcquireLatch (latch_ (leaf_addr this)) EXCLUSIVE st) as [depth st1].
    cbn [fst snd] in *. subst depth.
    set (n0 := length (latches_ (context st0))) in *.
    set (st2 := if (_ >=? _)%Z then _ else _).
    assert (xtraffic st0 st2 (A ++ [latch_ (leaf_addr this)])) as Hxt2.
    { subst st2. destruct (_ >=? _)%Z; [|done].
      apply xtraffic_release; [done| |lia]. fold n0. rewrite length_app. simpl. lia. }
    clearbody st2. destruct Hwf as (Hlen&Hs&_).
    pose proof (SearchKeyIndex_found this key Hs) as Hfd.
    rewrite leaf_keys_of in Hnot by done.
    destruct (LeafNode_SearchKeyIndex this key) as [found pos]. cbn [fst] in Hfd.
    destruct found; [by destruct Hnot; apply Hfd|].
    cbn [negb orb del_found del_underflow del_st]. split; [done|]. split; [done|].
    pose proof Hxt2 as (_&Hr2&_). fold n0 in Hr2. rewrite length_app in Hr2. simpl in Hr2.
    destruct (xtraffic_release st0 st2 _ (Z.of_nat (n0 + length A) + 1) Hxt2)
      as [Hs3 Hxt3]; [fold n0; rewrite length_app; simpl; lia|lia|].
    split; [done|]. lia.
  - destruct (search_path_Internal L I HL HI h mL mI lo hi key a ks cs rs Hwf ltac:(lia))
      as (c&lo_c&hi_c&Hc&Hchild&Hpath).
    rewrite Node_Delete_Internal, Hpath.
    destruct (xtraffic_acquire st0 st A (latch_ a) Hxt) as (Hd&Hs1&Hxt1).
    destruct (AcquireLatch (latch_ a) EXCLUSIVE st) as [depth st1].
    cbn [fst snd] in *. subst depth. cbv zeta. rewrite Hc.
    set (n0 := length (latches_ (context st0))) in *.
    set (st2 := if (_ >=? _)%Z then _ else _).
    assert (xtraffic st0 st2 (A ++ [latch_ a])) as Hxt2.
    { subst st2. destruct (_ >=? _)%Z; [|done].
      apply xtraffic_release; [done| |lia]. fold n0. rewrite length_app. simpl. lia. }
    clearbody st2.
    assert (key ∉ keys_of c) as Hnotc.
    { intros Hin. apply Hnot. rewrite keys_of_Internal. apply list_elem_of_bind.
      exists c. split; [done|]. by eapply list_elem_of_lookup_2. }
    pose proof (minI_bounds L I HL HI) as (?&_).
    destruct (IH (minL L) (minI I) lo_c hi_c c st0 st2 (A ++ [latch_ a])
                ltac:(done) ltac:(done) ltac:(done) Hchild Hnotc Hxt2)
      as (Hf&Hu&Hxt3&Hs3).
    { fold n0. rewrite length_app. simpl. lia. }
    set (r := Node_Delete L I key c st2) in *. clearbody r.
    fold n0 in Hs3. rewrite length_app in Hs3. simpl in Hs3.
    unfold InternalNode_Delete_return. rewrite Hf, Hu.
    cbn [negb orb del_found del_underflow del_st]. split; [done|]. split; [done|].
    rewrite fmap_cons. cbn [length].
    replace (A ++ latch_ a :: (latch_ <$> search_path key c))
      with ((A ++ [latch_ a]) ++ (latch_ <$> search_path key c))
      by (by rewrite <- (assoc_L (++))).
    destruct (xtraffic_release st0 (del_st r) _ (Z.of_nat (n0 + length A) + 1) Hxt3)
      as [Hs4 Hxt4].
    { fold n0. rewrite !length_app. simpl. lia. }
    { lia. }
    split; [done|]. rewrite Hs4, Hs3.
    assert (1 ≤ length (search_path key c)) by (destruct c; simpl; lia). lia.
Qed.

End WriteTraffic.

(** X15. Latch traffic of [Insert], started with a cleared context: the
    tree latch and the nodes on the way from the root to the leaf are
    locked in exclusive mode, each once and in that order; the same
    latches, and no others, are unlocked, each once and in the same
    order; no shared-mode call is made, and the context is cleared. *)
Theorem Insert_exclusive_traffic (L I : nat) (ops : list Op) (key val : Z) (st : State) :
  2 ≤ L → 3 ≤ I →
  let tree := (run L I ops).1 in
  context st = mkContext 0 [] →
  (Z.of_nat (height (root_ tree)) + 3 < 32768)%Z →
  let st' := (MemoryBTree_Insert L I key val tree st).2 in
  ∃ new,
    mutex_log st' = mutex_log st ++ new ∧
    omap locked new = tree_latch_ :: (latch_ <$> search_path key (root_ tree)) ∧
    omap unlocked new = tree_latch_ :: (latch_ <$> search_path key (root_ tree)) ∧
    Forall exclusive_call new ∧
    context st' = mkContext 0 [].
Proof.
  intros HL HI tree Hctx Hlt st'. subst st'.
  destruct (run_inv L I HL HI ops) as [([h Hwf]&_) _]. fold tree in Hwf.
  pose proof (minI_pos L I HL HI).
  rewrite (wf_height L I h 0 2 None None _) in Hlt by (done || lia).
  assert (xtraffic st st []) as Hxt by (apply xtraffic_refl; by rewrite Hctx).
  unfold MemoryBTree_Insert.
  destruct (xtraffic_acquire st st [] tree_latch_ Hxt) as (_&Hs1&Hxt1).
  destruct (AcquireLatch tree_latch_ EXCLUSIVE st) as [d st1]. cbn [fst snd] in *.
  destruct (Node_Insert_traffic L I HL HI key val h 0 2 None None (root_ tree) st st1
              ([] ++ [tree_latch_]) ltac:(lia) Hwf Hxt1) as [Hxt2 Hs2].
  { rewrite Hctx. simpl. lia. }
  pose proof (search_path_length L I HL HI key h 0 2 None None (root_ tree)
                ltac:(lia) Hwf) as Hlen.
  set (r := Node_Insert L I key val (root_ tree) st1) in *. clearbody r.
  rewrite Hctx in Hs1, Hs2. cbn [app length smallest_unlk_idx_ latches_] in *.
  assert (∀ st2, xtraffic st st2 (tree_latch_ :: (latch_ <$> search_path key (root_ tree))) →
            smallest_unlk_idx_ (context st2)
            = Z.of_nat (S (length (search_path key (root_ tree)))) →
            ∃ new,
              mutex_log (QueryContext_Clear st2) = mutex_log st ++ new ∧
              omap locked new = tree_latch_ :: (latch_ <$> search_path key (root_ tree)) ∧
              omap unlocked new = tree_latch_ :: (latch_ <$> search_path key (root_ tree)) ∧
              Forall exclusive_call new ∧
              context (QueryContext_Clear st2) = mkContext 0 []) as Hfin.
  { intros st2 (_&_&new&Hlog&Hlk&Hun&Hex) Hs. exists new.
    rewrite Hctx, Hs in Hun. cbn [latches_ length] in Hun.
    rewrite take_ge in Hun by (simpl; rewrite length_fmap; lia).
    done. }
  destruct (ins_split r) as [s|] eqn:Es.
  - unfold alloc. cbn [fst snd].
    set (st2 := mkState _ _ _ _).
    assert (xtraffic st st2 (tree_latch_ :: (latch_ <$> search_path key (root_ tree))))
      as Hxt3 by (by apply (xtraffic_state st (ins_st r))).
    destruct (xtraffic_release_from_parent st st2 _ 0%Z Hxt3) as [Hs4 Hxt4].
    { subst st2. cbn [context]. by rewrite Hs2, Hs1. }
    { rewrite Hctx. simpl. rewrite length_fmap, Hlen. lia. }
    apply Hfin; [done|]. rewrite Hs4, Hctx. simpl. by rewrite length_fmap.
  - cbn [fst snd]. apply Hfin; [done|]. rewrite Hs2. f_equal; lia.
Qed.

Lemma Insert_exclusive_traffic_witness :
  let tree := (run 4 4 (inserts [1; 2; 3; 4; 5; 6; 7; 8; 9; 10]%Z)).1 in
  let st' := (MemoryBTree_Insert 4 4 11%Z 11%Z tree st0).2 in
  ∃ new,
    mutex_log st' = mutex_log st0 ++ new ∧
    omap locked new = tree_latch_ :: (latch_ <$> search_path 11%Z (root_ tree)) ∧
    omap unlocked new = tree_latch_ :: (latch_ <$> search_path 11%Z (root_ tree)) ∧
    Forall exclusive_call new ∧
    context st' = mkContext 0 [].
Proof.
  apply (Insert_exclusive_traffic 4 4 (inserts [1; 2; 3; 4; 5; 6; 7; 8; 9; 10]%Z)
           11%Z 11%Z st0); [lia|lia|done|].
  by vm_compute.
Defined.

(** X16. [Delete] of a key the tree does not hold returns false before
    the context is cleared: the latches it took (the tree latch and the
    path, in exclusive mode) were all given back, each once, so that
    [smallest_unlk_idx_ == latches_.size()] as the source asserts, but
    they stay listed in [latches_]. *)
Theorem Delete_absent_traffic (L I : nat) (ops : list Op) (key : Z) (st : State) :
  2 ≤ L → 3 ≤ I →
  let tree := (run L I ops).1 in
  key ∉ keys_of (root_ tree) →
  smallest_unlk_idx_ (context st) = Z.of_nat (length (latches_ (context st))) →
  (Z.of_nat (length (latches_ (context st)) + height (root_ tree)) + 3 < 32768)%Z →
  let res := MemoryBTree_Delete L I key tree st in
  let path := tree_latch_ :: (latch_ <$> search_path key (root_ tree)) in
  res.1.1 = false ∧
  latches_ (context res.2) = latches_ (context st) ++ path ∧
  smallest_unlk_idx_ (context res.2) = Z.of_nat (length (latches_ (context res.2))) ∧
  ∃ new,
    mutex_log res.2 = mutex_log st ++ new ∧
    omap locked new = path ∧ omap unlocked new = path ∧
    Forall exclusive_call new.
Proof.
  intros HL HI tree Hnot Hsm Hlt res path. subst res path.
  destruct (run_inv L I HL HI ops) as [([h Hwf]&_) _]. fold tree in Hwf.
  pose proof (minI_bounds L I HL HI) as (?&_).
  rewrite (wf_height L I h 0 2 None None _) in Hlt by (done || lia).
  assert (xtraffic st st []) as Hxt by (by apply xtraffic_refl).
  unfold MemoryBTree_Delete.
  destruct (xtraffic_acquire st st [] tree_latch_ Hxt) as (_&Hs1&Hxt1).
  destruct (AcquireLatch tree_latch_ EXCLUSIVE st) as [d st1]. cbn [fst snd] in *.
  destruct (Node_Delete_absent_traffic L I HL HI key h 0 2 None None (root_ tree) st st1
              ([] ++ [tree_latch_]) ltac:(lia) ltac:(lia) ltac:(lia) Hwf Hnot Hxt1)
    as (Hf&Hu&Hxt2&Hs2).
  { simpl. lia. }
  set (r := Node_Delete L I key (root_ tree) st1) in *. clearbody r.
  rewrite Hf. cbn [negb fst snd app length] in *.
  destruct Hxt2 as (Hls&_&new&Hlog&Hlk&Hun&Hex).
  split; [done|]. split; [done|]. split.
  - rewrite Hs2, Hls, length_app. simpl. rewrite length_fmap. f_equal. lia.
  - exists new. rewrite Hs2 in Hun.
    rewrite take_ge in Hun by (simpl; rewrite length_fmap; lia). done.
Qed.

Lemma Delete_absent_traffic_witness :
  let tree := (run 4 4 (inserts [1; 2; 3; 4; 5; 6; 7; 8; 9; 10]%Z)).1 in
  let res := MemoryBTree_Delete 4 4 42%Z tree st0 in
  let path := tree_latch_ :: (latch_ <$> search_path 42%Z (root_ tree)) in
  res.1.1 = false ∧
  latches_ (context res.2) = latches_ (context st0) ++ path ∧
  smallest_unlk_idx_ (context res.2) = Z.of_nat (length (latches_ (context res.2))) ∧
  ∃ new,
    mutex_log res.2 = mutex_log st0 ++ new ∧
    omap locked new = path ∧ omap unlocked new = path ∧
    Forall exclusive_call new.
Proof.
  apply (Delete_absent_traffic 4 4 (inserts [1; 2; 3; 4; 5; 6; 7; 8; 9; 10]%Z)
           42%Z st0); [lia|lia| |done|by vm_compute].
  assert (keys_of (root_ (run 4 4 (inserts [1; 2; 3; 4; 5; 6; 7; 8; 9; 10]%Z)).1)
          = [1; 2; 3; 4; 5; 6; 7; 8; 9; 10]%Z) as -> by (by vm_compute).
  rewrite !elem_of_cons, elem_of_nil. lia.
Defined.

(** ** [LocateKey], [Balance] and [ReleaseLatch] on their own *)



(** How [Balance] changes the sizes: a merge adds them up, a borrow
    moves one entry (or child) to the node that was short. *)
Lemma Node_Balance_sizes (L I h : nat) (lo : obound) (k0 : Z) (hi1 : obound)
    (left right_ : Node) :
  balance_pre L I h lo k0 hi1 left right_ →
  let res := Node_Balance L I left right_ k0 in
  if res.1.1.1
  then Node_Size res.1.1.2 = Node_Size left + Node_Size right_
  else (Node_Size left < UB_of L I left ∧
        Node_Size res.1.1.2 = Node_Size left + 1 ∧
        Node_Size res.1.2 + 1 = Node_Size right_) ∨
       (Node_Size right_ < UB_of L I right_ ∧
        Node_Size res.1.1.2 + 1 = Node_Size left ∧
        Node_Size res.1.2 = Node_Size right_ + 1).
Proof.
  intros (Hl&Hr&_).
  destruct h, left as [[a ks vs rs]|a ks cs rs], right_ as [[ra rks rvs rrs]|ra rks rcs rrs];
    try done; clear Hl Hr; cbv zeta.
  - unfold Node_Balance, LeafNode_Balance, LeafNode_ShiftAndInsert, LeafNode_DeleteIndex,
      Leaf_Size, UB_of.
    cbn [leaf_keys_ leaf_values_ leaf_addr leaf_right_sibl_ Node_Size].
    destruct ((length ks <? UNDERFLOW_BOUND L) && (UNDERFLOW_BOUND L <? length rks)) eqn:E1;
      [|destruct ((UNDERFLOW_BOUND L <? length ks) && (length rks <? UNDERFLOW_BOUND L))
          eqn:E2];
      cbn [fst snd Node_Size leaf_keys_].
    + apply andb_true_iff in E1 as [E1 E1']. apply Nat.ltb_lt in E1, E1'.
      left. rewrite length_app, length_take. cbn [length]. rewrite length_drop.
      rewrite length_delete by (apply lookup_lt_is_Some; lia). lia.
    + apply andb_true_iff in E2 as [E2 E2']. apply Nat.ltb_lt in E2, E2'.
      right. rewrite length_delete by (apply lookup_lt_is_Some; lia).
      simpl. rewrite drop_0. lia.
    + by rewrite length_app.
  - unfold Node_Balance, InternalNode_Balance, UB_of. cbn [Node_Size].
    destruct ((length cs <? UNDERFLOW_BOUND I) && (UNDERFLOW_BOUND I <? length rcs)) eqn:E1;
      [|destruct ((UNDERFLOW_BOUND I <? length cs) && (length rcs <? UNDERFLOW_BOUND I))
          eqn:E2].
    + apply andb_true_iff in E1 as [E1 E1']. apply Nat.ltb_lt in E1, E1'.
      destruct rcs as [|moved rcs]; [simpl in E1'; lia|].
      unfold InternalNode_DeleteIndex. cbn [length] in *.
      assert ((0 <? S (length rcs)) = true) as -> by (by apply Nat.ltb_lt; lia).
      cbn [fst snd Node_Size delete list_delete]. left. rewrite length_app. simpl. lia.
    + apply andb_true_iff in E2 as [E2 E2']. apply Nat.ltb_lt in E2, E2'.
      destruct (lookup_lt_is_Some_2 cs (length cs - 1)) as [moved ->]; [lia|].
      unfold InternalNode_ShiftAndInsert. cbn [fst snd Node_Size take drop].
      right. rewrite length_take. simpl. rewrite ?drop_0. lia.
    + cbn [fst snd Node_Size]. by rewrite length_app.
Qed.

(** X18. [Balance] on two adjacent siblings (LeafCapacity >= 2,
    InternalCapacity >= 3, assertions compiled out) of which one is below
    [UNDERFLOW_BOUND] of its capacity and holds at least LeafCapacity/2 - 1
    entries ([UNDERFLOW_BOUND] - 1 children), while the other is regular.
    When it reports a merge, the left node holds the entries of both, in
    order, its size is the sum of the two sizes, and it is a regular node
    for the joint range.  Otherwise exactly one entry (or child) crossed
    over to the node that was below the bound: its size grew by one and
    its sibling's size fell by one, both nodes are regular (at least
    LeafCapacity/2 entries, [UNDERFLOW_BOUND] children), the new boundary
    separates them, and together they hold the same entries in the same
    order. *)
Theorem Balance_redistributes (L I h : nat) (lo : obound) (k0 : Z) (hi1 : obound)
    (left right_ : Node) :
  2 ≤ L → 3 ≤ I →
  wf_low L I h lo (Some k0) left → wf_low L I h (Some k0) hi1 right_ →
  (Node_Size left < UB_of L I left ∧ reg_size L I right_) ∨
  (reg_size L I left ∧ Node_Size right_ < UB_of L I right_) →
  let res := Node_Balance L I left right_ k0 in
  if res.1.1.1
  then wf_reg L I h lo hi1 res.1.1.2 ∧
       entries res.1.1.2 = entries left ++ entries right_ ∧
       Node_Size res.1.1.2 = Node_Size left + Node_Size right_
  else wf_reg L I h lo (Some res.2) res.1.1.2 ∧
       wf_reg L I h (Some res.2) hi1 res.1.2 ∧
       entries res.1.1.2 ++ entries res.1.2 = entries left ++ entries right_ ∧
       ((Node_Size left < UB_of L I left ∧
         Node_Size res.1.1.2 = Node_Size left + 1 ∧
         Node_Size res.1.2 + 1 = Node_Size right_) ∨
        (Node_Size right_ < UB_of L I right_ ∧
         Node_Size res.1.1.2 + 1 = Node_Size left ∧
         Node_Size res.1.2 = Node_Size right_ + 1)).
Proof.
  intros HL HI Hl Hr Hsize res.
  pose proof (Node_Balance_spec L I HL HI h lo k0 hi1 left right_
                (conj Hl (conj Hr Hsize))) as Hb.
  pose proof (Node_Balance_sizes L I h lo k0 hi1 left right_
                (conj Hl (conj Hr Hsize))) as Hsz.
  fold res in Hb, Hsz. destruct res as [[[merged left'] right'] b']. cbn [fst snd] in *.
  unfold balance_spec in Hb. destruct Hb as (_&_&Hb).
  destruct merged.
  - by destruct Hb as (?&?&_).
  - by destruct Hb as (?&?&?&_).
Qed.

Lemma Balance_redistributes_witness :
  let left := Leaf (mkLeaf 1 [1]%Z [10]%Z (Some 2)) in
  let right_ := Leaf (mkLeaf 2 [5; 6; 7]%Z [50; 60; 70]%Z None) in
  let res := Node_Balance 4 4 left right_ 4%Z in
  if res.1.1.1
  then wf_reg 4 4 0 None None res.1.1.2 ∧
       entries res.1.1.2 = entries left ++ entries right_ ∧
       Node_Size res.1.1.2 = Node_Size left + Node_Size right_
  else wf_reg 4 4 0 None (Some res.2) res.1.1.2 ∧
       wf_reg 4 4 0 (Some res.2) None res.1.2 ∧
       entries res.1.1.2 ++ entries res.1.2 = entries left ++ entries right_ ∧
       ((Node_Size left < UB_of 4 4 left ∧
         Node_Size res.1.1.2 = Node_Size left + 1 ∧
         Node_Size res.1.2 + 1 = Node_Size right_) ∨
        (Node_Size right_ < UB_of 4 4 right_ ∧
         Node_Size res.1.1.2 + 1 = Node_Size left ∧
         Node_Size res.1.2 = Node_Size right_ + 1)).
Proof.
  apply (Balance_redistributes 4 4 0 None 4%Z None
           (Leaf (mkLeaf 1 [1]%Z [10]%Z (Some 2)))
           (Leaf (mkLeaf 2 [5; 6; 7]%Z [50; 60; 70]%Z None))); [lia|lia| | |].
  - unfold wf_low, minL. cbn [wf leaf_keys_ leaf_values_ length].
    repeat split; try done; try lia; repeat constructor; simpl; lia.
  - unfold wf_low, minL. cbn [wf leaf_keys_ leaf_values_ length].
    repeat split; try done; try lia; repeat constructor; simpl; lia.
  - left. unfold UB_of, reg_size, minL, UNDERFLOW_BOUND. simpl. lia.
Defined.

Lemma unlock_range_app (m : SharedLockType) (ls : list Latch) (s i j : Z) :
  m ≠ NONE → (s ≤ i ≤ j)%Z →
  unlock_range m ls s i ++ unlock_range m ls i j = unlock_range m ls s j.
Proof.
  intros Hm Hij. unfold unlock_range. destruct m; [done|..].
  all: replace (j - s)%Z with ((i - s) + (j - i))%Z by lia.
  all: rewrite seqZ_app, fmap_app, concat_app by lia.
  all: by replace (s + (i - s))%Z with i by lia.
Qed.

(** X19. Releases compose: [ReleaseLatch(i)] followed by
    [ReleaseLatch(j)] with [i <= j] makes the same calls and leaves the
    same context as [ReleaseLatch(j)] alone, so no slot is unlocked twice. *)
Theorem ReleaseLatch_compose (m : SharedLockType) (i j : Z) (st : State) :
  m ≠ NONE → (-32768 ≤ i)%Z → (i ≤ j)%Z → (j < 32768)%Z →
  ReleaseLatch j m (ReleaseLatch i m st) = ReleaseLatch j m st.
Proof.
  intros Hm Hi Hij Hj. unfold ReleaseLatch. rewrite !to_short_id by lia.
  destruct (smallest_unlk_idx_ (context st) >=? i)%Z eqn:E1; [done|].
  rewrite Z.geb_leb in E1. apply Z.leb_gt in E1.
  assert ((smallest_unlk_idx_ (context st) >=? j)%Z = false) as ->
    by (rewrite Z.geb_leb; apply Z.leb_gt; lia).
  destruct m; [done|..].
  all: unfold log_calls, set_context;
    cbn [context smallest_unlk_idx_ latches_ mutex_log heap_next heap_freed].
  all: destruct (i >=? j)%Z eqn:E2.
  all: try (apply Z.geb_le in E2; by replace j with i by lia).
  all: rewrite Z.geb_leb in E2; apply Z.leb_gt in E2.
  all: f_equal; rewrite <- (assoc_L (++)); f_equal.
  all: apply unlock_range_app; [done|lia].
Qed.

Lemma ReleaseLatch_compose_witness :
  ReleaseLatch 3 SHARE
    (ReleaseLatch 1 SHARE
       (mkState (mkContext 0 [tree_latch_; latch_ 0; latch_ 1; latch_ 2]) 3 [] []))
  = ReleaseLatch 3 SHARE
      (mkState (mkContext 0 [tree_latch_; latch_ 0; latch_ 1; latch_ 2]) 3 [] []).
Proof. apply ReleaseLatch_compose; [done|lia|lia|lia]. Defined.

(** ** Latch traffic of [TreeScan] *)

Lemma unlock_range_two (ls : list Latch) (i : nat) (l1 l2 : Latch) :
  ls !! i = Some l1 → ls !! S i = Some l2 →
  unlock_range SHARE ls (Z.of_nat i) (Z.of_nat i + 2)
  = [unlock_shared l1; unlock_shared l2].
Proof.
  intros H1 H2.
  rewrite <- (unlock_range_app SHARE ls (Z.of_nat i) (Z.of_nat i + 1)) by (done || lia).
  rewrite (unlock_range_one ls i l1 H1).
  replace (Z.of_nat i + 1)%Z with (Z.of_nat (S i)) by lia.
  replace (Z.of_nat i + 2)%Z with (Z.of_nat (S i) + 1)%Z by lia.
  by rewrite (unlock_range_one ls (S i) l2 H2).
Qed.

Section Scan.

Variable L : nat.
Variable I : nat.
Hypothesis HL : 2 ≤ L.
Hypothesis HI : 3 ≤ I.
#[local] Set Default Proof Using "HL HI".

Lemma TreeScan_descend_traffic h : ∀ mL mI lo hi n st ls,
  1 ≤ mI → wf L I h mL mI lo hi n →
  latches_ (context st) = ls ++ [latch_ (node_addr n)] →
  smallest_unlk_idx_ (context st) = Z.of_nat (length ls) →
  (Z.of_nat (length ls + h) + 2 < 32768)%Z →
  let r := TreeScan_descend n st in
  r.1 = last (leftmost_path n) ∧
  mutex_log r.2
  = mutex_log st ++ handover (latch_ (node_addr n)) (latch_ <$> tail (leftmost_path n)) ∧
  latches_ (context r.2) = ls ++ (latch_ <$> leftmost_path n) ∧
  smallest_unlk_idx_ (context r.2) = (Z.of_nat (length (latches_ (context r.2))) - 1)%Z.
Proof.
  induction h as [|h IH]; intros mL mI lo hi [l|a ks cs rs] st ls HmI Hwf Hls Hsm Hlt;
    try done.
  - cbn [TreeScan_descend leftmost_path fst snd tail fmap list_fmap handover last].
    rewrite app_nil_r, Hls, Hsm, length_app. simpl. repeat split; try done. lia.
  - destruct Hwf as (Hlen&Hsz&Hc&_).
    destruct cs as [|c cs]; [simpl in Hsz; pose proof (minI_pos L I HL HI); lia|].
    destruct ks as [|k ks]; [done|]. rewrite seps_cons in Hc. destruct Hc as [Hc _].
    cbn [TreeScan_descend leftmost_path tail node_addr] in *.
    destruct (couple_step ls (latch_ a) (latch_ (node_addr c)) st Hls Hsm ltac:(lia))
      as (Hd&Hls2&Hsm2&Hlog).
    destruct (AcquireLatch (latch_ (node_addr c)) SHARE st) as [depth st1].
    cbn [fst snd] in *. subst depth.
    destruct (IH _ _ _ _ c (ReleaseLatch (Z.of_nat (length ls + 1)) SHARE st1)
                (ls ++ [latch_ a]) (minI_pos L I HL HI) Hc Hls2)
      as (Hleaf&Hlog'&Hls'&Hsm').
    { rewrite Hsm2, length_app. simpl. done. }
    { rewrite length_app. simpl. lia. }
    split; [|split; [|split]].
    + rewrite Hleaf. by destruct c.
    + rewrite Hlog', Hlog, <- (assoc_L (++)). f_equal.
      destruct c as [l|a' ks' cs' rs']; simpl; done.
    + rewrite Hls', fmap_cons. by rewrite <- (assoc_L (++)).
    + exact Hsm'.
Qed.

End Scan.

(** X20. Latch traffic of [TreeScan], started with a context that holds
    no latch: the tree latch and the root latch are taken in shared mode;
    on a root leaf nothing is given back, so the scan starts holding
    both; otherwise both are given back once the first child of the root
    is latched, the descent goes on hand over hand along the first
    children, and the iterator stands on the leftmost leaf, whose latch
    alone is still held. *)
Theorem TreeScan_latches (L I : nat) (ops : list Op) (st : State) :
  2 ≤ L → 3 ≤ I →
  let tree := (run L I ops).1 in
  smallest_unlk_idx_ (context st) = Z.of_nat (length (latches_ (context st))) →
  (Z.of_nat (length (latches_ (context st)) + height (root_ tree)) + 3 < 32768)%Z →
  let r := MemoryBTree_TreeScan tree st in
  let path := leftmost_path (root_ tree) in
  current_ r.1 = last path ∧
  mutex_log r.2
  = mutex_log st ++ lock_shared tree_latch_ :: lock_shared (latch_ (node_addr (root_ tree)))
      :: scan_descent path ∧
  latches_ (context r.2) = latches_ (context st) ++ tree_latch_ :: (latch_ <$> path) ∧
  drop (Z.to_nat (smallest_unlk_idx_ (context r.2))) (latches_ (context r.2))
  = match root_ tree with
    | Leaf l => [tree_latch_; latch_ (leaf_addr l)]
    | Internal _ _ _ _ => [latch_ (default 0 (last path))]
    end.
Proof.
  intros HL HI tree Hsm Hlt r path. subst r path.
  destruct (run_inv L I HL HI ops) as [([h Hwf]&_) _]. fold tree in Hwf.
  pose proof (minI_pos L I HL HI).
  rewrite (wf_height L I h 0 2 None None _) in Hlt by (done || lia).
  unfold MemoryBTree_TreeScan, AcquireLatch.
  unfold log_calls, set_context. cbn [context smallest_unlk_idx_ latches_ mutex_log
    heap_next heap_freed].
  set (n0 := length (latches_ (context st))) in *.
  destruct (root_ tree) as [l|a ks cs rs] eqn:Eroot.
  - cbn [TreeScan_descend leftmost_path node_addr current_ fst snd context latches_
         smallest_unlk_idx_ mutex_log scan_descent fmap list_fmap last].
    rewrite <- !(assoc_L (++)). simpl. repeat split; try done.
    rewrite Hsm, Nat2Z.id. subst n0. by rewrite drop_app_length.
  - destruct h as [|h]; [done|]. destruct Hwf as (Hlen&Hsz&Hc&_).
    destruct cs as [|c cs]; [simpl in Hsz; lia|].
    destruct ks as [|k ks]; [done|]. rewrite seps_cons in Hc. destruct Hc as [Hc _].
    cbn [TreeScan_descend leftmost_path node_addr].
    unfold AcquireLatch, ReleaseLatch.
    unfold log_calls, set_context. cbn [context smallest_unlk_idx_ latches_ mutex_log
      heap_next heap_freed fst snd].
    rewrite !length_app. cbn [length]. fold n0. rewrite Hsm.
    replace (Z.of_nat (n0 + 1 + 1 + 1) - 1)%Z with (Z.of_nat n0 + 2)%Z by lia.
    rewrite to_short_id by lia.
    destruct (Z.of_nat n0 >=? Z.of_nat n0 + 2)%Z eqn:E; [apply Z.geb_le in E; lia|].
    rewrite (unlock_range_two _ n0 tree_latch_ (latch_ a)).
    2: { rewrite <- !(assoc_L (++)). by apply list_lookup_middle. }
    2: { replace (S n0) with (length (latches_ (context st) ++ [tree_latch_]))
           by (rewrite length_app; simpl; fold n0; lia).
         rewrite <- !(assoc_L (++)), (assoc_L (++) _ [tree_latch_]).
         by apply list_lookup_middle. }
    set (st2 := mkState _ _ _ _).
    destruct (TreeScan_descend_traffic L I HL HI h _ _ _ _ c st2
                (latches_ (context st) ++ [tree_latch_; latch_ a])
                (minI_pos L I HL HI) Hc) as (Hleaf&Hlog&Hls&Hsm2).
    { subst st2. cbn [context latches_]. by rewrite <- !(assoc_L (++)). }
    { subst st2. cbn [context smallest_unlk_idx_]. rewrite length_app. simpl.
      fold n0. lia. }
    { rewrite length_app. simpl. fold n0. lia. }
    destruct (TreeScan_descend c st2) as [leaf st3]. cbn [fst snd current_] in *.
    assert (leftmost_path c ≠ []) as Hne by (by destruct c).
    split; [|split; [|split]].
    + rewrite Hleaf. destruct (leftmost_path c); done.
    + rewrite Hlog. subst st2. cbn [mutex_log].
      rewrite <- !(assoc_L (++)). simpl. do 5 f_equal.
      destruct c as [l|a' ks' cs' rs']; simpl; done.
    + rewrite Hls, !fmap_cons. by rewrite <- !(assoc_L (++)).
    + rewrite Hsm2, Hls.
      destruct (leftmost_path c) as [|x p] eqn:Ep using rev_ind; [done|].
      rewrite last_cons, last_snoc. cbn [default].
      rewrite fmap_app, (assoc_L (++)). cbn [fmap list_fmap].
      rewrite length_app. cbn [length].
      replace (Z.to_nat (Z.of_nat (length _ + 1) - 1)) with
        (length ((latches_ (context st) ++ [tree_latch_; latch_ a]) ++ (latch_ <$> p)))
        by lia.
      by rewrite drop_app_length.
Qed.

Lemma TreeScan_latches_witness :
  let tree := (run 4 4 (inserts [1; 2; 3; 4; 5; 6; 7; 8; 9; 10]%Z)).1 in
  let r := MemoryBTree_TreeScan tree st0 in
  let path := leftmost_path (root_ tree) in
  current_ r.1 = last path ∧
  mutex_log r.2
  = mutex_log st0 ++ lock_shared tree_latch_ :: lock_shared (latch_ (node_addr (root_ tree)))
      :: scan_descent path ∧
  latches_ (context r.2) = latches_ (context st0) ++ tree_latch_ :: (latch_ <$> path) ∧
  drop (Z.to_nat (smallest_unlk_idx_ (context r.2))) (latches_ (context r.2))
  = match root_ tree with
    | Leaf l => [tree_latch_; latch_ (leaf_addr l)]
    | Internal _ _ _ _ => [latch_ (default 0 (last path))]
    end.
Proof.
  apply (TreeScan_latches 4 4 (inserts [1; 2; 3; 4; 5; 6; 7; 8; 9; 10]%Z) st0);
    [lia|lia|done|by vm_compute].
Defined.

(** ** Latch traffic of [Delete] *)

Lemma dtraffic_refl (st : State) :
  smallest_unlk_idx_ (context st) = Z.of_nat (length (latches_ (context st))) →
  dtraffic st st [] [].
Proof.
  intros Hs. exists [], [], []. rewrite !app_nil_r. simpl.
  repeat split; try done; try lia. by rewrite drop_nil.
Qed.

Lemma dtraffic_mono (st0 st : State) (P Sb Sb' : list Latch) :
  Sb ⊆+ Sb' → dtraffic st0 st P Sb → dtraffic st0 st P Sb'.
Proof.
  intros Hsub (A&new&sibl&Hsb&H). exists A, new, sibl. split; [|done]. by etrans.
Qed.

Lemma dtraffic_state (st0 st st' : State) (P Sb : list Latch) :
  context st' = context st → mutex_log st' = mutex_log st →
  dtraffic st0 st P Sb → dtraffic st0 st' P Sb.
Proof. unfold dtraffic. by intros -> ->. Qed.

Lemma dtraffic_acquire (st0 st : State) (P Sb : list Latch) (l : Latch) :
  dtraffic st0 st P Sb →
  (AcquireLatch l EXCLUSIVE st).1
  = Z.of_nat (length (latches_ (context st0)) + length P) ∧
  smallest_unlk_idx_ (context (AcquireLatch l EXCLUSIVE st).2)
  = smallest_unlk_idx_ (context st) ∧
  dtraffic st0 (AcquireLatch l EXCLUSIVE st).2 (P ++ [l]) Sb.
Proof.
  intros (A&new&sibl&Hsb&Hls&Hlen&Hr&Hlog&Hlk&Hbal&Hex). unfold AcquireLatch. cbn [fst snd].
  unfold log_calls, set_context. cbn [context smallest_unlk_idx_ latches_ mutex_log].
  rewrite Hls, !length_app, Hlen. simpl. split; [lia|]. split; [done|].
  exists (A ++ [l]), (new ++ [lock l]), sibl.
  rewrite Hlog, !omap_app, !length_app, Hlen. simpl. split; [done|].
  split; [by rewrite <- (assoc_L (++))|]. split; [done|]. split; [lia|].
  split; [by rewrite <- (assoc_L (++))|]. split; [|split].
  - rewrite Hlk, <- !(assoc_L (++)). apply Permutation_app_head, Permutation_app_comm.
  - rewrite app_nil_r, drop_app_le by lia. by rewrite Hbal, <- !(assoc_L (++)).
  - apply Forall_app. split; [done|]. by repeat constructor.
Qed.

Lemma dtraffic_release (st0 st : State) (P Sb : list Latch) (upto : Z) :
  dtraffic st0 st P Sb →
  (upto ≤ Z.of_nat (length (latches_ (context st0)) + length P))%Z →
  (-32768 ≤ upto < 32768)%Z →
  smallest_unlk_idx_ (context (ReleaseLatch upto EXCLUSIVE st))
  = Z.max (smallest_unlk_idx_ (context st)) upto ∧
  dtraffic st0 (ReleaseLatch upto EXCLUSIVE st) P Sb.
Proof.
  intros (A&new&sibl&Hsb&Hls&Hlen&Hr&Hlog&Hlk&Hbal&Hex) Hup Hshort. unfold ReleaseLatch.
  rewrite to_short_id by done.
  destruct (smallest_unlk_idx_ (context st) >=? upto)%Z eqn:E.
  - apply Z.geb_le in E. split; [lia|]. by exists A, new, sibl.
  - rewrite Z.geb_leb in E. apply Z.leb_gt in E.
    unfold dtraffic, log_calls, set_context.
    cbn [context smallest_unlk_idx_ latches_ mutex_log].
    split; [lia|].
    set (n0 := length (latches_ (context st0))) in *.
    set (s := Z.to_nat (smallest_unlk_idx_ (context st))) in *.
    assert (unlock_range EXCLUSIVE (latches_ (context st))
              (smallest_unlk_idx_ (context st)) upto
            = unlock <$> take (Z.to_nat upto - s) (drop s (latches_ (context st)))) as ->.
    { rewrite <- unlock_range_exclusive by (rewrite Hls, length_app; fold n0; lia).
      f_equal; lia. }
    exists A, (new ++ (unlock <$> take (Z.to_nat upto - s) (drop s (latches_ (context st))))),
      sibl.
    rewrite Hlog, !omap_app, omap_unlocked_unlock, omap_locked_unlock, app_nil_r.
    split; [done|]. split; [done|]. split; [done|]. split; [lia|].
    split; [by rewrite <- (assoc_L (++))|]. split; [done|]. split.
    + rewrite Hbal, Hls, drop_app_ge by (fold n0; lia). fold n0.
      rewrite <- (assoc_L (++)). f_equiv.
      rewrite <- (take_drop (Z.to_nat upto - s) (drop (s - n0) A)) at 1.
      rewrite drop_drop.
      by replace (s - n0 + (Z.to_nat upto - s)) with (Z.to_nat upto - n0) by lia.
    + apply Forall_app. split; [done|]. apply Forall_exclusive_unlock.
Qed.

Lemma dtraffic_release_from_parent (st0 st : State) (P Sb : list Latch) (d : Z) :
  dtraffic st0 st P Sb →
  smallest_unlk_idx_ (context st) = d →
  (Z.of_nat (length (latches_ (context st0)) + length P) < 32768)%Z →
  smallest_unlk_idx_ (context (ReleaseLatchFromParent d EXCLUSIVE st))
  = Z.of_nat (length (latches_ (context st0)) + length P) ∧
  dtraffic st0 (ReleaseLatchFromParent d EXCLUSIVE st) P Sb.
Proof.
  intros (A&new&sibl&Hsb&Hls&Hlen&Hr&Hlog&Hlk&Hbal&Hex) Hd Hshort.
  unfold ReleaseLatchFromParent.
  set (n0 := length (latches_ (context st0))) in *.
  assert (length (latches_ (context st)) = n0 + length P) as Hlen'
    by (rewrite Hls, length_app, Hlen; done).
  rewrite !to_short_id by lia.
  unfold dtraffic, log_calls, set_context.
  cbn [context smallest_unlk_idx_ latches_ mutex_log].
  rewrite Hlen'. split; [done|].
  set (s := Z.to_nat d) in *.
  assert (unlock_range EXCLUSIVE (latches_ (context st)) d (Z.of_nat (n0 + length P))
          = unlock <$> take (n0 + length P - s) (drop s (latches_ (context st)))) as ->.
  { rewrite <- unlock_range_exclusive by lia. f_equal; lia. }
  exists A, (new ++ (unlock <$> take (n0 + length P - s) (drop s (latches_ (context st))))),
    sibl.
  rewrite Hlog, !omap_app, omap_unlocked_unlock, omap_locked_unlock, app_nil_r.
  split; [done|]. split; [done|]. split; [done|]. split; [fold n0; lia|].
  split; [by rewrite <- (assoc_L (++))|]. split; [done|]. split.
  - rewrite Hbal, Hd. fold s. rewrite Hls, drop_app_ge by (fold n0; lia). fold n0.
    rewrite <- (assoc_L (++)). f_equiv.
    assert (n0 ≤ s ≤ n0 + length P) as Hs by (subst s; lia).
    rewrite Nat2Z.id. clearbody s n0.
    rewrite take_ge by (rewrite length_drop; clear -Hlen Hs; lia).
    rewrite (drop_ge A (n0 + length P - n0)) by (clear -Hlen; lia).
    by rewrite app_nil_r.
  - apply Forall_app. split; [done|]. apply Forall_exclusive_unlock.
Qed.

Lemma insert_Permutation {A} (l : list A) (i : nat) (x y : A) :
  l !! i = Some x → y :: l ≡ₚ x :: <[i := y]> l.
Proof.
  revert i. induction l as [|z l IH]; intros [|i] Hi; simpl in *; simplify_eq.
  - apply perm_swap.
  - rewrite (perm_swap z x), perm_swap. apply Permutation_skip. by apply IH.
Qed.

(** The sibling's latch is locked; then it is given back at once, or it
    takes the slot of the target's latch, which is given back instead. *)
Lemma dtraffic_sibling (st0 st : State) (P Sb : list Latch) (sl : Latch) (idx : Z)
    (b : bool) :
  dtraffic st0 st P Sb →
  (smallest_unlk_idx_ (context st) ≤ idx)%Z →
  (idx < Z.of_nat (length (latches_ (context st0)) + length P))%Z →
  (idx < 32768)%Z →
  let st1 := log_calls [lock sl] st in
  let st2 := if b then ReplaceLatch idx sl EXCLUSIVE st1 else log_calls [unlock sl] st1 in
  smallest_unlk_idx_ (context st2) = smallest_unlk_idx_ (context st) ∧
  dtraffic st0 st2 P (Sb ++ [sl]).
Proof.
  intros (A&new&sibl&Hsb&Hls&Hlen&Hr&Hlog&Hlk&Hbal&Hex) Hlo Hhi Hshort st1 st2.
  subst st1 st2. set (n0 := length (latches_ (context st0))) in *.
  destruct b.
  - unfold ReplaceLatch. rewrite to_short_id by lia.
    unfold dtraffic, log_calls, set_context.
    cbn [context smallest_unlk_idx_ latches_ mutex_log].
    split; [done|].
    destruct (idx <? 0)%Z eqn:E; [apply Z.ltb_lt in E; lia|].
    unfold latch_at. rewrite E.
    destruct (lookup_lt_is_Some_2 A (Z.to_nat idx - n0)) as [x Hx]; [lia|].
    assert (latches_ (context st) !! Z.to_nat idx = Some x) as Hx'.
    { rewrite Hls, lookup_app_r by (fold n0; lia). by fold n0. }
    rewrite Hx'. cbn [unlock_call].
    exists (<[Z.to_nat idx - n0 := sl]> A), (new ++ [lock sl; unlock x]), (sibl ++ [sl]).
    split; [by apply submseteq_app|].
    split; [|split; [|split; [|split; [|split; [|split]]]]].
    + rewrite Hls, insert_app_r_alt by (fold n0; lia). by fold n0.
    + by rewrite length_insert.
    + done.
    + by rewrite Hlog, <- !(assoc_L (++)).
    + rewrite omap_app, Hlk. simpl. by rewrite <- !(assoc_L (++)).
    + fold n0. set (k := Z.to_nat (smallest_unlk_idx_ (context st)) - n0) in *.
      rewrite !omap_app, Hbal. simpl. rewrite <- !(assoc_L (++)). f_equiv.
      assert (drop k A !! (Z.to_nat idx - n0 - k) = Some x) as Hd.
      { rewrite lookup_drop. rewrite <- Hx. f_equal. lia. }
      replace (drop k (<[Z.to_nat idx - n0 := sl]> A))
        with (<[Z.to_nat idx - n0 - k := sl]> (drop k A)).
      2: { by rewrite drop_insert_ge by lia. }
      rewrite <- Permutation_cons_append. simpl.
      by apply insert_Permutation.
    + apply Forall_app. split; [done|]. by repeat constructor.
  - unfold dtraffic, log_calls, set_context.
    cbn [context smallest_unlk_idx_ latches_ mutex_log].
    split; [done|].
    exists A, (new ++ [lock sl; unlock sl]), (sibl ++ [sl]).
    split; [by apply submseteq_app|]. split; [done|]. split; [done|]. split; [done|].
    split; [by rewrite Hlog, <- !(assoc_L (++))|]. split; [|split].
    + rewrite omap_app, Hlk. simpl. by rewrite <- !(assoc_L (++)).
    + fold n0. rewrite !omap_app, Hbal. simpl. rewrite <- !(assoc_L (++)). f_equiv.
      apply Permutation_app_comm.
    + apply Forall_app. split; [done|]. by repeat constructor.
Qed.

Section DeleteTraffic.

Variable L : nat.
Variable I : nat.
Hypothesis HL : 2 ≤ L.
Hypothesis HI : 3 ≤ I.
#[local] Set Default Proof Using "HL HI".

(** [Delete] on a subtree: when it reports no underflow every latch taken
    so far was given back; when it reports an underflow to its parent it
    gave back none of the latches it found taken. *)
Lemma Node_Delete_traffic key h : ∀ mL mI lo hi n st0 st P Sb,
  1 ≤ mI → wf L I h mL mI lo hi n →
  dtraffic st0 st P Sb →
  (Z.of_nat (length (latches_ (context st0)) + length P + h) + 2 < 32768)%Z →
  let r := Node_Delete L I key n st in
  (del_found r = false → del_underflow r = false) ∧
  dtraffic st0 (del_st r) (P ++ (latch_ <$> search_path key n))
           (Sb ++ path_siblings key n) ∧
  smallest_unlk_idx_ (context (del_st r))
  = if del_underflow r then smallest_unlk_idx_ (context st)
    else Z.of_nat (length (latches_ (context st0)) + length P
                   + length (search_path key n)).
Proof.
  induction h as [|h IH];
    intros mL mI lo hi [this|a ks cs rs] st0 st P Sb HmI Hwf Hdt Hlt; try done.
  - cbn [Node_Delete search_path path_siblings fmap list_fmap length].
    rewrite (app_nil_r Sb). unfold LeafNode_Delete.
    destruct (dtraffic_acquire st0 st P Sb (latch_ (leaf_addr this)) Hdt) as (Hd&Hs1&Hdt1).
    destruct (AcquireLatch (latch_ (leaf_addr this)) EXCLUSIVE st) as [depth st1].
    cbn [fst snd] in *. subst depth.
    set (n0 := length (latches_ (context st0))) in *.
    assert (n0 ≤ Z.to_nat (smallest_unlk_idx_ (context st)) ≤ n0 + length P
            ∧ (0 ≤ smallest_unlk_idx_ (context st))%Z) as Hr.
    { destruct Hdt as (?&?&?&_&_&_&Hr&_). fold n0 in Hr. lia. }
    set (safe := (Z.of_nat (Leaf_Size this) - 1 >=? Z.of_nat (UNDERFLOW_BOUND L))%Z).
    set (st2 := if safe then ReleaseLatch (Z.of_nat (n0 + length P)) EXCLUSIVE st1 else st1).
    assert (dtraffic st0 st2 (P ++ [latch_ (leaf_addr this)]) Sb ∧
            smallest_unlk_idx_ (context st2)
            = if safe then Z.of_nat (n0 + length P)
              else smallest_unlk_idx_ (context st)) as [Hdt2 Hs2].
    { subst st2. destruct safe; [|done].
      destruct (dtraffic_release st0 st1 _ _ (Z.of_nat (n0 + length P)) Hdt1)
        as [Hs2 Hdt2]; [fold n0; rewrite length_app; simpl; lia|lia|].
      split; [done|]. lia. }
    clearbody st2.
    assert (let st3 := ReleaseLatch (Z.of_nat (n0 + length P) + 1) EXCLUSIVE st2 in
            dtraffic st0 st3 (P ++ [latch_ (leaf_addr this)]) Sb ∧
            smallest_unlk_idx_ (context st3) = Z.of_nat (n0 + length P + 1)) as Hfin.
    { intros st3.
      destruct (dtraffic_release st0 st2 _ _ (Z.of_nat (n0 + length P) + 1) Hdt2)
        as [Hs3 Hdt3]; [fold n0; rewrite length_app; simpl; lia|lia|].
      split; [done|]. fold st3 in Hs3. rewrite Hs3, Hs2. destruct safe; lia. }
    destruct Hwf as (Hlen&Hs&_).
    pose proof (SearchKeyIndex_spec this key Hs) as Hsp.
    destruct (LeafNode_SearchKeyIndex this key) as [found pos].
    destruct Hsp as (_&_&Hf). destruct found.
    + unfold LeafNode_DeleteIndex, Leaf_Size. cbn [leaf_keys_].
      rewrite length_delete by done.
      destruct (length (leaf_keys_ this) - 1 <? UNDERFLOW_BOUND L) eqn:Eu;
        cbn [negb orb del_found del_underflow del_st].
      * split; [done|]. split; [done|]. rewrite Hs2.
        apply Nat.ltb_lt in Eu. apply lookup_lt_Some in Hf.
        subst safe. unfold Leaf_Size.
        destruct (_ >=? _)%Z eqn:E; [|done]. apply Z.geb_le in E.
        unfold Leaf_Size in E. exfalso. clear -E Eu Hf. lia.
      * split; [done|]. cbv zeta in Hfin. done.
    + cbn [negb orb del_found del_underflow del_st]. split; [done|].
      cbv zeta in Hfin. done.
  - destruct (search_path_Internal L I HL HI h mL mI lo hi key a ks cs rs Hwf HmI)
      as (c&lo_c&hi_c&Hc&Hchild&Hpath).
    rewrite Node_Delete_Internal, Hpath.
    set (sb := match cs !! (if 1 <=? InternalNode_SearchChildIndex ks (length cs) key
                            then InternalNode_SearchChildIndex ks (length cs) key - 1
                            else InternalNode_SearchChildIndex ks (length cs) key + 1) with
               | Some sibling => [latch_ (node_addr sibling)]
               | None => []
               end).
    assert (path_siblings key (Internal a ks cs rs) = path_siblings key c ++ sb) as ->.
    { subst sb. cbn [path_siblings]. by rewrite at_child_lookup, Hc. }
    destruct (dtraffic_acquire st0 st P Sb (latch_ a) Hdt) as (Hd&Hs1&Hdt1).
    destruct (AcquireLatch (latch_ a) EXCLUSIVE st) as [depth st1].
    cbn [fst snd] in *. subst depth. cbv zeta. rewrite Hc.
    set (n0 := length (latches_ (context st0))) in *.
    assert ((Z.of_nat n0 ≤ smallest_unlk_idx_ (context st) ≤ Z.of_nat (n0 + length P))%Z)
      as Hr.
    { destruct Hdt as (?&?&?&_&_&_&Hr&_). by fold n0 in Hr. }
    set (safe := (Z.of_nat (length cs) - 1 >=? Z.of_nat (UNDERFLOW_BOUND I))%Z).
    set (st2 := if safe then ReleaseLatch (Z.of_nat (n0 + length P)) EXCLUSIVE st1 else st1).
    assert (dtraffic st0 st2 (P ++ [latch_ a]) Sb ∧
            smallest_unlk_idx_ (context st2)
            = if safe then Z.of_nat (n0 + length P)
              else smallest_unlk_idx_ (context st)) as [Hdt2 Hs2].
    { subst st2. destruct safe; [|done].
      destruct (dtraffic_release st0 st1 _ _ (Z.of_nat (n0 + length P)) Hdt1)
        as [Hs2 Hdt2]; [fold n0; rewrite length_app; simpl; lia|lia|].
      split; [done|]. lia. }
    clearbody st2.
    assert ((smallest_unlk_idx_ (context st2) ≤ Z.of_nat (n0 + length P))%Z) as Hs2le
      by (rewrite Hs2; destruct safe; lia).
    destruct (IH _ _ _ _ c st0 st2 (P ++ [latch_ a]) Sb (minI_pos L I HL HI) Hchild Hdt2)
      as (Hnf&Hdt3&Hs3).
    { fold n0. rewrite length_app. simpl. lia. }
    pose proof (search_path_length L I HL HI key h _ _ _ _ c (minI_pos L I HL HI) Hchild)
      as Hplen.
    set (r := Node_Delete L I key c st2) in *. clearbody r.
    fold n0 in Hs3. rewrite length_app, Hplen in Hs3. simpl in Hs3.
    rewrite fmap_cons. cbn [length]. rewrite Hplen.
    replace (P ++ latch_ a :: (latch_ <$> search_path key c))
      with ((P ++ [latch_ a]) ++ (latch_ <$> search_path key c))
      by (by rewrite <- (assoc_L (++))).
    set (Q := (P ++ [latch_ a]) ++ (latch_ <$> search_path key c)) in *.
    assert (length Q = length P + 1 + S h) as HQ.
    { subst Q. rewrite !length_app, length_fmap, Hplen. simpl. lia. }
    (* the branches that release everything from this node down *)
    assert (∀ st4, dtraffic st0 st4 Q (Sb ++ path_siblings key c) →
                   dtraffic st0 st4 Q (Sb ++ path_siblings key c ++ sb)) as Hmono.
    { intros st4. apply dtraffic_mono. rewrite (assoc_L (++)).
      by apply submseteq_inserts_r. }
    assert (∀ Sb' st4, dtraffic st0 st4 Q Sb' →
              smallest_unlk_idx_ (context st4) = smallest_unlk_idx_ (context st2) →
              let st5 := ReleaseLatchFromParent (Z.of_nat (n0 + length P)) EXCLUSIVE
                           (ReleaseLatch (Z.of_nat (n0 + length P)) EXCLUSIVE st4) in
              dtraffic st0 st5 Q Sb' ∧
              smallest_unlk_idx_ (context st5) = Z.of_nat (n0 + length P + S (S h)))
      as Hall.
    { intros Sb' st4 Hdt4 Hs4 st5.
      destruct (dtraffic_release st0 st4 Q Sb' (Z.of_nat (n0 + length P)) Hdt4)
        as [Hs5 Hdt5]; [fold n0; lia|lia|].
      destruct (dtraffic_release_from_parent st0 _ Q Sb' (Z.of_nat (n0 + length P)) Hdt5)
        as [Hs6 Hdt6]; [lia|fold n0; lia|].
      split; [done|]. fold st5 in Hs6. rewrite Hs6. fold n0. lia. }
    unfold InternalNode_Delete_return.
    destruct (del_found r) eqn:Ef, (del_underflow r) eqn:Eu; cbn [negb orb].
    2,3,4: cbn [del_found del_underflow del_st].
    2,3,4: try (specialize (Hnf eq_refl); done).
    2,3: split; [done|].
    2,3: destruct (dtraffic_release st0 (del_st r) Q _ (Z.of_nat (n0 + length P) + 1) Hdt3)
           as [Hs4 Hdt4]; [fold n0; lia|lia|].
    2,3: split; [by apply Hmono|]; rewrite Hs4, Hs3; lia.
    (* the target child underflowed *)
    rewrite length_insert.
    assert (UNDERFLOW_BOUND I ≥ 2) as HUB by (unfold UNDERFLOW_BOUND; lia).
    destruct (length cs <=? 1) eqn:Esz; cbn [del_found del_underflow del_st].
    { apply Nat.leb_le in Esz. split; [done|]. split; [by apply Hmono|].
      rewrite Hs3, Hs2. subst safe.
      destruct (_ >=? _)%Z eqn:E; [|done]. apply Z.geb_le in E.
      exfalso. clear -E Esz HUB. lia. }
    apply Nat.leb_gt in Esz.
    set (t := InternalNode_SearchChildIndex ks (length cs) key) in *.
    assert (t < length cs) as Ht by (by apply lookup_lt_Some in Hc).
    set (cs1 := <[t := del_node r]> cs).
    assert (length cs1 = length cs) as Hcs1 by (subst cs1; by rewrite length_insert).
    set (bi := if 1 <=? t then t - 1 else t).
    set (si := if 1 <=? t then t - 1 else t + 1).
    assert (bi + 1 < length cs ∧ si < length cs) as [Hbi Hsi].
    { subst bi si. destruct (1 <=? t) eqn:E; [apply Nat.leb_le in E|apply Nat.leb_gt in E];
        lia. }
    destruct (lookup_lt_is_Some_2 cs1 bi) as [left_child ->]; [lia|].
    destruct (lookup_lt_is_Some_2 cs1 (bi + 1)) as [right_child ->]; [lia|].
    destruct (lookup_lt_is_Some_2 cs1 si) as [sibling Hsib]; [lia|]. rewrite Hsib.
    assert (sb = [latch_ (node_addr sibling)]) as Hsb.
    { subst cs1. rewrite list_lookup_insert_ne in Hsib.
      2: { subst si. clear. destruct (1 <=? t) eqn:E; [apply Nat.leb_le in E|]; lia. }
      subst sb si t. by rewrite Hsib. }
    destruct (Node_Balance L I left_child right_child (default 0%Z (ks !! bi)))
      as [[[merged left_child'] right_child'] boundary].
    destruct (dtraffic_sibling st0 (del_st r) Q _ (latch_ (node_addr sibling))
                (Z.of_nat (n0 + length P) + 1)
                (bool_decide (node_addr right_child = node_addr (del_node r))) Hdt3)
      as [Hs4 Hdt4]; [lia|fold n0; lia|lia|].
    cbv zeta in Hs4, Hdt4.
    set (st4 := if bool_decide _ then _ else _) in *. clearbody st4.
    rewrite Hs3 in Hs4. rewrite <- Hsb, <- (assoc_L (++)) in Hdt4.
    destruct merged; cbn [negb].
    + unfold InternalNode_DeleteIndex. rewrite !length_insert, Hcs1.
      assert ((bi + 1 <? length cs) = true) as -> by (by apply Nat.ltb_lt).
      rewrite length_delete.
      2: { apply lookup_lt_is_Some. rewrite !length_insert, Hcs1. lia. }
      rewrite !length_insert, Hcs1.
      set (st5 := free _ st4).
      assert (dtraffic st0 st5 Q (Sb ++ path_siblings key c ++ sb)) as Hdt5
        by (by apply (dtraffic_state st0 st4)).
      destruct (length cs - 1 <? UNDERFLOW_BOUND I) eqn:Eu';
        cbn [negb del_found del_underflow del_st].
      * split; [done|]. split; [done|]. subst st5. unfold free. cbn [context].
        rewrite Hs4, Hs2. apply Nat.ltb_lt in Eu'. subst safe.
        destruct (_ >=? _)%Z eqn:E; [|done]. apply Z.geb_le in E.
        exfalso. clear -E Eu'. lia.
      * split; [done|]. by apply Hall.
    + cbn [del_found del_underflow del_st]. split; [done|]. by apply Hall.
Qed.

End DeleteTraffic.

(** X21. Latch traffic of [Delete] on a tree that a workload built with
    LeafCapacity >= 2 and InternalCapacity >= 3, started with a cleared
    context, whether the key is found or not and whatever rebalancing it
    causes: the tree latch and the nodes on the way from the root to the
    leaf are locked, each once; besides them only latches of rebalancing
    siblings are locked, that is, for an internal node of the path, the
    latch of the left neighbour of the path's child (the right neighbour
    when that child is the first), each at most once; every latch that
    was locked is unlocked, as often as it was locked; all calls are in
    exclusive mode; and when the key was found the context is cleared. *)
Theorem Delete_traffic_balanced (L I : nat) (ops : list Op) (key : Z) (st : State) :
  2 ≤ L → 3 ≤ I →
  let tree := (run L I ops).1 in
  context st = mkContext 0 [] →
  (Z.of_nat (height (root_ tree)) + 3 < 32768)%Z →
  let res := MemoryBTree_Delete L I key tree st in
  ∃ new sibl,
    mutex_log res.2 = mutex_log st ++ new ∧
    omap locked new ≡ₚ (tree_latch_ :: (latch_ <$> search_path key (root_ tree))) ++ sibl ∧
    sibl ⊆+ path_siblings key (root_ tree) ∧
    omap unlocked new ≡ₚ omap locked new ∧
    Forall exclusive_call new ∧
    (res.1.1 = true → context res.2 = mkContext 0 []).
Proof.
  intros HL HI tree Hctx Hlt res. subst res.
  destruct (run_inv L I HL HI ops) as [([h Hwf]&_) _]. fold tree in Hwf.
  pose proof (minI_pos L I HL HI).
  rewrite (wf_height L I h 0 2 None None _) in Hlt by (done || lia).
  assert (dtraffic st st [] []) as Hdt by (apply dtraffic_refl; by rewrite Hctx).
  unfold MemoryBTree_Delete.
  destruct (dtraffic_acquire st st [] [] tree_latch_ Hdt) as (_&Hs1&Hdt1).
  destruct (AcquireLatch tree_latch_ EXCLUSIVE st) as [d st1]. cbn [fst snd] in *.
  destruct (Node_Delete_traffic L I HL HI key h 0 2 None None (root_ tree) st st1
              ([] ++ [tree_latch_]) [] ltac:(lia) Hwf Hdt1) as (Hnf&Hdt2&Hs2).
  { rewrite Hctx. simpl. lia. }
  pose proof (search_path_length L I HL HI key h 0 2 None None (root_ tree)
                ltac:(lia) Hwf) as Hlen.
  set (r := Node_Delete L I key (root_ tree) st1) in *. clearbody r.
  rewrite Hctx in Hs1, Hs2. cbn [app length smallest_unlk_idx_ latches_] in *.
  set (Q := tree_latch_ :: (latch_ <$> search_path key (root_ tree))) in *.
  assert (length Q = S (S h)) as HQ by (subst Q; simpl; by rewrite length_fmap, Hlen).
  (* once everything was given back, the traffic is balanced *)
  assert (∀ (b : bool) st2, dtraffic st st2 Q (path_siblings key (root_ tree)) →
            smallest_unlk_idx_ (context st2) = Z.of_nat (length Q) →
            ∃ new sibl,
              mutex_log st2 = mutex_log st ++ new ∧
              omap locked new ≡ₚ Q ++ sibl ∧
              sibl ⊆+ path_siblings key (root_ tree) ∧
              omap unlocked new ≡ₚ omap locked new ∧
              Forall exclusive_call new) as Hfin.
  { intros _ st2 (A&new&sibl&Hsb&_&HlenA&_&Hlog&Hlk&Hbal&Hex) Hs. exists new, sibl.
    rewrite Hctx, Hs in Hbal. cbn [latches_ length] in Hbal.
    rewrite drop_ge, app_nil_r in Hbal by lia. done. }
  destruct (del_found r) eqn:Ef; cbn [negb].
  - assert (∃ root st2,
              (match del_node r with
               | Internal a ks [only_child] rs =>
                 (only_child,
                  free (delete_node (ClearChildArray (Internal a ks [only_child] rs)))
                       (del_st r))
               | root => (root, del_st r)
               end) = (root, st2) ∧
              context st2 = context (del_st r) ∧ mutex_log st2 = mutex_log (del_st r))
      as (root&st2&->&Hc2&Hl2).
    { destruct (del_node r) as [l|a ks [|c [|c' cs']] rs]; eauto. }
    assert (dtraffic st st2 Q (path_siblings key (root_ tree))) as Hdt3
      by (by apply (dtraffic_state st (del_st r))).
    cbn [fst snd].
    destruct (del_underflow r) eqn:Eu.
    + destruct (dtraffic_release_from_parent st st2 Q _ 0%Z Hdt3) as [Hs4 Hdt4].
      { by rewrite Hc2, Hs2, Hs1. }
      { rewrite Hctx. cbn [latches_ length Nat.add]. rewrite HQ. lia. }
      destruct (Hfin true _ Hdt4) as (new&sibl&Hlog&Hlk&Hsb&Hbal&Hex).
      { rewrite Hs4, Hctx. done. }
      exists new, sibl. done.
    + destruct (Hfin true _ Hdt3) as (new&sibl&Hlog&Hlk&Hsb&Hbal&Hex).
      { rewrite Hc2, Hs2, HQ, Hlen. f_equal; lia. }
      exists new, sibl. done.
  - specialize (Hnf eq_refl). rewrite Hnf in Hs2. cbn [fst snd].
    destruct (Hfin false _ Hdt2) as (new&sibl&Hlog&Hlk&Hsb&Hbal&Hex).
    { rewrite Hs2, HQ, Hlen. f_equal; lia. }
    exists new, sibl. done.
Qed.

Lemma Delete_traffic_balanced_witness :
  let tree := (run 4 4 (inserts [1; 2; 3; 4; 5; 6; 7; 8; 9; 10]%Z)).1 in
  let res := MemoryBTree_Delete 4 4 1%Z tree st0 in
  ∃ new sibl,
    mutex_log res.2 = mutex_log st0 ++ new ∧
    omap locked new ≡ₚ (tree_latch_ :: (latch_ <$> search_path 1%Z (root_ tree))) ++ sibl ∧
    sibl ⊆+ path_siblings 1%Z (root_ tree) ∧
    omap unlocked new ≡ₚ omap locked new ∧
    Forall exclusive_call new ∧
    (res.1.1 = true → context res.2 = mkContext 0 []).
Proof.
  apply (Delete_traffic_balanced 4 4 (inserts [1; 2; 3; 4; 5; 6; 7; 8; 9; 10]%Z)
           1%Z st0); [lia|lia|done|by vm_compute].
Defined.
